(** * pocketfft: the transform engine of [pocketfft.cc]

    A shallow embedding of the plan constructors and transform drivers of
    [pocketfft.cc] (size helpers, [cfftp], [rfftp], [fftblue], [pocketfft_c],
    [pocketfft_r]), of the drivers over the axes of an array ([multiarr],
    [multi_iter], [pocketfft_general_c], [pocketfft_general_r2c],
    [pocketfft_general_c2r], [pocketfft_general_hartley]) and of the
    constructor of the table of roots of unity ([sincos_2pibyn]), and the
    properties proved about them.

    Conventions of the embedding.
    - [size_t] values are integers of [Z]; the operations that can leave the
      64-bit range in the source ([2*n], [n*2-1], [f*=p]) are written with
      [wrap].  Array indices inside the butterflies are [nat].
    - [double] values (cost estimates, literal constants) are binary64
      primitive floats.  The idiom [size_t(sqrt(x))] on a [size_t] [x] is the
      integer square root [Z.sqrt]: the root of a 64-bit integer, correctly
      rounded, truncates to the integer root, and adding [0.01] to an integer
      never reaches the next perfect square.
    - The element type [T0] of the templates is a type with a [Scalar]
      structure; the data type [T] of the source (a scalar or a SIMD vector of
      [T0]) is taken to be [T0].
    - The plans take the trigonometric table [sincos_2pibyn] as a parameter.
      The constructor that fills it is embedded on its own in [twiddle], over
      the polynomial kernel [my_sincosm1pi], which is computed with fused
      multiply-adds and stays a parameter.
    - The arrays of the drivers over several axes are memories, functions from
      an offset to an element; an input and an output behind the same pointer
      are one memory.
    - A [while]/[for] loop over integers is [while_] with a fuel; running out
      of fuel is the outcome [Stuck], never a value.  A read or write outside
      a data buffer is undefined in the source; [rd] then reads the default
      and [upd] drops the write.  Reads of the root-of-unity tables are
      checked: outside the table they are [Stuck]. *)

From Stdlib Require Import ZArith List Lia Bool Floats Znumtheory String Permutation Arith Sorted.
Import ListNotations.

Set Warnings "-inexact-float".
Open Scope nat_scope.

(** ** Outcomes: a value, a C++ exception, or a run the model cannot follow *)

Inductive result (A : Type) : Type :=
| Ok (a : A)
| Throw (what : string)
| Stuck (why : string).
Arguments Ok {A} a.
Arguments Throw {A} what.
Arguments Stuck {A} why.

Definition bind {A B : Type} (m : result A) (k : A -> result B) : result B :=
  match m with
  | Ok a => k a
  | Throw w => Throw w
  | Stuck w => Stuck w
  end.

Definition rmap {A B : Type} (f : A -> B) (m : result A) : result B :=
  bind m (fun a => Ok (f a)).

Notation "x <- m ;; k" := (bind m (fun x => k))
  (at level 61, m at next level, right associativity).
Notation "' p <- m ;; k" := (bind m (fun x => let 'p := x in k))
  (at level 61, p pattern, m at next level, right associativity).

(** [while (cond) body] on a state [S]. *)
Fixpoint while_ {S : Type} (fuel : nat) (cond : S -> bool)
  (body : S -> result S) (s : S) : result S :=
  if cond s then
    match fuel with
    | O => Stuck "fuel"
    | Datatypes.S fuel' => bind (body s) (while_ fuel' cond body)
    end
  else Ok s.

(** [for (i=lo; i<hi; ++i) body] and [for (i=lo; i<hi; i+=2) body]. *)
Definition for_ {S : Type} (lo hi : nat) (body : nat -> S -> S) (s : S) : S :=
  fold_left (fun acc i => body i acc) (seq lo (hi - lo)) s.

Definition for2_ {S : Type} (lo hi : nat) (body : nat -> S -> S) (s : S) : S :=
  fold_left (fun acc i => body i acc)
    (map (fun t => lo + 2 * t) (seq 0 ((hi - lo + 1) / 2))) s.

Definition forM {S : Type} (lo hi : nat) (body : nat -> S -> result S) (s : S)
  : result S :=
  fold_left (fun acc i => bind acc (body i)) (seq lo (hi - lo)) (Ok s).

(** Buffers. *)
Definition rd {A : Type} (d : A) (l : list A) (n : nat) : A := nth n l d.

Fixpoint upd {A : Type} (l : list A) (n : nat) (v : A) : list A :=
  match l, n with
  | [], _ => []
  | _ :: t, O => v :: t
  | h :: t, Datatypes.S n' => h :: upd t n' v
  end.

Definition rdT {A : Type} (l : list A) (n : nat) : result A :=
  match nth_error l n with
  | Some v => Ok v
  | None => Stuck "root table index out of bounds"
  end.

(** ** Machine integers and doubles *)

Definition size_t_bits : Z := 64.
Definition wrap (x : Z) : Z := x mod 2 ^ size_t_bits.

(** Conversion [size_t -> double] (round to nearest even). *)
Definition float_of_Z (z : Z) : float :=
  SF2Prim (binary_normalize prec emax z 0 false).

(** Conversion [double -> integer] (truncation), for integer-valued scalars. *)
Definition Z_of_float (f : float) : Z :=
  match Prim2SF f with
  | S754_finite s m e =>
      let v := if (0 <=? e)%Z then (Zpos m * 2 ^ e)%Z else (Zpos m / 2 ^ (- e))%Z in
      if s then (- v)%Z else v
  | _ => 0%Z
  end.

(** ** Size helpers *)

Module helpers.
Local Open Scope Z_scope.

(** [size_t(sqrt(n+0.01))] and [(size_t)sqrt((double)n)]. *)
Definition isqrt (n : Z) : Z := Z.sqrt n.

Definition largest_prime_factor (n : Z) : result Z :=
  '(res, n) <- while_ 64 (fun '(res, n) => Z.land n 1 =? 0)
                 (fun '(res, n) => Ok (2, Z.shiftr n 1)) (1, n) ;;
  let limit := isqrt n in
  '(x, res, n, limit) <-
     while_ (Z.to_nat limit) (fun '(x, res, n, limit) => x <=? limit)
       (fun '(x, res, n, limit) =>
          '(res, n, limit) <-
             while_ 64 (fun '(res, n, limit) => (n / x) * x =? n)
               (fun '(res, n, limit) => Ok (x, n / x, isqrt (n / x)))
               (res, n, limit) ;;
          Ok (x + 2, res, n, limit))
       (3, res, n, limit) ;;
  Ok (if 1 <? n then n else res).

Definition lfp : float := 1.1%float.

Definition cost_guess (n : Z) : result float :=
  let ni := n in
  '(result, n) <- while_ 64 (fun '(result, n) => Z.land n 1 =? 0)
                    (fun '(result, n) => Ok ((result + 2)%float, Z.shiftr n 1))
                    (0%float, n) ;;
  let limit := isqrt n in
  '(x, result, n, limit) <-
     while_ (Z.to_nat limit) (fun '(x, result, n, limit) => x <=? limit)
       (fun '(x, result, n, limit) =>
          '(result, n, limit) <-
             while_ 64 (fun '(result, n, limit) => (n / x) * x =? n)
               (fun '(result, n, limit) =>
                  Ok ((result + (if (x <=? 5)%Z then float_of_Z x
                                 else lfp * float_of_Z x))%float,
                      n / x, isqrt (n / x)))
               (result, n, limit) ;;
          Ok (x + 2, result, n, limit))
       (3, result, n, limit) ;;
  let result := if 1 <? n
                then (result + (if (n <=? 5)%Z then float_of_Z n
                                else lfp * float_of_Z n))%float
                else result in
  Ok (result * float_of_Z ni)%float.

(** [for (f=f0; f<bestfac; f*=p) bestfac = body(f, bestfac)] *)
Definition for_mul (p f0 bestfac : Z) (body : Z -> Z -> result Z) : result Z :=
  '(_, bestfac) <-
     while_ 64 (fun '(f, bestfac) => f <? bestfac)
       (fun '(f, bestfac) =>
          bestfac' <- body f bestfac ;; Ok (wrap (f * p), bestfac'))
       (f0, bestfac) ;;
  Ok bestfac.

(* returns the smallest composite of 2, 3, 5, 7 and 11 which is >= n *)
Definition good_size (n : Z) : result Z :=
  if n <=? 12 then Ok n
  else
    let bestfac := wrap (2 * n) in
    for_mul 2 1 bestfac (fun f2 bestfac =>
    for_mul 3 f2 bestfac (fun f23 bestfac =>
    for_mul 5 f23 bestfac (fun f235 bestfac =>
    for_mul 7 f235 bestfac (fun f2357 bestfac =>
    for_mul 11 f2357 bestfac (fun f235711 bestfac =>
      Ok (if n <=? f235711 then f235711 else bestfac)))))).

End helpers.

(** ** Scalars and complex numbers *)

(** The arithmetic the templates ask of [T0]; [lit] converts a [double]
    literal, [seqb] is [==]. *)
Class Scalar (T0 : Type) : Type := {
  lit : float -> T0;
  sadd : T0 -> T0 -> T0;
  ssub : T0 -> T0 -> T0;
  smul : T0 -> T0 -> T0;
  sneg : T0 -> T0;
  seqb : T0 -> T0 -> bool
}.

Notation "a +! b" := (sadd a b) (at level 50, left associativity).
Notation "a -! b" := (ssub a b) (at level 50, left associativity).
Notation "a *! b" := (smul a b) (at level 40, left associativity).

Record cmplx (T : Type) : Type := mk_cmplx { re : T; im : T }.
Arguments mk_cmplx {T} re im.
Arguments re {T} c.
Arguments im {T} c.

Section complex_numbers.
Context {T0 : Type} {ST : Scalar T0}.

Definition czero : cmplx T0 := mk_cmplx (lit 0) (lit 0).

(* operator+, operator-, operator*(scalar), operator*(cmplx) *)
Definition cadd (a b : cmplx T0) : cmplx T0 :=
  mk_cmplx (re a +! re b) (im a +! im b).
Definition csub (a b : cmplx T0) : cmplx T0 :=
  mk_cmplx (re a -! re b) (im a -! im b).
Definition cscale (a : cmplx T0) (other : T0) : cmplx T0 :=
  mk_cmplx (re a *! other) (im a *! other).
Definition cmul (a b : cmplx T0) : cmplx T0 :=
  mk_cmplx (re a *! re b -! im a *! im b) (re a *! im b +! im a *! re b).

Definition special_mul (bwd : bool) (a other : cmplx T0) : cmplx T0 :=
  if bwd
  then mk_cmplx (re a *! re other -! im a *! im other)
                (re a *! im other +! im a *! re other)
  else mk_cmplx (re a *! re other +! im a *! im other)
                (im a *! re other -! re a *! im other).

Definition conj (a : cmplx T0) : cmplx T0 := mk_cmplx (re a) (sneg (im a)).

(* { auto tmp_=a.r; a.r=-a.i; a.i=tmp_; } *)
Definition ROT90 (a : cmplx T0) : cmplx T0 := mk_cmplx (sneg (im a)) (re a).
(* { auto tmp_=-a.r; a.r=a.i; a.i=tmp_; } *)
Definition ROTM90 (a : cmplx T0) : cmplx T0 := mk_cmplx (im a) (sneg (re a)).

Definition rdc (l : list (cmplx T0)) (n : nat) : cmplx T0 := rd czero l n.

(* PMC(a,b,c,d) { a = c+d; b = c-d; } with a and b two cells of [ch] *)
Definition PMCw (ch : list (cmplx T0)) (ia ib : nat) (c d : cmplx T0)
  : list (cmplx T0) :=
  upd (upd ch ia (cadd c d)) ib (csub c d).

(* a.r = v and a.i = v on a cell of a buffer *)
Definition upd_re (l : list (cmplx T0)) (n : nat) (v : T0) : list (cmplx T0) :=
  upd l n (mk_cmplx v (im (rdc l n))).
Definition upd_im (l : list (cmplx T0)) (n : nat) (v : T0) : list (cmplx T0) :=
  upd l n (mk_cmplx (re (rdc l n)) v).

(* the signed macro arguments [+tw] and [-tw]: [x +tw*y] or [x -tw*y] *)
Definition pm (plus : bool) (x y : T0) : T0 := if plus then x +! y else x -! y.

(* (bwd ? 1. : -1.) * c, evaluated in double *)
Definition dsign (bwd : bool) (c : float) : float :=
  ((if bwd then 1 else -1) * c)%float.

End complex_numbers.

(** The wrap of a root index after [iwal+=l]: the source's test [iwal>ip],
    and the test [iwal>=ip] of [radfg]. *)
Definition wrap_gt (iwal ip : nat) : nat := if ip <? iwal then iwal - ip else iwal.
Definition wrap_ge (iwal ip : nat) : nat := if ip <=? iwal then iwal - ip else iwal.

Definition NFCT : nat := 25.

(** [swap(fct[a], fct[b])] *)
Definition swap {A : Type} (d : A) (l : list A) (a b : nat) : list A :=
  upd (upd l a (rd d l b)) b (rd d l a).

(** ** Complex FFTPACK transforms: [class cfftp] *)

Module cfftp.
Section defs.
Context {T0 : Type} {ST : Scalar T0}.
Variable sincos_2pibyn : Z -> bool -> nat -> T0.

Abbreviation C := (cmplx T0).

Record fctdata : Type := mk_fctdata { fct : Z; tw : list C; tws : list C }.

(** [length], and [fct[0..nfct)]. *)
Record plan : Type := mk_plan { length : Z; fct_arr : list fctdata }.

Definition nfct (P : plan) : nat := List.length (fct_arr P).

Definition add_factor (factor : Z) (fcts : list Z) : result (list Z) :=
  if NFCT <=? List.length fcts then Throw "too many prime factors"
  else Ok (fcts ++ [factor]).

(* CH(a,b,c) ch[(a)+ido*((b)+l1*(c))]: the index;
   CC(a,b,c) cc[(a)+ido*((b)+cdim*(c))] and WA(x,i) wa[(i)-1+(x)*(ido-1)]: the value read *)
Definition CH_ (ido l1 a b c : nat) : nat := a + ido * (b + l1 * c).
Definition CC_ (cc : list C) (ido cdim a b c : nat) : C :=
  rdc cc (a + ido * (b + cdim * c)).
Definition WA_ (wa : list C) (ido x i : nat) : C :=
  rdc wa (i - 1 + x * (ido - 1)).

Definition pass2 (bwd : bool) (ido l1 : nat) (cc ch wa : list C) : list C :=
  let cdim := 2 in
  let CH := CH_ ido l1 in
  let CC := CC_ cc ido cdim in
  let WA := WA_ wa ido in
  if ido =? 1 then
    for_ 0 l1 (fun k ch =>
      let ch := upd ch (CH 0 k 0) (cadd (CC 0 0 k) (CC 0 1 k)) in
      upd ch (CH 0 k 1) (csub (CC 0 0 k) (CC 0 1 k))) ch
  else
    for_ 0 l1 (fun k ch =>
      let ch := upd ch (CH 0 k 0) (cadd (CC 0 0 k) (CC 0 1 k)) in
      let ch := upd ch (CH 0 k 1) (csub (CC 0 0 k) (CC 0 1 k)) in
      for_ 1 ido (fun i ch =>
        let ch := upd ch (CH i k 0) (cadd (CC i 0 k) (CC i 1 k)) in
        upd ch (CH i k 1)
          (special_mul bwd (csub (CC i 0 k) (CC i 1 k)) (WA 0 i))) ch) ch.

(* PMC(out1,out2,ca,cb) on two cells of [ch], as in PARTSTEP3a .. PARTSTEP11a *)
Definition PARTSTEPa (ch : list C) (i1 i2 : nat) (cacb : C * C) : list C :=
  PMCw ch i1 i2 (fst cacb) (snd cacb).

(* PMC(da,db,ca,cb) and the two twiddled stores of PARTSTEP3b .. PARTSTEP11 *)
Definition PARTSTEPb (bwd : bool) (ch : list C) (i1 i2 : nat) (w1 w2 : C)
  (cacb : C * C) : list C :=
  let da := cadd (fst cacb) (snd cacb) in
  let db := csub (fst cacb) (snd cacb) in
  upd (upd ch i1 (special_mul bwd da w1)) i2 (special_mul bwd db w2).

(* ca=t0+t1*twr; cb=t2*twi; ROT90(cb) *)
Definition cacb3 (twr twi : T0) (t0 t1 t2 : C) : C * C :=
  (cadd t0 (cscale t1 twr), ROT90 (cscale t2 twi)).

Definition pass3 (bwd : bool) (ido l1 : nat) (cc ch wa : list C) : list C :=
  let cdim := 3 in
  let tw1r := lit (-0.5) in
  let tw1i := lit (dsign bwd 0.86602540378443864676) in
  let CH := CH_ ido l1 in
  let CC := CC_ cc ido cdim in
  let WA := WA_ wa ido in
  (* PREP3(idx), then PARTSTEP3a at idx=0 and PARTSTEP3b at idx=i>0 *)
  let step (idx k : nat) (ch : list C) : list C :=
    let t0 := CC idx 0 k in
    let t1 := cadd (CC idx 1 k) (CC idx 2 k) in
    let t2 := csub (CC idx 1 k) (CC idx 2 k) in
    let ch := upd ch (CH idx k 0) (cadd t0 t1) in
    if idx =? 0
    then PARTSTEPa ch (CH 0 k 1) (CH 0 k 2) (cacb3 tw1r tw1i t0 t1 t2)
    else PARTSTEPb bwd ch (CH idx k 1) (CH idx k 2) (WA 0 idx) (WA 1 idx)
           (cacb3 tw1r tw1i t0 t1 t2) in
  if ido =? 1 then
    for_ 0 l1 (fun k ch => step 0 k ch) ch
  else
    for_ 0 l1 (fun k ch =>
      let ch := step 0 k ch in
      for_ 1 ido (fun i ch => step i k ch) ch) ch.

Definition pass4 (bwd : bool) (ido l1 : nat) (cc ch wa : list C) : list C :=
  let cdim := 4 in
  let CH := CH_ ido l1 in
  let CC := CC_ cc ido cdim in
  let WA := WA_ wa ido in
  let first (k : nat) (ch : list C) : list C :=
    let t2 := cadd (CC 0 0 k) (CC 0 2 k) in
    let t1 := csub (CC 0 0 k) (CC 0 2 k) in
    let t3 := cadd (CC 0 1 k) (CC 0 3 k) in
    let t4 := csub (CC 0 1 k) (CC 0 3 k) in
    let t4 := if bwd then ROT90 t4 else ROTM90 t4 in
    let ch := PMCw ch (CH 0 k 0) (CH 0 k 2) t2 t3 in
    PMCw ch (CH 0 k 1) (CH 0 k 3) t1 t4 in
  if ido =? 1 then
    for_ 0 l1 first ch
  else
    for_ 0 l1 (fun k ch =>
      let ch := first k ch in
      for_ 1 ido (fun i ch =>
        let cc0 := CC i 0 k in
        let cc1 := CC i 1 k in
        let cc2 := CC i 2 k in
        let cc3 := CC i 3 k in
        let t2 := cadd cc0 cc2 in
        let t1 := csub cc0 cc2 in
        let t3 := cadd cc1 cc3 in
        let t4 := csub cc1 cc3 in
        let t4 := if bwd then ROT90 t4 else ROTM90 t4 in
        let wa0 := WA 0 i in
        let wa1 := WA 1 i in
        let wa2 := WA 2 i in
        let ch := upd ch (CH i k 0) (cadd t2 t3) in
        let c3 := csub t2 t3 in
        let c2 := cadd t1 t4 in
        let c4 := csub t1 t4 in
        let ch := upd ch (CH i k 1) (special_mul bwd c2 wa0) in
        let ch := upd ch (CH i k 2) (special_mul bwd c3 wa1) in
        upd ch (CH i k 3) (special_mul bwd c4 wa2)) ch) ch.

(* the signed macro arguments: (true, tw) is [+tw], (false, tw) is [-tw] *)
Definition cacb5 (twar twbr twai : T0) (twbi : bool * T0) (t0 t1 t2 t3 t4 : C)
  : C * C :=
  let ca := mk_cmplx (re t0 +! twar *! re t1 +! twbr *! re t2)
                     (im t0 +! twar *! im t1 +! twbr *! im t2) in
  let cbi := pm (fst twbi) (twai *! re t4) (snd twbi *! re t3) in
  let cbr := sneg (pm (fst twbi) (twai *! im t4) (snd twbi *! im t3)) in
  (ca, mk_cmplx cbr cbi).

Definition pass5 (bwd : bool) (ido l1 : nat) (cc ch wa : list C) : list C :=
  let cdim := 5 in
  let tw1r := lit 0.3090169943749474241 in
  let tw1i := lit (dsign bwd 0.95105651629515357212) in
  let tw2r := lit (-0.8090169943749474241) in
  let tw2i := lit (dsign bwd 0.58778525229247312917) in
  let CH := CH_ ido l1 in
  let CC := CC_ cc ido cdim in
  let WA := WA_ wa ido in
  (* PREP5(idx), then PARTSTEP5a at idx=0 and PARTSTEP5b at idx=i>0 *)
  let step (idx k : nat) (ch : list C) : list C :=
    let t0 := CC idx 0 k in
    let t1 := cadd (CC idx 1 k) (CC idx 4 k) in
    let t4 := csub (CC idx 1 k) (CC idx 4 k) in
    let t2 := cadd (CC idx 2 k) (CC idx 3 k) in
    let t3 := csub (CC idx 2 k) (CC idx 3 k) in
    let ch := upd_re ch (CH idx k 0) (re t0 +! re t1 +! re t2) in
    let ch := upd_im ch (CH idx k 0) (im t0 +! im t1 +! im t2) in
    let PARTSTEP5 (u1 u2 : nat) (twar twbr twai : T0) (twbi : bool * T0)
          (ch : list C) : list C :=
      if idx =? 0
      then PARTSTEPa ch (CH 0 k u1) (CH 0 k u2)
             (cacb5 twar twbr twai twbi t0 t1 t2 t3 t4)
      else PARTSTEPb bwd ch (CH idx k u1) (CH idx k u2)
             (WA (u1 - 1) idx) (WA (u2 - 1) idx)
             (cacb5 twar twbr twai twbi t0 t1 t2 t3 t4) in
    let ch := PARTSTEP5 1 4 tw1r tw2r tw1i (true, tw2i) ch in
    PARTSTEP5 2 3 tw2r tw1r tw2i (false, tw1i) ch in
  if ido =? 1 then
    for_ 0 l1 (fun k ch => step 0 k ch) ch
  else
    for_ 0 l1 (fun k ch =>
      let ch := step 0 k ch in
      for_ 1 ido (fun i ch => step i k ch) ch) ch.

Definition cacb7 (x1 x2 x3 y1 : T0) (y2 y3 : bool * T0)
  (t1 t2 t3 t4 t5 t6 t7 : C) : C * C :=
  let ca := mk_cmplx (re t1 +! x1 *! re t2 +! x2 *! re t3 +! x3 *! re t4)
                     (im t1 +! x1 *! im t2 +! x2 *! im t3 +! x3 *! im t4) in
  let cbi := pm (fst y3) (pm (fst y2) (y1 *! re t7) (snd y2 *! re t6))
                         (snd y3 *! re t5) in
  let cbr := sneg (pm (fst y3) (pm (fst y2) (y1 *! im t7) (snd y2 *! im t6))
                               (snd y3 *! im t5)) in
  (ca, mk_cmplx cbr cbi).

Definition pass7 (bwd : bool) (ido l1 : nat) (cc ch wa : list C) : list C :=
  let cdim := 7 in
  let tw1r := lit 0.623489801858733530525 in
  let tw1i := lit (dsign bwd 0.7818314824680298087084) in
  let tw2r := lit (-0.222520933956314404289) in
  let tw2i := lit (dsign bwd 0.9749279121818236070181) in
  let tw3r := lit (-0.9009688679024191262361) in
  let tw3i := lit (dsign bwd 0.4338837391175581204758) in
  let CH := CH_ ido l1 in
  let CC := CC_ cc ido cdim in
  let WA := WA_ wa ido in
  (* PREP7(idx), then PARTSTEP7a at idx=0 and PARTSTEP7 at idx=i>0 *)
  let step (idx k : nat) (ch : list C) : list C :=
    let t1 := CC idx 0 k in
    let t2 := cadd (CC idx 1 k) (CC idx 6 k) in
    let t7 := csub (CC idx 1 k) (CC idx 6 k) in
    let t3 := cadd (CC idx 2 k) (CC idx 5 k) in
    let t6 := csub (CC idx 2 k) (CC idx 5 k) in
    let t4 := cadd (CC idx 3 k) (CC idx 4 k) in
    let t5 := csub (CC idx 3 k) (CC idx 4 k) in
    let ch := upd_re ch (CH idx k 0) (re t1 +! re t2 +! re t3 +! re t4) in
    let ch := upd_im ch (CH idx k 0) (im t1 +! im t2 +! im t3 +! im t4) in
    let PARTSTEP7 (u1 u2 : nat) (x1 x2 x3 y1 : T0) (y2 y3 : bool * T0)
          (ch : list C) : list C :=
      if idx =? 0
      then PARTSTEPa ch (CH 0 k u1) (CH 0 k u2)
             (cacb7 x1 x2 x3 y1 y2 y3 t1 t2 t3 t4 t5 t6 t7)
      else PARTSTEPb bwd ch (CH idx k u1) (CH idx k u2)
             (WA (u1 - 1) idx) (WA (u2 - 1) idx)
             (cacb7 x1 x2 x3 y1 y2 y3 t1 t2 t3 t4 t5 t6 t7) in
    let ch := PARTSTEP7 1 6 tw1r tw2r tw3r tw1i (true, tw2i) (true, tw3i) ch in
    let ch := PARTSTEP7 2 5 tw2r tw3r tw1r tw2i (false, tw3i) (false, tw1i) ch in
    PARTSTEP7 3 4 tw3r tw1r tw2r tw3i (false, tw1i) (true, tw2i) ch in
  if ido =? 1 then
    for_ 0 l1 (fun k ch => step 0 k ch) ch
  else
    for_ 0 l1 (fun k ch =>
      let ch := step 0 k ch in
      for_ 1 ido (fun i ch => step i k ch) ch) ch.

Definition cacb11 (x1 x2 x3 x4 x5 y1 : T0) (y2 y3 y4 y5 : bool * T0)
  (t1 t2 t3 t4 t5 t6 t7 t8 t9 t10 t11 : C) : C * C :=
  let ca := cadd (cadd (cadd (cadd (cadd t1 (cscale t2 x1)) (cscale t3 x2))
                             (cscale t4 x3)) (cscale t5 x4)) (cscale t6 x5) in
  let cbi := pm (fst y5) (pm (fst y4) (pm (fst y3)
               (pm (fst y2) (y1 *! re t11) (snd y2 *! re t10))
               (snd y3 *! re t9)) (snd y4 *! re t8)) (snd y5 *! re t7) in
  let cbr := sneg (pm (fst y5) (pm (fst y4) (pm (fst y3)
               (pm (fst y2) (y1 *! im t11) (snd y2 *! im t10))
               (snd y3 *! im t9)) (snd y4 *! im t8)) (snd y5 *! im t7)) in
  (ca, mk_cmplx cbr cbi).

Definition pass11 (bwd : bool) (ido l1 : nat) (cc ch wa : list C) : list C :=
  let cdim := 11 in
  let tw1r := lit 0.8412535328311811688618 in
  let tw1i := lit (dsign bwd 0.5406408174555975821076) in
  let tw2r := lit 0.4154150130018864255293 in
  let tw2i := lit (dsign bwd 0.9096319953545183714117) in
  let tw3r := lit (-0.1423148382732851404438) in
  let tw3i := lit (dsign bwd 0.9898214418809327323761) in
  let tw4r := lit (-0.6548607339452850640569) in
  let tw4i := lit (dsign bwd 0.755749574354258283774) in
  let tw5r := lit (-0.9594929736144973898904) in
  let tw5i := lit (dsign bwd 0.2817325568414296977114) in
  let CH := CH_ ido l1 in
  let CC := CC_ cc ido cdim in
  let WA := WA_ wa ido in
  let P := true in
  let M := false in
  (* PREP11(idx), then PARTSTEP11a at idx=0 and PARTSTEP11 at idx=i>0 *)
  let step (idx k : nat) (ch : list C) : list C :=
    let t1 := CC idx 0 k in
    let t2 := cadd (CC idx 1 k) (CC idx 10 k) in
    let t11 := csub (CC idx 1 k) (CC idx 10 k) in
    let t3 := cadd (CC idx 2 k) (CC idx 9 k) in
    let t10 := csub (CC idx 2 k) (CC idx 9 k) in
    let t4 := cadd (CC idx 3 k) (CC idx 8 k) in
    let t9 := csub (CC idx 3 k) (CC idx 8 k) in
    let t5 := cadd (CC idx 4 k) (CC idx 7 k) in
    let t8 := csub (CC idx 4 k) (CC idx 7 k) in
    let t6 := cadd (CC idx 5 k) (CC idx 6 k) in
    let t7 := csub (CC idx 5 k) (CC idx 6 k) in
    let ch := upd_re ch (CH idx k 0)
                (re t1 +! re t2 +! re t3 +! re t4 +! re t5 +! re t6) in
    let ch := upd_im ch (CH idx k 0)
                (im t1 +! im t2 +! im t3 +! im t4 +! im t5 +! im t6) in
    let PARTSTEP11 (u1 u2 : nat) (x1 x2 x3 x4 x5 y1 : T0)
          (y2 y3 y4 y5 : bool * T0) (ch : list C) : list C :=
      if idx =? 0
      then PARTSTEPa ch (CH 0 k u1) (CH 0 k u2)
             (cacb11 x1 x2 x3 x4 x5 y1 y2 y3 y4 y5 t1 t2 t3 t4 t5 t6 t7 t8 t9 t10 t11)
      else PARTSTEPb bwd ch (CH idx k u1) (CH idx k u2)
             (WA (u1 - 1) idx) (WA (u2 - 1) idx)
             (cacb11 x1 x2 x3 x4 x5 y1 y2 y3 y4 y5 t1 t2 t3 t4 t5 t6 t7 t8 t9 t10 t11) in
    let ch := PARTSTEP11 1 10 tw1r tw2r tw3r tw4r tw5r tw1i (P, tw2i) (P, tw3i) (P, tw4i) (P, tw5i) ch in
    let ch := PARTSTEP11 2 9 tw2r tw4r tw5r tw3r tw1r tw2i (P, tw4i) (M, tw5i) (M, tw3i) (M, tw1i) ch in
    let ch := PARTSTEP11 3 8 tw3r tw5r tw2r tw1r tw4r tw3i (M, tw5i) (M, tw2i) (P, tw1i) (P, tw4i) ch in
    let ch := PARTSTEP11 4 7 tw4r tw3r tw1r tw5r tw2r tw4i (M, tw3i) (P, tw1i) (P, tw5i) (M, tw2i) ch in
    PARTSTEP11 5 6 tw5r tw1r tw4r tw2r tw3r tw5i (M, tw1i) (P, tw4i) (M, tw2i) (P, tw3i) ch in
  if ido =? 1 then
    for_ 0 l1 (fun k ch => step 0 k ch) ch
  else
    for_ 0 l1 (fun k ch =>
      let ch := step 0 k ch in
      for_ 1 ido (fun i ch => step i k ch) ch) ch.

(** [passg], with the wrap test of the root index as a parameter.  The
    counters [jc] and [lc] of the source run down from [ip-1] in step with
    [j] and [l]; where they only mirror the counter they are [ip - j]. *)
Definition passg_with (wrapi : nat -> nat -> nat) (bwd : bool)
  (ido ip l1 : nat) (cc ch wa csarr : list C) : result (list C * list C) :=
  let cdim := ip in
  let ipph := (ip + 1) / 2 in
  let idl1 := ido * l1 in
  let CH a b c := a + ido * (b + l1 * c) in
  let CC a b c := a + ido * (b + cdim * c) in
  let CX a b c := a + ido * (b + l1 * c) in
  let CX2 a b := a + idl1 * b in
  wal <- forM 1 ip (fun i wal =>
           w <- rdT csarr i ;;
           Ok (upd wal i (mk_cmplx (re w) (if bwd then im w else sneg (im w)))))
         (upd (repeat czero ip) 0 (mk_cmplx (lit 1) (lit 0))) ;;
  let ch := for_ 0 l1 (fun k ch =>
              for_ 0 ido (fun i ch => upd ch (CH i k 0) (rdc cc (CC i 0 k))) ch) ch in
  let ch := for_ 1 ipph (fun j ch =>
              let jc := ip - j in
              for_ 0 l1 (fun k ch =>
                for_ 0 ido (fun i ch =>
                  PMCw ch (CH i k j) (CH i k jc)
                       (rdc cc (CC i j k)) (rdc cc (CC i jc k))) ch) ch) ch in
  let cc := for_ 0 l1 (fun k cc =>
              for_ 0 ido (fun i cc =>
                let tmp := for_ 1 ipph (fun j tmp => cadd tmp (rdc ch (CH i k j)))
                             (rdc ch (CH i k 0)) in
                upd cc (CX i k 0) tmp) cc) cc in
  let CH2 a b := rdc ch (a + idl1 * b) in
  cc <- forM 1 ipph (fun l cc =>
    let lc := ip - l in
    (* j=0 *)
    cc <- forM 0 idl1 (fun ik cc =>
            wl <- rdT wal l ;;
            w2l <- rdT wal (2 * l) ;;
            let cc := upd_re cc (CX2 ik l)
                        (re (CH2 ik 0) +! re wl *! re (CH2 ik 1)
                                       +! re w2l *! re (CH2 ik 2)) in
            let cc := upd_im cc (CX2 ik l)
                        (im (CH2 ik 0) +! re wl *! im (CH2 ik 1)
                                       +! re w2l *! im (CH2 ik 2)) in
            let cc := upd_re cc (CX2 ik lc)
                        (sneg (im wl) *! im (CH2 ik (ip - 1))
                           -! im w2l *! im (CH2 ik (ip - 2))) in
            Ok (upd_im cc (CX2 ik lc)
                  (im wl *! re (CH2 ik (ip - 1))
                     +! im w2l *! re (CH2 ik (ip - 2))))) cc ;;
    let iwal := 2 * l in
    '(j, jc, iwal, cc) <-
       while_ ip (fun '(j, jc, iwal, cc) => j <? ipph - 1)
         (fun '(j, jc, iwal, cc) =>
            let iwal := wrapi (iwal + l) ip in
            xwal <- rdT wal iwal ;;
            let iwal := wrapi (iwal + l) ip in
            xwal2 <- rdT wal iwal ;;
            let cc := for_ 0 idl1 (fun ik cc =>
              let cc := upd_re cc (CX2 ik l)
                          (re (rdc cc (CX2 ik l))
                             +! (re (CH2 ik j) *! re xwal
                                   +! re (CH2 ik (j + 1)) *! re xwal2)) in
              let cc := upd_im cc (CX2 ik l)
                          (im (rdc cc (CX2 ik l))
                             +! (im (CH2 ik j) *! re xwal
                                   +! im (CH2 ik (j + 1)) *! re xwal2)) in
              let cc := upd_re cc (CX2 ik lc)
                          (re (rdc cc (CX2 ik lc))
                             -! (im (CH2 ik jc) *! im xwal
                                   +! im (CH2 ik (jc - 1)) *! im xwal2)) in
              upd_im cc (CX2 ik lc)
                (im (rdc cc (CX2 ik lc))
                   +! (re (CH2 ik jc) *! im xwal
                         +! re (CH2 ik (jc - 1)) *! im xwal2))) cc in
            Ok (j + 2, jc - 2, iwal, cc))
         (3, ip - 3, iwal, cc) ;;
    '(j, jc, iwal, cc) <-
       while_ ip (fun '(j, jc, iwal, cc) => j <? ipph)
         (fun '(j, jc, iwal, cc) =>
            let iwal := wrapi (iwal + l) ip in
            xwal <- rdT wal iwal ;;
            let cc := for_ 0 idl1 (fun ik cc =>
              let cc := upd_re cc (CX2 ik l)
                          (re (rdc cc (CX2 ik l)) +! re (CH2 ik j) *! re xwal) in
              let cc := upd_im cc (CX2 ik l)
                          (im (rdc cc (CX2 ik l)) +! im (CH2 ik j) *! re xwal) in
              let cc := upd_re cc (CX2 ik lc)
                          (re (rdc cc (CX2 ik lc)) -! im (CH2 ik jc) *! im xwal) in
              upd_im cc (CX2 ik lc)
                (im (rdc cc (CX2 ik lc)) +! re (CH2 ik jc) *! im xwal)) cc in
            Ok (j + 1, jc - 1, iwal, cc))
         (j, jc, iwal, cc) ;;
    Ok cc) cc ;;
  (* shuffling and twiddling *)
  let cc :=
    if ido =? 1 then
      for_ 1 ipph (fun j cc =>
        let jc := ip - j in
        for_ 0 idl1 (fun ik cc =>
          let t1 := rdc cc (CX2 ik j) in
          let t2 := rdc cc (CX2 ik jc) in
          PMCw cc (CX2 ik j) (CX2 ik jc) t1 t2) cc) cc
    else
      for_ 1 ipph (fun j cc =>
        let jc := ip - j in
        for_ 0 l1 (fun k cc =>
          let t1 := rdc cc (CX 0 k j) in
          let t2 := rdc cc (CX 0 k jc) in
          let cc := PMCw cc (CX 0 k j) (CX 0 k jc) t1 t2 in
          for_ 1 ido (fun i cc =>
            let x1 := cadd (rdc cc (CX i k j)) (rdc cc (CX i k jc)) in
            let x2 := csub (rdc cc (CX i k j)) (rdc cc (CX i k jc)) in
            let idij := (j - 1) * (ido - 1) + i - 1 in
            let cc := upd cc (CX i k j) (special_mul bwd x1 (rdc wa idij)) in
            let idij := (jc - 1) * (ido - 1) + i - 1 in
            upd cc (CX i k jc) (special_mul bwd x2 (rdc wa idij))) cc) cc) cc in
  Ok (cc, ch).

Definition passg := passg_with wrap_gt.

(** The pass with the wrap test written [iwal>=ip]. *)
Definition passg_ge := passg_with wrap_ge.

(** [pass_all<bwd>(c, fact)].  The state of the stage loop is [l1], the
    contents of the buffers [p1] and [p2] point to, and whether [p1==c]. *)
Definition pass_all_with (wrapi : nat -> nat -> nat) (bwd : bool) (P : plan)
  (c : list C) (fact : T0) : result (list C) :=
  let length := Z.to_nat (length P) in
  if length =? 1 then Ok (upd c 0 (cscale (rdc c 0) fact))
  else
    let ch := repeat czero length in
    '(l1, p1, p2, p1_is_c) <-
       forM 0 (nfct P) (fun k1 '(l1, p1, p2, p1_is_c) =>
         let f := nth k1 (fct_arr P) (mk_fctdata 0 [] []) in
         let ip := Z.to_nat (fct f) in
         let l2 := ip * l1 in
         let ido := length / l2 in
         if ip =? 4 then Ok (l2, pass4 bwd ido l1 p1 p2 (tw f), p1, negb p1_is_c)
         else if ip =? 2 then Ok (l2, pass2 bwd ido l1 p1 p2 (tw f), p1, negb p1_is_c)
         else if ip =? 3 then Ok (l2, pass3 bwd ido l1 p1 p2 (tw f), p1, negb p1_is_c)
         else if ip =? 5 then Ok (l2, pass5 bwd ido l1 p1 p2 (tw f), p1, negb p1_is_c)
         else if ip =? 7 then Ok (l2, pass7 bwd ido l1 p1 p2 (tw f), p1, negb p1_is_c)
         else if ip =? 11 then Ok (l2, pass11 bwd ido l1 p1 p2 (tw f), p1, negb p1_is_c)
         else
           '(p1, p2) <- passg_with wrapi bwd ido ip l1 p1 p2 (tw f) (tws f) ;;
           Ok (l2, p1, p2, p1_is_c))
         (1, c, ch, true) ;;
    if negb p1_is_c then
      (* c is what p2 points to, ch what p1 points to *)
      if negb (seqb fact (lit 1)) then
        Ok (for_ 0 length (fun i c => upd c i (cscale (rdc p1 i) fact)) p2)
      else
        Ok (for_ 0 length (fun i c => upd c i (rdc p1 i)) p2)
    else
      if negb (seqb fact (lit 1)) then
        Ok (for_ 0 length (fun i c => upd c i (cscale (rdc c i) fact)) p1)
      else Ok p1.

Definition pass_all := pass_all_with wrap_gt.

Definition forward (P : plan) (c : list C) (fct : T0) : result (list C) :=
  pass_all false P c fct.

Definition backward (P : plan) (c : list C) (fct : T0) : result (list C) :=
  pass_all true P c fct.

Definition factorize (length : Z) : result (list Z) :=
  let len := length in
  '(len, fcts) <-
     while_ (Datatypes.S NFCT) (fun '(len, fcts) => (Z.land len 3 =? 0)%Z)
       (fun '(len, fcts) =>
          fcts <- add_factor 4 fcts ;; Ok (Z.shiftr len 2, fcts))
       (len, []) ;;
  '(len, fcts) <-
     (if (Z.land len 1 =? 0)%Z then
        let len := Z.shiftr len 1 in
        (* factor 2 should be at the front of the factor list *)
        fcts <- add_factor 2 fcts ;;
        Ok (len, swap 0%Z fcts 0 (List.length fcts - 1))
      else Ok (len, fcts)) ;;
  let maxl := (helpers.isqrt len + 1)%Z in
  '(divisor, len, maxl, fcts) <-
     while_ (Z.to_nat maxl)
       (fun '(divisor, len, maxl, fcts) => (1 <? len)%Z && (divisor <? maxl)%Z)
       (fun '(divisor, len, maxl, fcts) =>
          if (len mod divisor =? 0)%Z then
            '(len, fcts) <-
               while_ (Datatypes.S NFCT) (fun '(len, fcts) => (len mod divisor =? 0)%Z)
                 (fun '(len, fcts) =>
                    fcts <- add_factor divisor fcts ;; Ok ((len / divisor)%Z, fcts))
                 (len, fcts) ;;
            Ok ((divisor + 2)%Z, len, (helpers.isqrt len + 1)%Z, fcts)
          else Ok ((divisor + 2)%Z, len, maxl, fcts))
       (3%Z, len, maxl, fcts) ;;
  if (1 <? len)%Z then add_factor len fcts else Ok fcts.

Definition twsize (length : Z) (fcts : list Z) : nat :=
  let length := Z.to_nat length in
  fst (fold_left (fun '(twsize, l1) f =>
         let ip := Z.to_nat f in
         let ido := length / (l1 * ip) in
         let twsize := twsize + (ip - 1) * (ido - 1) in
         let twsize := if 11 <? ip then twsize + ip else twsize in
         (twsize, l1 * ip)) fcts (0, 1)).

(** [comp_twiddle]: the slices [tw] and [tws] handed out of [mem] to each
    factor, filled from [twid]. *)
Definition comp_twiddle (length : Z) (fcts : list Z) : list fctdata :=
  let twid := sincos_2pibyn length false in
  let length := Z.to_nat length in
  fst (fold_left (fun '(out, l1) f =>
         let ip := Z.to_nat f in
         let ido := length / (l1 * ip) in
         let tw :=
           for_ 1 ip (fun j tw =>
             for_ 1 ido (fun i tw =>
               upd tw ((j - 1) * (ido - 1) + i - 1)
                 (mk_cmplx (twid (2 * j * l1 * i)) (twid (2 * j * l1 * i + 1))))
               tw) (repeat czero ((ip - 1) * (ido - 1))) in
         let tws :=
           if 11 <? ip then
             for_ 0 ip (fun j tws =>
               upd tws j (mk_cmplx (twid (2 * j * l1 * ido))
                                   (twid (2 * j * l1 * ido + 1))))
               (repeat czero ip)
           else [] in
         (out ++ [mk_fctdata f tw tws], l1 * ip)) fcts ([], 1)).

(** The constructor [cfftp(length_)]; allocation failure is not modelled. *)
Definition cfftp (length_ : Z) : result plan :=
  if (length_ =? 0)%Z then Throw "zero length FFT requested"
  else if (length_ =? 1)%Z then Ok (mk_plan length_ [])
  else
    fcts <- factorize length_ ;;
    Ok (mk_plan length_ (comp_twiddle length_ fcts)).

End defs.
End cfftp.


(** ** Real-valued FFTPACK transforms: [class rfftp] *)

Module rfftp.
Section defs.
Context {T0 : Type} {ST : Scalar T0}.
Variable sincos_2pibyn : Z -> bool -> nat -> T0.

Record fctdata : Type := mk_fctdata { fct : Z; tw : list T0; tws : list T0 }.

Record plan : Type := mk_plan { length : Z; fct_arr : list fctdata }.

Definition nfct (P : plan) : nat := List.length (fct_arr P).

Definition add_factor (factor : Z) (fcts : list Z) : result (list Z) :=
  if NFCT <=? List.length fcts then Throw "too many prime factors"
  else Ok (fcts ++ [factor]).

Definition rdr (l : list T0) (n : nat) : T0 := rd (lit 0) l n.

(* the index (a)+ido*((b)+d*(c)) of the macros CC, CH and C1 *)
Definition I3 (ido d a b c : nat) : nat := a + ido * (b + d * c).
(* WA(x,i) wa[(i)+(x)*(ido-1)] *)
Definition WA_ (wa : list T0) (ido x i : nat) : T0 := rdr wa (i + x * (ido - 1)).
(* PM(a,b,c,d) { a=c+d; b=c-d; } on two cells of [ch] *)
Definition PMw (ch : list T0) (ia ib : nat) (c d : T0) : list T0 :=
  upd (upd ch ia (c +! d)) ib (c -! d).
(* MULPM(a,b,c,d,e,f) { a=c*e+d*f; b=c*f-d*e; } *)
Definition MULPMa (c d e f : T0) : T0 := c *! e +! d *! f.
Definition MULPMb (c d e f : T0) : T0 := c *! f -! d *! e.
(* MULPM on two cells of [ch] *)
Definition MULPMw (ch : list T0) (ia ib : nat) (c d e f : T0) : list T0 :=
  upd (upd ch ia (MULPMa c d e f)) ib (MULPMb c d e f).

Definition radf2 (ido l1 : nat) (cc ch wa : list T0) : list T0 :=
  let cdim := 2 in
  let WA := WA_ wa ido in
  let CC (a b c : nat) : T0 := rdr cc (I3 ido l1 a b c) in
  let CH := I3 ido cdim in
  let ch := for_ 0 l1 (fun k ch =>
              PMw ch (CH 0 0 k) (CH (ido - 1) 1 k) (CC 0 k 0) (CC 0 k 1)) ch in
  let ch := if Nat.land ido 1 =? 0 then
              for_ 0 l1 (fun k ch =>
                let ch := upd ch (CH 0 1 k) (sneg (CC (ido - 1) k 1)) in
                upd ch (CH (ido - 1) 0 k) (CC (ido - 1) k 0)) ch
            else ch in
  if ido <=? 2 then ch
  else
    for_ 0 l1 (fun k ch =>
      for2_ 2 ido (fun i ch =>
        let ic := ido - i in
        let tr2 := MULPMa (WA 0 (i - 2)) (WA 0 (i - 1)) (CC (i - 1) k 1) (CC i k 1) in
        let ti2 := MULPMb (WA 0 (i - 2)) (WA 0 (i - 1)) (CC (i - 1) k 1) (CC i k 1) in
        let ch := PMw ch (CH (i - 1) 0 k) (CH (ic - 1) 1 k) (CC (i - 1) k 0) tr2 in
        PMw ch (CH i 0 k) (CH ic 1 k) ti2 (CC i k 0)) ch) ch.

Definition radf3 (ido l1 : nat) (cc ch wa : list T0) : list T0 :=
  let cdim := 3 in
  let taur := lit (-0.5) in
  let taui := lit 0.86602540378443864676 in
  let WA := WA_ wa ido in
  let CC (a b c : nat) : T0 := rdr cc (I3 ido l1 a b c) in
  let CH := I3 ido cdim in
  let ch := for_ 0 l1 (fun k ch =>
              let cr2 := CC 0 k 1 +! CC 0 k 2 in
              let ch := upd ch (CH 0 0 k) (CC 0 k 0 +! cr2) in
              let ch := upd ch (CH 0 2 k) (taui *! (CC 0 k 2 -! CC 0 k 1)) in
              upd ch (CH (ido - 1) 1 k) (CC 0 k 0 +! taur *! cr2)) ch in
  if ido =? 1 then ch
  else
    for_ 0 l1 (fun k ch =>
      for2_ 2 ido (fun i ch =>
        let ic := ido - i in
        let dr2 := MULPMa (WA 0 (i - 2)) (WA 0 (i - 1)) (CC (i - 1) k 1) (CC i k 1) in
        let di2 := MULPMb (WA 0 (i - 2)) (WA 0 (i - 1)) (CC (i - 1) k 1) (CC i k 1) in
        let dr3 := MULPMa (WA 1 (i - 2)) (WA 1 (i - 1)) (CC (i - 1) k 2) (CC i k 2) in
        let di3 := MULPMb (WA 1 (i - 2)) (WA 1 (i - 1)) (CC (i - 1) k 2) (CC i k 2) in
        let cr2 := dr2 +! dr3 in
        let ci2 := di2 +! di3 in
        let ch := upd ch (CH (i - 1) 0 k) (CC (i - 1) k 0 +! cr2) in
        let ch := upd ch (CH i 0 k) (CC i k 0 +! ci2) in
        let tr2 := CC (i - 1) k 0 +! taur *! cr2 in
        let ti2 := CC i k 0 +! taur *! ci2 in
        let tr3 := taui *! (di2 -! di3) in
        let ti3 := taui *! (dr3 -! dr2) in
        let ch := PMw ch (CH (i - 1) 2 k) (CH (ic - 1) 1 k) tr2 tr3 in
        PMw ch (CH i 2 k) (CH ic 1 k) ti3 ti2) ch) ch.

Definition radf4 (ido l1 : nat) (cc ch wa : list T0) : list T0 :=
  let cdim := 4 in
  let hsqt2 := lit 0.70710678118654752440 in
  let WA := WA_ wa ido in
  let CC (a b c : nat) : T0 := rdr cc (I3 ido l1 a b c) in
  let CH := I3 ido cdim in
  let ch := for_ 0 l1 (fun k ch =>
              let tr1 := CC 0 k 3 +! CC 0 k 1 in
              let ch := upd ch (CH 0 2 k) (CC 0 k 3 -! CC 0 k 1) in
              let tr2 := CC 0 k 0 +! CC 0 k 2 in
              let ch := upd ch (CH (ido - 1) 1 k) (CC 0 k 0 -! CC 0 k 2) in
              PMw ch (CH 0 0 k) (CH (ido - 1) 3 k) tr2 tr1) ch in
  let ch := if Nat.land ido 1 =? 0 then
              for_ 0 l1 (fun k ch =>
                let ti1 := sneg hsqt2 *! (CC (ido - 1) k 1 +! CC (ido - 1) k 3) in
                let tr1 := hsqt2 *! (CC (ido - 1) k 1 -! CC (ido - 1) k 3) in
                let ch := PMw ch (CH (ido - 1) 0 k) (CH (ido - 1) 2 k)
                            (CC (ido - 1) k 0) tr1 in
                PMw ch (CH 0 3 k) (CH 0 1 k) ti1 (CC (ido - 1) k 2)) ch
            else ch in
  if ido <=? 2 then ch
  else
    for_ 0 l1 (fun k ch =>
      for2_ 2 ido (fun i ch =>
        let ic := ido - i in
        let cr2 := MULPMa (WA 0 (i - 2)) (WA 0 (i - 1)) (CC (i - 1) k 1) (CC i k 1) in
        let ci2 := MULPMb (WA 0 (i - 2)) (WA 0 (i - 1)) (CC (i - 1) k 1) (CC i k 1) in
        let cr3 := MULPMa (WA 1 (i - 2)) (WA 1 (i - 1)) (CC (i - 1) k 2) (CC i k 2) in
        let ci3 := MULPMb (WA 1 (i - 2)) (WA 1 (i - 1)) (CC (i - 1) k 2) (CC i k 2) in
        let cr4 := MULPMa (WA 2 (i - 2)) (WA 2 (i - 1)) (CC (i - 1) k 3) (CC i k 3) in
        let ci4 := MULPMb (WA 2 (i - 2)) (WA 2 (i - 1)) (CC (i - 1) k 3) (CC i k 3) in
        let tr1 := cr4 +! cr2 in
        let tr4 := cr4 -! cr2 in
        let ti1 := ci2 +! ci4 in
        let ti4 := ci2 -! ci4 in
        let tr2 := CC (i - 1) k 0 +! cr3 in
        let tr3 := CC (i - 1) k 0 -! cr3 in
        let ti2 := CC i k 0 +! ci3 in
        let ti3 := CC i k 0 -! ci3 in
        let ch := PMw ch (CH (i - 1) 0 k) (CH (ic - 1) 3 k) tr2 tr1 in
        let ch := PMw ch (CH i 0 k) (CH ic 3 k) ti1 ti2 in
        let ch := PMw ch (CH (i - 1) 2 k) (CH (ic - 1) 1 k) tr3 ti4 in
        PMw ch (CH i 2 k) (CH ic 1 k) tr4 ti3) ch) ch.

Definition radf5 (ido l1 : nat) (cc ch wa : list T0) : list T0 :=
  let cdim := 5 in
  let tr11 := lit 0.3090169943749474241 in
  let ti11 := lit 0.95105651629515357212 in
  let tr12 := lit (-0.8090169943749474241) in
  let ti12 := lit 0.58778525229247312917 in
  let WA := WA_ wa ido in
  let CC (a b c : nat) : T0 := rdr cc (I3 ido l1 a b c) in
  let CH := I3 ido cdim in
  let ch := for_ 0 l1 (fun k ch =>
              let cr2 := CC 0 k 4 +! CC 0 k 1 in
              let ci5 := CC 0 k 4 -! CC 0 k 1 in
              let cr3 := CC 0 k 3 +! CC 0 k 2 in
              let ci4 := CC 0 k 3 -! CC 0 k 2 in
              let ch := upd ch (CH 0 0 k) (CC 0 k 0 +! cr2 +! cr3) in
              let ch := upd ch (CH (ido - 1) 1 k)
                          (CC 0 k 0 +! tr11 *! cr2 +! tr12 *! cr3) in
              let ch := upd ch (CH 0 2 k) (ti11 *! ci5 +! ti12 *! ci4) in
              let ch := upd ch (CH (ido - 1) 3 k)
                          (CC 0 k 0 +! tr12 *! cr2 +! tr11 *! cr3) in
              upd ch (CH 0 4 k) (ti12 *! ci5 -! ti11 *! ci4)) ch in
  if ido =? 1 then ch
  else
    for_ 0 l1 (fun k ch =>
      for2_ 2 ido (fun i ch =>
        let ic := ido - i in
        let dr2 := MULPMa (WA 0 (i - 2)) (WA 0 (i - 1)) (CC (i - 1) k 1) (CC i k 1) in
        let di2 := MULPMb (WA 0 (i - 2)) (WA 0 (i - 1)) (CC (i - 1) k 1) (CC i k 1) in
        let dr3 := MULPMa (WA 1 (i - 2)) (WA 1 (i - 1)) (CC (i - 1) k 2) (CC i k 2) in
        let di3 := MULPMb (WA 1 (i - 2)) (WA 1 (i - 1)) (CC (i - 1) k 2) (CC i k 2) in
        let dr4 := MULPMa (WA 2 (i - 2)) (WA 2 (i - 1)) (CC (i - 1) k 3) (CC i k 3) in
        let di4 := MULPMb (WA 2 (i - 2)) (WA 2 (i - 1)) (CC (i - 1) k 3) (CC i k 3) in
        let dr5 := MULPMa (WA 3 (i - 2)) (WA 3 (i - 1)) (CC (i - 1) k 4) (CC i k 4) in
        let di5 := MULPMb (WA 3 (i - 2)) (WA 3 (i - 1)) (CC (i - 1) k 4) (CC i k 4) in
        let cr2 := dr5 +! dr2 in
        let ci5 := dr5 -! dr2 in
        let ci2 := di2 +! di5 in
        let cr5 := di2 -! di5 in
        let cr3 := dr4 +! dr3 in
        let ci4 := dr4 -! dr3 in
        let ci3 := di3 +! di4 in
        let cr4 := di3 -! di4 in
        let ch := upd ch (CH (i - 1) 0 k) (CC (i - 1) k 0 +! cr2 +! cr3) in
        let ch := upd ch (CH i 0 k) (CC i k 0 +! ci2 +! ci3) in
        let tr2 := CC (i - 1) k 0 +! tr11 *! cr2 +! tr12 *! cr3 in
        let ti2 := CC i k 0 +! tr11 *! ci2 +! tr12 *! ci3 in
        let tr3 := CC (i - 1) k 0 +! tr12 *! cr2 +! tr11 *! cr3 in
        let ti3 := CC i k 0 +! tr12 *! ci2 +! tr11 *! ci3 in
        let tr5 := MULPMa cr5 cr4 ti11 ti12 in
        let tr4 := MULPMb cr5 cr4 ti11 ti12 in
        let ti5 := MULPMa ci5 ci4 ti11 ti12 in
        let ti4 := MULPMb ci5 ci4 ti11 ti12 in
        let ch := PMw ch (CH (i - 1) 2 k) (CH (ic - 1) 1 k) tr2 tr5 in
        let ch := PMw ch (CH i 2 k) (CH ic 1 k) ti5 ti2 in
        let ch := PMw ch (CH (i - 1) 4 k) (CH (ic - 1) 3 k) tr3 tr4 in
        PMw ch (CH i 4 k) (CH ic 3 k) ti4 ti3) ch) ch.

(* iang+=l; if(iang>=ip) iang-=ip, with the test as a parameter, then the
   two reads csarr[2*iang], csarr[2*iang+1] *)
Definition next_root (wrapi : nat -> nat -> nat) (csarr : list T0)
  (iang l ip : nat) : result (nat * T0 * T0) :=
  let iang := wrapi (iang + l) ip in
  ar <- rdT csarr (2 * iang) ;;
  ai <- rdT csarr (2 * iang + 1) ;;
  Ok (iang, ar, ai).

(** The accumulation over [j = 3 .. ipph-1] shared by [radfg] and [radbg]:
    the three [for] loops (four, two and one root per turn) that add into
    rows [l] and [lc] of [dst] the rows [j] and [jc] of [src].  In [radfg]
    [dst] is [ch] and [src] is [cc]; in [radbg] the other way round. *)
Definition accumulate (wrapi : nat -> nat -> nat) (csarr : list T0)
  (ip ipph idl1 l lc : nat) (src dst : list T0) : result (list T0) :=
  let S2 (a b : nat) : T0 := rdr src (a + idl1 * b) in
  let D2 (a b : nat) : nat := a + idl1 * b in
  let iang := 2 * l in
  '(j, jc, iang, dst) <-
     while_ ip (fun '(j, jc, iang, dst) => j <? ipph - 3)
       (fun '(j, jc, iang, dst) =>
          '(iang, ar1, ai1) <- next_root wrapi csarr iang l ip ;;
          '(iang, ar2, ai2) <- next_root wrapi csarr iang l ip ;;
          '(iang, ar3, ai3) <- next_root wrapi csarr iang l ip ;;
          '(iang, ar4, ai4) <- next_root wrapi csarr iang l ip ;;
          let dst := for_ 0 idl1 (fun ik dst =>
            let dst := upd dst (D2 ik l)
                         (rdr dst (D2 ik l)
                            +! (ar1 *! S2 ik j +! ar2 *! S2 ik (j + 1)
                                  +! ar3 *! S2 ik (j + 2) +! ar4 *! S2 ik (j + 3))) in
            upd dst (D2 ik lc)
              (rdr dst (D2 ik lc)
                 +! (ai1 *! S2 ik jc +! ai2 *! S2 ik (jc - 1)
                       +! ai3 *! S2 ik (jc - 2) +! ai4 *! S2 ik (jc - 3)))) dst in
          Ok (j + 4, jc - 4, iang, dst))
       (3, ip - 3, iang, dst) ;;
  '(j, jc, iang, dst) <-
     while_ ip (fun '(j, jc, iang, dst) => j <? ipph - 1)
       (fun '(j, jc, iang, dst) =>
          '(iang, ar1, ai1) <- next_root wrapi csarr iang l ip ;;
          '(iang, ar2, ai2) <- next_root wrapi csarr iang l ip ;;
          let dst := for_ 0 idl1 (fun ik dst =>
            let dst := upd dst (D2 ik l)
                         (rdr dst (D2 ik l)
                            +! (ar1 *! S2 ik j +! ar2 *! S2 ik (j + 1))) in
            upd dst (D2 ik lc)
              (rdr dst (D2 ik lc)
                 +! (ai1 *! S2 ik jc +! ai2 *! S2 ik (jc - 1)))) dst in
          Ok (j + 2, jc - 2, iang, dst))
       (j, jc, iang, dst) ;;
  '(j, jc, iang, dst) <-
     while_ ip (fun '(j, jc, iang, dst) => j <? ipph)
       (fun '(j, jc, iang, dst) =>
          '(iang, ar, ai) <- next_root wrapi csarr iang l ip ;;
          let dst := for_ 0 idl1 (fun ik dst =>
            let dst := upd dst (D2 ik l) (rdr dst (D2 ik l) +! ar *! S2 ik j) in
            upd dst (D2 ik lc) (rdr dst (D2 ik lc) +! ai *! S2 ik jc)) dst in
          Ok (j + 1, jc - 1, iang, dst))
       (j, jc, iang, dst) ;;
  Ok dst.

(** The first two terms of rows [l] and [lc]:
    [D2(ik,l) = S2(ik,0)+csarr[2*l]*S2(ik,1)+csarr[4*l]*S2(ik,2)] and
    [D2(ik,lc) = csarr[2*l+1]*S2(ik,ip-1)+csarr[4*l+1]*S2(ik,ip-2)]. *)
Definition first_terms (csarr : list T0) (ip idl1 l lc : nat)
  (src dst : list T0) : result (list T0) :=
  let S2 (a b : nat) : T0 := rdr src (a + idl1 * b) in
  let D2 (a b : nat) : nat := a + idl1 * b in
  forM 0 idl1 (fun ik dst =>
    c2l <- rdT csarr (2 * l) ;;
    c4l <- rdT csarr (4 * l) ;;
    let dst := upd dst (D2 ik l)
                 (S2 ik 0 +! c2l *! S2 ik 1 +! c4l *! S2 ik 2) in
    s2l <- rdT csarr (2 * l + 1) ;;
    s4l <- rdT csarr (4 * l + 1) ;;
    Ok (upd dst (D2 ik lc)
          (s2l *! S2 ik (ip - 1) +! s4l *! S2 ik (ip - 2)))) dst.

(** [radfg]; [ip] is a factor above 5, so that [ipph-3] does not wrap, and
    the counters [jc], [lc] and [ic] mirror [j], [l] and [i]. *)
Definition radfg (ido ip l1 : nat) (cc ch wa csarr : list T0)
  : result (list T0 * list T0) :=
  let cdim := ip in
  let ipph := (ip + 1) / 2 in
  let idl1 := ido * l1 in
  let C1 := I3 ido l1 in
  let C2 (a b : nat) : nat := a + idl1 * b in
  let CH2 (a b : nat) : nat := a + idl1 * b in
  let CC := I3 ido cdim in
  let CH := I3 ido l1 in
  let cc :=
    if 1 <? ido then
      for_ 1 ipph (fun j cc =>                                       (* 114 *)
        let jc := ip - j in
        let is1 := (j - 1) * (ido - 1) in    (* is *)
        let is2 := (jc - 1) * (ido - 1) in
        for_ 0 l1 (fun k cc =>                                       (* 113 *)
          let idij := is1 in
          let idij2 := is2 in
          snd (for2_ 1 (ido - 1) (fun i '(idij, idij2, cc) =>        (* 112 *)
            let t1 := rdr cc (C1 i k j) in
            let t2 := rdr cc (C1 (i + 1) k j) in
            let t3 := rdr cc (C1 i k jc) in
            let t4 := rdr cc (C1 (i + 1) k jc) in
            let x1 := rdr wa idij *! t1 +! rdr wa (idij + 1) *! t2 in
            let x2 := rdr wa idij *! t2 -! rdr wa (idij + 1) *! t1 in
            let x3 := rdr wa idij2 *! t3 +! rdr wa (idij2 + 1) *! t4 in
            let x4 := rdr wa idij2 *! t4 -! rdr wa (idij2 + 1) *! t3 in
            let cc := upd cc (C1 i k j) (x1 +! x3) in
            let cc := upd cc (C1 i k jc) (x2 -! x4) in
            let cc := upd cc (C1 (i + 1) k j) (x2 +! x4) in
            let cc := upd cc (C1 (i + 1) k jc) (x3 -! x1) in
            (idij + 2, idij2 + 2, cc)) (idij, idij2, cc))) cc) cc
    else cc in
  let cc := for_ 1 ipph (fun j cc =>                                 (* 123 *)
              let jc := ip - j in
              for_ 0 l1 (fun k cc =>                                 (* 122 *)
                let t1 := rdr cc (C1 0 k j) in
                let t2 := rdr cc (C1 0 k jc) in
                let cc := upd cc (C1 0 k j) (t1 +! t2) in
                upd cc (C1 0 k jc) (t2 -! t1)) cc) cc in
  (* everything in C *)
  ch <- forM 1 ipph (fun l ch =>                                     (* 127 *)
          let lc := ip - l in
          ch <- first_terms csarr ip idl1 l lc cc ch ;;              (* 124 *)
          accumulate wrap_ge csarr ip ipph idl1 l lc cc ch) ch ;;    (* 126 *)
  let ch := for_ 0 idl1 (fun ik ch => upd ch (CH2 ik 0) (rdr cc (C2 ik 0))) ch in  (* 101 *)
  let ch := for_ 1 ipph (fun j ch =>                                 (* 129 *)
              for_ 0 idl1 (fun ik ch =>                              (* 128 *)
                upd ch (CH2 ik 0) (rdr ch (CH2 ik 0) +! rdr cc (C2 ik j))) ch) ch in
  (* everything in CH at this point! *)
  let cc := for_ 0 l1 (fun k cc =>                                   (* 131 *)
              for_ 0 ido (fun i cc =>                                (* 130 *)
                upd cc (CC i 0 k) (rdr ch (CH i k 0))) cc) cc in
  let cc := for_ 1 ipph (fun j cc =>                                 (* 137 *)
              let jc := ip - j in
              let j2 := 2 * j - 1 in
              for_ 0 l1 (fun k cc =>                                 (* 136 *)
                let cc := upd cc (CC (ido - 1) j2 k) (rdr ch (CH 0 k j)) in
                upd cc (CC 0 (j2 + 1) k) (rdr ch (CH 0 k jc))) cc) cc in
  if ido =? 1 then Ok (cc, ch)
  else
    let cc := for_ 1 ipph (fun j cc =>                               (* 140 *)
                let jc := ip - j in
                let j2 := 2 * j - 1 in
                for_ 0 l1 (fun k cc =>                               (* 139 *)
                  for2_ 1 (ido - 1) (fun i cc =>                     (* 138 *)
                    let ic := ido - i - 2 in
                    let cc := upd cc (CC i (j2 + 1) k)
                                (rdr ch (CH i k j) +! rdr ch (CH i k jc)) in
                    let cc := upd cc (CC ic j2 k)
                                (rdr ch (CH i k j) -! rdr ch (CH i k jc)) in
                    let cc := upd cc (CC (i + 1) (j2 + 1) k)
                                (rdr ch (CH (i + 1) k j) +! rdr ch (CH (i + 1) k jc)) in
                    upd cc (CC (ic + 1) j2 k)
                      (rdr ch (CH (i + 1) k jc) -! rdr ch (CH (i + 1) k j))) cc) cc) cc in
    Ok (cc, ch).

Definition radb2 (ido l1 : nat) (cc ch wa : list T0) : list T0 :=
  let cdim := 2 in
  let WA := WA_ wa ido in
  let CH := I3 ido l1 in
  let CC (a b c : nat) : T0 := rdr cc (I3 ido cdim a b c) in
  let ch := for_ 0 l1 (fun k ch =>
              PMw ch (CH 0 k 0) (CH 0 k 1) (CC 0 0 k) (CC (ido - 1) 1 k)) ch in
  let ch := if Nat.land ido 1 =? 0 then
              for_ 0 l1 (fun k ch =>
                let ch := upd ch (CH (ido - 1) k 0) (lit 2 *! CC (ido - 1) 0 k) in
                upd ch (CH (ido - 1) k 1) (lit (-2) *! CC 0 1 k)) ch
            else ch in
  if ido <=? 2 then ch
  else
    for_ 0 l1 (fun k ch =>
      for2_ 2 ido (fun i ch =>
        let ic := ido - i in
        let ch := upd ch (CH (i - 1) k 0) (CC (i - 1) 0 k +! CC (ic - 1) 1 k) in
        let tr2 := CC (i - 1) 0 k -! CC (ic - 1) 1 k in
        let ti2 := CC i 0 k +! CC ic 1 k in
        let ch := upd ch (CH i k 0) (CC i 0 k -! CC ic 1 k) in
        MULPMw ch (CH i k 1) (CH (i - 1) k 1)
          (WA 0 (i - 2)) (WA 0 (i - 1)) ti2 tr2) ch) ch.

Definition radb3 (ido l1 : nat) (cc ch wa : list T0) : list T0 :=
  let cdim := 3 in
  let taur := lit (-0.5) in
  let taui := lit 0.86602540378443864676 in
  let WA := WA_ wa ido in
  let CH := I3 ido l1 in
  let CC (a b c : nat) : T0 := rdr cc (I3 ido cdim a b c) in
  let ch := for_ 0 l1 (fun k ch =>
              let tr2 := lit 2 *! CC (ido - 1) 1 k in
              let cr2 := CC 0 0 k +! taur *! tr2 in
              let ch := upd ch (CH 0 k 0) (CC 0 0 k +! tr2) in
              let ci3 := lit 2 *! taui *! CC 0 2 k in
              PMw ch (CH 0 k 2) (CH 0 k 1) cr2 ci3) ch in
  if ido =? 1 then ch
  else
    for_ 0 l1 (fun k ch =>
      for2_ 2 ido (fun i ch =>
        let ic := ido - i in
        let tr2 := CC (i - 1) 2 k +! CC (ic - 1) 1 k in
        let ti2 := CC i 2 k -! CC ic 1 k in
        let cr2 := CC (i - 1) 0 k +! taur *! tr2 in
        let ci2 := CC i 0 k +! taur *! ti2 in
        let ch := upd ch (CH (i - 1) k 0) (CC (i - 1) 0 k +! tr2) in
        let ch := upd ch (CH i k 0) (CC i 0 k +! ti2) in
        let cr3 := taui *! (CC (i - 1) 2 k -! CC (ic - 1) 1 k) in
        let ci3 := taui *! (CC i 2 k +! CC ic 1 k) in
        let dr3 := cr2 +! ci3 in
        let dr2 := cr2 -! ci3 in
        let di2 := ci2 +! cr3 in
        let di3 := ci2 -! cr3 in
        let ch := MULPMw ch (CH i k 1) (CH (i - 1) k 1)
                    (WA 0 (i - 2)) (WA 0 (i - 1)) di2 dr2 in
        MULPMw ch (CH i k 2) (CH (i - 1) k 2)
          (WA 1 (i - 2)) (WA 1 (i - 1)) di3 dr3) ch) ch.

Definition radb4 (ido l1 : nat) (cc ch wa : list T0) : list T0 :=
  let cdim := 4 in
  let sqrt2 := lit 1.41421356237309504880 in
  let WA := WA_ wa ido in
  let CH := I3 ido l1 in
  let CC (a b c : nat) : T0 := rdr cc (I3 ido cdim a b c) in
  let ch := for_ 0 l1 (fun k ch =>
              let tr2 := CC 0 0 k +! CC (ido - 1) 3 k in
              let tr1 := CC 0 0 k -! CC (ido - 1) 3 k in
              let tr3 := lit 2 *! CC (ido - 1) 1 k in
              let tr4 := lit 2 *! CC 0 2 k in
              let ch := PMw ch (CH 0 k 0) (CH 0 k 2) tr2 tr3 in
              PMw ch (CH 0 k 3) (CH 0 k 1) tr1 tr4) ch in
  let ch := if Nat.land ido 1 =? 0 then
              for_ 0 l1 (fun k ch =>
                let ti1 := CC 0 3 k +! CC 0 1 k in
                let ti2 := CC 0 3 k -! CC 0 1 k in
                let tr2 := CC (ido - 1) 0 k +! CC (ido - 1) 2 k in
                let tr1 := CC (ido - 1) 0 k -! CC (ido - 1) 2 k in
                let ch := upd ch (CH (ido - 1) k 0) (tr2 +! tr2) in
                let ch := upd ch (CH (ido - 1) k 1) (sqrt2 *! (tr1 -! ti1)) in
                let ch := upd ch (CH (ido - 1) k 2) (ti2 +! ti2) in
                upd ch (CH (ido - 1) k 3) (sneg sqrt2 *! (tr1 +! ti1))) ch
            else ch in
  if ido <=? 2 then ch
  else
    for_ 0 l1 (fun k ch =>
      for2_ 2 ido (fun i ch =>
        let ic := ido - i in
        let tr2 := CC (i - 1) 0 k +! CC (ic - 1) 3 k in
        let tr1 := CC (i - 1) 0 k -! CC (ic - 1) 3 k in
        let ti1 := CC i 0 k +! CC ic 3 k in
        let ti2 := CC i 0 k -! CC ic 3 k in
        let tr4 := CC i 2 k +! CC ic 1 k in
        let ti3 := CC i 2 k -! CC ic 1 k in
        let tr3 := CC (i - 1) 2 k +! CC (ic - 1) 1 k in
        let ti4 := CC (i - 1) 2 k -! CC (ic - 1) 1 k in
        let ch := upd ch (CH (i - 1) k 0) (tr2 +! tr3) in
        let cr3 := tr2 -! tr3 in
        let ch := upd ch (CH i k 0) (ti2 +! ti3) in
        let ci3 := ti2 -! ti3 in
        let cr4 := tr1 +! tr4 in
        let cr2 := tr1 -! tr4 in
        let ci2 := ti1 +! ti4 in
        let ci4 := ti1 -! ti4 in
        let ch := MULPMw ch (CH i k 1) (CH (i - 1) k 1)
                    (WA 0 (i - 2)) (WA 0 (i - 1)) ci2 cr2 in
        let ch := MULPMw ch (CH i k 2) (CH (i - 1) k 2)
                    (WA 1 (i - 2)) (WA 1 (i - 1)) ci3 cr3 in
        MULPMw ch (CH i k 3) (CH (i - 1) k 3)
          (WA 2 (i - 2)) (WA 2 (i - 1)) ci4 cr4) ch) ch.

Definition radb5 (ido l1 : nat) (cc ch wa : list T0) : list T0 :=
  let cdim := 5 in
  let tr11 := lit 0.3090169943749474241 in
  let ti11 := lit 0.95105651629515357212 in
  let tr12 := lit (-0.8090169943749474241) in
  let ti12 := lit 0.58778525229247312917 in
  let WA := WA_ wa ido in
  let CH := I3 ido l1 in
  let CC (a b c : nat) : T0 := rdr cc (I3 ido cdim a b c) in
  let ch := for_ 0 l1 (fun k ch =>
              let ti5 := CC 0 2 k +! CC 0 2 k in
              let ti4 := CC 0 4 k +! CC 0 4 k in
              let tr2 := CC (ido - 1) 1 k +! CC (ido - 1) 1 k in
              let tr3 := CC (ido - 1) 3 k +! CC (ido - 1) 3 k in
              let ch := upd ch (CH 0 k 0) (CC 0 0 k +! tr2 +! tr3) in
              let cr2 := CC 0 0 k +! tr11 *! tr2 +! tr12 *! tr3 in
              let cr3 := CC 0 0 k +! tr12 *! tr2 +! tr11 *! tr3 in
              let ci5 := MULPMa ti5 ti4 ti11 ti12 in
              let ci4 := MULPMb ti5 ti4 ti11 ti12 in
              let ch := PMw ch (CH 0 k 4) (CH 0 k 1) cr2 ci5 in
              PMw ch (CH 0 k 3) (CH 0 k 2) cr3 ci4) ch in
  if ido =? 1 then ch
  else
    for_ 0 l1 (fun k ch =>
      for2_ 2 ido (fun i ch =>
        let ic := ido - i in
        let tr2 := CC (i - 1) 2 k +! CC (ic - 1) 1 k in
        let tr5 := CC (i - 1) 2 k -! CC (ic - 1) 1 k in
        let ti5 := CC i 2 k +! CC ic 1 k in
        let ti2 := CC i 2 k -! CC ic 1 k in
        let tr3 := CC (i - 1) 4 k +! CC (ic - 1) 3 k in
        let tr4 := CC (i - 1) 4 k -! CC (ic - 1) 3 k in
        let ti4 := CC i 4 k +! CC ic 3 k in
        let ti3 := CC i 4 k -! CC ic 3 k in
        let ch := upd ch (CH (i - 1) k 0) (CC (i - 1) 0 k +! tr2 +! tr3) in
        let ch := upd ch (CH i k 0) (CC i 0 k +! ti2 +! ti3) in
        let cr2 := CC (i - 1) 0 k +! tr11 *! tr2 +! tr12 *! tr3 in
        let ci2 := CC i 0 k +! tr11 *! ti2 +! tr12 *! ti3 in
        let cr3 := CC (i - 1) 0 k +! tr12 *! tr2 +! tr11 *! tr3 in
        let ci3 := CC i 0 k +! tr12 *! ti2 +! tr11 *! ti3 in
        let cr5 := MULPMa tr5 tr4 ti11 ti12 in
        let cr4 := MULPMb tr5 tr4 ti11 ti12 in
        let ci5 := MULPMa ti5 ti4 ti11 ti12 in
        let ci4 := MULPMb ti5 ti4 ti11 ti12 in
        let dr4 := cr3 +! ci4 in
        let dr3 := cr3 -! ci4 in
        let di3 := ci3 +! cr4 in
        let di4 := ci3 -! cr4 in
        let dr5 := cr2 +! ci5 in
        let dr2 := cr2 -! ci5 in
        let di2 := ci2 +! cr5 in
        let di5 := ci2 -! cr5 in
        let ch := MULPMw ch (CH i k 1) (CH (i - 1) k 1)
                    (WA 0 (i - 2)) (WA 0 (i - 1)) di2 dr2 in
        let ch := MULPMw ch (CH i k 2) (CH (i - 1) k 2)
                    (WA 1 (i - 2)) (WA 1 (i - 1)) di3 dr3 in
        let ch := MULPMw ch (CH i k 3) (CH (i - 1) k 3)
                    (WA 2 (i - 2)) (WA 2 (i - 1)) di4 dr4 in
        MULPMw ch (CH i k 4) (CH (i - 1) k 4)
          (WA 3 (i - 2)) (WA 3 (i - 1)) di5 dr5) ch) ch.

(** [radbg], with the wrap test of the root index as a parameter. *)
Definition radbg_with (wrapi : nat -> nat -> nat) (ido ip l1 : nat)
  (cc ch wa csarr : list T0) : result (list T0 * list T0) :=
  let cdim := ip in
  let ipph := (ip + 1) / 2 in
  let idl1 := ido * l1 in
  let CC (a b c : nat) : T0 := rdr cc (I3 ido cdim a b c) in
  let CH := I3 ido l1 in
  let C1 := I3 ido l1 in
  let CH2 (a b : nat) : nat := a + idl1 * b in
  let ch := for_ 0 l1 (fun k ch =>                                   (* 102 *)
              for_ 0 ido (fun i ch =>                                (* 101 *)
                upd ch (CH i k 0) (CC i 0 k)) ch) ch in
  let ch := for_ 1 ipph (fun j ch =>                                 (* 108 *)
              let jc := ip - j in
              let j2 := 2 * j - 1 in
              for_ 0 l1 (fun k ch =>
                let ch := upd ch (CH 0 k j) (lit 2 *! CC (ido - 1) j2 k) in
                upd ch (CH 0 k jc) (lit 2 *! CC 0 (j2 + 1) k)) ch) ch in
  let ch :=
    if negb (ido =? 1) then
      for_ 1 ipph (fun j ch =>                                       (* 111 *)
        let jc := ip - j in
        let j2 := 2 * j - 1 in
        for_ 0 l1 (fun k ch =>
          for2_ 1 (ido - 1) (fun i ch =>                             (* 109 *)
            let ic := ido - i - 2 in
            let ch := upd ch (CH i k j) (CC i (j2 + 1) k +! CC ic j2 k) in
            let ch := upd ch (CH i k jc) (CC i (j2 + 1) k -! CC ic j2 k) in
            let ch := upd ch (CH (i + 1) k j)
                        (CC (i + 1) (j2 + 1) k -! CC (ic + 1) j2 k) in
            upd ch (CH (i + 1) k jc)
              (CC (i + 1) (j2 + 1) k +! CC (ic + 1) j2 k)) ch) ch) ch
    else ch in
  cc <- forM 1 ipph (fun l cc =>
          let lc := ip - l in
          cc <- first_terms csarr ip idl1 l lc ch cc ;;
          accumulate wrapi csarr ip ipph idl1 l lc ch cc) cc ;;
  let ch := for_ 1 ipph (fun j ch =>
              for_ 0 idl1 (fun ik ch =>
                upd ch (CH2 ik 0) (rdr ch (CH2 ik 0) +! rdr ch (CH2 ik j))) ch) ch in
  let ch := for_ 1 ipph (fun j ch =>                                 (* 124 *)
              let jc := ip - j in
              for_ 0 l1 (fun k ch =>
                let ch := upd ch (CH 0 k j)
                            (rdr cc (C1 0 k j) -! rdr cc (C1 0 k jc)) in
                upd ch (CH 0 k jc)
                  (rdr cc (C1 0 k j) +! rdr cc (C1 0 k jc))) ch) ch in
  if ido =? 1 then Ok (cc, ch)
  else
    let ch := for_ 1 ipph (fun j ch =>                               (* 127 *)
                let jc := ip - j in
                for_ 0 l1 (fun k ch =>
                  for2_ 1 (ido - 1) (fun i ch =>
                    let ch := upd ch (CH i k j)
                                (rdr cc (C1 i k j) -! rdr cc (C1 (i + 1) k jc)) in
                    let ch := upd ch (CH i k jc)
                                (rdr cc (C1 i k j) +! rdr cc (C1 (i + 1) k jc)) in
                    let ch := upd ch (CH (i + 1) k j)
                                (rdr cc (C1 (i + 1) k j) +! rdr cc (C1 i k jc)) in
                    upd ch (CH (i + 1) k jc)
                      (rdr cc (C1 (i + 1) k j) -! rdr cc (C1 i k jc))) ch) ch) ch in
    (* All in CH *)
    let ch := for_ 1 ip (fun j ch =>
                let is1 := (j - 1) * (ido - 1) in    (* is *)
                for_ 0 l1 (fun k ch =>
                  let idij := is1 in
                  snd (for2_ 1 (ido - 1) (fun i '(idij, ch) =>
                    let t1 := rdr ch (CH i k j) in
                    let t2 := rdr ch (CH (i + 1) k j) in
                    let ch := upd ch (CH i k j)
                                (rdr wa idij *! t1 -! rdr wa (idij + 1) *! t2) in
                    let ch := upd ch (CH (i + 1) k j)
                                (rdr wa idij *! t2 +! rdr wa (idij + 1) *! t1) in
                    (idij + 2, ch)) (idij, ch))) ch) ch in
    Ok (cc, ch).

Definition radbg := radbg_with wrap_gt.

(** The pass with the wrap test written [iang>=ip]. *)
Definition radbg_ge := radbg_with wrap_ge.

(** [copy_and_norm(c,p1,n,fct)]: [c] and [p1] are the contents of the two
    buffers, [p1_is_c] tells whether the pointers are equal. *)
Definition copy_and_norm (c p1 : list T0) (p1_is_c : bool) (n : nat) (fct : T0)
  : list T0 :=
  if negb p1_is_c then
    if negb (seqb fct (lit 1)) then
      for_ 0 n (fun i c => upd c i (fct *! rdr p1 i)) c
    else
      for_ 0 n (fun i c => upd c i (rdr p1 i)) c
  else
    if negb (seqb fct (lit 1)) then
      for_ 0 n (fun i c => upd c i (rdr c i *! fct)) c
    else c.

Definition forward (P : plan) (c : list T0) (fact : T0) : result (list T0) :=
  if (length P =? 1)%Z then Ok (upd c 0 (rdr c 0 *! fact))
  else
    let n := Z.to_nat (length P) in
    let nf := nfct P in
    let ch := repeat (lit 0) n in
    '(l1, p1, p2, p1_is_c) <-
       forM 0 nf (fun k1 '(l1, p1, p2, p1_is_c) =>
         let k := nf - k1 - 1 in
         let f := nth k (fct_arr P) (mk_fctdata 0 [] []) in
         let ip := Z.to_nat (fct f) in
         let ido := n / l1 in
         let l1 := l1 / ip in
         if ip =? 4 then Ok (l1, radf4 ido l1 p1 p2 (tw f), p1, negb p1_is_c)
         else if ip =? 2 then Ok (l1, radf2 ido l1 p1 p2 (tw f), p1, negb p1_is_c)
         else if ip =? 3 then Ok (l1, radf3 ido l1 p1 p2 (tw f), p1, negb p1_is_c)
         else if ip =? 5 then Ok (l1, radf5 ido l1 p1 p2 (tw f), p1, negb p1_is_c)
         else
           '(p1, p2) <- radfg ido ip l1 p1 p2 (tw f) (tws f) ;;
           Ok (l1, p1, p2, p1_is_c))
         (n, c, ch, true) ;;
    Ok (copy_and_norm (if p1_is_c then p1 else p2) p1 p1_is_c n fact).

Definition backward_with (wrapi : nat -> nat -> nat) (P : plan) (c : list T0)
  (fact : T0) : result (list T0) :=
  if (length P =? 1)%Z then Ok (upd c 0 (rdr c 0 *! fact))
  else
    let n := Z.to_nat (length P) in
    let nf := nfct P in
    let ch := repeat (lit 0) n in
    '(l1, p1, p2, p1_is_c) <-
       forM 0 nf (fun k '(l1, p1, p2, p1_is_c) =>
         let f := nth k (fct_arr P) (mk_fctdata 0 [] []) in
         let ip := Z.to_nat (fct f) in
         let ido := n / (ip * l1) in
         if ip =? 4 then Ok (l1 * ip, radb4 ido l1 p1 p2 (tw f), p1, negb p1_is_c)
         else if ip =? 2 then Ok (l1 * ip, radb2 ido l1 p1 p2 (tw f), p1, negb p1_is_c)
         else if ip =? 3 then Ok (l1 * ip, radb3 ido l1 p1 p2 (tw f), p1, negb p1_is_c)
         else if ip =? 5 then Ok (l1 * ip, radb5 ido l1 p1 p2 (tw f), p1, negb p1_is_c)
         else
           '(p1, p2) <- radbg_with wrapi ido ip l1 p1 p2 (tw f) (tws f) ;;
           Ok (l1 * ip, p2, p1, negb p1_is_c))
         (1, c, ch, true) ;;
    Ok (copy_and_norm (if p1_is_c then p1 else p2) p1 p1_is_c n fact).

Definition backward := backward_with wrap_gt.

Definition factorize (length : Z) : result (list Z) :=
  let len := length in
  '(len, fcts) <-
     while_ (Datatypes.S NFCT) (fun '(len, fcts) => (len mod 4 =? 0)%Z)
       (fun '(len, fcts) =>
          fcts <- add_factor 4 fcts ;; Ok (Z.shiftr len 2, fcts))
       (len, []) ;;
  '(len, fcts) <-
     (if (len mod 2 =? 0)%Z then
        let len := Z.shiftr len 1 in
        (* factor 2 should be at the front of the factor list *)
        fcts <- add_factor 2 fcts ;;
        Ok (len, swap 0%Z fcts 0 (List.length fcts - 1))
      else Ok (len, fcts)) ;;
  let maxl := (helpers.isqrt len + 1)%Z in
  '(divisor, len, maxl, fcts) <-
     while_ (Z.to_nat maxl)
       (fun '(divisor, len, maxl, fcts) => (1 <? len)%Z && (divisor <? maxl)%Z)
       (fun '(divisor, len, maxl, fcts) =>
          if (len mod divisor =? 0)%Z then
            '(len, fcts) <-
               while_ (Datatypes.S NFCT) (fun '(len, fcts) => (len mod divisor =? 0)%Z)
                 (fun '(len, fcts) =>
                    fcts <- add_factor divisor fcts ;; Ok ((len / divisor)%Z, fcts))
                 (len, fcts) ;;
            Ok ((divisor + 2)%Z, len, (helpers.isqrt len + 1)%Z, fcts)
          else Ok ((divisor + 2)%Z, len, maxl, fcts))
       (3%Z, len, maxl, fcts) ;;
  if (1 <? len)%Z then add_factor len fcts else Ok fcts.

Definition twsize (length : Z) (fcts : list Z) : nat :=
  let length := Z.to_nat length in
  fst (fold_left (fun '(twsz, l1) f =>
         let ip := Z.to_nat f in
         let ido := length / (l1 * ip) in
         let twsz := twsz + (ip - 1) * (ido - 1) in
         let twsz := if 5 <? ip then twsz + 2 * ip else twsz in
         (twsz, l1 * ip)) fcts (0, 1)).

Definition comp_twiddle (length : Z) (fcts : list Z) : list fctdata :=
  let twid := sincos_2pibyn length true in
  let length := Z.to_nat length in
  let nfct := List.length fcts in
  fst (for_ 0 nfct (fun k '(out, l1) =>
         let f := nth k fcts 0%Z in
         let ip := Z.to_nat f in
         let ido := length / (l1 * ip) in
         let tw :=
           if k <? nfct - 1 then (* last factor doesn't need twiddles *)
             for_ 1 ip (fun j tw =>
               for_ 1 ((ido - 1) / 2 + 1) (fun i tw =>
                 let tw := upd tw ((j - 1) * (ido - 1) + 2 * i - 2)
                             (twid (2 * j * l1 * i)) in
                 upd tw ((j - 1) * (ido - 1) + 2 * i - 1)
                   (twid (2 * j * l1 * i + 1))) tw)
               (repeat (lit 0) ((ip - 1) * (ido - 1)))
           else [] in
         let tws :=
           if 5 <? ip then (* special factors required by *g functions *)
             let tws := repeat (lit 0) (2 * ip) in
             let tws := upd tws 0 (lit 1) in
             let tws := upd tws 1 (lit 0) in
             for_ 1 (Nat.shiftr ip 1 + 1) (fun i tws =>
               let tws := upd tws (2 * i) (twid (2 * i * (length / ip))) in
               let tws := upd tws (2 * i + 1) (twid (2 * i * (length / ip) + 1)) in
               let tws := upd tws (2 * (ip - i)) (twid (2 * i * (length / ip))) in
               upd tws (2 * (ip - i) + 1)
                 (sneg (twid (2 * i * (length / ip) + 1)))) tws
           else [] in
         (out ++ [mk_fctdata f tw tws], l1 * ip)) ([], 1)).

(** The constructor [rfftp(length_)]; allocation failure is not modelled. *)
Definition rfftp (length_ : Z) : result plan :=
  if (length_ =? 0)%Z then Throw "zero_sized FFT"
  else if (length_ =? 1)%Z then Ok (mk_plan length_ [])
  else
    fcts <- factorize length_ ;;
    Ok (mk_plan length_ (comp_twiddle length_ fcts)).

End defs.
End rfftp.

(** ** The cast of [c] to [cmplx<T>] pointer: an interleaved buffer read as
    complex numbers *)

Section casts.
Context {T0 : Type}.

Fixpoint to_cmplx (c : list T0) : list (cmplx T0) :=
  match c with
  | a :: b :: rest => mk_cmplx a b :: to_cmplx rest
  | _ => []
  end.

Definition of_cmplx (c : list (cmplx T0)) : list T0 :=
  flat_map (fun z => [re z; im z]) c.

(** Run [f] on the buffer seen through the cast; the cells the cast does not
    cover stay as they are. *)
Definition through_cast (f : list (cmplx T0) -> result (list (cmplx T0)))
  (c : list T0) : result (list T0) :=
  let z := to_cmplx c in
  z' <- f z ;;
  Ok (of_cmplx z' ++ skipn (2 * List.length z) c).

End casts.

(** ** Complex Bluestein transforms: [class fftblue] *)

(** [for (m=lo; m<hi; m+=step)] over [size_t]: the values [m] takes. *)
Definition zrange (lo hi step : Z) : list Z :=
  map (fun t => (lo + step * Z.of_nat t)%Z)
      (seq 0 (Z.to_nat ((hi - lo + step - 1) / step))).

Module fftblue.
Section defs.
Context {T0 : Type} {ST : Scalar T0}.
Variable sincos_2pibyn : Z -> bool -> nat -> T0.

Record plan : Type := mk_plan {
  n : Z; n2 : Z; plan_ : cfftp.plan (T0 := T0); bk : list T0; bkf : list T0 }.

Definition rdr (l : list T0) (i : nat) : T0 := rd (lit 0) l i.

(* initialize b_k *)
Definition init_bk (n : Z) : list T0 :=
  let tmp := sincos_2pibyn (wrap (2 * n)) false in
  let bk := repeat (lit 0) (2 * Z.to_nat n) in
  let bk := upd bk 0 (lit 1) in
  let bk := upd bk 1 (lit 0) in
  snd (for_ 1 (Z.to_nat n) (fun m '(coeff, bk) =>
         let coeff := coeff + (2 * m - 1) in
         let coeff := if 2 * Z.to_nat n <=? coeff then coeff - 2 * Z.to_nat n else coeff in
         let bk := upd bk (2 * m) (tmp (2 * coeff)) in
         let bk := upd bk (2 * m + 1) (tmp (2 * coeff + 1)) in
         (coeff, bk)) (0, bk)).

(** The stores into [bkf] made by the constructor, in program order, each
    with the [size_t] index it goes to:
    [bkf[0]], [bkf[1]]; for [m = 2, 4, .. < 2*n] the chained stores
    [bkf[m] = bkf[2*n2-m] = ..] and [bkf[m+1] = bkf[2*n2-m+1] = ..];
    then the zero padding for [m = 2*n .. 2*n2-2*n+1]. *)
Definition bkf_stores (n n2 : Z) (bk : list T0) (xn2 : T0) : list (Z * T0) :=
  let bkv (m : Z) : T0 := rdr bk (Z.to_nat m) in
  [(0%Z, bkv 0%Z *! xn2); (1%Z, bkv 1%Z *! xn2)]
  ++ flat_map (fun m =>
       [(wrap (2 * n2 - m), bkv m *! xn2); (m, bkv m *! xn2);
        (wrap (2 * n2 - m + 1), bkv (m + 1)%Z *! xn2); ((m + 1)%Z, bkv (m + 1)%Z *! xn2)])
       (zrange 2 (wrap (2 * n)) 2)
  ++ map (fun m => (m, lit 0))
       (zrange (wrap (2 * n)) (wrap (2 * n2 - 2 * n + 1) + 1) 1).

Definition store_all (a : list T0) (stores : list (Z * T0)) : list T0 :=
  fold_left (fun a '(idx, v) => upd a (Z.to_nat idx) v) stores a.

(** The constructor [fftblue(length)]; allocation failure is not modelled. *)
Definition fftblue (length : Z) : result plan :=
  let n := length in
  n2 <- helpers.good_size (wrap (n * 2 - 1)) ;;
  plan <- cfftp.cfftp sincos_2pibyn n2 ;;
  let bk := init_bk n in
  (* initialize the zero-padded, Fourier transformed b_k. Add normalisation. *)
  let xn2 := lit (1 / float_of_Z n2)%float in
  let bkf := store_all (repeat (lit 0) (2 * Z.to_nat n2)) (bkf_stores n n2 bk xn2) in
  bkf <- through_cast (fun z => cfftp.forward plan z (lit 1)) bkf ;;
  Ok (mk_plan n n2 plan bk bkf).

Definition fft (bwd : bool) (P : plan) (c : list T0) (fct : T0) : result (list T0) :=
  let isign := if bwd then lit 1 else lit (-1) in
  let n := Z.to_nat (n P) in
  let n2 := Z.to_nat (n2 P) in
  let bk := rdr (bk P) in
  let bkf := rdr (bkf P) in
  let akf := repeat (lit 0) (2 * n2) in
  (* initialize a_k and FFT it *)
  let akf := for2_ 0 (2 * n) (fun m akf =>
               let akf := upd akf m (rdr c m *! bk m -! isign *! rdr c (m + 1) *! bk (m + 1)) in
               upd akf (m + 1) (isign *! rdr c m *! bk (m + 1) +! rdr c (m + 1) *! bk m)) akf in
  let akf := for_ (2 * n) (2 * n2) (fun m akf => upd akf m (lit 0 *! rdr c 0)) akf in
  akf <- through_cast (fun z => cfftp.forward (plan_ P) z (lit 1)) akf ;;
  (* do the convolution *)
  let akf := for2_ 0 (2 * n2) (fun m akf =>
               let im := sneg isign *! rdr akf m *! bkf (m + 1) +! rdr akf (m + 1) *! bkf m in
               let akf := upd akf m (rdr akf m *! bkf m +! isign *! rdr akf (m + 1) *! bkf (m + 1)) in
               upd akf (m + 1) im) akf in
  (* inverse FFT *)
  akf <- through_cast (fun z => cfftp.backward (plan_ P) z (lit 1)) akf ;;
  (* multiply by b_k *)
  Ok (for2_ 0 (2 * n) (fun m c =>
        let c := upd c m (fct *! (bk m *! rdr akf m -! isign *! bk (m + 1) *! rdr akf (m + 1))) in
        upd c (m + 1) (fct *! (isign *! bk (m + 1) *! rdr akf m +! bk m *! rdr akf (m + 1)))) c).

Definition backward (P : plan) (c : list T0) (fct : T0) : result (list T0) :=
  fft true P c fct.

Definition forward (P : plan) (c : list T0) (fct : T0) : result (list T0) :=
  fft false P c fct.

Definition backward_r (P : plan) (c : list T0) (fct : T0) : result (list T0) :=
  let n := Z.to_nat (n P) in
  let tmp := repeat (lit 0) (2 * n) in
  let tmp := upd tmp 0 (rdr c 0) in
  let tmp := upd tmp 1 (rdr c 0 *! lit 0) in
  (* memcpy (tmp.data()+2,c+1, (n-1)*sizeof(T)) *)
  let tmp := for_ 0 (n - 1) (fun t tmp => upd tmp (2 + t) (rdr c (1 + t))) tmp in
  let tmp := if Nat.land n 1 =? 0 then upd tmp (n + 1) (rdr c 0 *! lit 0) else tmp in
  let tmp := for2_ 2 n (fun m tmp =>
               let tmp := upd tmp (2 * n - m) (rdr tmp m) in
               upd tmp (2 * n - m + 1) (sneg (rdr tmp (m + 1)))) tmp in
  tmp <- fft true P tmp fct ;;
  Ok (for_ 0 n (fun m c => upd c m (rdr tmp (2 * m))) c).

Definition forward_r (P : plan) (c : list T0) (fct : T0) : result (list T0) :=
  let n := Z.to_nat (n P) in
  let tmp := repeat (lit 0) (2 * n) in
  let tmp := for_ 0 n (fun m tmp =>
               let tmp := upd tmp (2 * m) (rdr c m) in
               upd tmp (2 * m + 1) (rdr c m *! lit 0)) tmp in
  tmp <- fft false P tmp fct ;;
  let c := upd c 0 (rdr tmp 0) in
  (* memcpy (c+1, tmp.data()+2, (n-1)*sizeof(T)) *)
  Ok (for_ 0 (n - 1) (fun t c => upd c (1 + t) (rdr tmp (2 + t))) c).

End defs.
End fftblue.

(** ** The dispatchers [pocketfft_c] and [pocketfft_r] *)

(** [largest_prime_factor(length)<=sqrt(length)] compares an integer with a
    root: it holds exactly when the integer is at most the integer root. *)
Definition lpf_small (length : Z) : result bool :=
  lpf <- helpers.largest_prime_factor length ;;
  Ok (lpf <=? helpers.isqrt length)%Z.

Module pocketfft_c.
Section defs.
Context {T0 : Type} {ST : Scalar T0}.
Variable sincos_2pibyn : Z -> bool -> nat -> T0.

(** The two [unique_ptr]s, of which the constructor sets one. *)
Inductive plan : Type :=
| packplan (p : cfftp.plan (T0 := T0)) (len : Z)
| blueplan (p : fftblue.plan (T0 := T0)) (len : Z).

Definition pocketfft_c (length : Z) : result plan :=
  if (length =? 0)%Z then Throw "zero-length FFT requested"
  else
    small <- (if (length <? 50)%Z then Ok true else lpf_small length) ;;
    if small : bool then
      rmap (fun p => packplan p length) (cfftp.cfftp sincos_2pibyn length)
    else
      comp1 <- helpers.cost_guess length ;;
      g <- helpers.good_size (wrap (2 * length - 1)) ;;
      c <- helpers.cost_guess g ;;
      let comp2 := (2 * c)%float in
      let comp2 := (comp2 * 1.5)%float in (* fudge factor that appears to give good overall performance *)
      if (comp2 <? comp1)%float then (* use Bluestein *)
        rmap (fun p => blueplan p length) (fftblue.fftblue sincos_2pibyn length)
      else
        rmap (fun p => packplan p length) (cfftp.cfftp sincos_2pibyn length).

Definition backward (P : plan) (c : list T0) (fct : T0) : result (list T0) :=
  match P with
  | packplan p _ => through_cast (fun z => cfftp.backward p z fct) c
  | blueplan p _ => fftblue.backward p c fct
  end.

Definition forward (P : plan) (c : list T0) (fct : T0) : result (list T0) :=
  match P with
  | packplan p _ => through_cast (fun z => cfftp.forward p z fct) c
  | blueplan p _ => fftblue.forward p c fct
  end.

Definition length (P : plan) : Z :=
  match P with packplan _ len => len | blueplan _ len => len end.

End defs.
End pocketfft_c.

Module pocketfft_r.
Section defs.
Context {T0 : Type} {ST : Scalar T0}.
Variable sincos_2pibyn : Z -> bool -> nat -> T0.

Inductive plan : Type :=
| packplan (p : rfftp.plan (T0 := T0)) (len : Z)
| blueplan (p : fftblue.plan (T0 := T0)) (len : Z).

Definition pocketfft_r (length : Z) : result plan :=
  if (length =? 0)%Z then Throw "zero-length FFT requested"
  else
    small <- (if (length <? 50)%Z then Ok true else lpf_small length) ;;
    if small : bool then
      rmap (fun p => packplan p length) (rfftp.rfftp sincos_2pibyn length)
    else
      c1 <- helpers.cost_guess length ;;
      let comp1 := (0.5 * c1)%float in
      g <- helpers.good_size (wrap (2 * length - 1)) ;;
      c <- helpers.cost_guess g ;;
      let comp2 := (2 * c)%float in
      let comp2 := (comp2 * 1.5)%float in (* fudge factor that appears to give good overall performance *)
      if (comp2 <? comp1)%float then (* use Bluestein *)
        rmap (fun p => blueplan p length) (fftblue.fftblue sincos_2pibyn length)
      else
        rmap (fun p => packplan p length) (rfftp.rfftp sincos_2pibyn length).

Definition backward (P : plan) (c : list T0) (fct : T0) : result (list T0) :=
  match P with
  | packplan p _ => rfftp.backward p c fct
  | blueplan p _ => fftblue.backward_r p c fct
  end.

Definition forward (P : plan) (c : list T0) (fct : T0) : result (list T0) :=
  match P with
  | packplan p _ => rfftp.forward p c fct
  | blueplan p _ => fftblue.forward_r p c fct
  end.

Definition length (P : plan) : Z :=
  match P with packplan _ len => len | blueplan _ len => len end.

End defs.
End pocketfft_r.

(** ** Instances of the scalar type *)

(** [T0 = double]. *)
#[export] Instance float_Scalar : Scalar float := {|
  lit := fun f => f;
  sadd := PrimFloat.add;
  ssub := PrimFloat.sub;
  smul := PrimFloat.mul;
  sneg := PrimFloat.opp;
  seqb := PrimFloat.eqb
|}.

(** Integer samples: exact arithmetic, literals converted by truncation. *)
#[export] Instance Z_Scalar : Scalar Z := {|
  lit := Z_of_float;
  sadd := Z.add;
  ssub := Z.sub;
  smul := Z.mul;
  sneg := Z.opp;
  seqb := Z.eqb
|}.

(** [s] times a buffer, elementwise. *)
Definition scale {T0 : Type} {ST : Scalar T0} (s : T0) (c : list T0) : list T0 :=
  map (fun x => s *! x) c.

(** ** Specification vocabulary *)

(** [m] is a composite of 2, 3, 5, 7 and 11. *)
Definition smooth11 (m : Z) : Prop :=
  exists a b c d e : nat,
    m = (2 ^ Z.of_nat a * 3 ^ Z.of_nat b * 5 ^ Z.of_nat c
         * 7 ^ Z.of_nat d * 11 ^ Z.of_nat e)%Z.

(** The factor sequence without the cap [NFCT]: what [factorize] stores when
    its array is long enough.  [strip d] divides the factors [d] out of
    [len] and counts them. *)
Fixpoint strip (d : Z) (fuel : nat) (len : Z) : nat * Z :=
  match fuel with
  | O => (0, len)
  | Datatypes.S fuel' =>
      if (len mod d =? 0)%Z
      then let '(k, r) := strip d fuel' (len / d)%Z in (Datatypes.S k, r)
      else (0, len)
  end.

Definition strip_all (d len : Z) : nat * Z :=
  strip d (Datatypes.S (Z.to_nat (Z.log2 len))) len.

(** Trial division by [divisor], [divisor+2], .. below [sqrt len + 1]: the
    factors found, and what is left of [len]. *)
Fixpoint trial (fuel : nat) (divisor len : Z) : list Z * Z :=
  match fuel with
  | O => ([], len)
  | Datatypes.S fuel' =>
      if ((1 <? len) && (divisor <? Z.sqrt len + 1))%Z then
        let '(k, len') := strip_all divisor len in
        let '(l, r) := trial fuel' (divisor + 2)%Z len' in
        (repeat divisor k ++ l, r)
      else ([], len)
  end.

Definition factor_seq (length : Z) : list Z :=
  let '(k4, len) := strip_all 4 length in
  let '(two, len) := if (len mod 2 =? 0)%Z then ([2%Z], (len / 2)%Z) else ([], len) in
  let '(odds, len) := trial (Z.to_nat (Z.sqrt len + 1)) 3 len in
  two ++ repeat 4%Z k4 ++ odds ++ (if (1 <? len)%Z then [len] else []).

(** The product of a factor list. *)
Definition product (l : list Z) : Z := fold_right Z.mul 1%Z l.

Section vocabulary.
Local Open Scope Z_scope.

(** What one level of the loop nest owes the level above: called at [f]
    below [bestfac], it lowers [bestfac] to the least candidate [m >= n]
    among the values [S f] that it and the levels inside visit. *)
Definition level_ok (n : Z) (S : Z -> Z -> Prop) (body : Z -> Z -> result Z) : Prop :=
  (forall f m, 1 <= f -> S f m -> f <= m)
  /\ forall f best, 1 <= f < best -> best <= 2 * n ->
       exists best', body f best = Ok best'
         /\ best' <= best
         /\ (best' = best \/ (S f best' /\ n <= best'))
         /\ (forall m, S f m -> n <= m -> best' <= m).

Definition too_many : string := "too many prime factors".

(* the trial-division loop of [factorize], named *)
Definition trial_cond : Z * Z * Z * list Z -> bool :=
  fun '(divisor, len, maxl, fcts) => (1 <? len) && (divisor <? maxl).

Definition trial_body : Z * Z * Z * list Z -> result (Z * Z * Z * list Z) :=
  fun '(divisor, len, maxl, fcts) =>
    if len mod divisor =? 0 then
      '(len, fcts) <-
         while_ (Datatypes.S NFCT) (fun '(len, fcts) => len mod divisor =? 0)
           (fun '(len, fcts) =>
              fcts <- cfftp.add_factor divisor fcts ;; Ok (len / divisor, fcts))
           (len, fcts) ;;
      Ok (divisor + 2, len, helpers.isqrt len + 1, fcts)
    else Ok (divisor + 2, len, maxl, fcts).

(** [rough d len]: [len] has no divisor strictly between 1 and [d]. *)
Definition rough (d len : Z) : Prop := forall q, 1 < q < d -> ~ (q | len).

End vocabulary.

(** ** Factors of a constructed plan *)

(** What the generic pass needs of a factor of a constructed plan. *)
Definition generic_ready {T0 : Type} (d : cfftp.fctdata (T0 := T0)) : Prop :=
  (cfftp.fct d = 2 \/ cfftp.fct d = 4 \/ Z.prime (cfftp.fct d))%Z
  /\ (11 < Z.to_nat (cfftp.fct d) -> List.length (cfftp.tws d) = Z.to_nat (cfftp.fct d)).

(** The same for a real plan, whose table [tws] holds [2*ip] scalars. *)
Definition generic_ready_r {T0 : Type} (d : rfftp.fctdata (T0 := T0)) : Prop :=
  (rfftp.fct d = 2 \/ rfftp.fct d = 4 \/ Z.prime (rfftp.fct d))%Z
  /\ (5 < Z.to_nat (rfftp.fct d) -> List.length (rfftp.tws d) = 2 * Z.to_nat (rfftp.fct d)).

(** ** Multi-D infrastructure: [multiarr] and [multi_iter] *)

Module multi.
Local Open Scope Z_scope.

(** The [int64_t] a 64-bit pattern stands for. *)
Definition sint (x : Z) : Z := if x <? 2 ^ 63 then x else x - 2 ^ 64.

(** [struct diminfo { size_t n; int64_t s; }] *)
Record diminfo : Type := mk_diminfo { n : Z; s : Z }.

(** [multiarr(n, s)]: [dim[i] = {n[i], s[i]}], for strides [s] of at least
    as many entries as [n]. *)
Definition multiarr (shape : list Z) (strides : list Z) : list diminfo :=
  map (fun '(a, b) => mk_diminfo a b) (combine shape strides).

Definition size (arr : list diminfo) (i : nat) : Z := n (nth i arr (mk_diminfo 0 0)).
Definition stride (arr : list diminfo) (i : nat) : Z := s (nth i arr (mk_diminfo 0 0)).

Record multi_iter : Type := mk_iter {
  dim : list diminfo; pos : list Z; ofs_ : Z; len : Z; str : Z; rem : Z; done_ : bool }.

(** The constructor [multi_iter(arr, idim)].  With no dimension at all
    [pos(arr.ndim()-1, 0)] asks for a vector of [SIZE_MAX] entries, which
    throws; an axis that is not one of the array is read outside [dim]. *)
Definition multi_iter_new (arr : list diminfo) (idim : nat) : result multi_iter :=
  if (List.length arr =? 0)%nat
  then Throw "cannot create std::vector larger than max_size()"
  else if (List.length arr <=? idim)%nat then Stuck "axis outside the array"
  else
    let '(dim, done_, rem) :=
      for_ 0 (List.length arr) (fun i '(dim, done_, rem) =>
        if (i =? idim)%nat then (dim, done_, rem)
        else (dim ++ [mk_diminfo (size arr i) (stride arr i)],
              done_ || (size arr i =? 0),
              sint (wrap (rem * size arr i))))
        ([], false, 1) in
    Ok (mk_iter dim (repeat 0 (List.length arr - 1)) 0 (size arr idim) (stride arr idim)
          rem done_).

(** The loop [for (int i=pos.size()-1; i>=0; --i)] of [advance]: the last
    index moves first; the flag tells whether the loop left by [return]. *)
Fixpoint carry (dim : list diminfo) (pos : list Z) (ofs : Z) : list Z * Z * bool :=
  match dim, pos with
  | d :: dim', p :: pos' =>
      let '(pos'', ofs, returned) := carry dim' pos' ofs in
      if returned : bool then (p :: pos'', ofs, true)
      else
        let p := wrap (p + 1) in
        let ofs := wrap (ofs + s d) in
        if p <? n d then (p :: pos'', ofs, true)
        else (0 :: pos'', wrap (ofs - wrap (n d * s d)), false)
  | _, _ => (pos, ofs, false)
  end.

Definition advance (it : multi_iter) : multi_iter :=
  let rem := sint (wrap (rem it - 1)) in
  if rem <=? 0 then mk_iter (dim it) (pos it) (ofs_ it) (len it) (str it) rem true
  else
    let '(pos, ofs, returned) := carry (dim it) (pos it) (ofs_ it) in
    mk_iter (dim it) pos ofs (len it) (str it) rem
      (if returned : bool then done_ it else true).

Definition done (it : multi_iter) : bool := done_ it.
Definition offset (it : multi_iter) : Z := ofs_ it.
Definition length (it : multi_iter) : Z := len it.
Definition remaining (it : multi_iter) : Z := rem it.

End multi.

(** The number of lines an iterator visits, the row-major rank of a
    position, and the offset of a position. *)
Definition volume (dims : list multi.diminfo) : Z := product (map multi.n dims).

Fixpoint rank (dims : list multi.diminfo) (pos : list Z) : Z :=
  match dims, pos with
  | d :: dims', p :: pos' => (p * volume dims' + rank dims' pos')%Z
  | _, _ => 0%Z
  end.

Fixpoint dot (dims : list multi.diminfo) (pos : list Z) : Z :=
  match dims, pos with
  | d :: dims', p :: pos' => (p * multi.s d + dot dims' pos')%Z
  | _, _ => 0%Z
  end.

Definition in_shape (dims : list multi.diminfo) (pos : list Z) : Prop :=
  Forall2 (fun d p => (0 <= p < multi.n d)%Z) dims pos.

(** The dimensions other than [idim]. *)
Definition others (arr : list multi.diminfo) (idim : nat) : list multi.diminfo :=
  firstn idim arr ++ skipn (Datatypes.S idim) arr.

(** ** Transforms along the axes of an array *)

Module general.
Section defs.
Context {T0 : Type} {ST : Scalar T0}.
Variable sincos_2pibyn : Z -> bool -> nat -> T0.
Local Open Scope Z_scope.

(** The caller's arrays, reached through [data_in] and [data_out]: a cell
    for every index.  The code never asks which cells are the caller's. *)
Definition mem (X : Type) : Type := Z -> X.

Definition store {X : Type} (d : mem X) (k : Z) (v : X) : mem X :=
  fun j => if j =? k then v else d j.

(** [int axis = axes[iax]]: the [size_t] cut to 32 bits. *)
Definition to_int (x : Z) : Z :=
  let y := x mod 2 ^ 32 in if y <? 2 ^ 31 then y else y - 2 ^ 32.

(** [alloc_tmp(shape, axes, elemsize)]: the longest of the axes, each read
    as [shape[axes[i]]]; the allocation itself is taken to succeed.  Of the
    temporary a line of length [len] uses the first [len] cells. *)
Definition alloc_tmp (shape axes : list Z) : result Z :=
  fold_left (fun acc a =>
      tmpsize <- acc ;;
      match nth_error shape (Z.to_nat a) with
      | Some n => Ok (Z.max tmpsize n)
      | None => Stuck "axis outside the shape"
      end) axes (Ok 0).

(** [if ((!plan) || (it_in.length()!=plan->length())) plan.reset(new ...)] *)
Definition get_plan {P : Type} (new : Z -> result P) (length : P -> Z)
  (plan : option P) (len : Z) : result P :=
  match plan with
  | Some p => if negb (len =? length p) then new len else Ok p
  | None => new len
  end.

(** [while (cond(it_in)) { body; it_in.advance(); it_out.advance(); }]:
    every turn takes one off [remaining()]. *)
Definition each_line {S : Type} (cond : multi.multi_iter -> bool)
  (body : multi.multi_iter -> multi.multi_iter -> S -> result S)
  (it_in it_out : multi.multi_iter) (s : S) : result S :=
  rmap snd
    (while_ (Z.to_nat (Z.max 1 (multi.remaining it_in)))
       (fun st => cond (fst (fst st)))
       (fun '(it_in, it_out, s) =>
          s <- body it_in it_out s ;;
          Ok (multi.advance it_in, multi.advance it_out, s))
       (it_in, it_out, s)).

(** The state of the loop over the axes; [data_in = None] once [data_in]
    and [data_out] are the same pointer. *)
Record axes_state (P X : Type) : Type := mk_axes_state {
  a_in : list multi.diminfo;
  data_in : option (mem X);
  plan : option P;
  fct : T0;
  data_out : mem X
}.
Arguments mk_axes_state {P X}.
Arguments a_in {P X}.
Arguments data_in {P X}.
Arguments plan {P X}.
Arguments fct {P X}.
Arguments data_out {P X}.

(** The loop over the axes.  The constructors of an axis throw before any
    store of that axis, and the transforms do not throw: the array an
    exception leaves behind is the one the axes before it made. *)
Fixpoint axes_loop {P X : Type} (step : Z -> axes_state P X -> result (axes_state P X))
  (axes : list Z) (st : axes_state P X) : mem X * result unit :=
  match axes with
  | [] => (data_out st, Ok tt)
  | axis :: rest =>
      match step axis st with
      | Ok st' => axes_loop step rest st'
      | Throw what => (data_out st, Throw what)
      | Stuck why => (data_out st, Stuck why)
      end
  end.

Definition source {X : Type} (data_in : option (mem X)) (data_out : mem X) : mem X :=
  match data_in with Some d => d | None => data_out end.

(** [tdata[i] = data_in[it_in.offset() + i*it_in.stride()]] for [i < length()] *)
Definition load_line {X : Type} (d : mem X) (it : multi.multi_iter) : list X :=
  map (fun i => d (wrap (multi.offset it + Z.of_nat i * multi.str it)))
      (seq 0 (Z.to_nat (multi.length it))).

(** [data_out[it_out.offset()+i*it_out.stride()] = tdata[i]] for [i < length()] *)
Definition store_line (d : mem (cmplx T0)) (it : multi.multi_iter)
  (tdata : list (cmplx T0)) : mem (cmplx T0) :=
  for_ 0 (Z.to_nat (multi.length it))
    (fun i d => store d (wrap (multi.offset it + Z.of_nat i * multi.str it)) (rdc tdata i))
    d.

Definition line_c (forward : bool) (plan : pocketfft_c.plan) (fct : T0)
  (data_in : option (mem (cmplx T0))) (it_in it_out : multi.multi_iter)
  (data_out : mem (cmplx T0)) : result (mem (cmplx T0)) :=
  let tdata := load_line (source data_in data_out) it_in in
  t <- (if forward then pocketfft_c.forward plan (of_cmplx tdata) fct
        else pocketfft_c.backward plan (of_cmplx tdata) fct) ;;
  Ok (store_line data_out it_out (to_cmplx t)).

Definition axis_c (forward : bool) (a_out : list multi.diminfo) (axis : Z)
  (st : axes_state pocketfft_c.plan (cmplx T0))
  : result (axes_state pocketfft_c.plan (cmplx T0)) :=
  let axis := Z.to_nat (wrap (to_int axis)) in
  it_in <- multi.multi_iter_new (a_in st) axis ;;
  it_out <- multi.multi_iter_new a_out axis ;;
  plan <- get_plan (pocketfft_c.pocketfft_c sincos_2pibyn) pocketfft_c.length
            (plan st) (multi.length it_in) ;;
  data_out <- each_line (fun it => 0 <? multi.remaining it)
                (line_c forward plan (fct st) (data_in st)) it_in it_out (data_out st) ;;
  (* after the first dimension, take data from output array;
     factor has been applied, use 1 for remaining axes *)
  Ok (mk_axes_state a_out None (Some plan) (lit 1) data_out).

Definition pocketfft_general_c (shape stride_in stride_out axes : list Z)
  (forward : bool) (data_in : option (mem (cmplx T0))) (data_out : mem (cmplx T0))
  (fct : T0) : mem (cmplx T0) * result unit :=
  match alloc_tmp shape axes with
  | Ok _ =>
      let a_in := multi.multiarr shape stride_in in
      let a_out := multi.multiarr shape stride_out in
      axes_loop (axis_c forward a_out) axes (mk_axes_state a_in data_in None fct data_out)
  | Throw what => (data_out, Throw what)
  | Stuck why => (data_out, Stuck why)
  end.

(** The stores of one line in Hartley order. *)
Definition hartley_store (d : mem T0) (it : multi.multi_iter) (tdata : list T0) : mem T0 :=
  let rdr := rd (lit 0) tdata in
  let at_ (k : Z) := wrap (multi.offset it + k * multi.str it) in
  let d := store d (multi.offset it) (rdr 0%nat) in
  let '(i, i1, i2, d) :=
    for2_ 1 (Z.to_nat (wrap (multi.length it - 1)))
      (fun i '(_, i1, i2, d) =>
         let d := store d (at_ i1) (rdr i +! rdr (i + 1)%nat) in
         let d := store d (at_ i2) (rdr i -! rdr (i + 1)%nat) in
         ((i + 2)%nat, wrap (i1 + 1), wrap (i2 - 1), d))
      (1%nat, 1, wrap (multi.length it - 1), d) in
  if Z.of_nat i <? multi.length it then store d (at_ i1) (rdr i) else d.

Definition line_hartley (plan : pocketfft_r.plan) (fct : T0)
  (data_in : option (mem T0)) (it_in it_out : multi.multi_iter)
  (data_out : mem T0) : result (mem T0) :=
  let tdata := load_line (source data_in data_out) it_in in
  tdata <- pocketfft_r.forward plan tdata fct ;;
  Ok (hartley_store data_out it_out tdata).

Definition axis_hartley (a_out : list multi.diminfo) (axis : Z)
  (st : axes_state pocketfft_r.plan T0) : result (axes_state pocketfft_r.plan T0) :=
  let axis := Z.to_nat (wrap (to_int axis)) in
  it_in <- multi.multi_iter_new (a_in st) axis ;;
  it_out <- multi.multi_iter_new a_out axis ;;
  plan <- get_plan (pocketfft_r.pocketfft_r sincos_2pibyn) pocketfft_r.length
            (plan st) (multi.length it_in) ;;
  data_out <- each_line (fun it => 0 <? multi.remaining it)
                (line_hartley plan (fct st) (data_in st)) it_in it_out (data_out st) ;;
  Ok (mk_axes_state a_out None (Some plan) (lit 1) data_out).

Definition pocketfft_general_hartley (shape stride_in stride_out axes : list Z)
  (data_in : option (mem T0)) (data_out : mem T0) (fct : T0)
  : mem T0 * result unit :=
  match alloc_tmp shape axes with
  | Ok _ =>
      let a_in := multi.multiarr shape stride_in in
      let a_out := multi.multiarr shape stride_out in
      axes_loop (axis_hartley a_out) axes (mk_axes_state a_in data_in None fct data_out)
  | Throw what => (data_out, Throw what)
  | Stuck why => (data_out, Stuck why)
  end.






(** [pocketfft_complex] at the precision [T0] that [dp] selects, on arrays
    [shape], [stride_in], [stride_out] of [ndim] entries and [axes] of [nax]
    entries: the return code and the output array left behind. *)
Definition pocketfft_complex (shape stride_in stride_out axes : list Z) (forward : Z)
  (data_in : option (mem (cmplx T0))) (data_out : mem (cmplx T0)) (fct : T0)
  : result (Z * mem (cmplx T0)) :=
  let ndim := List.length shape in
  let nax := List.length axes in
  if (ndim <? nax)%nat then Ok (1, data_out)
  else if negb ((ndim <=? List.length stride_in)%nat && (ndim <=? List.length stride_out)%nat)
  then Stuck "strides of fewer than ndim entries"
  else
    match pocketfft_general_c shape stride_in stride_out axes (negb (forward =? 0))
            data_in data_out fct with
    | (data_out, Ok _) => Ok (0, data_out)
    | (data_out, Throw _) => Ok (1, data_out)
    | (_, Stuck why) => Stuck why
    end.

End defs.

Arguments mk_axes_state {T0 P X}.
Arguments a_in {T0 P X}.
Arguments data_in {T0 P X}.
Arguments plan {T0 P X}.
Arguments fct {T0 P X}.
Arguments data_out {T0 P X}.

End general.

(** ** The table of roots of unity: [class sincos_2pibyn] *)

(** The table is an array of [2*n] doubles that the constructor fills in
    place, part of it from other parts.  A cell is [None] until it is
    written; a read of such a cell, and any access outside the array, is
    where the model stops.  The polynomial kernel [my_sincosm1pi] is taken
    as given (it is built on [fma]). *)
Module twiddle.
Section defs.
Variable my_sincosm1pi : float -> float * float.
Local Open Scope Z_scope.

Definition cells : Type := list (option float).

Definition get (res : cells) (i : Z) : result float :=
  if (i <? 0) || (Z.of_nat (List.length res) <=? i)
  then Stuck "read outside the table"
  else match nth (Z.to_nat i) res None with
       | Some v => Ok v
       | None => Stuck "read of a cell never written"
       end.

Definition put (res : cells) (i : Z) (v : float) : result cells :=
  if (i <? 0) || (Z.of_nat (List.length res) <=? i)
  then Stuck "write outside the table"
  else Ok (upd res (Z.to_nat i) (Some v)).

(** [(2.*i)/den] *)
Definition arg (i den : Z) : float := (2 * float_of_Z i / float_of_Z den)%float.

(** [calc_first_octant(den, res)] with [res] the array at offset [p]. *)
Definition calc_first_octant (den : Z) (res : cells) (p : Z) : result cells :=
  let n := Z.shiftr (wrap (den + 4)) 3 in
  if n =? 0 then Ok res
  else
    res <- put res (p + 0) 1%float ;;
    res <- put res (p + 1) 0%float ;;
    if n =? 1 then Ok res
    else
      let l1 := helpers.isqrt n in
      '(_, res) <-
         while_ (Z.to_nat n) (fun '(i, _) => i <? l1)
           (fun '(i, res) =>
              let cs := my_sincosm1pi (arg i den) in
              res <- put res (p + 2 * i) (fst cs) ;;
              res <- put res (p + 2 * i + 1) (snd cs) ;;
              Ok (i + 1, res))
           (1, res) ;;
      '(_, res) <-
         while_ (Z.to_nat n) (fun '(start, _) => start <? n)
           (fun '(start, res) =>
              let cs := my_sincosm1pi (arg start den) in
              res <- put res (p + 2 * start) (fst cs + 1)%float ;;
              res <- put res (p + (2 * start + 1)) (snd cs) ;;
              let end_ := l1 in
              let end_ := if n <? start + end_ then n - start else end_ in
              '(_, res) <-
                 while_ (Z.to_nat n) (fun '(i, _) => i <? end_)
                   (fun '(i, res) =>
                      csx0 <- get res (p + 2 * i) ;;
                      csx1 <- get res (p + (2 * i + 1)) ;;
                      res <- put res (p + 2 * (start + i))
                               (((fst cs * csx0 - snd cs * csx1 + fst cs) + csx0) + 1)%float ;;
                      res <- put res (p + (2 * (start + i) + 1))
                               ((fst cs * csx1 + snd cs * csx0) + snd cs + csx1)%float ;;
                      Ok (i + 1, res))
                   (1, res) ;;
              Ok (start + l1, res))
           (l1, res) ;;
      '(_, res) <-
         while_ (Z.to_nat n) (fun '(i, _) => i <? l1)
           (fun '(i, res) =>
              v <- get res (p + 2 * i) ;;
              res <- put res (p + 2 * i) (v + 1)%float ;;
              Ok (i + 1, res))
           (1, res) ;;
      Ok res.

(** [calc_first_quadrant(n, res)]: the octant is computed at [p = res+n]. *)
Definition calc_first_quadrant (n : Z) (res : cells) : result cells :=
  let p := n in
  res <- calc_first_octant (wrap (Z.shiftl n 1)) res p ;;
  let ndone := Z.shiftr (wrap (n + 2)) 2 in
  '(i, idx1, idx2, res) <-
     while_ (Z.to_nat ndone) (fun '(i, _, _, _) => wrap (i + 1) <? ndone)
       (fun '(i, idx1, idx2, res) =>
          v <- get res (p + 2 * i) ;;
          res <- put res idx1 v ;;
          v <- get res (p + (2 * i + 1)) ;;
          res <- put res (idx1 + 1) v ;;
          v <- get res (p + (2 * i + 3)) ;;
          res <- put res idx2 v ;;
          v <- get res (p + (2 * i + 2)) ;;
          res <- put res (idx2 + 1) v ;;
          Ok (i + 2, idx1 + 2, wrap (idx2 - 2), res))
       (0, 0, wrap (2 * ndone - 2), res) ;;
  if negb (i =? ndone) then
    v <- get res (p + 2 * i) ;;
    res <- put res idx1 v ;;
    v <- get res (p + (2 * i + 1)) ;;
    put res (idx1 + 1) v
  else Ok res.

(** [calc_first_half(n, res)]: the octant is computed at [p = res+n-1];
    the counters are [int]s. *)
Definition calc_first_half (n : Z) (res : cells) : result cells :=
  let ndone := general.to_int (Z.shiftr (wrap (n + 1)) 1) in
  let p := n - 1 in
  res <- calc_first_octant (wrap (Z.shiftl n 2)) res p ;;
  let in_ := general.to_int n in
  '(i4, i, res) <-
     while_ (Z.to_nat n) (fun '(i4, _, _) => i4 <=? in_ - i4) (* octant 0 *)
       (fun '(i4, i, res) =>
          v <- get res (p + 2 * i4) ;;
          res <- put res (2 * i) v ;;
          v <- get res (p + (2 * i4 + 1)) ;;
          res <- put res (2 * i + 1) v ;;
          Ok (i4 + 4, i + 1, res))
       (0, 0, res) ;;
  '(i4, i, res) <-
     while_ (Z.to_nat n) (fun '(i4, _, _) => i4 - in_ <=? 0) (* octant 1 *)
       (fun '(i4, i, res) =>
          let xm := in_ - i4 in
          v <- get res (p + (2 * xm + 1)) ;;
          res <- put res (2 * i) v ;;
          v <- get res (p + 2 * xm) ;;
          res <- put res (2 * i + 1) v ;;
          Ok (i4 + 4, i + 1, res))
       (i4, i, res) ;;
  '(i4, i, res) <-
     while_ (Z.to_nat n) (fun '(i4, _, _) => i4 <=? 3 * in_ - i4) (* octant 2 *)
       (fun '(i4, i, res) =>
          let xm := i4 - in_ in
          v <- get res (p + (2 * xm + 1)) ;;
          res <- put res (2 * i) (- v)%float ;;
          v <- get res (p + 2 * xm) ;;
          res <- put res (2 * i + 1) v ;;
          Ok (i4 + 4, i + 1, res))
       (i4, i, res) ;;
  '(_, _, res) <-
     while_ (Z.to_nat n) (fun '(_, i, _) => i <? ndone) (* octant 3 *)
       (fun '(i4, i, res) =>
          let xm := 2 * in_ - i4 in
          v <- get res (p + 2 * xm) ;;
          res <- put res (2 * i) (- v)%float ;;
          v <- get res (p + (2 * xm + 1)) ;;
          res <- put res (2 * i + 1) v ;;
          Ok (i4 + 4, i + 1, res))
       (i4, i, res) ;;
  Ok res.

Definition hsqt2 : float := 0.707106781186547524400844362104849%float.

Definition fill_first_quadrant (n : Z) (res : cells) : result cells :=
  let quart := Z.shiftr n 2 in
  res <- (if Z.land n 7 =? 0 then
            res <- put res (quart + 1) hsqt2 ;;
            put res quart hsqt2
          else Ok res) ;;
  '(_, _, res) <-
     while_ (Z.to_nat n) (fun '(i, _, _) => i <? quart)
       (fun '(i, j, res) =>
          v <- get res (i + 1) ;;
          res <- put res j v ;;
          v <- get res i ;;
          res <- put res (j + 1) v ;;
          Ok (i + 2, wrap (j - 2), res))
       (2, wrap (2 * quart - 2), res) ;;
  Ok res.

Definition fill_first_half (n : Z) (res : cells) : result cells :=
  let half := Z.shiftr n 1 in
  if Z.land n 3 =? 0 then
    '(_, res) <-
       while_ (Z.to_nat n) (fun '(i, _) => i <? half)
         (fun '(i, res) =>
            v <- get res (i + 1) ;;
            res <- put res (i + half) (- v)%float ;;
            v <- get res i ;;
            res <- put res (i + half + 1) v ;;
            Ok (i + 2, res))
         (0, res) ;;
    Ok res
  else
    '(_, _, res) <-
       while_ (Z.to_nat n) (fun '(i, _, _) => i <? half)
         (fun '(i, j, res) =>
            v <- get res i ;;
            res <- put res j (- v)%float ;;
            v <- get res (i + 1) ;;
            res <- put res (j + 1) v ;;
            Ok (i + 2, wrap (j - 2), res))
         (2, wrap (2 * half - 2), res) ;;
    Ok res.

Definition fill_second_half (n : Z) (res : cells) : result cells :=
  if Z.land n 1 =? 0 then
    '(_, res) <-
       while_ (Z.to_nat n) (fun '(i, _) => i <? n)
         (fun '(i, res) =>
            v <- get res i ;;
            res <- put res (i + n) (- v)%float ;;
            Ok (i + 1, res))
         (0, res) ;;
    Ok res
  else
    '(_, _, res) <-
       while_ (Z.to_nat n) (fun '(i, _, _) => i <? n)
         (fun '(i, j, res) =>
            v <- get res i ;;
            res <- put res j v ;;
            v <- get res (i + 1) ;;
            res <- put res (j + 1) (- v)%float ;;
            Ok (i + 2, wrap (j - 2), res))
         (2, wrap (2 * n - 2), res) ;;
    Ok res.

Definition sincos_2pibyn_half (n : Z) (res : cells) : result cells :=
  if Z.land n 3 =? 0 then
    res <- calc_first_octant n res 0 ;;
    res <- fill_first_quadrant n res ;;
    fill_first_half n res
  else if Z.land n 1 =? 0 then
    res <- calc_first_quadrant n res ;;
    fill_first_half n res
  else calc_first_half n res.

(** The constructor [sincos_2pibyn(n, half)]: the array [data] it leaves. *)
Definition sincos_2pibyn (n : Z) (half : bool) : result cells :=
  let data := repeat None (Z.to_nat (wrap (2 * n))) in
  data <- sincos_2pibyn_half n data ;;
  if negb half then fill_second_half n data else Ok data.

End defs.
End twiddle.

(** A cell that has been written, a table that has only gained written
    cells, and a range of written cells. *)
Definition written (res : twiddle.cells) (i : Z) : Prop :=
  (0 <= i < Z.of_nat (List.length res))%Z /\ nth (Z.to_nat i) res None <> None.

Definition grown (res res' : twiddle.cells) : Prop :=
  List.length res' = List.length res /\ forall i, written res i -> written res' i.

Definition all_written (res : twiddle.cells) (a b : Z) : Prop :=
  forall i, (a <= i < b)%Z -> written res i.

(** ** Vocabulary for the arrays *)

(** The position of the first line, and an iterator standing at the
    position of rank [k]. *)
Definition zeros (dims : list multi.diminfo) : list Z :=
  repeat 0%Z (List.length dims).

Definition at_rank (dims : list multi.diminfo) (k : Z) (it : multi.multi_iter) : Prop :=
  multi.dim it = dims /\ in_shape dims (multi.pos it) /\ rank dims (multi.pos it) = k
  /\ multi.ofs_ it = wrap (dot dims (multi.pos it))
  /\ multi.rem it = (volume dims - k)%Z /\ multi.done_ it = false.

(** The cell of entry [i] of the line at position [pos], along the axis
    [idim] of [arr]: [offset() + i*stride()] as a [size_t]. *)
Definition cell (arr : list multi.diminfo) (idim : nat) (pos : list Z) (i : Z) : Z :=
  wrap (wrap (dot (others arr idim) pos) + i * multi.stride arr idim).

(** The line at position [pos], read from [d]. *)
Definition line_of {X : Type} (d : general.mem X) (arr : list multi.diminfo) (idim : nat)
  (pos : list Z) (len : Z) : list X :=
  map (fun i => d (cell arr idim pos (Z.of_nat i))) (seq 0 (Z.to_nat len)).




(** What [pocketfft_general_hartley] stores at entry [k] of an output line
    of length [len], from the half-complex result [tdata]. *)
Definition hartley_entry {T0 : Type} {ST : Scalar T0} (tdata : list T0) (len k : nat) : T0 :=
  if k =? 0 then rd (lit 0) tdata 0
  else if 2 * k <? len then rd (lit 0) tdata (2 * k - 1) +! rd (lit 0) tdata (2 * k)
  else if 2 * k =? len then rd (lit 0) tdata (len - 1)
  else rd (lit 0) tdata (2 * (len - k) - 1) -! rd (lit 0) tdata (2 * (len - k)).

(** What the lines before line [k] have made of the output [d], started
    from [d0]: line by line, [m] entries at the cells [key], holding values
    that [R] relates to the offset of the input line. *)
Definition lines_written {Y : Type} (R : Z -> (nat -> Y) -> Prop) (key : Z -> nat -> Z)
  (m : nat) (dims_in dims_out : list multi.diminfo) (d0 : general.mem Y) (k : Z)
  (d : general.mem Y) : Prop :=
  (forall pos, in_shape dims_out pos -> (rank dims_out pos < k)%Z ->
     exists v, R (wrap (dot dims_in pos)) v
               /\ forall j, j < m -> d (key (wrap (dot dims_out pos)) j) = v j)
  /\ (forall c,
        (forall pos j, in_shape dims_out pos -> (rank dims_out pos < k)%Z -> j < m ->
           c <> key (wrap (dot dims_out pos)) j) ->
        d c = d0 c).

Section driver_vocabulary.
Context {T0 : Type} {ST : Scalar T0}.
Variable sincos_2pibyn : Z -> bool -> nat -> T0.
Local Open Scope Z_scope.

(** The transform of one line, as [line_c] calls it. *)
Definition transform_c (forward : bool) (P : pocketfft_c.plan) (fct : T0)
  (l : list (cmplx T0)) : result (list (cmplx T0)) :=
  rmap to_cmplx (if forward then pocketfft_c.forward P (of_cmplx l) fct
                 else pocketfft_c.backward P (of_cmplx l) fct).

(** What the lines before line [k] have made of the output of
    [pocketfft_general_c], when the input is read from [src]. *)
Definition lines_done (forward : bool) (P : pocketfft_c.plan) (fct : T0)
  (src : general.mem (cmplx T0)) (a_in a_out : list multi.diminfo) (idim : nat)
  (data_out : general.mem (cmplx T0)) (k : Z) (d : general.mem (cmplx T0)) : Prop :=
  (forall pos, in_shape (others a_out idim) pos -> rank (others a_out idim) pos < k ->
     exists t,
       transform_c forward P fct (line_of src a_in idim pos (multi.size a_out idim)) = Ok t
       /\ forall i, (i < Z.to_nat (multi.size a_out idim))%nat ->
            d (cell a_out idim pos (Z.of_nat i)) = rdc t i)
  /\ (forall c,
        (forall pos i, in_shape (others a_out idim) pos -> rank (others a_out idim) pos < k ->
           0 <= i < multi.size a_out idim -> c <> cell a_out idim pos i) ->
        d c = data_out c).

(** A plan kept from an earlier axis is the plan its length constructs. *)
Definition kept_plan (plan : option pocketfft_c.plan) : Prop :=
  match plan with
  | Some p => pocketfft_c.pocketfft_c sincos_2pibyn (pocketfft_c.length p) = Ok p
  | None => True
  end.

End driver_vocabulary.

(** * Properties *)

(** ** Outcomes and loops *)

Lemma bind_Ok {A B : Type} (m : result A) (k : A -> result B) (b : B) :
  bind m k = Ok b -> exists a, m = Ok a /\ k a = Ok b.
Proof. destruct m; simpl; intros H; try discriminate. eauto. Qed.

Lemma rmap_Ok {A B : Type} (f : A -> B) (m : result A) (b : B) :
  rmap f m = Ok b -> exists a, m = Ok a /\ b = f a.
Proof.
  unfold rmap. intros H. apply bind_Ok in H. destruct H as [a [Ha Hb]].
  exists a. split; [assumption | congruence].
Qed.

Lemma upd_length {A : Type} (l : list A) (n : nat) (v : A) :
  List.length (upd l n v) = List.length l.
Proof.
  revert n; induction l as [|h t IH]; intros [|n]; simpl; auto.
Qed.

Lemma nth_upd_same {A : Type} (d : A) (l : list A) (n : nat) (v : A) :
  n < List.length l -> nth n (upd l n v) d = v.
Proof.
  revert n; induction l as [|h t IH]; intros [|n]; simpl; intros Hn;
    try lia; auto. apply IH. lia.
Qed.

Lemma nth_upd_other {A : Type} (d : A) (l : list A) (n m : nat) (v : A) :
  n <> m -> nth m (upd l n v) d = nth m l d.
Proof.
  revert n m; induction l as [|h t IH]; intros [|n] [|m]; simpl; intros Hn;
    try lia; auto.
Qed.

(** An invariant of the buffer carried by a [for] loop. *)
Lemma for_inv {S : Type} (I : S -> Prop) (lo hi : nat) (body : nat -> S -> S) (s : S) :
  (forall i s, I s -> I (body i s)) -> I s -> I (for_ lo hi body s).
Proof.
  intros Hb. unfold for_. generalize (seq lo (hi - lo)) as l. intros l; revert s.
  induction l as [|a l IH]; simpl; intros s Hs; auto.
Qed.

Lemma for2_inv {S : Type} (I : S -> Prop) (lo hi : nat) (body : nat -> S -> S) (s : S) :
  (forall i s, I s -> I (body i s)) -> I s -> I (for2_ lo hi body s).
Proof.
  intros Hb. unfold for2_.
  generalize (map (fun t => lo + 2 * t) (seq 0 ((hi - lo + 1) / 2))) as l.
  intros l; revert s.
  induction l as [|a l IH]; simpl; intros s Hs; auto.
Qed.

Lemma forM_inv {S : Type} (I : S -> Prop) (lo hi : nat)
  (body : nat -> S -> result S) (s s' : S) :
  (forall i s s', I s -> body i s = Ok s' -> I s') ->
  I s -> forM lo hi body s = Ok s' -> I s'.
Proof.
  intros Hb. unfold forM. generalize (seq lo (hi - lo)) as l. intros l; revert s.
  induction l as [|a l IH]; simpl; intros s Hs H.
  - congruence.
  - destruct (body a s) as [s1| |] eqn:E; simpl in H.
    + eapply IH; [|exact H]. eapply Hb; eauto.
    + exfalso. clear -H. induction l; simpl in H; [discriminate | auto].
    + exfalso. clear -H. induction l; simpl in H; [discriminate | auto].
Qed.

(** ** C2: the transform of the ramp of length 4 *)

(** C2.  For N = 4 the forward transform, scale 1, of (1,0),(2,0),(3,0),(4,0)
    is exactly (10,0),(-2,2),(-2,0),(-2,-2): in binary64 arithmetic and in
    exact integer arithmetic, through the dispatcher [pocketfft_c] (which
    builds the mixed-radix plan) and through [cfftp] itself, whatever the
    trigonometric table holds. *)
Theorem C2_forward_ramp_4 :
  (forall twid : Z -> bool -> nat -> float,
      (P <- pocketfft_c.pocketfft_c twid 4 ;;
       pocketfft_c.forward P [1; 0; 2; 0; 3; 0; 4; 0]%float 1%float)
      = Ok [10; 0; -2; 2; -2; 0; -2; -2]%float
      /\ (P <- cfftp.cfftp twid 4 ;;
          cfftp.forward P [mk_cmplx 1 0; mk_cmplx 2 0; mk_cmplx 3 0; mk_cmplx 4 0]%float
            1%float)
         = Ok [mk_cmplx 10 0; mk_cmplx (-2) 2; mk_cmplx (-2) 0; mk_cmplx (-2) (-2)]%float)
  /\ (forall twid : Z -> bool -> nat -> Z,
      (P <- pocketfft_c.pocketfft_c twid 4 ;;
       pocketfft_c.forward P [1; 0; 2; 0; 3; 0; 4; 0]%Z 1%Z)
      = Ok [10; 0; -2; 2; -2; 0; -2; -2]%Z).
Proof.
  split; [intros twid; split | intros twid]; vm_compute; reflexivity.
Qed.

(** ** C7: plans of length 1 *)

Lemma cast_back {T0 : Type} (c : list T0) :
  of_cmplx (to_cmplx c) ++ skipn (2 * List.length (to_cmplx c)) c = c.
Proof.
  assert (H : forall n (c : list T0), List.length c <= n ->
            of_cmplx (to_cmplx c) ++ skipn (2 * List.length (to_cmplx c)) c = c).
  { intros n; induction n as [|n IH]; intros l Hl.
    - destruct l; simpl in *; [reflexivity | lia].
    - destruct l as [|a [|b rest]]; try reflexivity.
      simpl in Hl. cbn [to_cmplx of_cmplx flat_map List.length re im app].
      replace (2 * Datatypes.S (List.length (to_cmplx rest)))
        with (Datatypes.S (Datatypes.S (2 * List.length (to_cmplx rest)))) by lia.
      cbn [skipn]. f_equal. f_equal. apply IH. lia. }
  apply (H (List.length c)). lia.
Qed.

(** C7.  The dispatchers build, for N = 1, the mixed-radix plan of length 1
    with no factor; on it every forward and backward call, complex or real,
    through the dispatcher or on the plan itself, multiplies the single
    element (both parts of the complex sample) by the scale factor and leaves
    the rest of the buffer as it is. *)
Theorem C7_length_one {T0 : Type} {ST : Scalar T0} (twid : Z -> bool -> nat -> T0) :
  let Pc := pocketfft_c.packplan (cfftp.mk_plan 1 []) 1 in
  let Pr := pocketfft_r.packplan (rfftp.mk_plan 1 []) 1 in
  pocketfft_c.pocketfft_c twid 1 = Ok Pc
  /\ pocketfft_r.pocketfft_r twid 1 = Ok Pr
  /\ cfftp.cfftp twid 1 = Ok (cfftp.mk_plan 1 [])
  /\ rfftp.rfftp twid 1 = Ok (rfftp.mk_plan 1 [])
  /\ (forall (xr xi : T0) (rest : list T0) (s : T0),
        pocketfft_c.forward Pc (xr :: xi :: rest) s = Ok (xr *! s :: xi *! s :: rest)
        /\ pocketfft_c.backward Pc (xr :: xi :: rest) s = Ok (xr *! s :: xi *! s :: rest))
  /\ (forall (z : cmplx T0) (rest : list (cmplx T0)) (s : T0),
        cfftp.forward (cfftp.mk_plan 1 []) (z :: rest) s = Ok (cscale z s :: rest)
        /\ cfftp.backward (cfftp.mk_plan 1 []) (z :: rest) s = Ok (cscale z s :: rest))
  /\ (forall (x : T0) (rest : list T0) (s : T0),
        pocketfft_r.forward Pr (x :: rest) s = Ok (x *! s :: rest)
        /\ pocketfft_r.backward Pr (x :: rest) s = Ok (x *! s :: rest)
        /\ rfftp.forward (rfftp.mk_plan 1 []) (x :: rest) s = Ok (x *! s :: rest)
        /\ rfftp.backward (rfftp.mk_plan 1 []) (x :: rest) s = Ok (x *! s :: rest)).
Proof.
  intros Pc Pr.
  assert (Hc : forall (xr xi : T0) (rest : list T0) (s : T0) (bwd : bool),
             through_cast (fun z => cfftp.pass_all bwd (cfftp.mk_plan 1 []) z s)
               (xr :: xi :: rest) = Ok (xr *! s :: xi *! s :: rest)).
  { intros xr xi rest s bwd. unfold through_cast.
    cbn [to_cmplx]. unfold cfftp.pass_all, cfftp.pass_all_with.
    change (Z.to_nat (cfftp.length (cfftp.mk_plan 1 [])) =? 1) with true.
    cbn [bind upd rdc rd nth cscale re im of_cmplx flat_map app List.length].
    replace (2 * Datatypes.S (List.length (to_cmplx rest)))
      with (Datatypes.S (Datatypes.S (2 * List.length (to_cmplx rest)))) by lia.
    cbn [skipn]. do 3 f_equal. apply cast_back. }
  repeat split; try reflexivity; try apply Hc.
Qed.

(** ** Loops that store into every cell of a buffer *)

Section store_loops.
Context {A : Type} (d : A).

(** A loop [for (j=lo; j<lo+k; ++j) c[j] = F(j, c)] whose stored value only
    depends on cells not yet overwritten. *)
Lemma fold_upd_inv (l : list A) (F : nat -> list A -> A) (h : nat -> A) :
  (forall j c, List.length c = List.length l ->
               (forall i, j <= i -> nth i c d = nth i l d) -> F j c = h j) ->
  forall k lo c,
    List.length c = List.length l ->
    (forall i, lo <= i -> nth i c d = nth i l d) ->
    lo + k <= List.length l ->
    let r := fold_left (fun c j => upd c j (F j c)) (seq lo k) c in
    List.length r = List.length l
    /\ (forall i, i < lo -> nth i r d = nth i c d)
    /\ (forall i, lo <= i < lo + k -> nth i r d = h i)
    /\ (forall i, lo + k <= i -> nth i r d = nth i l d).
Proof.
  intros HF k; induction k as [|k IH]; intros lo c Hlen Hc Hk; cbv zeta in *;
    cbn [seq fold_left].
  - repeat split; auto; intros i Hi; try lia. apply Hc; lia.
  - assert (HFlo : F lo c = h lo) by (apply HF; auto).
    destruct (IH (Datatypes.S lo) (upd c lo (F lo c))) as (R1 & R2 & R3 & R4).
    + rewrite upd_length; assumption.
    + intros i Hi. rewrite nth_upd_other by lia. apply Hc. lia.
    + lia.
    + repeat split.
      * exact R1.
      * intros i Hi. rewrite R2 by lia. apply nth_upd_other. lia.
      * intros i Hi. destruct (Nat.eq_dec i lo) as [->|Hne].
        -- rewrite R2 by lia. rewrite HFlo. apply nth_upd_same. lia.
        -- apply R3. lia.
      * intros i Hi. apply R4. lia.
Qed.

Lemma for_upd_fun (f : nat -> A) (l : list A) (n : nat) :
  List.length l = n ->
  for_ 0 n (fun i c => upd c i (f i)) l = map f (seq 0 n).
Proof.
  intros Hn. unfold for_. rewrite Nat.sub_0_r.
  destruct (fold_upd_inv l (fun j _ => f j) f (fun _ _ _ _ => eq_refl) n 0 l)
    as (R1 & _ & R3 & _); auto; try lia.
  apply (nth_ext _ _ d d).
  - rewrite R1, length_map, length_seq. exact Hn.
  - intros i Hi. rewrite R1 in Hi. rewrite R3 by lia.
    rewrite (nth_indep _ d (f 0)) by (rewrite length_map, length_seq; lia).
    rewrite map_nth. rewrite seq_nth by lia. reflexivity.
Qed.

Lemma for_upd_self (g : A -> A) (l : list A) (n : nat) :
  List.length l = n ->
  for_ 0 n (fun i c => upd c i (g (nth i c d))) l = map g l.
Proof.
  intros Hn. unfold for_. rewrite Nat.sub_0_r.
  destruct (fold_upd_inv l (fun j c => g (nth j c d)) (fun j => g (nth j l d)))
    with (k := n) (lo := 0) (c := l) as (R1 & _ & R3 & _); auto; try lia.
  { intros j c _ Hc. rewrite Hc by lia. reflexivity. }
  apply (nth_ext _ _ d (g d)).
  - rewrite R1, length_map. reflexivity.
  - intros i Hi. rewrite R1 in Hi. rewrite R3 by lia.
    rewrite map_nth. reflexivity.
Qed.

Lemma map_nth_seq (l : list A) (n : nat) :
  List.length l = n -> map (fun i => nth i l d) (seq 0 n) = l.
Proof.
  intros Hn. apply (nth_ext _ _ d d).
  - rewrite length_map, length_seq. auto.
  - intros i Hi. rewrite length_map, length_seq in Hi.
    rewrite (nth_indep _ d (nth 0 l d)) by (rewrite length_map, length_seq; lia).
    rewrite (map_nth (fun i => nth i l d)). rewrite seq_nth by lia. reflexivity.
Qed.

(** [for (m=0; m<2*n; m+=2) { c[m] = f(m); c[m+1] = g(m); }] *)
Lemma for2_upd_pairs (f g : nat -> A) (l : list A) (n : nat) :
  List.length l = 2 * n ->
  for2_ 0 (2 * n) (fun m c => upd (upd c m (f m)) (m + 1) (g m)) l
  = flat_map (fun j => [f (2 * j); g (2 * j)]) (seq 0 n).
Proof.
  intros Hn. unfold for2_.
  replace ((2 * n - 0 + 1) / 2) with n
    by (rewrite Nat.sub_0_r; apply (Nat.div_unique (2 * n + 1) 2 n 1); lia).
  assert (H : forall k lo c,
             List.length c = 2 * n -> lo + k <= n ->
             let r := fold_left (fun c m => upd (upd c m (f m)) (m + 1) (g m))
                        (map (fun t => 0 + 2 * t) (seq lo k)) c in
             List.length r = 2 * n
             /\ (forall i, i < 2 * lo -> nth i r d = nth i c d)
             /\ (forall j, lo <= j < lo + k ->
                   nth (2 * j) r d = f (2 * j) /\ nth (2 * j + 1) r d = g (2 * j))).
  { intros k; induction k as [|k IH]; intros lo c Hc Hk; cbv zeta in *;
      cbn [seq map fold_left].
    - repeat split; auto; intros; lia.
    - destruct (IH (Datatypes.S lo) (upd (upd c (0 + 2 * lo) (f (0 + 2 * lo)))
                                      (0 + 2 * lo + 1) (g (0 + 2 * lo))))
        as (R1 & R2 & R3).
      + rewrite !upd_length. exact Hc.
      + lia.
      + repeat split.
        * exact R1.
        * intros i Hi. rewrite R2 by lia. rewrite !nth_upd_other by lia. reflexivity.
        * destruct (Nat.eq_dec j lo) as [->|Hne].
          -- rewrite R2 by lia. rewrite nth_upd_other by lia.
             simpl. apply nth_upd_same. lia.
          -- apply R3. lia.
        * destruct (Nat.eq_dec j lo) as [->|Hne].
          -- rewrite R2 by lia. replace (2 * lo + 1) with (0 + 2 * lo + 1) by lia.
             rewrite nth_upd_same by (rewrite upd_length; lia). reflexivity.
          -- apply R3. lia. }
  destruct (H n 0 l Hn (Nat.le_refl _)) as (R1 & _ & R3).
  assert (Hfl : forall k lo,
             List.length (flat_map (fun j => [f (2 * j); g (2 * j)]) (seq lo k)) = 2 * k).
  { intros k; induction k; intros lo; simpl; auto. rewrite IHk. lia. }
  assert (Hnth : forall k lo j, j < k ->
             nth (2 * j) (flat_map (fun j => [f (2 * j); g (2 * j)]) (seq lo k)) d
               = f (2 * (lo + j))
             /\ nth (2 * j + 1) (flat_map (fun j => [f (2 * j); g (2 * j)]) (seq lo k)) d
               = g (2 * (lo + j))).
  { intros k; induction k as [|k IH]; intros lo j Hj; [lia|].
    cbn [seq flat_map app]. destruct j as [|j].
    - simpl. rewrite Nat.add_0_r. auto.
    - replace (2 * Datatypes.S j) with (Datatypes.S (Datatypes.S (2 * j))) by lia.
      replace (Datatypes.S (Datatypes.S (2 * j)) + 1)
        with (Datatypes.S (Datatypes.S (2 * j + 1))) by lia.
      cbn [nth]. destruct (IH (Datatypes.S lo) j) as [E1 E2]; [lia|].
      rewrite E1, E2. replace (Datatypes.S lo + j) with (lo + Datatypes.S j) by lia.
      auto. }
  apply (nth_ext _ _ d d).
  - rewrite R1, Hfl. reflexivity.
  - intros i Hi. rewrite R1 in Hi.
    destruct (Nat.Even_or_Odd i) as [[j ->]|[j ->]].
    + destruct (R3 j) as [E _]; [lia|]. rewrite E.
      destruct (Hnth n 0 j) as [E' _]; [lia|]. rewrite E'. reflexivity.
    + destruct (R3 j) as [_ E]; [lia|]. rewrite E.
      destruct (Hnth n 0 j) as [_ E']; [lia|]. rewrite E'. reflexivity.
Qed.

End store_loops.

(** ** [good_size] *)

Section good_size_loops.
Local Open Scope Z_scope.
Variable n : Z.
Hypothesis n_range : 22 * n < 2 ^ 64.

Lemma wrap_small (x : Z) : 0 <= x < 2 ^ 64 -> wrap x = x.
Proof. intros H. unfold wrap, size_t_bits. apply Z.mod_small. exact H. Qed.

Lemma for_mul_loop (p : Z) (S : Z -> Z -> Prop) (body : Z -> Z -> result Z) :
  2 <= p <= 11 -> level_ok n S body ->
  forall fuel f best,
    (fuel <= 64)%nat -> 1 <= f -> 2 ^ (64 - Z.of_nat fuel) <= f -> best <= 2 * n ->
    exists f' best',
      while_ fuel (fun '(f, bestfac) => f <? bestfac)
        (fun '(f, bestfac) =>
           bestfac' <- body f bestfac ;; Ok (wrap (f * p), bestfac'))
        (f, best) = Ok (f', best')
      /\ best' <= best
      /\ (best' = best
          \/ exists k : nat, S (f * p ^ Z.of_nat k) best' /\ n <= best')
      /\ (forall (k : nat) m, S (f * p ^ Z.of_nat k) m -> n <= m -> best' <= m).
Proof.
  intros Hp [Hmono Hbody] fuel.
  induction fuel as [|fuel IH]; intros f best Hfuel Hf Hpow Hbest.
  - (* no fuel left: f is already past every bound *)
    cbn [while_]. change (64 - Z.of_nat 0) with 64 in Hpow.
    destruct (Z.ltb_spec f best) as [Hlt|Hge]; [lia|].
    exists f, best. repeat split; auto; try lia.
    intros k m HS Hm.
    assert (0 < p ^ Z.of_nat k) by (apply Z.pow_pos_nonneg; lia).
    apply Hmono in HS; nia.
  - cbn [while_].
    destruct (Z.ltb_spec f best) as [Hlt|Hge].
    + destruct (Hbody f best) as (b1 & Eb & Hb1 & Hb2 & Hb3); [lia | lia |].
      rewrite Eb. cbn [bind].
      assert (Hw : wrap (f * p) = f * p) by (apply wrap_small; nia).
      rewrite Hw.
      destruct (IH (f * p) b1) as (f' & r & Er & Hr1 & Hr2 & Hr3); try lia; try nia.
      { replace (64 - Z.of_nat fuel) with (Z.succ (64 - Z.of_nat (Datatypes.S fuel))) by lia.
        rewrite Z.pow_succ_r by lia. nia. }
      exists f', r. rewrite Er. repeat split; try lia.
      * destruct Hr2 as [->|(k & HS & Hn)].
        -- destruct Hb2 as [->|[HS Hn]]; [left; reflexivity|].
           right. exists 0%nat. rewrite Z.pow_0_r, Z.mul_1_r. auto.
        -- right. exists (Datatypes.S k). rewrite Nat2Z.inj_succ, Z.pow_succ_r by lia.
           replace (f * (p * p ^ Z.of_nat k)) with (f * p * p ^ Z.of_nat k) by ring.
           auto.
      * intros k m HS Hm. destruct k as [|k].
        -- rewrite Z.pow_0_r, Z.mul_1_r in HS. specialize (Hb3 m HS Hm). lia.
        -- apply (Hr3 k). 2: exact Hm.
           rewrite Nat2Z.inj_succ, Z.pow_succ_r in HS by lia.
           replace (f * p * p ^ Z.of_nat k) with (f * (p * p ^ Z.of_nat k)) by ring.
           exact HS.
    + exists f, best. repeat split; auto; try lia.
      intros k m HS Hm.
      assert (0 < p ^ Z.of_nat k) by (apply Z.pow_pos_nonneg; lia).
      apply Hmono in HS; nia.
Qed.

Lemma for_mul_level (p : Z) (S : Z -> Z -> Prop) (body : Z -> Z -> result Z) :
  2 <= p <= 11 -> level_ok n S body ->
  level_ok n (fun f m => exists k : nat, S (f * p ^ Z.of_nat k) m)
           (fun f best => helpers.for_mul p f best body).
Proof.
  intros Hp Hl. split.
  - intros f m Hf [k HS]. destruct Hl as [Hmono _].
    assert (0 < p ^ Z.of_nat k) by (apply Z.pow_pos_nonneg; lia).
    apply Hmono in HS; nia.
  - intros f best Hf Hbest. unfold helpers.for_mul.
    destruct (for_mul_loop p S body Hp Hl 64 f best) as (f' & r & Er & H1 & H2 & H3);
      try lia.
    rewrite Er. cbn [bind]. exists r. repeat split; auto.
    + destruct H2 as [->|(k & HS & Hn)]; [left; reflexivity|].
      right. split; [exists k; exact HS | exact Hn].
    + intros m [k HS] Hm. exact (H3 k m HS Hm).
Qed.

Lemma innermost_level :
  level_ok n (fun f m => m = f)
           (fun f235711 bestfac => Ok (if n <=? f235711 then f235711 else bestfac)).
Proof.
  split; [intros f m _ ->; lia|].
  intros f best Hf Hbest. eexists. split; [reflexivity|].
  destruct (Z.leb_spec n f) as [Hle|Hgt].
  - split; [lia|]. split; [right; split; [reflexivity | assumption]|].
    intros m -> Hm. lia.
  - split; [lia|]. split; [left; reflexivity|].
    intros m -> Hm. lia.
Qed.

End good_size_loops.

Lemma pow2_between (n : Z) : (1 <= n -> exists k : nat, n <= 2 ^ Z.of_nat k < 2 * n)%Z.
Proof.
  intros Hn. destruct (Z.eq_dec n 1) as [->|Hne].
  - exists 0%nat. simpl. lia.
  - pose proof (Z.log2_up_spec n ltac:(lia)) as [Hlo Hhi].
    pose proof (Z.log2_up_pos n ltac:(lia)) as Hpos.
    exists (Z.to_nat (Z.log2_up n)). rewrite Z2Nat.id by lia.
    split; [exact Hhi|].
    replace (Z.log2_up n) with (Z.succ (Z.pred (Z.log2_up n))) by lia.
    rewrite Z.pow_succ_r by lia. lia.
Qed.

(** X6 -- Within the range where no product of the loop nest leaves 64 bits
    ([22*n < 2^64]), [good_size n] is the smallest composite of 2, 3, 5, 7 and
    11 that is at least [n]. *)
Theorem good_size_smallest_composite (n : Z) :
  (1 <= n)%Z -> (22 * n < 2 ^ 64)%Z ->
  exists M, helpers.good_size n = Ok M
    /\ (n <= M)%Z /\ smooth11 M
    /\ forall m, (n <= m)%Z -> smooth11 m -> (M <= m)%Z.
Proof.
  intros Hn Hr. unfold helpers.good_size.
  destruct (Z.leb_spec n 12) as [Hs|Hb].
  - exists n. split; [reflexivity|]. split; [lia|]. split.
    + assert (Hc : (n = 1 \/ n = 2 \/ n = 3 \/ n = 4 \/ n = 5 \/ n = 6 \/ n = 7
                    \/ n = 8 \/ n = 9 \/ n = 10 \/ n = 11 \/ n = 12)%Z) by lia.
      unfold smooth11.
      repeat (destruct Hc as [Hc|Hc]); subst n;
        [ exists 0%nat, 0%nat, 0%nat, 0%nat, 0%nat
        | exists 1%nat, 0%nat, 0%nat, 0%nat, 0%nat
        | exists 0%nat, 1%nat, 0%nat, 0%nat, 0%nat
        | exists 2%nat, 0%nat, 0%nat, 0%nat, 0%nat
        | exists 0%nat, 0%nat, 1%nat, 0%nat, 0%nat
        | exists 1%nat, 1%nat, 0%nat, 0%nat, 0%nat
        | exists 0%nat, 0%nat, 0%nat, 1%nat, 0%nat
        | exists 3%nat, 0%nat, 0%nat, 0%nat, 0%nat
        | exists 0%nat, 2%nat, 0%nat, 0%nat, 0%nat
        | exists 1%nat, 0%nat, 1%nat, 0%nat, 0%nat
        | exists 0%nat, 0%nat, 0%nat, 0%nat, 1%nat
        | exists 2%nat, 1%nat, 0%nat, 0%nat, 0%nat ];
        reflexivity.
    + intros m Hm _. exact Hm.
  - rewrite (wrap_small (2 * n)) by lia.
    pose proof (for_mul_level n Hr 2 _ _ ltac:(lia)
                 (for_mul_level n Hr 3 _ _ ltac:(lia)
                   (for_mul_level n Hr 5 _ _ ltac:(lia)
                     (for_mul_level n Hr 7 _ _ ltac:(lia)
                       (for_mul_level n Hr 11 _ _ ltac:(lia)
                         (innermost_level n)))))) as [_ Hl].
    destruct (Hl 1 (2 * n))%Z as (M & EM & H1 & H2 & H3); [lia | lia |].
    exists M. split; [exact EM|].
    assert (Hcand : forall m, smooth11 m ->
              exists a b c d e : nat,
                m = (1 * 2 ^ Z.of_nat a * 3 ^ Z.of_nat b * 5 ^ Z.of_nat c
                     * 7 ^ Z.of_nat d * 11 ^ Z.of_nat e)%Z).
    { intros m (a & b & c & d & e & ->). exists a, b, c, d, e. ring. }
    assert (Hmin : forall m, (n <= m)%Z -> smooth11 m -> (M <= m)%Z).
    { intros m Hm Hsm. apply H3; [|exact Hm].
      destruct (Hcand m Hsm) as (a & b & c & d & e & ->). exists a, b, c, d, e.
      reflexivity. }
    destruct (pow2_between n Hn) as (k & Hk1 & Hk2).
    assert (Hpow : (M <= 2 ^ Z.of_nat k)%Z).
    { apply Hmin; [exact Hk1|]. exists k, 0%nat, 0%nat, 0%nat, 0%nat.
      cbn [Z.of_nat]. rewrite !Z.pow_0_r. ring. }
    destruct H2 as [->|[(a & b & c & d & e & HM) HnM]]; [lia|].
    split; [exact HnM|]. split; [|exact Hmin].
    exists a, b, c, d, e. rewrite HM. ring.
Qed.

Lemma good_size_smallest_composite_witness :
  (1 <= 201)%Z /\ (22 * 201 < 2 ^ 64)%Z
  /\ exists M, helpers.good_size 201 = Ok M /\ (201 <= M)%Z /\ smooth11 M
       /\ forall m, (201 <= m)%Z -> smooth11 m -> (M <= m)%Z.
Proof.
  split; [lia|]. split; [lia|]. apply (good_size_smallest_composite 201); lia.
Defined.

(** ** [factorize] *)

Section factorize_facts.
Local Open Scope Z_scope.

Lemma product_app (l1 l2 : list Z) : product (l1 ++ l2) = product l1 * product l2.
Proof.
  unfold product. induction l1 as [|a l1 IH]; simpl fold_right.
  - destruct (fold_right Z.mul 1 l2); reflexivity.
  - cbn [app fold_right]. rewrite IH. ring.
Qed.

Lemma product_repeat (d : Z) (k : nat) : product (repeat d k) = d ^ Z.of_nat k.
Proof.
  unfold product. induction k as [|k IH].
  - reflexivity.
  - cbn [repeat fold_right]. rewrite IH, Nat2Z.inj_succ, Z.pow_succ_r by lia. reflexivity.
Qed.

(** [strip] with enough fuel divides out every factor [d]. *)
Lemma strip_spec (d : Z) : 2 <= d ->
  forall fuel len, 1 <= len < 2 ^ Z.of_nat fuel ->
    let '(k, r) := strip d fuel len in
    len = d ^ Z.of_nat k * r /\ 1 <= r /\ r mod d <> 0.
Proof.
  intros Hd fuel; induction fuel as [|fuel IH]; intros len Hlen.
  - simpl in Hlen. lia.
  - cbn [strip]. destruct (Z.eqb_spec (len mod d) 0) as [E|E].
    + assert (Hq : len = d * (len / d)) by (apply Z_div_exact_full_2; lia).
      assert (1 <= len / d) by nia.
      assert (len / d < 2 ^ Z.of_nat fuel).
      { rewrite Nat2Z.inj_succ, Z.pow_succ_r in Hlen by lia. nia. }
      specialize (IH (len / d) ltac:(lia)).
      destruct (strip d fuel (len / d)) as [k r]. destruct IH as (E1 & E2 & E3).
      rewrite Nat2Z.inj_succ, Z.pow_succ_r by lia.
      repeat split; auto. rewrite Hq at 1. rewrite E1. ring.
    + rewrite Z.pow_0_r. repeat split; try lia.
Qed.

Lemma strip_all_spec (d len : Z) : 2 <= d -> 1 <= len ->
  let '(k, r) := strip_all d len in
  len = d ^ Z.of_nat k * r /\ 1 <= r /\ r mod d <> 0.
Proof.
  intros Hd Hlen. unfold strip_all. apply strip_spec; [exact Hd|].
  split; [exact Hlen|].
  rewrite Nat2Z.inj_succ, Z2Nat.id by apply Z.log2_nonneg.
  apply Z.log2_spec. lia.
Qed.

(** The loops [while (len is a multiple of d) { add_factor(d); len/=d; }] of
    [factorize] against [strip]: the factors are stored while the array has
    room, and the store that finds it full throws. *)
Lemma strip_loop (d : Z) (c : Z -> bool) (st : Z -> Z) :
  2 <= d ->
  (forall len, 1 <= len -> c len = (len mod d =? 0) /\ st len = len / d) ->
  forall F len fcts fuel,
    1 <= len < 2 ^ Z.of_nat F ->
    (List.length fcts <= NFCT)%nat ->
    (NFCT - List.length fcts < fuel)%nat ->
    while_ fuel (fun '(len, fcts) => c len)
      (fun '(len, fcts) => fcts <- cfftp.add_factor d fcts ;; Ok (st len, fcts))
      (len, fcts)
    = let '(k, r) := strip d F len in
      if (List.length fcts + k <=? NFCT)%nat then Ok (r, fcts ++ repeat d k)
      else Throw too_many.
Proof.
  intros Hd Hc F; induction F as [|F IH]; intros len fcts fuel Hlen Hfc Hfuel.
  - simpl in Hlen. lia.
  - destruct (Hc len ltac:(lia)) as [Hc1 Hc2].
    destruct fuel as [|fuel]; [lia|].
    cbn [while_ strip]. rewrite Hc1.
    destruct (Z.eqb_spec (len mod d) 0) as [E|E].
    + assert (Hq : len = d * (len / d)) by (apply Z_div_exact_full_2; lia).
      assert (1 <= len / d) by nia.
      assert (len / d < 2 ^ Z.of_nat F).
      { rewrite Nat2Z.inj_succ, Z.pow_succ_r in Hlen by lia. nia. }
      assert (Hadd : cfftp.add_factor d fcts
                     = if (NFCT <=? List.length fcts)%nat then Throw too_many
                       else Ok (fcts ++ [d])) by reflexivity.
      rewrite Hadd.
      destruct (Nat.leb_spec NFCT (List.length fcts)) as [Hfull|Hroom].
      * cbn [bind]. destruct (strip d F (len / d)) as [k r].
        destruct (Nat.leb_spec (List.length fcts + Datatypes.S k) NFCT); [lia|reflexivity].
      * cbn [bind]. rewrite Hc2.
        rewrite (IH (len / d) (fcts ++ [d]) fuel)
          by (rewrite ?length_app; cbn [List.length]; lia).
        destruct (strip d F (len / d)) as [k r].
        rewrite length_app. cbn [List.length].
        replace (List.length fcts + 1 + k)%nat
          with (List.length fcts + Datatypes.S k)%nat by lia.
        rewrite <- app_assoc. reflexivity.
    + rewrite Nat.add_0_r. cbn [repeat]. rewrite app_nil_r.
      destruct (Nat.leb_spec (List.length fcts) NFCT); [reflexivity|lia].
Qed.

Lemma strip_all_le (d len : Z) : 2 <= d -> 1 <= len ->
  1 <= snd (strip_all d len) <= len.
Proof.
  intros Hd Hlen. pose proof (strip_all_spec d len Hd Hlen) as H.
  destruct (strip_all d len) as [k r]. destruct H as (E & Hr & _). cbn [snd].
  assert (0 < d ^ Z.of_nat k) by (apply Z.pow_pos_nonneg; lia). nia.
Qed.

Lemma strip_all_not_multiple (d len : Z) :
  len mod d <> 0 -> strip_all d len = (0%nat, len).
Proof.
  intros H. unfold strip_all. cbn [strip].
  destruct (Z.eqb_spec (len mod d) 0); [contradiction | reflexivity].
Qed.

Lemma trial_loop :
  forall fuel divisor len fcts,
    1 <= len -> 3 <= divisor ->
    (List.length fcts <= NFCT)%nat ->
    Z.sqrt len + 1 - divisor <= Z.of_nat fuel ->
    exists dv,
      while_ fuel trial_cond trial_body (divisor, len, Z.sqrt len + 1, fcts)
      = let '(l, r) := trial fuel divisor len in
        if (List.length fcts + List.length l <=? NFCT)%nat
        then Ok (dv, r, Z.sqrt r + 1, fcts ++ l)
        else Throw too_many.
Proof.
  intros fuel; induction fuel as [|fuel IH]; intros divisor len fcts Hlen Hd Hfc Hfuel.
  - exists divisor. cbn [while_ trial trial_cond List.length].
    destruct (Z.ltb_spec divisor (Z.sqrt len + 1)); [simpl in Hfuel; lia|].
    rewrite andb_false_r, Nat.add_0_r, app_nil_r.
    destruct (Nat.leb_spec (List.length fcts) NFCT); [reflexivity | lia].
  - cbn [while_ trial]. unfold trial_cond at 1.
    destruct ((1 <? len) && (divisor <? Z.sqrt len + 1)) eqn:Ec.
    + pose proof (strip_all_le divisor len ltac:(lia) Hlen) as Hle.
      pose proof (Z.sqrt_le_mono (snd (strip_all divisor len)) len ltac:(lia)) as Hsq.
      unfold trial_body at 1.
      destruct (Z.eqb_spec (len mod divisor) 0) as [E|E].
      * rewrite (strip_loop divisor (fun len => len mod divisor =? 0)
                   (fun len => len / divisor) ltac:(lia) ltac:(auto)
                   (Datatypes.S (Z.to_nat (Z.log2 len))) len fcts).
        2:{ split; [exact Hlen|].
            rewrite Nat2Z.inj_succ, Z2Nat.id by apply Z.log2_nonneg.
            apply Z.log2_spec. lia. }
        2: exact Hfc.
        2: lia.
        fold (strip_all divisor len).
        destruct (strip_all divisor len) as [k len'] eqn:Es. cbn [snd] in *.
        destruct (Nat.leb_spec (List.length fcts + k) NFCT) as [Hroom|Hfull].
        -- cbn [bind]. unfold helpers.isqrt.
           destruct (IH (divisor + 2) len' (fcts ++ repeat divisor k)) as [dv Edv];
             try lia.
           { rewrite length_app, repeat_length. lia. }
           exists dv. rewrite Edv.
           destruct (trial fuel (divisor + 2) len') as [l r].
           rewrite !length_app, repeat_length, <- app_assoc, Nat.add_assoc.
           reflexivity.
        -- cbn [bind]. exists 0.
           destruct (trial fuel (divisor + 2) len') as [l r].
           rewrite length_app, repeat_length.
           destruct (Nat.leb_spec (List.length fcts + (k + List.length l)) NFCT);
             [lia | reflexivity].
      * cbn [bind]. rewrite (strip_all_not_multiple divisor len E) in *. cbn [snd] in *.
        destruct (IH (divisor + 2) len fcts) as [dv Edv]; try lia.
        exists dv. rewrite Edv. cbn [repeat app].
        destruct (trial fuel (divisor + 2) len) as [l r]. reflexivity.
    + exists divisor. cbn [List.length]. rewrite Nat.add_0_r, app_nil_r.
      destruct (Nat.leb_spec (List.length fcts) NFCT); [reflexivity | lia].
Qed.

Lemma rough_divisor_prime (d len : Z) :
  rough d len -> 1 < d -> (d | len) -> Z.prime d.
Proof.
  intros Hr Hd Hdiv. split; [exact Hd|].
  intros q Hq Hqd. apply (Hr q Hq). eapply Z.divide_trans; eassumption.
Qed.

Lemma rough_sqrt_prime (d len : Z) :
  rough d len -> 1 < len -> Z.sqrt len < d -> Z.prime len.
Proof.
  intros Hr Hlen Hs. split; [exact Hlen|].
  intros q Hq [m Hm].
  pose proof (Z.sqrt_nonneg len). assert (0 < d) by lia. apply Z.sqrt_lt_square in Hs; [|lia|lia].
  assert (Hm1 : 1 < m) by nia.
  assert (Hqd : d <= q).
  { destruct (Z_lt_le_dec q d) as [Hlt|]; [|assumption].
    exfalso. apply (Hr q); [lia | exists m; exact Hm]. }
  assert (Hmd : d <= m).
  { destruct (Z_lt_le_dec m d) as [Hlt|]; [|assumption].
    exfalso. apply (Hr m); [lia | exists q; lia]. }
  assert (d * d <= m * q) by (apply Z.mul_le_mono_nonneg; lia). lia.
Qed.

Lemma rough_ge (d len : Z) : rough d len -> 1 < len -> d <= len.
Proof.
  intros Hr Hlen. destruct (Z_lt_le_dec len d) as [Hlt|]; [|assumption].
  exfalso. apply (Hr len); [lia | apply Z.divide_refl].
Qed.

Lemma rough_step (d len len' : Z) (k : nat) :
  rough d len -> 3 <= d -> Z.odd d = true ->
  len = d ^ Z.of_nat k * len' -> len' mod d <> 0 -> rough (d + 2) len'.
Proof.
  intros Hr Hd Hodd E Hnd q Hq Hdiv.
  assert (Hsub : (len' | len)) by (exists (d ^ Z.of_nat k); exact E).
  destruct (Z_lt_le_dec q d) as [Hlt|Hge].
  - apply (Hr q); [lia | eapply Z.divide_trans; eassumption].
  - destruct (Z.eq_dec q d) as [->|Hne].
    + apply Hnd. apply Z.mod0_divide; exact Hdiv.
    + assert (q = d + 1) by lia. subst q.
      apply (Hr 2); [lia|].
      apply Z.divide_trans with (d + 1); [|eapply Z.divide_trans; eassumption].
      rewrite Zodd_mod in Hodd. apply Z.eqb_eq in Hodd.
      apply Z.mod_divide; [lia|]. rewrite Z.add_mod, Hodd by lia. reflexivity.
Qed.

Lemma StronglySorted_repeat_app (d : Z) (k : nat) (l : list Z) :
  StronglySorted Z.le l -> Forall (fun p => d <= p) l ->
  StronglySorted Z.le (repeat d k ++ l).
Proof.
  intros Hs Hf. induction k as [|k IH]; [exact Hs|].
  cbn [repeat app]. constructor; [exact IH|].
  apply Forall_app. split; [|exact Hf].
  apply Forall_forall. intros x Hx. apply repeat_spec in Hx. lia.
Qed.

(** The odd trial division: the factors it stores are primes, in
    increasing order, and what is left is 1 or a larger prime. *)
Lemma trial_spec :
  forall fuel d len,
    1 <= len -> 3 <= d -> Z.odd d = true -> rough d len ->
    Z.sqrt len + 1 - d <= Z.of_nat fuel ->
    let '(l, r) := trial fuel d len in
    len = product l * r /\ 1 <= r
    /\ Forall (fun p => Z.prime p /\ d <= p /\ (1 < r -> p < r)) l
    /\ StronglySorted Z.le l
    /\ (1 < r -> Z.prime r /\ d <= r).
Proof.
  intros fuel; induction fuel as [|fuel IH]; intros d len Hlen Hd Hodd Hr Hfuel.
  - cbn [trial]. unfold product; cbn [fold_right].
    split; [lia|]. split; [lia|]. split; [constructor|]. split; [constructor|].
    intros H1. split; [|apply rough_ge; assumption].
    apply (rough_sqrt_prime d); [assumption | assumption | simpl in Hfuel; lia].
  - cbn [trial].
    destruct ((1 <? len) && (d <? Z.sqrt len + 1)) eqn:Ec.
    + pose proof (strip_all_le d len ltac:(lia) Hlen) as Hle.
      pose proof (Z.sqrt_le_mono (snd (strip_all d len)) len ltac:(lia)) as Hsq.
      pose proof (strip_all_spec d len ltac:(lia) Hlen) as Hst.
      destruct (strip_all d len) as [k len']. cbn [snd] in *.
      destruct Hst as (E & Hlen' & Hnd).
      assert (Hodd' : Z.odd (d + 2) = true).
      { rewrite Z.odd_add, Hodd. reflexivity. }
      pose proof (rough_step d len len' k Hr Hd Hodd E Hnd) as Hr'.
      specialize (IH (d + 2) len' Hlen' ltac:(lia) Hodd' Hr' ltac:(lia)).
      destruct (trial fuel (d + 2) len') as [l r].
      destruct IH as (E' & Hr1 & Hall & Hsorted & Hres).
      split. { rewrite product_app, product_repeat, E, E'. ring. }
      split; [exact Hr1|].
      split.
      { apply Forall_app. split.
        - apply Forall_forall. intros x Hx.
          pose proof (repeat_spec _ _ _ Hx) as ->.
          destruct k as [|k]; [destruct Hx|].
          assert (Hdiv : (d | len)).
          { rewrite E, Nat2Z.inj_succ, Z.pow_succ_r by lia.
            exists (d ^ Z.of_nat k * len'). ring. }
          split; [apply (rough_divisor_prime d len); [assumption | lia | assumption]|].
          split; [lia|]. intros H1. destruct (Hres H1). lia.
        - refine (Forall_impl _ _ Hall). cbv beta.
          intros p (Hp & Hdp & Hpr). split; [assumption|]. split; [lia | assumption]. }
      split.
      { apply StronglySorted_repeat_app; [exact Hsorted|].
        refine (Forall_impl _ _ Hall). cbv beta. intros p (_ & Hdp & _). lia. }
      intros H1. destruct (Hres H1). split; [assumption | lia].
    + unfold product; cbn [fold_right].
      split; [lia|]. split; [lia|]. split; [constructor|]. split; [constructor|].
      intros H1. split; [|apply rough_ge; assumption].
      apply andb_false_iff in Ec. destruct Ec as [Ec|Ec]; apply Z.ltb_ge in Ec; [lia|].
      apply (rough_sqrt_prime d); [assumption | assumption | lia].
Qed.

Lemma upd_last {A : Type} (l : list A) (x v : A) :
  upd (l ++ [x]) (List.length l) v = l ++ [v].
Proof. induction l as [|h t IH]; cbn [app List.length upd]; [reflexivity | now rewrite IH]. Qed.

(** [swap(fct[0].fct, fct[nfct-1].fct)] after the 2 was stored behind the 4s. *)
Lemma swap_two_front (k : nat) :
  swap 0 (repeat 4 k ++ [2]) 0 (List.length (repeat 4 k ++ [2]) - 1) = 2 :: repeat 4 k.
Proof.
  rewrite length_app, repeat_length. cbn [List.length].
  replace (k + 1 - 1)%nat with k by lia.
  destruct k as [|k]; [reflexivity|].
  unfold swap, rd. cbn [repeat app].
  change (4 :: repeat 4 k ++ [2]) with ((4 :: repeat 4 k) ++ [2]).
  replace (nth (Datatypes.S k) ((4 :: repeat 4 k) ++ [2]) 0) with 2.
  2:{ symmetry. rewrite <- (repeat_length 4 k) at 1.
      change (Datatypes.S (List.length (repeat 4 k)))
        with (List.length (4 :: repeat 4 k)).
      apply nth_middle. }
  cbn [app upd nth].
  rewrite <- (repeat_length 4 k) at 2. rewrite upd_last, <- repeat_cons. reflexivity.
Qed.

Lemma land3_mod4 (len : Z) : Z.land len 3 = len mod 4.
Proof. exact (Z.land_ones len 2 ltac:(lia)). Qed.

Lemma land1_mod2 (len : Z) : Z.land len 1 = len mod 2.
Proof. exact (Z.land_ones len 1 ltac:(lia)). Qed.

Lemma shiftr2_div4 (len : Z) : Z.shiftr len 2 = len / 4.
Proof. exact (Z.shiftr_div_pow2 len 2 ltac:(lia)). Qed.

Lemma shiftr1_div2 (len : Z) : Z.shiftr len 1 = len / 2.
Proof. exact (Z.shiftr_div_pow2 len 1 ltac:(lia)). Qed.

(** The odd trial division and the store of the residue, after [fcts]. *)
Lemma factorize_tail (len : Z) (fcts : list Z) :
  1 <= len -> (List.length fcts <= NFCT)%nat ->
  ('(divisor, len, maxl, fcts) <-
     while_ (Z.to_nat (helpers.isqrt len + 1)) trial_cond trial_body
       (3, len, helpers.isqrt len + 1, fcts) ;;
   if 1 <? len then cfftp.add_factor len fcts else Ok fcts)
  = let '(odds, r) := trial (Z.to_nat (Z.sqrt len + 1)) 3 len in
    let out := fcts ++ odds ++ (if 1 <? r then [r] else []) in
    if (List.length out <=? NFCT)%nat then Ok out else Throw too_many.
Proof.
  intros Hlen Hfc. unfold helpers.isqrt.
  pose proof (Z.sqrt_nonneg len) as Hs.
  destruct (trial_loop (Z.to_nat (Z.sqrt len + 1)) 3 len fcts Hlen ltac:(lia) Hfc
              ltac:(lia)) as [dv E].
  rewrite E. clear E.
  destruct (trial (Z.to_nat (Z.sqrt len + 1)) 3 len) as [odds r].
  cbv zeta. rewrite !length_app.
  destruct (Nat.leb_spec (List.length fcts + List.length odds) NFCT) as [Hroom|Hfull].
  - cbn [bind]. destruct (1 <? r).
    + unfold cfftp.add_factor. rewrite length_app. cbn [List.length].
      destruct (Nat.leb_spec NFCT (List.length fcts + List.length odds)).
      * destruct (Nat.leb_spec (List.length fcts + (List.length odds + 1)) NFCT);
          [lia | reflexivity].
      * destruct (Nat.leb_spec (List.length fcts + (List.length odds + 1)) NFCT);
          [|lia]. rewrite <- app_assoc. reflexivity.
    + cbn [List.length]. rewrite app_nil_r.
      destruct (Nat.leb_spec (List.length fcts + (List.length odds + 0)) NFCT);
        [reflexivity | lia].
  - cbn [bind].
    destruct (Nat.leb_spec
                (List.length fcts
                 + (List.length odds + List.length (if 1 <? r then [r] else []))) NFCT);
      [lia | reflexivity].
Qed.

(** [cfftp::factorize] stores exactly [factor_seq], or throws when that has
    more than [NFCT] entries; it never runs out of loop fuel. *)
Lemma cfftp_factorize_refines (N : Z) :
  1 <= N ->
  cfftp.factorize N
  = if (List.length (factor_seq N) <=? NFCT)%nat then Ok (factor_seq N)
    else Throw too_many.
Proof.
  intros HN. unfold cfftp.factorize, factor_seq.
  rewrite (strip_loop 4 (fun len => Z.land len 3 =? 0) (fun len => Z.shiftr len 2)
             ltac:(lia)
             ltac:(intros len _; cbv beta; rewrite land3_mod4, shiftr2_div4; split; reflexivity)
             (Datatypes.S (Z.to_nat (Z.log2 N))) N []).
  2:{ split; [exact HN|].
      rewrite Nat2Z.inj_succ, Z2Nat.id by apply Z.log2_nonneg.
      apply Z.log2_spec. lia. }
  2: cbn; lia.
  2: cbn [List.length]; lia.
  fold (strip_all 4 N).
  pose proof (strip_all_spec 4 N ltac:(lia) HN) as H4.
  destruct (strip_all 4 N) as [k4 len1]. destruct H4 as (E4 & Hlen1 & Hn4).
  cbn [List.length Nat.add app].
  assert (Hodd1 : len1 mod 2 = 0 -> 1 <= len1 / 2).
  { intros E. pose proof (Z_div_exact_full_2 len1 2 ltac:(lia) E). lia. }
  destruct (Nat.leb_spec k4 NFCT) as [Hk4|Hk4]; cbn [bind].
  - rewrite land1_mod2, shiftr1_div2.
    destruct (Z.eqb_spec (len1 mod 2) 0) as [E2|E2].
    + unfold cfftp.add_factor at 1. rewrite repeat_length.
      destruct (Nat.leb_spec NFCT k4) as [Hfull|Hroom]; cbn [bind].
      * destruct (trial (Z.to_nat (Z.sqrt (len1 / 2) + 1)) 3 (len1 / 2)) as [odds r].
        cbn [app List.length]. rewrite length_app, repeat_length.
        destruct (Nat.leb_spec
                    (Datatypes.S
                       (k4 + List.length (odds ++ (if 1 <? r then [r] else [])))) NFCT);
          [lia | reflexivity].
      * rewrite swap_two_front.
        refine (eq_trans (factorize_tail (len1 / 2) (2 :: repeat 4 k4) (Hodd1 E2) _) _).
        { cbn [List.length]. rewrite repeat_length. lia. }
        destruct (trial (Z.to_nat (Z.sqrt (len1 / 2) + 1)) 3 (len1 / 2)) as [odds r].
        reflexivity.
    + refine (eq_trans (factorize_tail len1 (repeat 4 k4) Hlen1 _) _).
      { rewrite repeat_length. lia. }
      destruct (trial (Z.to_nat (Z.sqrt len1 + 1)) 3 len1) as [odds r].
      reflexivity.
  - destruct (if len1 mod 2 =? 0 then ([2], len1 / 2) else ([], len1)) as [two len2].
    destruct (trial (Z.to_nat (Z.sqrt len2 + 1)) 3 len2) as [odds r].
    rewrite !length_app, repeat_length.
    destruct (Nat.leb_spec
                (List.length two
                 + (k4 + (List.length odds
                          + List.length (if 1 <? r then [r] else [])))) NFCT);
      [lia | reflexivity].
Qed.

(** [rfftp::factorize], written with [%] where the complex one has [&], stores
    the same sequence. *)
Lemma rfftp_factorize_refines (N : Z) :
  1 <= N ->
  rfftp.factorize N
  = if (List.length (factor_seq N) <=? NFCT)%nat then Ok (factor_seq N)
    else Throw too_many.
Proof.
  intros HN. unfold rfftp.factorize, factor_seq.
  change rfftp.add_factor with cfftp.add_factor.
  rewrite (strip_loop 4 (fun len => len mod 4 =? 0) (fun len => Z.shiftr len 2)
             ltac:(lia)
             ltac:(intros len _; cbv beta; rewrite shiftr2_div4; split; reflexivity)
             (Datatypes.S (Z.to_nat (Z.log2 N))) N []).
  2:{ split; [exact HN|].
      rewrite Nat2Z.inj_succ, Z2Nat.id by apply Z.log2_nonneg.
      apply Z.log2_spec. lia. }
  2: cbn; lia.
  2: cbn [List.length]; lia.
  fold (strip_all 4 N).
  pose proof (strip_all_spec 4 N ltac:(lia) HN) as H4.
  destruct (strip_all 4 N) as [k4 len1]. destruct H4 as (E4 & Hlen1 & Hn4).
  cbn [List.length Nat.add app].
  assert (Hodd1 : len1 mod 2 = 0 -> 1 <= len1 / 2).
  { intros E. pose proof (Z_div_exact_full_2 len1 2 ltac:(lia) E). lia. }
  destruct (Nat.leb_spec k4 NFCT) as [Hk4|Hk4]; cbn [bind].
  - rewrite shiftr1_div2.
    destruct (Z.eqb_spec (len1 mod 2) 0) as [E2|E2].
    + unfold cfftp.add_factor at 1. rewrite repeat_length.
      destruct (Nat.leb_spec NFCT k4) as [Hfull|Hroom]; cbn [bind].
      * destruct (trial (Z.to_nat (Z.sqrt (len1 / 2) + 1)) 3 (len1 / 2)) as [odds r].
        cbn [app List.length]. rewrite length_app, repeat_length.
        destruct (Nat.leb_spec
                    (Datatypes.S
                       (k4 + List.length (odds ++ (if 1 <? r then [r] else [])))) NFCT);
          [lia | reflexivity].
      * rewrite swap_two_front.
        refine (eq_trans (factorize_tail (len1 / 2) (2 :: repeat 4 k4) (Hodd1 E2) _) _).
        { cbn [List.length]. rewrite repeat_length. lia. }
        destruct (trial (Z.to_nat (Z.sqrt (len1 / 2) + 1)) 3 (len1 / 2)) as [odds r].
        reflexivity.
    + refine (eq_trans (factorize_tail len1 (repeat 4 k4) Hlen1 _) _).
      { rewrite repeat_length. lia. }
      destruct (trial (Z.to_nat (Z.sqrt len1 + 1)) 3 len1) as [odds r].
      reflexivity.
  - destruct (if len1 mod 2 =? 0 then ([2], len1 / 2) else ([], len1)) as [two len2].
    destruct (trial (Z.to_nat (Z.sqrt len2 + 1)) 3 len2) as [odds r].
    rewrite !length_app, repeat_length.
    destruct (Nat.leb_spec
                (List.length two
                 + (k4 + (List.length odds
                          + List.length (if 1 <? r then [r] else [])))) NFCT);
      [lia | reflexivity].
Qed.

Lemma StronglySorted_snoc (l : list Z) (r : Z) :
  StronglySorted Z.le l -> Forall (fun p => p <= r) l ->
  StronglySorted Z.le (l ++ [r]).
Proof.
  intros Hs; induction Hs as [|a l Hs IH Ha]; intros Hf; cbn [app].
  - constructor; constructor.
  - inversion Hf; subst. constructor; [apply IH; assumption|].
    apply Forall_app. split; [assumption | constructor; [assumption | constructor]].
Qed.

(** What [factor_seq] is made of. *)
Lemma factor_seq_spec (N : Z) :
  1 <= N ->
  exists (b : bool) (k4 : nat) (odds : list Z),
    factor_seq N = (if b then [2] else []) ++ repeat 4 k4 ++ odds
    /\ N = (if b then 2 else 1) * 4 ^ Z.of_nat k4 * product odds
    /\ Forall (fun p => Z.prime p /\ 3 <= p) odds
    /\ StronglySorted Z.le odds.
Proof.
  intros HN. unfold factor_seq.
  pose proof (strip_all_spec 4 N ltac:(lia) HN) as H4.
  destruct (strip_all 4 N) as [k4 len1]. destruct H4 as (E4 & Hlen1 & Hn4).
  set (b := len1 mod 2 =? 0).
  assert (Hb : exists len2,
             (if b then ([2], len1 / 2) else ([], len1))
             = ((if b then [2] else []), len2)
             /\ len1 = (if b then 2 else 1) * len2 /\ 1 <= len2 /\ len2 mod 2 <> 0).
  { subst b. destruct (Z.eqb_spec (len1 mod 2) 0) as [E|E].
    - exists (len1 / 2).
      pose proof (Z_div_exact_full_2 len1 2 ltac:(lia) E) as Hq.
      split; [reflexivity|]. split; [exact Hq|]. split; [lia|].
      intros E'. apply Hn4.
      pose proof (Z_div_exact_full_2 (len1 / 2) 2 ltac:(lia) E') as Hq'.
      apply Z.mod_divide; [lia|]. exists (len1 / 2 / 2). lia.
    - exists len1. split; [reflexivity|]. split; [lia|]. split; assumption. }
  destruct Hb as (len2 & -> & E2 & Hlen2 & Hodd2).
  assert (Hrough : rough 3 len2).
  { intros q Hq Hdiv. assert (q = 2) by lia. subst q.
    apply Hodd2. apply Z.mod0_divide. exact Hdiv. }
  pose proof (Z.sqrt_nonneg len2) as Hs.
  pose proof (trial_spec (Z.to_nat (Z.sqrt len2 + 1)) 3 len2 Hlen2 ltac:(lia)
                eq_refl Hrough ltac:(lia)) as Ht.
  destruct (trial (Z.to_nat (Z.sqrt len2 + 1)) 3 len2) as [odds r].
  destruct Ht as (E3 & Hr1 & Hall & Hsorted & Hres).
  exists b, k4, (odds ++ (if 1 <? r then [r] else [])).
  split; [reflexivity|].
  assert (Hodds : Forall (fun p => Z.prime p /\ 3 <= p) odds).
  { refine (Forall_impl _ _ Hall). cbv beta. intros p (Hp & H3 & _). split; assumption. }
  destruct (Z.ltb_spec 1 r) as [H1|H1].
  - destruct (Hres H1) as [Hpr H3r].
    split. { rewrite product_app, E4, E2, E3. unfold product at 3. cbn [fold_right]. ring. }
    split. { apply Forall_app. split; [exact Hodds|]. constructor; [split; assumption | constructor]. }
    apply StronglySorted_snoc; [exact Hsorted|].
    refine (Forall_impl _ _ Hall). cbv beta. intros p (_ & _ & Hlt). specialize (Hlt H1). lia.
  - assert (r = 1) by lia. subst r. rewrite app_nil_r.
    split. { rewrite E4, E2, E3. ring. }
    split; assumption.
Qed.



End factorize_facts.

(** ** Plan construction *)


Section plan_construction.
Context {T0 : Type} {ST : Scalar T0}.
Variable sincos_2pibyn : Z -> bool -> nat -> T0.






End plan_construction.



(** X2 -- [rfftp::factorize] tests [len%4] and [len%2] where
    [cfftp::factorize] tests [len&3] and [len&1]; for every length [N >= 1]
    the two store the same factors or throw alike. *)
Theorem rfftp_factorize_same (N : Z) :
  (1 <= N)%Z -> rfftp.factorize N = cfftp.factorize N.
Proof.
  intros HN. rewrite rfftp_factorize_refines, cfftp_factorize_refines by exact HN.
  reflexivity.
Qed.

Lemma rfftp_factorize_same_witness :
  (1 <= 360)%Z /\ rfftp.factorize 360 = cfftp.factorize 360.
Proof. split; [lia | apply (rfftp_factorize_same 360); lia]. Defined.



(** ** [largest_prime_factor] *)

Section lpf_facts.
Local Open Scope Z_scope.















End lpf_facts.

(** ** The table [bkf] of the Bluestein plan *)

Section bkf_facts.
Local Open Scope Z_scope.

Lemma good_size_bounds (n : Z) :
  1 <= n -> 22 * n < 2 ^ 64 ->
  exists M, helpers.good_size n = Ok M /\ n <= M < 2 * n.
Proof.
  intros Hn Hr. unfold helpers.good_size.
  destruct (Z.leb_spec n 12) as [Hs|Hb].
  - exists n. split; [reflexivity | lia].
  - rewrite (wrap_small (2 * n)) by lia.
    pose proof (for_mul_level n Hr 2 _ _ ltac:(lia)
                 (for_mul_level n Hr 3 _ _ ltac:(lia)
                   (for_mul_level n Hr 5 _ _ ltac:(lia)
                     (for_mul_level n Hr 7 _ _ ltac:(lia)
                       (for_mul_level n Hr 11 _ _ ltac:(lia)
                         (innermost_level n)))))) as [_ Hl].
    destruct (Hl 1 (2 * n)) as (M & EM & H1 & H2 & H3); [lia | lia |].
    exists M. split; [exact EM|].
    destruct (pow2_between n Hn) as (k & Hk1 & Hk2).
    assert (Hpow : M <= 2 ^ Z.of_nat k).
    { apply H3; [|exact Hk1]. exists k, 0%nat, 0%nat, 0%nat, 0%nat.
      cbn [Z.of_nat]. rewrite !Z.pow_0_r. ring. }
    destruct H2 as [->|[_ HnM]]; lia.
Qed.

Lemma zrange_length (lo hi step : Z) :
  List.length (zrange lo hi step) = Z.to_nat ((hi - lo + step - 1) / step).
Proof. unfold zrange. rewrite length_map, length_seq. reflexivity. Qed.

Lemma In_zrange (lo hi step x : Z) :
  0 < step ->
  In x (zrange lo hi step)
  <-> exists t : nat, x = lo + step * Z.of_nat t /\ x < hi.
Proof.
  intros Hs. unfold zrange. rewrite in_map_iff. split.
  - intros (t & <- & Ht). apply in_seq in Ht. exists t. split; [reflexivity|].
    destruct Ht as [_ Ht]. cbn [Nat.add] in Ht.
    assert (Hq : Z.of_nat t < (hi - lo + step - 1) / step) by lia.
    assert (Hm : step * ((hi - lo + step - 1) / step) <= hi - lo + step - 1).
    { apply Z.mul_div_le. exact Hs. }
    nia.
  - intros (t & -> & Ht). exists t. split; [reflexivity|].
    apply in_seq. split; [lia|]. cbn [Nat.add].
    assert (Z.of_nat t + 1 <= (hi - lo + step - 1) / step); [|lia].
    apply Z.div_le_lower_bound; [exact Hs|]. nia.
Qed.

Lemma zrange_unit_NoDup (lo hi : Z) : NoDup (zrange lo hi 1).
Proof.
  unfold zrange. apply Finite.Injective_map_NoDup; [|apply seq_NoDup].
  intros a b H. lia.
Qed.

Lemma zrange_even_length (n : Z) :
  1 <= n -> List.length (zrange 2 (2 * n) 2) = Z.to_nat (n - 1).
Proof.
  intros Hn. rewrite zrange_length. f_equal.
  replace (2 * n - 2 + 2 - 1) with (1 + (n - 1) * 2) by lia.
  rewrite Z.div_add by lia. reflexivity.
Qed.

(** X7 -- The stores of the [fftblue] constructor into [bkf], for a length
    [n >= 1] with [44*n < 2^64]: the transform length [n2 = good_size(2n-1)]
    is found, and the indices stored to are each of [0 .. 2*n2-1] exactly
    once: no slot is left as allocated, none is written twice, none lies
    outside the table. *)
Theorem bkf_stores_cover {T0 : Type} {ST : Scalar T0} (n : Z) (bk : list T0) (xn2 : T0) :
  1 <= n -> 44 * n < 2 ^ 64 ->
  exists n2, helpers.good_size (wrap (n * 2 - 1)) = Ok n2
    /\ 2 * n - 1 <= n2
    /\ Permutation (zrange 0 (2 * n2) 1) (map fst (fftblue.bkf_stores n n2 bk xn2)).
Proof.
  intros Hn Hr. rewrite (wrap_small (n * 2 - 1)) by lia.
  destruct (good_size_bounds (n * 2 - 1) ltac:(lia) ltac:(lia)) as (n2 & E & Hb).
  exists n2. split; [exact E|]. split; [lia|].
  unfold fftblue.bkf_stores.
  rewrite (wrap_small (2 * n)), (wrap_small (2 * n2 - 2 * n + 1)) by lia.
  rewrite !map_app, map_map. cbn [map fst].
  apply NoDup_Permutation_bis.
  - apply zrange_unit_NoDup.
  - rewrite !length_app, !length_map.
    rewrite (flat_map_constant_length (c := 4)) by (intros x _; reflexivity).
    rewrite zrange_even_length, !zrange_length by lia. cbn [List.length].
    rewrite !Z.div_1_r. lia.
  - cbn [app]. intros x Hx. apply In_zrange in Hx; [|lia]. destruct Hx as (t & -> & Ht).
    rewrite Z.add_0_l, Z.mul_1_l in *. set (x := Z.of_nat t) in *.
    assert (Hx0 : 0 <= x) by (subst x; lia).
    destruct (Z.eq_dec x 0) as [->|H0]; [left; reflexivity|].
    destruct (Z.eq_dec x 1) as [->|H1]; [right; left; reflexivity|].
    right. right. apply in_or_app.
    destruct (Z_lt_le_dec x (2 * n)) as [Hlow|Hmid].
    { (* the part filled directly *)
      left. apply in_map_iff.
      destruct (Z.Even_or_Odd x) as [[q Hq]|[q Hq]].
      - exists (x, rd (lit 0) bk (Z.to_nat x) *! xn2). split; [reflexivity|].
        apply in_flat_map. exists x. split.
        + apply In_zrange; [lia|]. exists (Z.to_nat (q - 1)). lia.
        + right. left. reflexivity.
      - exists (x, rd (lit 0) bk (Z.to_nat x) *! xn2). split; [reflexivity|].
        apply in_flat_map. exists (x - 1). split.
        + apply In_zrange; [lia|]. exists (Z.to_nat (q - 1)). lia.
        + right. right. right. left. unfold fftblue.rdr.
          replace (x - 1 + 1) with x by lia. reflexivity. }
    destruct (Z_le_gt_dec x (2 * n2 - 2 * n + 1)) as [Hzero|Hhigh].
    { (* the zero padding *)
      right. apply in_map_iff. exists x. split; [reflexivity|].
      apply In_zrange; [lia|]. exists (Z.to_nat (x - 2 * n)). lia. }
    (* the mirrored part *)
    left. apply in_map_iff.
    destruct (Z.Even_or_Odd x) as [[q Hq]|[q Hq]].
    + exists (x, rd (lit 0) bk (Z.to_nat (2 * n2 - x)) *! xn2). split; [reflexivity|].
      apply in_flat_map. exists (2 * n2 - x). split.
      * apply In_zrange; [lia|]. exists (Z.to_nat (n2 - q - 1)). lia.
      * left. unfold fftblue.rdr. rewrite wrap_small by lia.
        replace (2 * n2 - (2 * n2 - x)) with x by lia. reflexivity.
    + exists (x, rd (lit 0) bk (Z.to_nat (2 * n2 - x + 1 + 1)) *! xn2).
      split; [reflexivity|].
      apply in_flat_map. exists (2 * n2 - x + 1). split.
      * apply In_zrange; [lia|]. exists (Z.to_nat (n2 - q - 1)). lia.
      * right. right. left. unfold fftblue.rdr. rewrite wrap_small by lia.
        replace (2 * n2 - (2 * n2 - x + 1) + 1) with x by lia. reflexivity.
Qed.

Lemma bkf_stores_cover_witness :
  1 <= 7 /\ 44 * 7 < 2 ^ 64
  /\ exists n2, helpers.good_size (wrap (7 * 2 - 1)) = Ok n2
       /\ 2 * 7 - 1 <= n2
       /\ Permutation (zrange 0 (2 * n2) 1)
            (map fst (fftblue.bkf_stores (T0 := Z) 7 n2 [] 0)).
Proof.
  split; [lia|]. split; [lia|]. apply (bkf_stores_cover (T0 := Z) 7 [] 0); lia.
Defined.

End bkf_facts.

(** ** The scale factor *)

Section buffer_lengths.
Context {T0 : Type} {ST : Scalar T0}.

Lemma PMCw_length (ch : list (cmplx T0)) (ia ib : nat) (c d : cmplx T0) :
  List.length (PMCw ch ia ib c d) = List.length ch.
Proof. unfold PMCw. rewrite !upd_length. reflexivity. Qed.

Lemma upd_re_length (l : list (cmplx T0)) (n : nat) (v : T0) :
  List.length (upd_re l n v) = List.length l.
Proof. apply upd_length. Qed.

Lemma upd_im_length (l : list (cmplx T0)) (n : nat) (v : T0) :
  List.length (upd_im l n v) = List.length l.
Proof. apply upd_length. Qed.

Lemma PARTSTEPa_length (ch : list (cmplx T0)) (i1 i2 : nat) cacb :
  List.length (cfftp.PARTSTEPa ch i1 i2 cacb) = List.length ch.
Proof. apply PMCw_length. Qed.

Lemma PARTSTEPb_length (bwd : bool) (ch : list (cmplx T0)) (i1 i2 : nat) w1 w2 cacb :
  List.length (cfftp.PARTSTEPb bwd ch i1 i2 w1 w2 cacb) = List.length ch.
Proof. unfold cfftp.PARTSTEPb. cbv zeta. rewrite !upd_length. reflexivity. Qed.

End buffer_lengths.

(* a buffer built from loops and stores is as long as the buffer it starts from *)
Ltac keep_length n :=
  repeat first
    [ assumption
    | rewrite upd_length
    | rewrite PMCw_length
    | rewrite upd_re_length
    | rewrite upd_im_length
    | rewrite PARTSTEPa_length
    | rewrite PARTSTEPb_length
    | apply (for_inv (fun l => List.length l = n)); [intros ? ? ?|]
    | apply (for2_inv (fun l => List.length l = n)); [intros ? ? ?|]
    | match goal with
      | |- List.length (if ?b then _ else _) = _ => destruct b
      end ].

Section pass_lengths.
Context {T0 : Type} {ST : Scalar T0}.
Abbreviation C := (cmplx T0).

Lemma pass2_length bwd ido l1 (cc ch wa : list C) :
  List.length (cfftp.pass2 bwd ido l1 cc ch wa) = List.length ch.
Proof.
  unfold cfftp.pass2. cbv zeta. remember (List.length ch) as n eqn:En.
  symmetry in En. keep_length n.
Qed.

Lemma pass3_length bwd ido l1 (cc ch wa : list C) :
  List.length (cfftp.pass3 bwd ido l1 cc ch wa) = List.length ch.
Proof.
  unfold cfftp.pass3. cbv zeta. remember (List.length ch) as n eqn:En.
  symmetry in En. keep_length n.
Qed.

Lemma pass4_length bwd ido l1 (cc ch wa : list C) :
  List.length (cfftp.pass4 bwd ido l1 cc ch wa) = List.length ch.
Proof.
  unfold cfftp.pass4. cbv zeta. remember (List.length ch) as n eqn:En.
  symmetry in En. keep_length n.
Qed.

Lemma pass5_length bwd ido l1 (cc ch wa : list C) :
  List.length (cfftp.pass5 bwd ido l1 cc ch wa) = List.length ch.
Proof.
  unfold cfftp.pass5. cbv zeta. remember (List.length ch) as n eqn:En.
  symmetry in En. keep_length n.
Qed.

Lemma pass7_length bwd ido l1 (cc ch wa : list C) :
  List.length (cfftp.pass7 bwd ido l1 cc ch wa) = List.length ch.
Proof.
  unfold cfftp.pass7. cbv zeta. remember (List.length ch) as n eqn:En.
  symmetry in En. keep_length n.
Qed.

Lemma pass11_length bwd ido l1 (cc ch wa : list C) :
  List.length (cfftp.pass11 bwd ido l1 cc ch wa) = List.length ch.
Proof.
  unfold cfftp.pass11. cbv zeta. remember (List.length ch) as n eqn:En.
  symmetry in En. keep_length n.
Qed.

End pass_lengths.

Lemma while_inv {S : Type} (I : S -> Prop) (fuel : nat) (cond : S -> bool)
  (body : S -> result S) (s s' : S) :
  (forall s s', I s -> body s = Ok s' -> I s') ->
  I s -> while_ fuel cond body s = Ok s' -> I s'.
Proof.
  intros Hb. revert s. induction fuel as [|fuel IH]; intros s Hs H; cbn [while_] in H.
  - destruct (cond s); [discriminate|]. injection H as <-. exact Hs.
  - destruct (cond s); [|injection H as <-; exact Hs].
    apply bind_Ok in H. destruct H as (s1 & H1 & H2).
    apply (IH s1); [|exact H2]. apply (Hb s); assumption.
Qed.

Section passg_lengths.
Context {T0 : Type} {ST : Scalar T0}.

Lemma passg_length wrapi bwd ido ip l1 (cc ch wa csarr cc' ch' : list (cmplx T0)) :
  cfftp.passg_with wrapi bwd ido ip l1 cc ch wa csarr = Ok (cc', ch') ->
  List.length cc' = List.length cc /\ List.length ch' = List.length ch.
Proof.
  unfold cfftp.passg_with. cbv zeta. intros H.
  apply bind_Ok in H. destruct H as (wal & _ & H).
  apply bind_Ok in H. destruct H as (cc1 & Hcc1 & H).
  injection H as <- <-.
  remember (List.length cc) as n eqn:En. symmetry in En.
  remember (List.length ch) as m eqn:Em. symmetry in Em.
  assert (Hlen1 : List.length cc1 = n).
  { revert Hcc1. apply (forM_inv (fun l => List.length l = n)); [|keep_length n].
    intros l c0 c1 Hc0 Hb.
    apply bind_Ok in Hb. destruct Hb as (c2 & H2 & Hb).
    assert (Hc2 : List.length c2 = n).
    { revert H2. apply (forM_inv (fun l => List.length l = n)); [|exact Hc0].
      intros ik d0 d1 Hd0 Hd.
      apply bind_Ok in Hd. destruct Hd as (wl & _ & Hd).
      apply bind_Ok in Hd. destruct Hd as (w2l & _ & Hd).
      injection Hd as <-. keep_length n. }
    apply bind_Ok in Hb. destruct Hb as ([[[j jc] iwal] c3] & H3 & Hb).
    assert (Hc3 : List.length c3 = n).
    { revert H3.
      apply (while_inv (fun st : nat * nat * nat * list (cmplx T0) =>
                          List.length (snd st) = n)); [|exact Hc2].
      intros [[[j0 jc0] iwal0] d0] [[[j1 jc1] iwal1] d1] Hd0 Hd. cbn [snd] in *.
      apply bind_Ok in Hd. destruct Hd as (xwal & _ & Hd).
      apply bind_Ok in Hd. destruct Hd as (xwal2 & _ & Hd).
      injection Hd as _ _ _ <-. keep_length n. }
    apply bind_Ok in Hb. destruct Hb as ([[[j' jc'] iwal'] c4] & H4 & Hb).
    injection Hb as <-.
    revert H4.
    apply (while_inv (fun st : nat * nat * nat * list (cmplx T0) =>
                        List.length (snd st) = n)); [|exact Hc3].
    intros [[[j0 jc0] iwal0] d0] [[[j1 jc1] iwal1] d1] Hd0 Hd. cbn [snd] in *.
    apply bind_Ok in Hd. destruct Hd as (xwal & _ & Hd).
    injection Hd as _ _ _ <-. keep_length n. }
  split; [keep_length n | keep_length m].
Qed.

End passg_lengths.

Section scale_once.
Context {T0 : Type} {ST : Scalar T0}.
Hypothesis mul_one_r : forall x : T0, x *! lit 1 = x.

Lemma cscale_one (z : cmplx T0) : cscale z (lit 1) = z.
Proof. destruct z as [r i]. unfold cscale. cbn [re im]. rewrite !mul_one_r. reflexivity. Qed.

Lemma map_cscale_one (l : list (cmplx T0)) : map (fun z => cscale z (lit 1)) l = l.
Proof.
  induction l as [|a l IH]; [reflexivity|]. cbn [map]. rewrite cscale_one, IH. reflexivity.
Qed.

(** The stages of [pass_all] leave both buffers as long as the transform. *)
Lemma pass_all_stages_length wrapi bwd (P : cfftp.plan) (c ch : list (cmplx T0)) n
  l1 p1 p2 (p1_is_c : bool) :
  List.length c = n -> List.length ch = n ->
  forM 0 (cfftp.nfct P) (fun k1 '(l1, p1, p2, p1_is_c) =>
       let f := nth k1 (cfftp.fct_arr P) (cfftp.mk_fctdata 0 [] []) in
       let ip := Z.to_nat (cfftp.fct f) in
       let l2 := ip * l1 in
       let ido := Z.to_nat (cfftp.length P) / l2 in
       if ip =? 4 then Ok (l2, cfftp.pass4 bwd ido l1 p1 p2 (cfftp.tw f), p1, negb p1_is_c)
       else if ip =? 2 then Ok (l2, cfftp.pass2 bwd ido l1 p1 p2 (cfftp.tw f), p1, negb p1_is_c)
       else if ip =? 3 then Ok (l2, cfftp.pass3 bwd ido l1 p1 p2 (cfftp.tw f), p1, negb p1_is_c)
       else if ip =? 5 then Ok (l2, cfftp.pass5 bwd ido l1 p1 p2 (cfftp.tw f), p1, negb p1_is_c)
       else if ip =? 7 then Ok (l2, cfftp.pass7 bwd ido l1 p1 p2 (cfftp.tw f), p1, negb p1_is_c)
       else if ip =? 11 then Ok (l2, cfftp.pass11 bwd ido l1 p1 p2 (cfftp.tw f), p1, negb p1_is_c)
       else
         '(p1, p2) <- cfftp.passg_with wrapi bwd ido ip l1 p1 p2 (cfftp.tw f) (cfftp.tws f) ;;
         Ok (l2, p1, p2, p1_is_c))
    (1, c, ch, true) = Ok (l1, p1, p2, p1_is_c) ->
  List.length p1 = n /\ List.length p2 = n.
Proof.
  intros Hc Hch.
  apply (forM_inv (fun st : nat * list (cmplx T0) * list (cmplx T0) * bool =>
                     List.length (snd (fst (fst st))) = n
                     /\ List.length (snd (fst st)) = n)); [|split; assumption].
  intros k [[[a q1] q2] b] [[[a' q1'] q2'] b'] [H1 H2]. cbn [fst snd] in *. cbv zeta.
  repeat match goal with
         | |- (if ?t then _ else _) = _ -> _ => destruct t
         end;
    try (intros [= <- <- <- <-]; split;
         [first [ rewrite pass2_length | rewrite pass3_length | rewrite pass4_length
                | rewrite pass5_length | rewrite pass7_length | rewrite pass11_length ];
          assumption
         | assumption ]).
  intros Hg. apply bind_Ok in Hg. destruct Hg as ([r1 r2] & Hg & Hr).
  injection Hr as <- <- <- <-.
  apply passg_length in Hg. destruct Hg as [-> ->]. split; assumption.
Qed.

(** The transform with factor [fact] is the transform with factor 1, scaled. *)
Lemma pass_all_scale (bwd : bool) (P : cfftp.plan) (c : list (cmplx T0))
  (fact : T0) :
  List.length c = Z.to_nat (cfftp.length P) ->
  (seqb fact (lit 1) = true -> fact = lit 1) ->
  cfftp.pass_all bwd P c fact
  = rmap (map (fun z => cscale z fact)) (cfftp.pass_all bwd P c (lit 1)).
Proof.
  intros Hlen Heq. unfold cfftp.pass_all, cfftp.pass_all_with. cbv zeta.
  set (n := Z.to_nat (cfftp.length P)) in *.
  destruct (n =? 1) eqn:E1.
  - apply Nat.eqb_eq in E1. rewrite E1 in Hlen.
    destruct c as [|c0 [|c1 c]]; try discriminate Hlen.
    cbn. rewrite cscale_one. reflexivity.
  - match goal with
    | |- bind ?m _ = rmap _ (bind ?m _) => destruct m as [[[[l1 p1] p2] b]| |] eqn:Est
    end; [|reflexivity|reflexivity].
    apply (pass_all_stages_length _ _ _ _ _ n) in Est;
      [|exact Hlen|apply repeat_length].
    destruct Est as [Hp1 Hp2]. cbn [bind rmap].
    assert (Hcopy : forall f, for_ 0 n (fun i c => upd c i (cscale (rdc p1 i) f)) p2
                              = map (fun z => cscale z f) p1).
    { intros f. rewrite (for_upd_fun czero) by exact Hp2.
      transitivity (map (fun z => cscale z f) (map (fun i => nth i p1 czero) (seq 0 n))).
      - rewrite map_map. reflexivity.
      - rewrite (map_nth_seq czero p1 n Hp1). reflexivity. }
    assert (Hmemcpy : for_ 0 n (fun i c => upd c i (rdc p1 i)) p2 = p1).
    { rewrite (for_upd_fun czero) by exact Hp2. apply (map_nth_seq czero). exact Hp1. }
    assert (Hinplace : forall f, for_ 0 n (fun i c => upd c i (cscale (rdc c i) f)) p1
                                 = map (fun z => cscale z f) p1).
    { intros f. apply (for_upd_self czero (fun z => cscale z f)). exact Hp1. }
    rewrite !Hcopy, !Hmemcpy, !Hinplace, map_cscale_one.
    destruct b; cbn [negb];
      destruct (seqb fact (lit 1)) eqn:Ef; cbn [negb];
      destruct (seqb (lit 1) (lit 1)); cbn [negb bind rmap];
      try reflexivity;
      rewrite (Heq eq_refl), map_cscale_one; reflexivity.
Qed.

End scale_once.

Section real_buffer_lengths.
Context {T0 : Type} {ST : Scalar T0}.

Lemma PMw_length (ch : list T0) (ia ib : nat) (c d : T0) :
  List.length (rfftp.PMw ch ia ib c d) = List.length ch.
Proof. unfold rfftp.PMw. rewrite !upd_length. reflexivity. Qed.

Lemma MULPMw_length (ch : list T0) (ia ib : nat) (c d e f : T0) :
  List.length (rfftp.MULPMw ch ia ib c d e f) = List.length ch.
Proof. unfold rfftp.MULPMw. rewrite !upd_length. reflexivity. Qed.

End real_buffer_lengths.

(* the same for the real passes, whose innermost loops also carry table
   offsets beside the buffer *)
Ltac keep_length_r n :=
  repeat first
    [ assumption
    | rewrite upd_length
    | rewrite PMw_length
    | rewrite MULPMw_length
    | apply (for_inv (fun l => List.length l = n)); [intros ? ? ?|]
    | apply (for2_inv (fun l => List.length l = n)); [intros ? ? ?|]
    | match goal with
      | |- List.length (snd (for2_ _ _ _ _)) = _ =>
          apply (for2_inv (fun st => List.length (snd st) = n));
          [ let st := fresh "st" in
            intros ? st ?;
            repeat match goal with p : (_ * _)%type |- _ => destruct p end;
            cbn [snd fst] in *
          | cbn [snd fst] ]
      | |- List.length (if ?b then _ else _) = _ => destruct b
      end ].

Section real_pass_lengths.
Context {T0 : Type} {ST : Scalar T0}.

Lemma radf2_length ido l1 (cc ch wa : list T0) :
  List.length (rfftp.radf2 ido l1 cc ch wa) = List.length ch.
Proof.
  unfold rfftp.radf2. cbv zeta. remember (List.length ch) as n eqn:En.
  symmetry in En. keep_length_r n.
Qed.

Lemma radf3_length ido l1 (cc ch wa : list T0) :
  List.length (rfftp.radf3 ido l1 cc ch wa) = List.length ch.
Proof.
  unfold rfftp.radf3. cbv zeta. remember (List.length ch) as n eqn:En.
  symmetry in En. keep_length_r n.
Qed.

Lemma radf4_length ido l1 (cc ch wa : list T0) :
  List.length (rfftp.radf4 ido l1 cc ch wa) = List.length ch.
Proof.
  unfold rfftp.radf4. cbv zeta. remember (List.length ch) as n eqn:En.
  symmetry in En. keep_length_r n.
Qed.

Lemma radf5_length ido l1 (cc ch wa : list T0) :
  List.length (rfftp.radf5 ido l1 cc ch wa) = List.length ch.
Proof.
  unfold rfftp.radf5. cbv zeta. remember (List.length ch) as n eqn:En.
  symmetry in En. keep_length_r n.
Qed.

Lemma radb2_length ido l1 (cc ch wa : list T0) :
  List.length (rfftp.radb2 ido l1 cc ch wa) = List.length ch.
Proof.
  unfold rfftp.radb2. cbv zeta. remember (List.length ch) as n eqn:En.
  symmetry in En. keep_length_r n.
Qed.

Lemma radb3_length ido l1 (cc ch wa : list T0) :
  List.length (rfftp.radb3 ido l1 cc ch wa) = List.length ch.
Proof.
  unfold rfftp.radb3. cbv zeta. remember (List.length ch) as n eqn:En.
  symmetry in En. keep_length_r n.
Qed.

Lemma radb4_length ido l1 (cc ch wa : list T0) :
  List.length (rfftp.radb4 ido l1 cc ch wa) = List.length ch.
Proof.
  unfold rfftp.radb4. cbv zeta. remember (List.length ch) as n eqn:En.
  symmetry in En. keep_length_r n.
Qed.

Lemma radb5_length ido l1 (cc ch wa : list T0) :
  List.length (rfftp.radb5 ido l1 cc ch wa) = List.length ch.
Proof.
  unfold rfftp.radb5. cbv zeta. remember (List.length ch) as n eqn:En.
  symmetry in En. keep_length_r n.
Qed.

End real_pass_lengths.

Section real_generic_lengths.
Context {T0 : Type} {ST : Scalar T0}.

Lemma first_terms_length csarr ip idl1 l lc (src dst dst' : list T0) :
  rfftp.first_terms csarr ip idl1 l lc src dst = Ok dst' ->
  List.length dst' = List.length dst.
Proof.
  unfold rfftp.first_terms. cbv zeta.
  remember (List.length dst) as n eqn:En. symmetry in En.
  apply (forM_inv (fun d => List.length d = n)); [|exact En].
  intros ik d0 d1 Hd0 Hd.
  repeat (apply bind_Ok in Hd; destruct Hd as (? & _ & Hd)).
  injection Hd as <-. rewrite !upd_length. exact Hd0.
Qed.

Lemma accumulate_length wrapi csarr ip ipph idl1 l lc (src dst dst' : list T0) :
  rfftp.accumulate wrapi csarr ip ipph idl1 l lc src dst = Ok dst' ->
  List.length dst' = List.length dst.
Proof.
  unfold rfftp.accumulate. cbv zeta.
  remember (List.length dst) as n eqn:En. symmetry in En. intros H.
  apply bind_Ok in H. destruct H as ([[[j1 jc1] iang1] d1] & H1 & H).
  apply bind_Ok in H. destruct H as ([[[j2 jc2] iang2] d2] & H2 & H).
  apply bind_Ok in H. destruct H as ([[[j3 jc3] iang3] d3] & H3 & H).
  injection H as <-.
  assert (L1 : List.length d1 = n).
  { revert H1.
    apply (while_inv (fun st : nat * nat * nat * list T0 => List.length (snd st) = n));
      [|exact En].
    intros [[[a b] c] d] [[[a' b'] c'] d'] Hd Hb. cbn [snd] in *.
    repeat (apply bind_Ok in Hb; destruct Hb as ([[? ?] ?] & _ & Hb)).
    injection Hb as _ _ _ <-. keep_length_r n. }
  assert (L2 : List.length d2 = n).
  { revert H2.
    apply (while_inv (fun st : nat * nat * nat * list T0 => List.length (snd st) = n));
      [|exact L1].
    intros [[[a b] c] d] [[[a' b'] c'] d'] Hd Hb. cbn [snd] in *.
    repeat (apply bind_Ok in Hb; destruct Hb as ([[? ?] ?] & _ & Hb)).
    injection Hb as _ _ _ <-. keep_length_r n. }
  revert H3.
  apply (while_inv (fun st : nat * nat * nat * list T0 => List.length (snd st) = n));
    [|exact L2].
  intros [[[a b] c] d] [[[a' b'] c'] d'] Hd Hb. cbn [snd] in *.
  repeat (apply bind_Ok in Hb; destruct Hb as ([[? ?] ?] & _ & Hb)).
  injection Hb as _ _ _ <-. keep_length_r n.
Qed.

Lemma radfg_length ido ip l1 (cc ch wa csarr cc' ch' : list T0) :
  rfftp.radfg ido ip l1 cc ch wa csarr = Ok (cc', ch') ->
  List.length cc' = List.length cc /\ List.length ch' = List.length ch.
Proof.
  unfold rfftp.radfg. cbv zeta. intros H.
  remember (List.length cc) as n eqn:En. symmetry in En.
  remember (List.length ch) as m eqn:Em. symmetry in Em.
  apply bind_Ok in H. destruct H as (ch1 & Hch1 & H).
  assert (L1 : List.length ch1 = m).
  { revert Hch1. apply (forM_inv (fun d => List.length d = m)); [|exact Em].
    intros l d0 d1 Hd0 Hd.
    apply bind_Ok in Hd. destruct Hd as (d2 & Hd2 & Hd).
    apply first_terms_length in Hd2. apply accumulate_length in Hd. congruence. }
  destruct (ido =? 1); injection H as <- <-;
    (split; [keep_length_r n | keep_length_r m]).
Qed.

Lemma radbg_length wrapi ido ip l1 (cc ch wa csarr cc' ch' : list T0) :
  rfftp.radbg_with wrapi ido ip l1 cc ch wa csarr = Ok (cc', ch') ->
  List.length cc' = List.length cc /\ List.length ch' = List.length ch.
Proof.
  unfold rfftp.radbg_with. cbv zeta. intros H.
  remember (List.length cc) as n eqn:En. symmetry in En.
  remember (List.length ch) as m eqn:Em. symmetry in Em.
  apply bind_Ok in H. destruct H as (cc1 & Hcc1 & H).
  assert (L1 : List.length cc1 = n).
  { revert Hcc1. apply (forM_inv (fun d => List.length d = n)); [|exact En].
    intros l d0 d1 Hd0 Hd.
    apply bind_Ok in Hd. destruct Hd as (d2 & Hd2 & Hd).
    apply first_terms_length in Hd2. apply accumulate_length in Hd. congruence. }
  destruct (ido =? 1); injection H as <- <-;
    (split; [exact L1 | cbn [negb]; keep_length_r m]).
Qed.

End real_generic_lengths.

Section real_scale_once.
Context {T0 : Type} {ST : Scalar T0}.
Hypothesis mul_one_r : forall x : T0, x *! lit 1 = x.
Hypothesis mul_comm : forall x y : T0, x *! y = y *! x.

Lemma scale_one (l : list T0) : scale (lit 1) l = l.
Proof.
  unfold scale. induction l as [|a l IH]; [reflexivity|].
  cbn [map]. rewrite IH, mul_comm, mul_one_r. reflexivity.
Qed.

(** [copy_and_norm] on buffers of length [n]: the contents of [p1], times
    [fct], end up in [c]. *)
Lemma copy_and_norm_scale (p1 p2 : list T0) (p1_is_c : bool) (n : nat) (fct : T0) :
  List.length p1 = n -> List.length p2 = n ->
  (seqb fct (lit 1) = true -> fct = lit 1) ->
  rfftp.copy_and_norm (if p1_is_c then p1 else p2) p1 p1_is_c n fct = scale fct p1.
Proof.
  intros Hp1 Hp2 Heq. unfold rfftp.copy_and_norm, rfftp.rdr, rd.
  destruct p1_is_c; cbn [negb]; destruct (seqb fct (lit 1)); cbn [negb].
  - rewrite (Heq eq_refl), scale_one. reflexivity.
  - rewrite (for_upd_self (lit 0) (fun x => x *! fct)) by exact Hp1.
    unfold scale. apply map_ext. intros x. apply mul_comm.
  - rewrite (Heq eq_refl), scale_one.
    rewrite (for_upd_fun (lit 0)) by exact Hp2. apply (map_nth_seq (lit 0)). exact Hp1.
  - rewrite (for_upd_fun (lit 0)) by exact Hp2. unfold scale.
    transitivity (map (fun x => fct *! x) (map (fun i => nth i p1 (lit 0)) (seq 0 n))).
    + rewrite map_map. reflexivity.
    + rewrite (map_nth_seq (lit 0) p1 n Hp1). reflexivity.
Qed.

Lemma forward_stages_length (P : rfftp.plan) (c ch : list T0) n l1 p1 p2 (b : bool) :
  List.length c = n -> List.length ch = n ->
  forM 0 (rfftp.nfct P) (fun k1 '(l1, p1, p2, p1_is_c) =>
       let k := rfftp.nfct P - k1 - 1 in
       let f := nth k (rfftp.fct_arr P) (rfftp.mk_fctdata 0 [] []) in
       let ip := Z.to_nat (rfftp.fct f) in
       let ido := Z.to_nat (rfftp.length P) / l1 in
       let l1 := l1 / ip in
       if ip =? 4 then Ok (l1, rfftp.radf4 ido l1 p1 p2 (rfftp.tw f), p1, negb p1_is_c)
       else if ip =? 2 then Ok (l1, rfftp.radf2 ido l1 p1 p2 (rfftp.tw f), p1, negb p1_is_c)
       else if ip =? 3 then Ok (l1, rfftp.radf3 ido l1 p1 p2 (rfftp.tw f), p1, negb p1_is_c)
       else if ip =? 5 then Ok (l1, rfftp.radf5 ido l1 p1 p2 (rfftp.tw f), p1, negb p1_is_c)
       else
         '(p1, p2) <- rfftp.radfg ido ip l1 p1 p2 (rfftp.tw f) (rfftp.tws f) ;;
         Ok (l1, p1, p2, p1_is_c))
    (Z.to_nat (rfftp.length P), c, ch, true) = Ok (l1, p1, p2, b) ->
  List.length p1 = n /\ List.length p2 = n.
Proof.
  intros Hc Hch.
  apply (forM_inv (fun st : nat * list T0 * list T0 * bool =>
                     List.length (snd (fst (fst st))) = n
                     /\ List.length (snd (fst st)) = n)); [|split; assumption].
  intros k [[[a q1] q2] b0] [[[a' q1'] q2'] b'] [H1 H2]. cbn [fst snd] in *. cbv zeta.
  repeat match goal with
         | |- (if ?t then _ else _) = _ -> _ => destruct t
         end;
    try (intros [= <- <- <- <-]; split;
         [first [ rewrite radf2_length | rewrite radf3_length | rewrite radf4_length
                | rewrite radf5_length ]; assumption
         | assumption ]).
  intros Hg. apply bind_Ok in Hg. destruct Hg as ([r1 r2] & Hg & Hr).
  injection Hr as <- <- <- <-.
  apply radfg_length in Hg. destruct Hg as [-> ->]. split; assumption.
Qed.

Lemma backward_stages_length wrapi (P : rfftp.plan) (c ch : list T0) n l1 p1 p2 (b : bool) :
  List.length c = n -> List.length ch = n ->
  forM 0 (rfftp.nfct P) (fun k '(l1, p1, p2, p1_is_c) =>
       let f := nth k (rfftp.fct_arr P) (rfftp.mk_fctdata 0 [] []) in
       let ip := Z.to_nat (rfftp.fct f) in
       let ido := Z.to_nat (rfftp.length P) / (ip * l1) in
       if ip =? 4 then Ok (l1 * ip, rfftp.radb4 ido l1 p1 p2 (rfftp.tw f), p1, negb p1_is_c)
       else if ip =? 2 then Ok (l1 * ip, rfftp.radb2 ido l1 p1 p2 (rfftp.tw f), p1, negb p1_is_c)
       else if ip =? 3 then Ok (l1 * ip, rfftp.radb3 ido l1 p1 p2 (rfftp.tw f), p1, negb p1_is_c)
       else if ip =? 5 then Ok (l1 * ip, rfftp.radb5 ido l1 p1 p2 (rfftp.tw f), p1, negb p1_is_c)
       else
         '(p1, p2) <- rfftp.radbg_with wrapi ido ip l1 p1 p2 (rfftp.tw f) (rfftp.tws f) ;;
         Ok (l1 * ip, p2, p1, negb p1_is_c))
    (1, c, ch, true) = Ok (l1, p1, p2, b) ->
  List.length p1 = n /\ List.length p2 = n.
Proof.
  intros Hc Hch.
  apply (forM_inv (fun st : nat * list T0 * list T0 * bool =>
                     List.length (snd (fst (fst st))) = n
                     /\ List.length (snd (fst st)) = n)); [|split; assumption].
  intros k [[[a q1] q2] b0] [[[a' q1'] q2'] b'] [H1 H2]. cbn [fst snd] in *. cbv zeta.
  repeat match goal with
         | |- (if ?t then _ else _) = _ -> _ => destruct t
         end;
    try (intros [= <- <- <- <-]; split;
         [first [ rewrite radb2_length | rewrite radb3_length | rewrite radb4_length
                | rewrite radb5_length ]; assumption
         | assumption ]).
  intros Hg. apply bind_Ok in Hg. destruct Hg as ([r1 r2] & Hg & Hr).
  injection Hr as <- <- <- <-.
  apply radbg_length in Hg. destruct Hg as [-> ->]. split; assumption.
Qed.

(** The real transforms with factor [fact] are those with factor 1, scaled. *)
Lemma rfftp_forward_scale (P : rfftp.plan) (c : list T0) (fact : T0) :
  List.length c = Z.to_nat (rfftp.length P) ->
  (seqb fact (lit 1) = true -> fact = lit 1) ->
  rfftp.forward P c fact = rmap (scale fact) (rfftp.forward P c (lit 1)).
Proof.
  intros Hlen Heq.
  assert (Hone : seqb (lit 1) (lit 1) = true -> lit 1 = lit 1 :> T0) by reflexivity.
  unfold rfftp.forward. cbv zeta.
  destruct (Z.eqb_spec (rfftp.length P) 1) as [E1|E1].
  - rewrite E1 in Hlen. destruct c as [|c0 [|c1 c]]; try discriminate Hlen.
    cbn. unfold rfftp.rdr, rd. cbn [nth].
    rewrite mul_one_r, (mul_comm fact c0). reflexivity.
  - match goal with
    | |- bind ?m _ = rmap _ (bind ?m _) => destruct m as [[[[l1 p1] p2] b]| |] eqn:Est
    end; [|reflexivity|reflexivity].
    apply (forward_stages_length _ _ _ (Z.to_nat (rfftp.length P))) in Est;
      [|exact Hlen|apply repeat_length].
    destruct Est as [Hp1 Hp2]. cbn [bind rmap].
    rewrite !copy_and_norm_scale by assumption. rewrite scale_one. reflexivity.
Qed.

Lemma rfftp_backward_scale (P : rfftp.plan) (c : list T0) (fact : T0) :
  List.length c = Z.to_nat (rfftp.length P) ->
  (seqb fact (lit 1) = true -> fact = lit 1) ->
  rfftp.backward P c fact = rmap (scale fact) (rfftp.backward P c (lit 1)).
Proof.
  intros Hlen Heq.
  assert (Hone : seqb (lit 1) (lit 1) = true -> lit 1 = lit 1 :> T0) by reflexivity.
  unfold rfftp.backward, rfftp.backward_with. cbv zeta.
  destruct (Z.eqb_spec (rfftp.length P) 1) as [E1|E1].
  - rewrite E1 in Hlen. destruct c as [|c0 [|c1 c]]; try discriminate Hlen.
    cbn. unfold rfftp.rdr, rd. cbn [nth].
    rewrite mul_one_r, (mul_comm fact c0). reflexivity.
  - match goal with
    | |- bind ?m _ = rmap _ (bind ?m _) => destruct m as [[[[l1 p1] p2] b]| |] eqn:Est
    end; [|reflexivity|reflexivity].
    apply (backward_stages_length _ _ _ _ (Z.to_nat (rfftp.length P))) in Est;
      [|exact Hlen|apply repeat_length].
    destruct Est as [Hp1 Hp2]. cbn [bind rmap].
    rewrite !copy_and_norm_scale by assumption. rewrite scale_one. reflexivity.
Qed.

End real_scale_once.

Lemma upd_middle {A : Type} (l1 l2 : list A) (x v : A) :
  upd (l1 ++ x :: l2) (List.length l1) v = l1 ++ v :: l2.
Proof. induction l1 as [|a l1 IH]; cbn [app List.length upd]; [reflexivity | now rewrite IH]. Qed.

(** [for (t=0; t<k; ++t) c[a+t] = f(t)], as [memcpy(c+a, .., k)] does *)
Lemma for_upd_affine {A : Type} (a : nat) (f : nat -> A) (l : list A) (k : nat) :
  a + k <= List.length l ->
  for_ 0 k (fun t c => upd c (a + t) (f t)) l
  = firstn a l ++ map f (seq 0 k) ++ skipn (a + k) l.
Proof.
  unfold for_. rewrite Nat.sub_0_r. induction k as [|k IH]; intros Hk.
  - cbn [seq map fold_left app]. rewrite Nat.add_0_r, firstn_skipn. reflexivity.
  - rewrite seq_S, fold_left_app, map_app. cbn [fold_left map Nat.add].
    rewrite IH by lia.
    assert (Hsk : exists x, skipn (a + k) l = x :: skipn (a + Datatypes.S k) l).
    { destruct (skipn (a + k) l) as [|x r] eqn:E.
      - apply (f_equal (@List.length A)) in E. rewrite length_skipn in E.
        cbn [List.length] in E. lia.
      - exists x. f_equal.
        replace (a + Datatypes.S k) with (1 + (a + k)) by lia.
        rewrite <- skipn_skipn, E. reflexivity. }
    destruct Hsk as [x ->].
    rewrite app_assoc.
    replace (a + k) with (List.length (firstn a l ++ map f (seq 0 k))).
    2:{ rewrite length_app, length_firstn, length_map, length_seq. lia. }
    rewrite upd_middle, <- !app_assoc. reflexivity.
Qed.

Section bluestein_scale_once.
Context {T0 : Type} {ST : Scalar T0}.
Hypothesis mul_one_l : forall x : T0, lit 1 *! x = x.

(** Only the last loop of [fft] uses [fct]. *)
Lemma fft_scale (bwd : bool) (P : fftblue.plan) (c : list T0)
  (fct : T0) :
  List.length c = 2 * Z.to_nat (fftblue.n P) ->
  fftblue.fft bwd P c fct = rmap (scale fct) (fftblue.fft bwd P c (lit 1)).
Proof.
  intros Hlen. unfold fftblue.fft. cbv zeta.
  match goal with
  | |- bind ?m _ = rmap _ (bind ?m _) => destruct m as [akf1| |]
  end; [|reflexivity|reflexivity].
  cbn [bind].
  match goal with
  | |- bind ?m _ = rmap _ (bind ?m _) => destruct m as [akf2| |]
  end; [|reflexivity|reflexivity].
  cbn [bind rmap]. f_equal.
  rewrite !(for2_upd_pairs (lit 0)) by exact Hlen.
  unfold scale. rewrite !flat_map_concat_map, concat_map, map_map.
  f_equal. apply map_ext. intros j.
  cbn [map]. rewrite !mul_one_l. reflexivity.
Qed.

Lemma fft_length (bwd : bool) (P : fftblue.plan) (c c' : list T0) (fct : T0) :
  fftblue.fft bwd P c fct = Ok c' -> List.length c' = List.length c.
Proof.
  unfold fftblue.fft. cbv zeta. intros H.
  apply bind_Ok in H. destruct H as (akf1 & _ & H).
  apply bind_Ok in H. destruct H as (akf2 & _ & H).
  injection H as <-.
  remember (List.length c) as n eqn:En. symmetry in En. keep_length n.
Qed.

Lemma rdr_scale (fct : T0) (l : list T0) (i : nat) :
  i < List.length l -> fftblue.rdr (scale fct l) i = fct *! fftblue.rdr l i.
Proof.
  intros Hi. unfold fftblue.rdr, rd, scale.
  rewrite (nth_indep _ (lit 0) (fct *! lit 0)) by (rewrite length_map; exact Hi).
  apply (map_nth (fun x => fct *! x)).
Qed.

(** [forward_r]: the embedding of the real input does not see [fct], and the
    copy back takes every output from the scaled transform. *)
Lemma forward_r_scale (P : fftblue.plan) (c : list T0) (fct : T0) :
  List.length c = Z.to_nat (fftblue.n P) ->
  fftblue.forward_r P c fct = rmap (scale fct) (fftblue.forward_r P c (lit 1)).
Proof.
  intros Hlen. unfold fftblue.forward_r. cbv zeta.
  set (n := Z.to_nat (fftblue.n P)) in *.
  match goal with
  | |- bind (fftblue.fft _ _ ?t _) _ = _ => set (tmp := t)
  end.
  assert (Htmp : List.length tmp = 2 * n).
  { subst tmp. remember (2 * n) as m eqn:Em.
    assert (Hr : List.length (repeat (lit 0) m) = m) by apply repeat_length.
    keep_length m. }
  rewrite (fft_scale false P tmp fct Htmp).
  destruct (fftblue.fft false P tmp (lit 1)) as [t1| |] eqn:Efft; [|reflexivity|reflexivity].
  apply fft_length in Efft. rewrite Htmp in Efft.
  cbn [rmap bind]. f_equal.
  destruct c as [|c0 c]; [cbn [List.length] in Hlen; rewrite <- Hlen; reflexivity|].
  cbn [List.length] in Hlen. cbn [upd].
  rewrite !(for_upd_affine 1) by (cbn [List.length]; lia).
  cbn [firstn app]. replace (1 + (n - 1)) with (List.length (fftblue.rdr t1 0 :: c))
    by (cbn [List.length]; lia).
  replace (List.length (fftblue.rdr t1 0 :: c))
    with (List.length (fftblue.rdr (scale fct t1) 0 :: c)) at 1 by reflexivity.
  rewrite !skipn_all, !app_nil_r.
  unfold scale at 3. cbn [map]. rewrite map_map.
  rewrite rdr_scale by lia. f_equal.
  apply map_ext_in. intros t Ht. apply in_seq in Ht. apply rdr_scale. lia.
Qed.

(** [backward_r]: likewise. *)
Lemma backward_r_scale (P : fftblue.plan) (c : list T0) (fct : T0) :
  List.length c = Z.to_nat (fftblue.n P) ->
  fftblue.backward_r P c fct = rmap (scale fct) (fftblue.backward_r P c (lit 1)).
Proof.
  intros Hlen. unfold fftblue.backward_r. cbv zeta.
  set (n := Z.to_nat (fftblue.n P)) in *.
  match goal with
  | |- bind (fftblue.fft _ _ ?t _) _ = _ => set (tmp := t)
  end.
  assert (Htmp : List.length tmp = 2 * n).
  { subst tmp. remember (2 * n) as m eqn:Em.
    assert (Hr : List.length (repeat (lit 0) m) = m) by apply repeat_length.
    keep_length m. }
  rewrite (fft_scale true P tmp fct Htmp).
  destruct (fftblue.fft true P tmp (lit 1)) as [t1| |] eqn:Efft; [|reflexivity|reflexivity].
  apply fft_length in Efft. rewrite Htmp in Efft.
  cbn [rmap bind]. f_equal.
  rewrite !(for_upd_fun (lit 0)) by exact Hlen.
  unfold scale at 2. rewrite map_map.
  apply map_ext_in. intros m Hm. apply in_seq in Hm. apply rdr_scale. lia.
Qed.

End bluestein_scale_once.

(** *** The scale factor through the plans *)

Section casts_scale.
Context {T0 : Type} {ST : Scalar T0}.
Hypothesis mul_comm : forall x y : T0, x *! y = y *! x.

Lemma to_cmplx_length (k : nat) : forall c : list T0,
  List.length c = 2 * k -> List.length (to_cmplx c) = k.
Proof.
  induction k as [|k IH]; intros c Hc.
  - destruct c; [reflexivity | discriminate].
  - destruct c as [|a [|b c]]; try (cbn [List.length] in Hc; lia).
    cbn [to_cmplx List.length]. f_equal. apply IH. cbn [List.length] in Hc. lia.
Qed.

Lemma of_cmplx_scale (fct : T0) (z : list (cmplx T0)) :
  of_cmplx (map (fun x => cscale x fct) z) = scale fct (of_cmplx z).
Proof.
  unfold of_cmplx, scale. induction z as [|a z IH]; [reflexivity|].
  cbn [map flat_map app re im cscale]. rewrite IH.
  rewrite (mul_comm (re a)), (mul_comm (im a)). reflexivity.
Qed.

(** A transform of complex numbers that scales its output, run on an
    interleaved buffer of even length. *)
Lemma through_cast_scale (f f1 : list (cmplx T0) -> result (list (cmplx T0)))
  (fct : T0) (c : list T0) (k : nat) :
  List.length c = 2 * k ->
  f (to_cmplx c) = rmap (map (fun x => cscale x fct)) (f1 (to_cmplx c)) ->
  through_cast f c = rmap (scale fct) (through_cast f1 c).
Proof.
  intros Hc Hf. unfold through_cast. cbv zeta. rewrite Hf.
  rewrite (to_cmplx_length k c Hc), <- Hc, skipn_all.
  destruct (f1 (to_cmplx c)) as [z| |]; [|reflexivity|reflexivity].
  cbn [rmap bind]. rewrite !app_nil_r, of_cmplx_scale. reflexivity.
Qed.

End casts_scale.

Section constructed_plans.
Context {T0 : Type} {ST : Scalar T0}.
Variable sincos_2pibyn : Z -> bool -> nat -> T0.

Lemma cfftp_ctor_length (N : Z) (p : cfftp.plan) :
  cfftp.cfftp sincos_2pibyn N = Ok p -> cfftp.length p = N.
Proof.
  unfold cfftp.cfftp. destruct (N =? 0)%Z; [discriminate|].
  destruct (N =? 1)%Z; [intros [= <-]; reflexivity|].
  intros H. apply bind_Ok in H. destruct H as (fcts & _ & [= <-]). reflexivity.
Qed.

Lemma rfftp_ctor_length (N : Z) (p : rfftp.plan) :
  rfftp.rfftp sincos_2pibyn N = Ok p -> rfftp.length p = N.
Proof.
  unfold rfftp.rfftp. destruct (N =? 0)%Z; [discriminate|].
  destruct (N =? 1)%Z; [intros [= <-]; reflexivity|].
  intros H. apply bind_Ok in H. destruct H as (fcts & _ & [= <-]). reflexivity.
Qed.

Lemma fftblue_ctor_n (N : Z) (p : fftblue.plan) :
  fftblue.fftblue sincos_2pibyn N = Ok p -> fftblue.n p = N.
Proof.
  unfold fftblue.fftblue. cbv zeta. intros H.
  apply bind_Ok in H. destruct H as (n2 & _ & H).
  apply bind_Ok in H. destruct H as (pl & _ & H).
  apply bind_Ok in H. destruct H as (bkf & _ & [= <-]). reflexivity.
Qed.

(** The constructor [pocketfft_c(length)] sets one of the two plans, built
    for that length. *)
Lemma pocketfft_c_ctor_cases (N : Z) (P : pocketfft_c.plan) :
  pocketfft_c.pocketfft_c sincos_2pibyn N = Ok P ->
  (exists p, P = pocketfft_c.packplan p N /\ cfftp.cfftp sincos_2pibyn N = Ok p)
  \/ (exists p, P = pocketfft_c.blueplan p N /\ fftblue.fftblue sincos_2pibyn N = Ok p).
Proof.
  unfold pocketfft_c.pocketfft_c. destruct (N =? 0)%Z; [discriminate|].
  intros H. apply bind_Ok in H. destruct H as (small & _ & H).
  destruct small.
  - apply rmap_Ok in H. destruct H as (p & Hp & ->). left. exists p. split; auto.
  - apply bind_Ok in H. destruct H as (comp1 & _ & H).
    apply bind_Ok in H. destruct H as (g & _ & H).
    apply bind_Ok in H. destruct H as (cg & _ & H). cbv zeta in H.
    match type of H with (if ?b then _ else _) = _ => destruct b end;
      apply rmap_Ok in H; destruct H as (p & Hp & ->);
      [right | left]; exists p; split; auto.
Qed.

Lemma pocketfft_r_ctor_cases (N : Z) (P : pocketfft_r.plan) :
  pocketfft_r.pocketfft_r sincos_2pibyn N = Ok P ->
  (exists p, P = pocketfft_r.packplan p N /\ rfftp.rfftp sincos_2pibyn N = Ok p)
  \/ (exists p, P = pocketfft_r.blueplan p N /\ fftblue.fftblue sincos_2pibyn N = Ok p).
Proof.
  unfold pocketfft_r.pocketfft_r. destruct (N =? 0)%Z; [discriminate|].
  intros H. apply bind_Ok in H. destruct H as (small & _ & H).
  destruct small.
  - apply rmap_Ok in H. destruct H as (p & Hp & ->). left. exists p. split; auto.
  - apply bind_Ok in H. destruct H as (comp1 & _ & H). cbv zeta in H.
    apply bind_Ok in H. destruct H as (g & _ & H).
    apply bind_Ok in H. destruct H as (cg & _ & H). cbv zeta in H.
    match type of H with (if ?b then _ else _) = _ => destruct b end;
      apply rmap_Ok in H; destruct H as (p & Hp & ->);
      [right | left]; exists p; split; auto.
Qed.

End constructed_plans.

Section scale_theorems.
Context {T0 : Type} {ST : Scalar T0}.
Hypothesis mul_one_r : forall x : T0, x *! lit 1 = x.
Hypothesis mul_comm : forall x y : T0, x *! y = y *! x.

Lemma mul_one_l (x : T0) : lit 1 *! x = x.
Proof. rewrite mul_comm. apply mul_one_r. Qed.

(** X8 -- [cfftp::forward] and [cfftp::backward] ([pass_all]): on a buffer
    as long as the plan, the transform with factor [fct] is the transform
    with factor 1 with every element multiplied by [fct] afterwards; no
    butterfly stage sees [fct].  The arithmetic needs [x*1 = x], and that
    [fct!=1.] is false only for 1. *)
Theorem cfftp_scale_applied_once (P : cfftp.plan) (c : list (cmplx T0)) (fct : T0) :
  List.length c = Z.to_nat (cfftp.length P) ->
  (seqb fct (lit 1) = true -> fct = lit 1) ->
  cfftp.forward P c fct
  = rmap (map (fun z => cscale z fct)) (cfftp.forward P c (lit 1))
  /\ cfftp.backward P c fct
     = rmap (map (fun z => cscale z fct)) (cfftp.backward P c (lit 1)).
Proof.
  intros Hlen Heq. unfold cfftp.forward, cfftp.backward.
  split; apply pass_all_scale; assumption.
Qed.

(** X9 -- [rfftp::forward] and [rfftp::backward]: on a buffer as long as the
    plan, the transform with factor [fct] is the transform with factor 1
    with every element multiplied by [fct] afterwards: [copy_and_norm] is
    the only place that uses [fct], whichever of its four branches runs.
    The arithmetic needs [x*1 = x] and [x*y = y*x], and that [fct!=1.] is
    false only for 1. *)
Theorem rfftp_scale_applied_once (P : rfftp.plan) (c : list T0) (fct : T0) :
  List.length c = Z.to_nat (rfftp.length P) ->
  (seqb fct (lit 1) = true -> fct = lit 1) ->
  rfftp.forward P c fct = rmap (scale fct) (rfftp.forward P c (lit 1))
  /\ rfftp.backward P c fct = rmap (scale fct) (rfftp.backward P c (lit 1)).
Proof.
  intros Hlen Heq.
  split; [apply rfftp_forward_scale | apply rfftp_backward_scale]; assumption.
Qed.

(** X10 -- The Bluestein plan: [forward] and [backward] on an interleaved
    buffer of [2*n] scalars, [forward_r] and [backward_r] on [n] scalars:
    the transform with factor [fct] is the transform with factor 1 with
    every scalar multiplied by [fct] afterwards (only the last loop of [fft]
    uses [fct], and the real wrappers copy from its output). *)
Theorem fftblue_scale_applied_once (P : fftblue.plan) (fct : T0) :
  (forall c, List.length c = 2 * Z.to_nat (fftblue.n P) ->
     fftblue.forward P c fct = rmap (scale fct) (fftblue.forward P c (lit 1))
     /\ fftblue.backward P c fct = rmap (scale fct) (fftblue.backward P c (lit 1)))
  /\ (forall c, List.length c = Z.to_nat (fftblue.n P) ->
     fftblue.forward_r P c fct = rmap (scale fct) (fftblue.forward_r P c (lit 1))
     /\ fftblue.backward_r P c fct = rmap (scale fct) (fftblue.backward_r P c (lit 1))).
Proof.
  split; intros c Hc; split.
  - apply (fft_scale mul_one_l). exact Hc.
  - apply (fft_scale mul_one_l). exact Hc.
  - apply (forward_r_scale mul_one_l). exact Hc.
  - apply (backward_r_scale mul_one_l). exact Hc.
Qed.

(** X11 -- Through the dispatcher [pocketfft_c]: for the plan constructed
    for a length [N], whichever of the two algorithms was chosen, and an
    interleaved buffer of [2*N] scalars, [forward(c,fct)] and
    [backward(c,fct)] are the transform with factor 1 followed by the
    multiplication of every scalar by [fct]. *)
Theorem pocketfft_c_scale_applied_once (twid : Z -> bool -> nat -> T0) (N : Z)
  (P : pocketfft_c.plan) (c : list T0) (fct : T0) :
  pocketfft_c.pocketfft_c twid N = Ok P ->
  List.length c = 2 * Z.to_nat N ->
  (seqb fct (lit 1) = true -> fct = lit 1) ->
  pocketfft_c.forward P c fct = rmap (scale fct) (pocketfft_c.forward P c (lit 1))
  /\ pocketfft_c.backward P c fct = rmap (scale fct) (pocketfft_c.backward P c (lit 1)).
Proof.
  intros HP Hc Heq.
  destruct (pocketfft_c_ctor_cases twid N P HP) as [(p & -> & Hp)|(p & -> & Hp)].
  - apply cfftp_ctor_length in Hp.
    assert (Hz : List.length (to_cmplx c) = Z.to_nat (cfftp.length p)).
    { rewrite Hp. apply to_cmplx_length. exact Hc. }
    cbn [pocketfft_c.forward pocketfft_c.backward].
    split; apply (through_cast_scale mul_comm _ _ fct c (Z.to_nat N) Hc);
      apply pass_all_scale; assumption.
  - apply fftblue_ctor_n in Hp. rewrite <- Hp in Hc.
    cbn [pocketfft_c.forward pocketfft_c.backward].
    split; apply (fft_scale mul_one_l); exact Hc.
Qed.

(** X12 -- Through the dispatcher [pocketfft_r]: for the plan constructed
    for a length [N] and a buffer of [N] scalars, [forward(c,fct)] and
    [backward(c,fct)] are the transform with factor 1 followed by the
    multiplication of every scalar by [fct]. *)
Theorem pocketfft_r_scale_applied_once (twid : Z -> bool -> nat -> T0) (N : Z)
  (P : pocketfft_r.plan) (c : list T0) (fct : T0) :
  pocketfft_r.pocketfft_r twid N = Ok P ->
  List.length c = Z.to_nat N ->
  (seqb fct (lit 1) = true -> fct = lit 1) ->
  pocketfft_r.forward P c fct = rmap (scale fct) (pocketfft_r.forward P c (lit 1))
  /\ pocketfft_r.backward P c fct = rmap (scale fct) (pocketfft_r.backward P c (lit 1)).
Proof.
  intros HP Hc Heq.
  destruct (pocketfft_r_ctor_cases twid N P HP) as [(p & -> & Hp)|(p & -> & Hp)].
  - apply rfftp_ctor_length in Hp. rewrite <- Hp in Hc.
    cbn [pocketfft_r.forward pocketfft_r.backward].
    split; [apply rfftp_forward_scale | apply rfftp_backward_scale]; assumption.
  - apply fftblue_ctor_n in Hp. rewrite <- Hp in Hc.
    cbn [pocketfft_r.forward pocketfft_r.backward].
    split; [apply (forward_r_scale mul_one_l) | apply (backward_r_scale mul_one_l)];
      exact Hc.
Qed.

End scale_theorems.

Lemma Z_mul_one_r : forall x : Z, x *! lit 1 = x.
Proof. intros x. change (x * 1 = x)%Z. apply Z.mul_1_r. Defined.

Lemma Z_mul_comm : forall x y : Z, x *! y = y *! x.
Proof. intros x y. change (x * y = y * x)%Z. apply Z.mul_comm. Defined.

Lemma cfftp_scale_applied_once_witness :
  (forall x : Z, x *! lit 1 = x)
  /\ (forall x y : Z, x *! y = y *! x)
  /\ List.length [mk_cmplx 1%Z 0%Z; mk_cmplx 2%Z 0%Z; mk_cmplx 3%Z 0%Z; mk_cmplx 4%Z 0%Z]
     = Z.to_nat (cfftp.length (cfftp.mk_plan (T0 := Z) 4 [cfftp.mk_fctdata 4 [] []]))
  /\ (seqb 3%Z (lit 1) = true -> 3%Z = lit 1)
  /\ cfftp.forward (cfftp.mk_plan (T0 := Z) 4 [cfftp.mk_fctdata 4 [] []])
       [mk_cmplx 1%Z 0%Z; mk_cmplx 2%Z 0%Z; mk_cmplx 3%Z 0%Z; mk_cmplx 4%Z 0%Z] 3%Z
     = rmap (map (fun z => cscale z 3%Z))
         (cfftp.forward (cfftp.mk_plan (T0 := Z) 4 [cfftp.mk_fctdata 4 [] []])
            [mk_cmplx 1%Z 0%Z; mk_cmplx 2%Z 0%Z; mk_cmplx 3%Z 0%Z; mk_cmplx 4%Z 0%Z]
            (lit 1))
  /\ cfftp.backward (cfftp.mk_plan (T0 := Z) 4 [cfftp.mk_fctdata 4 [] []])
       [mk_cmplx 1%Z 0%Z; mk_cmplx 2%Z 0%Z; mk_cmplx 3%Z 0%Z; mk_cmplx 4%Z 0%Z] 3%Z
     = rmap (map (fun z => cscale z 3%Z))
         (cfftp.backward (cfftp.mk_plan (T0 := Z) 4 [cfftp.mk_fctdata 4 [] []])
            [mk_cmplx 1%Z 0%Z; mk_cmplx 2%Z 0%Z; mk_cmplx 3%Z 0%Z; mk_cmplx 4%Z 0%Z]
            (lit 1)).
Proof.
  split; [exact Z_mul_one_r|]. split; [exact Z_mul_comm|].
  split; [reflexivity|]. split; [discriminate|].
  apply (cfftp_scale_applied_once Z_mul_one_r
           (cfftp.mk_plan (T0 := Z) 4 [cfftp.mk_fctdata 4 [] []])
           [mk_cmplx 1%Z 0%Z; mk_cmplx 2%Z 0%Z; mk_cmplx 3%Z 0%Z; mk_cmplx 4%Z 0%Z] 3%Z);
    [reflexivity | discriminate].
Defined.

Lemma rfftp_scale_applied_once_witness :
  (forall x : Z, x *! lit 1 = x)
  /\ (forall x y : Z, x *! y = y *! x)
  /\ List.length [1; 2; 3; 4]%Z
     = Z.to_nat (rfftp.length (rfftp.mk_plan (T0 := Z) 4 [rfftp.mk_fctdata 4 [] []]))
  /\ (seqb 3%Z (lit 1) = true -> 3%Z = lit 1)
  /\ rfftp.forward (rfftp.mk_plan (T0 := Z) 4 [rfftp.mk_fctdata 4 [] []]) [1; 2; 3; 4]%Z 3%Z
     = rmap (scale 3%Z)
         (rfftp.forward (rfftp.mk_plan (T0 := Z) 4 [rfftp.mk_fctdata 4 [] []])
            [1; 2; 3; 4]%Z (lit 1))
  /\ rfftp.backward (rfftp.mk_plan (T0 := Z) 4 [rfftp.mk_fctdata 4 [] []]) [1; 2; 3; 4]%Z 3%Z
     = rmap (scale 3%Z)
         (rfftp.backward (rfftp.mk_plan (T0 := Z) 4 [rfftp.mk_fctdata 4 [] []])
            [1; 2; 3; 4]%Z (lit 1)).
Proof.
  split; [exact Z_mul_one_r|]. split; [exact Z_mul_comm|].
  split; [reflexivity|]. split; [discriminate|].
  apply (rfftp_scale_applied_once Z_mul_one_r Z_mul_comm
           (rfftp.mk_plan (T0 := Z) 4 [rfftp.mk_fctdata 4 [] []]) [1; 2; 3; 4]%Z 3%Z);
    [reflexivity | discriminate].
Defined.

Lemma fftblue_scale_applied_once_witness :
  (forall x : Z, x *! lit 1 = x)
  /\ (forall x y : Z, x *! y = y *! x)
  /\ (forall c, List.length c
                = 2 * Z.to_nat (fftblue.n (fftblue.mk_plan (T0 := Z) 1 1
                                             (cfftp.mk_plan 1 []) [1; 0]%Z [1; 0]%Z)) ->
        fftblue.forward (fftblue.mk_plan (T0 := Z) 1 1 (cfftp.mk_plan 1 []) [1; 0]%Z [1; 0]%Z)
          c 3%Z
        = rmap (scale 3%Z)
            (fftblue.forward
               (fftblue.mk_plan (T0 := Z) 1 1 (cfftp.mk_plan 1 []) [1; 0]%Z [1; 0]%Z)
               c (lit 1))
        /\ fftblue.backward
             (fftblue.mk_plan (T0 := Z) 1 1 (cfftp.mk_plan 1 []) [1; 0]%Z [1; 0]%Z) c 3%Z
           = rmap (scale 3%Z)
               (fftblue.backward
                  (fftblue.mk_plan (T0 := Z) 1 1 (cfftp.mk_plan 1 []) [1; 0]%Z [1; 0]%Z)
                  c (lit 1)))
  /\ (forall c, List.length c
                = Z.to_nat (fftblue.n (fftblue.mk_plan (T0 := Z) 1 1
                                         (cfftp.mk_plan 1 []) [1; 0]%Z [1; 0]%Z)) ->
        fftblue.forward_r
          (fftblue.mk_plan (T0 := Z) 1 1 (cfftp.mk_plan 1 []) [1; 0]%Z [1; 0]%Z) c 3%Z
        = rmap (scale 3%Z)
            (fftblue.forward_r
               (fftblue.mk_plan (T0 := Z) 1 1 (cfftp.mk_plan 1 []) [1; 0]%Z [1; 0]%Z)
               c (lit 1))
        /\ fftblue.backward_r
             (fftblue.mk_plan (T0 := Z) 1 1 (cfftp.mk_plan 1 []) [1; 0]%Z [1; 0]%Z) c 3%Z
           = rmap (scale 3%Z)
               (fftblue.backward_r
                  (fftblue.mk_plan (T0 := Z) 1 1 (cfftp.mk_plan 1 []) [1; 0]%Z [1; 0]%Z)
                  c (lit 1))).
Proof.
  split; [exact Z_mul_one_r|]. split; [exact Z_mul_comm|].
  exact (fftblue_scale_applied_once Z_mul_one_r Z_mul_comm
           (fftblue.mk_plan (T0 := Z) 1 1 (cfftp.mk_plan 1 []) [1; 0]%Z [1; 0]%Z) 3%Z).
Defined.

Lemma pocketfft_c_scale_applied_once_witness :
  (forall x : Z, x *! lit 1 = x)
  /\ (forall x y : Z, x *! y = y *! x)
  /\ exists P,
       pocketfft_c.pocketfft_c (fun _ _ _ => 0%Z) 4 = Ok P
       /\ List.length [1; 0; 2; 0; 3; 0; 4; 0]%Z = 2 * Z.to_nat 4
       /\ (seqb 3%Z (lit 1) = true -> 3%Z = lit 1)
       /\ pocketfft_c.forward P [1; 0; 2; 0; 3; 0; 4; 0]%Z 3%Z
          = rmap (scale 3%Z) (pocketfft_c.forward P [1; 0; 2; 0; 3; 0; 4; 0]%Z (lit 1))
       /\ pocketfft_c.backward P [1; 0; 2; 0; 3; 0; 4; 0]%Z 3%Z
          = rmap (scale 3%Z) (pocketfft_c.backward P [1; 0; 2; 0; 3; 0; 4; 0]%Z (lit 1)).
Proof.
  split; [exact Z_mul_one_r|]. split; [exact Z_mul_comm|].
  eexists. split; [reflexivity|]. split; [reflexivity|]. split; [discriminate|].
  apply (pocketfft_c_scale_applied_once Z_mul_one_r Z_mul_comm (fun _ _ _ => 0%Z) 4 _
           [1; 0; 2; 0; 3; 0; 4; 0]%Z 3%Z); [reflexivity | reflexivity | discriminate].
Defined.

Lemma pocketfft_r_scale_applied_once_witness :
  (forall x : Z, x *! lit 1 = x)
  /\ (forall x y : Z, x *! y = y *! x)
  /\ exists P,
       pocketfft_r.pocketfft_r (fun _ _ _ => 0%Z) 4 = Ok P
       /\ List.length [1; 2; 3; 4]%Z = Z.to_nat 4
       /\ (seqb 3%Z (lit 1) = true -> 3%Z = lit 1)
       /\ pocketfft_r.forward P [1; 2; 3; 4]%Z 3%Z
          = rmap (scale 3%Z) (pocketfft_r.forward P [1; 2; 3; 4]%Z (lit 1))
       /\ pocketfft_r.backward P [1; 2; 3; 4]%Z 3%Z
          = rmap (scale 3%Z) (pocketfft_r.backward P [1; 2; 3; 4]%Z (lit 1)).
Proof.
  split; [exact Z_mul_one_r|]. split; [exact Z_mul_comm|].
  eexists. split; [reflexivity|]. split; [reflexivity|]. split; [discriminate|].
  apply (pocketfft_r_scale_applied_once Z_mul_one_r Z_mul_comm (fun _ _ _ => 0%Z) 4 _
           [1; 2; 3; 4]%Z 3%Z); [reflexivity | reflexivity | discriminate].
Defined.

(** ** The root index of the generic passes *)

Lemma forM_S {S : Type} (lo n : nat) (body : nat -> S -> result S) (s : S) :
  fold_left (fun acc i => bind acc (body i)) (seq lo (Datatypes.S n)) (Ok s)
  = fold_left (fun acc i => bind acc (body i)) (seq (Datatypes.S lo) n) (body lo s).
Proof. reflexivity. Qed.

Lemma fold_bind_Throw {S : Type} (body : nat -> S -> result S) (l : list nat) (w : string) :
  fold_left (fun acc i => bind acc (body i)) l (Throw w) = Throw w.
Proof. induction l as [|a l IH]; [reflexivity | exact IH]. Qed.

Lemma fold_bind_Stuck {S : Type} (body : nat -> S -> result S) (l : list nat) (w : string) :
  fold_left (fun acc i => bind acc (body i)) l (Stuck w) = Stuck w.
Proof. induction l as [|a l IH]; [reflexivity | exact IH]. Qed.

(** Two loops whose bodies agree and return on the states of an invariant
    return the same state. *)
Lemma forM_ok2 {S : Type} (I : S -> Prop) (lo hi : nat)
  (body body' : nat -> S -> result S) (s : S) :
  (forall i s, lo <= i < hi -> I s ->
     exists s', body i s = Ok s' /\ body' i s = Ok s' /\ I s') ->
  I s ->
  exists s', forM lo hi body s = Ok s' /\ forM lo hi body' s = Ok s' /\ I s'.
Proof.
  unfold forM. remember (hi - lo) as n eqn:En. revert lo s En.
  induction n as [|n IH]; intros lo s En Hb Hs.
  - exists s. cbn [seq fold_left]. auto.
  - rewrite !forM_S. destruct (Hb lo s ltac:(lia) Hs) as (s1 & -> & -> & Hs1).
    apply (IH (Datatypes.S lo) s1); [lia | | exact Hs1].
    intros i s0 Hi. apply Hb. lia.
Qed.

Lemma while_ok2 {S : Type} (I : S -> Prop) (m : S -> nat) (cond : S -> bool)
  (body body' : S -> result S) :
  (forall s, I s -> cond s = true ->
     exists s', body s = Ok s' /\ body' s = Ok s' /\ I s' /\ m s' < m s) ->
  forall fuel s, I s -> m s <= fuel ->
    exists s', while_ fuel cond body s = Ok s' /\ while_ fuel cond body' s = Ok s'
               /\ I s' /\ cond s' = false.
Proof.
  intros Hb fuel; induction fuel as [|fuel IH]; intros s Hs Hm; cbn [while_].
  - destruct (cond s) eqn:Ec.
    + destruct (Hb s Hs Ec) as (s' & _ & _ & _ & Hlt). lia.
    + exists s. auto.
  - destruct (cond s) eqn:Ec.
    + destruct (Hb s Hs Ec) as (s1 & -> & -> & Hs1 & Hlt). cbn [bind].
      apply IH; [exact Hs1 | lia].
    + exists s. auto.
Qed.

Lemma rdT_ok {A : Type} (l : list A) (n : nat) :
  n < List.length l -> exists v, rdT l n = Ok v.
Proof.
  intros Hn. unfold rdT. destruct (nth_error l n) as [v|] eqn:E; [eauto|].
  apply nth_error_None in E. lia.
Qed.

Section root_index.
Variable ip : nat.
Hypothesis ip_prime : Z.prime (Z.of_nat ip).

Lemma prime_mod_mul (j l : nat) : 0 < j < ip -> 0 < l < ip -> (j * l) mod ip <> 0.
Proof.
  intros Hj Hl E.
  assert (Hdiv : (Z.of_nat ip | Z.of_nat j * Z.of_nat l)%Z).
  { apply Nat.Div0.mod_divides in E. destruct E as [c Ec].
    exists (Z.of_nat c). rewrite <- Nat2Z.inj_mul, Ec. lia. }
  apply Z.divide_prime_mul in Hdiv; [|exact ip_prime].
  destruct Hdiv as [Hd|Hd]; apply Z.divide_pos_le in Hd; lia.
Qed.

(** After [iwal+=l; if (iwal>ip) iwal-=ip;] the index is [j*l mod ip], as
    it is with the test [iwal>=ip]: it never is [ip]. *)
Lemma wrap_step (j l : nat) :
  0 < j < ip -> 0 < l < ip ->
  wrap_gt (((j - 1) * l) mod ip + l) ip = (j * l) mod ip
  /\ wrap_ge (((j - 1) * l) mod ip + l) ip = (j * l) mod ip.
Proof.
  intros Hj Hl. pose proof (prime_mod_mul j l Hj Hl) as Hne.
  assert (Hjl : j * l = (j - 1) * l + l) by nia.
  rewrite Hjl in *. set (a := (j - 1) * l) in *.
  assert (Hw : a mod ip < ip) by (apply Nat.mod_upper_bound; lia).
  rewrite <- Nat.Div0.add_mod_idemp_l in *. set (w := a mod ip) in *.
  unfold wrap_gt, wrap_ge.
  destruct (Nat.lt_trichotomy (w + l) ip) as [Hlt|[Heq|Hgt]].
  - rewrite Nat.mod_small by exact Hlt.
    destruct (Nat.ltb_spec ip (w + l)), (Nat.leb_spec ip (w + l)); lia.
  - exfalso. apply Hne. rewrite Heq. apply Nat.Div0.mod_same.
  - assert (Hmod : (w + l) mod ip = w + l - ip).
    { symmetry. apply (Nat.mod_unique _ _ 1); lia. }
    rewrite Hmod.
    destruct (Nat.ltb_spec ip (w + l)), (Nat.leb_spec ip (w + l)); lia.
Qed.

Lemma two_l_below (l : nat) : 0 < l < (ip + 1) / 2 -> 2 * l < ip.
Proof.
  intros Hl. pose proof (Nat.Div0.mul_div_le (ip + 1) 2) as H2. lia.
Qed.

End root_index.

Section passg_root_index.
Context {T0 : Type} {ST : Scalar T0}.

Lemma passg_gt_ge (bwd : bool) (ido ip l1 : nat) (cc ch wa csarr : list (cmplx T0)) :
  Z.prime (Z.of_nat ip) -> ip <= List.length csarr ->
  exists r, cfftp.passg bwd ido ip l1 cc ch wa csarr = Ok r
            /\ cfftp.passg_ge bwd ido ip l1 cc ch wa csarr = Ok r.
Proof.
  intros Hp Hcs. unfold cfftp.passg, cfftp.passg_ge, cfftp.passg_with. cbv zeta.
  (* the table wal *)
  match goal with
  | |- exists r, bind (forM 1 ip ?b ?s) _ = _ /\ _ =>
      destruct (forM_ok2 (fun w => List.length w = ip) 1 ip b b s) as (wal & Ew & _ & Hwal)
  end.
  { intros i w Hi Hw. destruct (rdT_ok csarr i ltac:(lia)) as [v ->]. cbn [bind].
    eexists. split; [reflexivity|]. split; [reflexivity|]. rewrite upd_length. exact Hw. }
  { rewrite upd_length. apply repeat_length. }
  rewrite Ew. cbn [bind].
  (* the rows l and lc *)
  match goal with
  | |- exists r, bind (forM 1 ?hi ?b ?s) _ = _ /\ bind (forM 1 ?hi ?b' ?s) _ = _ =>
      destruct (forM_ok2 (fun _ => True) 1 hi b b' s) as (cc1 & E1 & E2 & _)
  end.
  2: exact I.
  2:{ rewrite E1, E2. cbn [bind]. eexists. split; reflexivity. }
  intros l c0 Hl _.
  pose proof (two_l_below ip l ltac:(lia)) as H2l.
  (* j = 0 *)
  match goal with
  | |- exists r, bind (forM 0 ?hi ?b ?s) _ = _ /\ _ =>
      destruct (forM_ok2 (fun _ => True) 0 hi b b s) as (c1 & Ec1 & _ & _)
  end.
  { intros ik c Hik _.
    destruct (rdT_ok wal l ltac:(lia)) as [wl ->].
    destruct (rdT_ok wal (2 * l) ltac:(lia)) as [w2l ->]. cbn [bind].
    eexists. split; [reflexivity|]. split; [reflexivity | exact I]. }
  { exact I. }
  rewrite Ec1. cbn [bind].
  pose (Inv := fun st : nat * nat * nat * list (cmplx T0) =>
                 3 <= fst (fst (fst st))
                 /\ snd (fst st) = ((fst (fst (fst st)) - 1) * l) mod ip).
  pose (m := fun st : nat * nat * nat * list (cmplx T0) =>
               (ip + 1) / 2 - fst (fst (fst st))).
  pose proof (Nat.Div0.mul_div_le (ip + 1) 2) as Hpph.
  (* two roots per turn *)
  match goal with
  | |- exists r, bind (while_ ip ?c ?b ?st0) _ = _ /\ bind (while_ ip ?c ?b' ?st0) _ = _ /\ True =>
      destruct (while_ok2 Inv m c b b') with (fuel := ip) (s := st0)
        as ([[[j jc] iwal] c2] & Ea & Eb & [Hj Hiw] & _)
  end.
  { intros [[[j jc] iwal] c] [Hj Hiw] Hc. cbn [fst snd] in *.
    apply Nat.ltb_lt in Hc. subst iwal.
    destruct (wrap_step ip Hp j l ltac:(lia) ltac:(lia)) as [-> ->].
    destruct (rdT_ok wal ((j * l) mod ip)) as [xwal ->].
    { rewrite Hwal. apply Nat.mod_upper_bound. lia. }
    cbn [bind].
    pose proof (wrap_step ip Hp (j + 1) l ltac:(lia) ltac:(lia)) as Hs2.
    replace (j + 1 - 1) with j in Hs2 by lia. destruct Hs2 as [-> ->].
    destruct (rdT_ok wal (((j + 1) * l) mod ip)) as [xwal2 ->].
    { rewrite Hwal. apply Nat.mod_upper_bound. lia. }
    cbn [bind]. eexists. split; [reflexivity|]. split; [reflexivity|].
    unfold Inv, m. cbn [fst snd]. split; [split; [lia|]|lia].
    f_equal. f_equal. lia. }
  { unfold Inv. cbn [fst snd]. split; [lia|].
    rewrite Nat.mod_small by lia. lia. }
  { unfold m. cbn [fst]. lia. }
  rewrite Ea, Eb. cbn [bind fst snd] in *.
  (* one root per turn *)
  match goal with
  | |- exists r, bind (while_ ip ?c ?b ?st0) _ = _ /\ bind (while_ ip ?c ?b' ?st0) _ = _ /\ True =>
      destruct (while_ok2 Inv m c b b') with (fuel := ip) (s := st0)
        as ([[[j' jc'] iwal'] c3] & Ea' & Eb' & _)
  end.
  { intros [[[j0 jc0] iwal0] c] [Hj0 Hiw0] Hc. cbn [fst snd] in *.
    apply Nat.ltb_lt in Hc. subst iwal0.
    destruct (wrap_step ip Hp j0 l ltac:(lia) ltac:(lia)) as [-> ->].
    destruct (rdT_ok wal ((j0 * l) mod ip)) as [xwal ->].
    { rewrite Hwal. apply Nat.mod_upper_bound. lia. }
    cbn [bind]. eexists. split; [reflexivity|]. split; [reflexivity|].
    unfold Inv, m. cbn [fst snd]. split; [split; [lia|]|lia].
    f_equal. f_equal. lia. }
  { unfold Inv. cbn [fst snd]. split; assumption. }
  { unfold m. cbn [fst]. lia. }
  rewrite Ea', Eb'. cbn [bind]. eexists. split; [reflexivity|]. split; [reflexivity | exact I].
Qed.

End passg_root_index.

Lemma small_prime (p : Z) :
  Z.prime p -> (p <= 12)%Z -> (p = 2 \/ p = 3 \/ p = 5 \/ p = 7 \/ p = 11)%Z.
Proof.
  intros [H1 Hd] Hle.
  assert (Hc : (p = 2 \/ p = 3 \/ p = 4 \/ p = 5 \/ p = 6 \/ p = 7 \/ p = 8 \/ p = 9
                \/ p = 10 \/ p = 11 \/ p = 12)%Z) by lia.
  repeat (destruct Hc as [Hc|Hc]); subst p; auto 10;
    exfalso;
    first [ apply (Hd 2%Z); [lia | exists 2%Z; reflexivity]
          | apply (Hd 2%Z); [lia | exists 3%Z; reflexivity]
          | apply (Hd 2%Z); [lia | exists 4%Z; reflexivity]
          | apply (Hd 3%Z); [lia | exists 3%Z; reflexivity]
          | apply (Hd 2%Z); [lia | exists 5%Z; reflexivity]
          | apply (Hd 2%Z); [lia | exists 6%Z; reflexivity] ].
Qed.

Lemma fold_left_snoc_Forall {A B S : Type} (R : B -> Prop) (Q : A -> Prop)
  (step : list B * S -> A -> list B * S) :
  (forall out s a, Q a -> exists b s', step (out, s) a = (out ++ [b], s') /\ R b) ->
  forall l out s, Forall Q l -> Forall R out ->
    Forall R (fst (fold_left step l (out, s))).
Proof.
  intros Hstep l; induction l as [|a l IH]; intros out s Hl Hout; cbn [fold_left].
  - exact Hout.
  - inversion Hl; subst. destruct (Hstep out s a) as (b & s' & -> & Hb); [assumption|].
    apply IH; [assumption|]. apply Forall_app. split; [exact Hout|]. repeat constructor.
    exact Hb.
Qed.

Section plan_root_index.
Context {T0 : Type} {ST : Scalar T0}.
Variable sincos_2pibyn : Z -> bool -> nat -> T0.

Lemma factor_seq_kinds (N : Z) :
  (1 <= N)%Z -> Forall (fun f => f = 2 \/ f = 4 \/ Z.prime f)%Z (factor_seq N).
Proof.
  intros HN. destruct (factor_seq_spec N HN) as (b & k4 & odds & -> & _ & Hall & _).
  apply Forall_app. split; [destruct b; repeat constructor; auto|].
  apply Forall_app. split.
  - apply Forall_forall. intros x Hx. apply repeat_spec in Hx. auto.
  - refine (Forall_impl _ _ Hall). cbv beta. intros p [Hp _]. auto.
Qed.

Lemma comp_twiddle_ready (N : Z) (fcts : list Z) :
  Forall (fun f => f = 2 \/ f = 4 \/ Z.prime f)%Z fcts ->
  Forall generic_ready (cfftp.comp_twiddle sincos_2pibyn N fcts).
Proof.
  intros Hf. unfold cfftp.comp_twiddle. cbv zeta.
  apply (fold_left_snoc_Forall generic_ready
           (fun f => f = 2 \/ f = 4 \/ Z.prime f)%Z); [|exact Hf|constructor].
  intros out s a Ha. eexists _, _. split; [reflexivity|].
  split; [exact Ha|]. cbn [cfftp.fct cfftp.tws]. intros Hbig.
  apply Nat.ltb_lt in Hbig. rewrite Hbig.
  remember (Z.to_nat a) as ip eqn:Eip.
  assert (Hr : List.length (repeat (czero (T0 := T0)) ip) = ip) by apply repeat_length.
  keep_length ip.
Qed.

Lemma cfftp_plan_ready (N : Z) (P : cfftp.plan) :
  (0 <= N)%Z ->
  cfftp.cfftp sincos_2pibyn N = Ok P -> Forall generic_ready (cfftp.fct_arr P).
Proof.
  intros HN. unfold cfftp.cfftp. destruct (Z.eqb_spec N 0) as [|H0]; [discriminate|].
  destruct (Z.eqb_spec N 1) as [|H1]; [intros [= <-]; constructor|].
  intros H. apply bind_Ok in H. destruct H as (fcts & Hf & [= <-]).
  cbn [cfftp.fct_arr]. apply comp_twiddle_ready.
  rewrite cfftp_factorize_refines in Hf by lia.
  destruct (List.length (factor_seq N) <=? NFCT); [|discriminate].
  injection Hf as <-. apply factor_seq_kinds. lia.
Qed.

(** For a constructed plan every transform returns, and it returns the same
    with the wrap test of [passg] written [iwal>=ip]. *)
Lemma pass_all_gt_ge (N : Z) (P : cfftp.plan) (bwd : bool) (c : list (cmplx T0))
  (fct : T0) :
  (0 <= N)%Z -> cfftp.cfftp sincos_2pibyn N = Ok P ->
  exists r, cfftp.pass_all bwd P c fct = Ok r
            /\ cfftp.pass_all_with wrap_ge bwd P c fct = Ok r.
Proof.
  intros HN HP. pose proof (cfftp_plan_ready N P HN HP) as Hready.
  unfold cfftp.pass_all, cfftp.pass_all_with. cbv zeta.
  destruct (Z.to_nat (cfftp.length P) =? 1); [eexists; split; reflexivity|].
  match goal with
  | |- exists r, bind (forM 0 ?hi ?b ?s) _ = _ /\ bind (forM 0 ?hi ?b' ?s) _ = _ =>
      destruct (forM_ok2 (fun _ => True) 0 hi b b' s) as ([[[l1 p1] p2] b1] & E1 & E2 & _)
  end.
  2: exact I.
  2:{ rewrite E1, E2. cbn [bind].
      destruct b1, (seqb fct (lit 1)); cbn [negb]; eexists; split; reflexivity. }
  intros k [[[l1 p1] p2] b1] Hk _. cbv zeta.
  set (f := nth k (cfftp.fct_arr P) (cfftp.mk_fctdata 0 [] [])).
  assert (Hf : generic_ready f).
  { rewrite Forall_forall in Hready. apply Hready. apply nth_In. exact (proj2 Hk). }
  destruct Hf as [Hkind Htws].
  repeat match goal with
         | |- exists s', (if ?t then _ else _) = _ /\ _ => destruct t eqn:?
         end;
    try (eexists; split; [reflexivity|]; split; [reflexivity | exact I]).
  repeat match goal with H : (_ =? _) = false |- _ => apply Nat.eqb_neq in H end.
  assert (Hprime : Z.prime (cfftp.fct f)).
  { destruct Hkind as [E|[E|Hp]]; [rewrite E in *; cbn in *; lia
                                   | rewrite E in *; cbn in *; lia | exact Hp]. }
  assert (Hbig : 11 < Z.to_nat (cfftp.fct f)).
  { destruct (Z_le_gt_dec (cfftp.fct f) 12) as [Hle|Hgt].
    - destruct (small_prime _ Hprime Hle) as [E|[E|[E|[E|E]]]];
        rewrite E in *; cbn in *; lia.
    - lia. }
  destruct (passg_gt_ge bwd (Z.to_nat (cfftp.length P) / (Z.to_nat (cfftp.fct f) * l1))
              (Z.to_nat (cfftp.fct f)) l1 p1 p2 (cfftp.tw f) (cfftp.tws f))
    as ([r1 r2] & Eg & Ege).
  { rewrite Z2Nat.id by (destruct Hprime; lia). exact Hprime. }
  { rewrite Htws by exact Hbig. lia. }
  unfold cfftp.passg in Eg. unfold cfftp.passg_ge in Ege.
  rewrite Eg, Ege. cbn [bind]. eexists. split; [reflexivity|]. split; [reflexivity | exact I].
Qed.

End plan_root_index.

Section radbg_root_index.
Context {T0 : Type} {ST : Scalar T0}.

Lemma next_root_ok (wrapi : nat -> nat -> nat) (csarr : list T0) (iang l ip : nat) :
  wrapi (iang + l) ip < ip -> 2 * ip <= List.length csarr ->
  exists ar ai, rfftp.next_root wrapi csarr iang l ip = Ok (wrapi (iang + l) ip, ar, ai).
Proof.
  intros Hw Hcs. unfold rfftp.next_root. cbv zeta.
  destruct (rdT_ok csarr (2 * wrapi (iang + l) ip) ltac:(lia)) as [ar ->].
  destruct (rdT_ok csarr (2 * wrapi (iang + l) ip + 1) ltac:(lia)) as [ai ->].
  cbn [bind]. eauto.
Qed.

Lemma first_terms_ok (csarr : list T0) (ip idl1 l lc : nat) (src dst : list T0) :
  0 < l < (ip + 1) / 2 -> 2 * ip <= List.length csarr ->
  exists r, rfftp.first_terms csarr ip idl1 l lc src dst = Ok r.
Proof.
  intros Hl Hcs. pose proof (Nat.Div0.mul_div_le (ip + 1) 2) as Hpph.
  unfold rfftp.first_terms. cbv zeta.
  match goal with
  | |- exists r, forM 0 ?hi ?b ?s = _ =>
      destruct (forM_ok2 (fun _ => True) 0 hi b b s) as (r & E & _ & _)
  end.
  - intros ik d Hik _.
    destruct (rdT_ok csarr (2 * l) ltac:(lia)) as [v1 ->].
    destruct (rdT_ok csarr (4 * l) ltac:(lia)) as [v2 ->].
    destruct (rdT_ok csarr (2 * l + 1) ltac:(lia)) as [v3 ->].
    destruct (rdT_ok csarr (4 * l + 1) ltac:(lia)) as [v4 ->].
    cbn [bind]. eexists. split; [reflexivity|]. split; [reflexivity | exact I].
  - exact I.
  - exists r. exact E.
Qed.

Lemma next_root_step (csarr : list T0) (ip j l iang : nat) :
  Z.prime (Z.of_nat ip) -> 0 < j < ip -> 0 < l < ip ->
  2 * ip <= List.length csarr ->
  iang = ((j - 1) * l) mod ip ->
  exists ar ai,
    rfftp.next_root wrap_gt csarr iang l ip = Ok ((j * l) mod ip, ar, ai)
    /\ rfftp.next_root wrap_ge csarr iang l ip = Ok ((j * l) mod ip, ar, ai).
Proof.
  intros Hp Hj Hl Hcs ->. unfold rfftp.next_root. cbv zeta.
  destruct (wrap_step ip Hp j l Hj Hl) as [-> ->].
  assert (Hlt : (j * l) mod ip < ip) by (apply Nat.mod_upper_bound; lia).
  destruct (rdT_ok csarr (2 * ((j * l) mod ip)) ltac:(lia)) as [ar ->].
  destruct (rdT_ok csarr (2 * ((j * l) mod ip) + 1) ltac:(lia)) as [ai ->].
  cbn [bind]. eauto.
Qed.

Lemma accumulate_gt_ge (csarr : list T0) (ip idl1 l lc : nat) (src dst : list T0) :
  Z.prime (Z.of_nat ip) -> 0 < l < (ip + 1) / 2 -> 2 * ip <= List.length csarr ->
  exists r, rfftp.accumulate wrap_gt csarr ip ((ip + 1) / 2) idl1 l lc src dst = Ok r
            /\ rfftp.accumulate wrap_ge csarr ip ((ip + 1) / 2) idl1 l lc src dst = Ok r.
Proof.
  intros Hp Hl Hcs. pose proof (Nat.Div0.mul_div_le (ip + 1) 2) as Hpph.
  pose proof (two_l_below ip l Hl) as H2l.
  unfold rfftp.accumulate. cbv zeta.
  pose (Inv := fun st : nat * nat * nat * list T0 =>
                 3 <= fst (fst (fst st))
                 /\ snd (fst st) = ((fst (fst (fst st)) - 1) * l) mod ip).
  pose (m := fun st : nat * nat * nat * list T0 =>
               (ip + 1) / 2 - fst (fst (fst st))).
  (* four roots per turn *)
  match goal with
  | |- exists r, bind (while_ ip ?c ?b ?st0) _ = _ /\ bind (while_ ip ?c ?b' ?st0) _ = _ =>
      destruct (while_ok2 Inv m c b b') with (fuel := ip) (s := st0)
        as ([[[j1 jc1] iang1] d1] & Ea & Eb & [Hj1 Hi1] & _)
  end.
  { intros [[[j jc] iang] d] [Hj Hi] Hc. cbn [fst snd] in *.
    apply Nat.ltb_lt in Hc.
    destruct (next_root_step csarr ip j l iang Hp ltac:(lia) ltac:(lia) Hcs Hi)
      as (ar1 & ai1 & -> & ->). cbn [bind].
    destruct (next_root_step csarr ip (j + 1) l ((j * l) mod ip) Hp ltac:(lia) ltac:(lia) Hcs)
      as (ar2 & ai2 & -> & ->); [f_equal; f_equal; lia|]. cbn [bind].
    destruct (next_root_step csarr ip (j + 2) l (((j + 1) * l) mod ip) Hp ltac:(lia)
                ltac:(lia) Hcs)
      as (ar3 & ai3 & -> & ->); [f_equal; f_equal; lia|]. cbn [bind].
    destruct (next_root_step csarr ip (j + 3) l (((j + 2) * l) mod ip) Hp ltac:(lia)
                ltac:(lia) Hcs)
      as (ar4 & ai4 & -> & ->); [f_equal; f_equal; lia|]. cbn [bind].
    eexists. split; [reflexivity|]. split; [reflexivity|].
    unfold Inv, m. cbn [fst snd]. split; [split; [lia|]|lia].
    f_equal. f_equal. lia. }
  { unfold Inv. cbn [fst snd]. split; [lia|]. rewrite Nat.mod_small by lia. lia. }
  { unfold m. cbn [fst]. lia. }
  rewrite Ea, Eb. cbn [bind fst snd] in *.
  (* two roots per turn *)
  match goal with
  | |- exists r, bind (while_ ip ?c ?b ?st0) _ = _ /\ bind (while_ ip ?c ?b' ?st0) _ = _ =>
      destruct (while_ok2 Inv m c b b') with (fuel := ip) (s := st0)
        as ([[[j2 jc2] iang2] d2] & Ea2 & Eb2 & [Hj2 Hi2] & _)
  end.
  { intros [[[j jc] iang] d] [Hj Hi] Hc. cbn [fst snd] in *.
    apply Nat.ltb_lt in Hc.
    destruct (next_root_step csarr ip j l iang Hp ltac:(lia) ltac:(lia) Hcs Hi)
      as (ar1 & ai1 & -> & ->). cbn [bind].
    destruct (next_root_step csarr ip (j + 1) l ((j * l) mod ip) Hp ltac:(lia) ltac:(lia) Hcs)
      as (ar2 & ai2 & -> & ->); [f_equal; f_equal; lia|]. cbn [bind].
    eexists. split; [reflexivity|]. split; [reflexivity|].
    unfold Inv, m. cbn [fst snd]. split; [split; [lia|]|lia].
    f_equal. f_equal. lia. }
  { unfold Inv. cbn [fst snd]. split; assumption. }
  { unfold m. cbn [fst]. lia. }
  rewrite Ea2, Eb2. cbn [bind fst snd] in *.
  (* one root per turn *)
  match goal with
  | |- exists r, bind (while_ ip ?c ?b ?st0) _ = _ /\ bind (while_ ip ?c ?b' ?st0) _ = _ =>
      destruct (while_ok2 Inv m c b b') with (fuel := ip) (s := st0)
        as ([[[j3 jc3] iang3] d3] & Ea3 & Eb3 & _)
  end.
  { intros [[[j jc] iang] d] [Hj Hi] Hc. cbn [fst snd] in *.
    apply Nat.ltb_lt in Hc.
    destruct (next_root_step csarr ip j l iang Hp ltac:(lia) ltac:(lia) Hcs Hi)
      as (ar1 & ai1 & -> & ->). cbn [bind].
    eexists. split; [reflexivity|]. split; [reflexivity|].
    unfold Inv, m. cbn [fst snd]. split; [split; [lia|]|lia].
    f_equal. f_equal. lia. }
  { unfold Inv. cbn [fst snd]. split; assumption. }
  { unfold m. cbn [fst]. lia. }
  rewrite Ea3, Eb3. cbn [bind]. eexists. split; reflexivity.
Qed.

Lemma radbg_gt_ge (ido ip l1 : nat) (cc ch wa csarr : list T0) :
  Z.prime (Z.of_nat ip) -> 2 * ip <= List.length csarr ->
  exists r, rfftp.radbg ido ip l1 cc ch wa csarr = Ok r
            /\ rfftp.radbg_ge ido ip l1 cc ch wa csarr = Ok r.
Proof.
  intros Hp Hcs. unfold rfftp.radbg, rfftp.radbg_ge, rfftp.radbg_with. cbv zeta.
  match goal with
  | |- exists r, bind (forM 1 ?hi ?b ?s) _ = _ /\ bind (forM 1 ?hi ?b' ?s) _ = _ =>
      destruct (forM_ok2 (fun _ => True) 1 hi b b' s) as (cc1 & E1 & E2 & _)
  end.
  2: exact I.
  2:{ rewrite E1, E2. cbn [bind]. destruct (ido =? 1); eexists; split; reflexivity. }
  intros l c0 Hl _.
  match goal with
  | |- exists s', bind (rfftp.first_terms ?a ?b ?c ?d ?e ?f ?g) _ = _ /\ _ =>
      destruct (first_terms_ok a b c d e f g ltac:(lia) Hcs) as [c1 ->]
  end.
  cbn [bind].
  match goal with
  | |- exists s', rfftp.accumulate wrap_gt ?a ?b _ ?c ?d ?e ?f ?g = _ /\ _ =>
      destruct (accumulate_gt_ge a b c d e f g Hp ltac:(lia) Hcs) as (c2 & -> & ->)
  end.
  eexists. split; [reflexivity|]. split; [reflexivity | exact I].
Qed.

Lemma radfg_ok (ido ip l1 : nat) (cc ch wa csarr : list T0) :
  Z.prime (Z.of_nat ip) -> 2 * ip <= List.length csarr ->
  exists r, rfftp.radfg ido ip l1 cc ch wa csarr = Ok r.
Proof.
  intros Hp Hcs. unfold rfftp.radfg. cbv zeta.
  match goal with
  | |- exists r, bind (forM 1 ?hi ?b ?s) _ = _ =>
      destruct (forM_ok2 (fun _ => True) 1 hi b b s) as (ch1 & E1 & _ & _)
  end.
  3:{ rewrite E1. cbn [bind]. destruct (ido =? 1); eexists; reflexivity. }
  2: exact I.
  intros l c0 Hl _.
  match goal with
  | |- exists s', bind (rfftp.first_terms ?a ?b ?c ?d ?e ?f ?g) _ = _ /\ _ =>
      destruct (first_terms_ok a b c d e f g ltac:(lia) Hcs) as [c1 ->]
  end.
  cbn [bind].
  match goal with
  | |- exists s', rfftp.accumulate wrap_ge ?a ?b _ ?c ?d ?e ?f ?g = _ /\ _ =>
      destruct (accumulate_gt_ge a b c d e f g Hp ltac:(lia) Hcs) as (c2 & _ & ->)
  end.
  eexists. split; [reflexivity|]. split; [reflexivity | exact I].
Qed.

End radbg_root_index.

Section real_plan_root_index.
Context {T0 : Type} {ST : Scalar T0}.
Variable sincos_2pibyn : Z -> bool -> nat -> T0.

Lemma for_snoc_Forall {B S : Type} (R : B -> Prop) (n : nat)
  (step : nat -> list B * S -> list B * S) :
  (forall k out s, k < n -> exists b s', step k (out, s) = (out ++ [b], s') /\ R b) ->
  forall s, Forall R (fst (for_ 0 n step ([], s))).
Proof.
  intros Hstep s0. unfold for_. rewrite Nat.sub_0_r.
  assert (Hgen : forall l out s, Forall (fun k => k < n) l -> Forall R out ->
            Forall R (fst (fold_left (fun acc i => step i acc) l (out, s)))).
  { intros l; induction l as [|a l IH]; intros out s Hl Hout; cbn [fold_left].
    - exact Hout.
    - inversion Hl; subst. destruct (Hstep a out s) as (b & s' & -> & Hb); [assumption|].
      apply IH; [assumption|]. apply Forall_app. split; [exact Hout|].
      repeat constructor. exact Hb. }
  apply Hgen; [|constructor].
  apply Forall_forall. intros k Hk. apply in_seq in Hk. lia.
Qed.

Lemma rfftp_comp_twiddle_ready (N : Z) (fcts : list Z) :
  Forall (fun f => f = 2 \/ f = 4 \/ Z.prime f)%Z fcts ->
  Forall generic_ready_r (rfftp.comp_twiddle sincos_2pibyn N fcts).
Proof.
  intros Hf. unfold rfftp.comp_twiddle. cbv zeta.
  apply for_snoc_Forall.
  intros k out s Hk. eexists _, _. split; [reflexivity|].
  split.
  - cbn [rfftp.fct]. rewrite Forall_forall in Hf. apply Hf. apply nth_In. exact Hk.
  - cbn [rfftp.fct rfftp.tws]. intros Hbig.
    apply Nat.ltb_lt in Hbig. rewrite Hbig.
    remember (2 * Z.to_nat (nth k fcts 0%Z)) as m eqn:Em.
    assert (Hr : List.length (repeat (lit 0) m) = m) by apply repeat_length.
    keep_length m.
Qed.

Lemma rfftp_plan_ready (N : Z) (P : rfftp.plan) :
  (0 <= N)%Z ->
  rfftp.rfftp sincos_2pibyn N = Ok P -> Forall generic_ready_r (rfftp.fct_arr P).
Proof.
  intros HN. unfold rfftp.rfftp. destruct (Z.eqb_spec N 0) as [|H0]; [discriminate|].
  destruct (Z.eqb_spec N 1) as [|H1]; [intros [= <-]; constructor|].
  intros H. apply bind_Ok in H. destruct H as (fcts & Hf & [= <-]).
  cbn [rfftp.fct_arr]. apply rfftp_comp_twiddle_ready.
  rewrite rfftp_factorize_refines in Hf by lia.
  destruct (List.length (factor_seq N) <=? NFCT); [|discriminate].
  injection Hf as <-. apply factor_seq_kinds. lia.
Qed.

Lemma generic_ready_r_big (f : rfftp.fctdata (T0 := T0)) :
  generic_ready_r f ->
  Z.to_nat (rfftp.fct f) <> 4 -> Z.to_nat (rfftp.fct f) <> 2 ->
  Z.to_nat (rfftp.fct f) <> 3 -> Z.to_nat (rfftp.fct f) <> 5 ->
  Z.prime (Z.of_nat (Z.to_nat (rfftp.fct f)))
  /\ 2 * Z.to_nat (rfftp.fct f) <= List.length (rfftp.tws f).
Proof.
  intros [Hkind Htws] H4 H2 H3 H5.
  assert (Hprime : Z.prime (rfftp.fct f)).
  { destruct Hkind as [E|[E|Hp]]; [rewrite E in *; cbn in *; lia
                                   | rewrite E in *; cbn in *; lia | exact Hp]. }
  assert (Hbig : 5 < Z.to_nat (rfftp.fct f)).
  { destruct (Z_le_gt_dec (rfftp.fct f) 12) as [Hle|Hgt].
    - destruct (small_prime _ Hprime Hle) as [E|[E|[E|[E|E]]]];
        rewrite E in *; cbn in *; lia.
    - lia. }
  split.
  - rewrite Z2Nat.id by (destruct Hprime; lia). exact Hprime.
  - rewrite Htws by exact Hbig. lia.
Qed.

(** For a constructed real plan [forward] returns. *)
Lemma rfftp_forward_ok (N : Z) (P : rfftp.plan) (c : list T0) (fct : T0) :
  (0 <= N)%Z -> rfftp.rfftp sincos_2pibyn N = Ok P ->
  exists r, rfftp.forward P c fct = Ok r.
Proof.
  intros HN HP. pose proof (rfftp_plan_ready N P HN HP) as Hready.
  unfold rfftp.forward. cbv zeta.
  destruct (rfftp.length P =? 1)%Z; [eexists; reflexivity|].
  match goal with
  | |- exists r, bind (forM 0 ?hi ?b ?s) _ = _ =>
      destruct (forM_ok2 (fun _ => True) 0 hi b b s) as ([[[l1 p1] p2] b1] & E1 & _ & _)
  end.
  3:{ rewrite E1. cbn [bind]. eexists; reflexivity. }
  2: exact I.
  intros k [[[l1 p1] p2] b1] Hk _. cbv zeta.
  set (f := nth (rfftp.nfct P - k - 1) (rfftp.fct_arr P) (rfftp.mk_fctdata 0 [] [])).
  assert (Hf : generic_ready_r f).
  { rewrite Forall_forall in Hready. apply Hready. apply nth_In.
    unfold rfftp.nfct in *. lia. }
  repeat match goal with
         | |- exists s', (if ?t then _ else _) = _ /\ _ => destruct t eqn:?
         end;
    try (eexists; split; [reflexivity|]; split; [reflexivity | exact I]).
  repeat match goal with H : (_ =? _) = false |- _ => apply Nat.eqb_neq in H end.
  destruct (generic_ready_r_big f Hf) as [Hprime Hlen]; try assumption.
  match goal with
  | |- exists s', bind (rfftp.radfg ?a ?b ?c ?d ?e ?g ?h) _ = _ /\ _ =>
      destruct (radfg_ok a b c d e g h Hprime Hlen) as ([r1 r2] & ->)
  end.
  cbn [bind]. eexists. split; [reflexivity|]. split; [reflexivity | exact I].
Qed.

(** For a constructed real plan [backward] returns, and it returns the same
    with the wrap test of [radbg] written [iang>=ip]. *)
Lemma rfftp_backward_gt_ge (N : Z) (P : rfftp.plan) (c : list T0) (fct : T0) :
  (0 <= N)%Z -> rfftp.rfftp sincos_2pibyn N = Ok P ->
  exists r, rfftp.backward P c fct = Ok r
            /\ rfftp.backward_with wrap_ge P c fct = Ok r.
Proof.
  intros HN HP. pose proof (rfftp_plan_ready N P HN HP) as Hready.
  unfold rfftp.backward, rfftp.backward_with. cbv zeta.
  destruct (rfftp.length P =? 1)%Z; [eexists; split; reflexivity|].
  match goal with
  | |- exists r, bind (forM 0 ?hi ?b ?s) _ = _ /\ bind (forM 0 ?hi ?b' ?s) _ = _ =>
      destruct (forM_ok2 (fun _ => True) 0 hi b b' s) as ([[[l1 p1] p2] b1] & E1 & E2 & _)
  end.
  2: exact I.
  2:{ rewrite E1, E2. cbn [bind]. eexists; split; reflexivity. }
  intros k [[[l1 p1] p2] b1] Hk _. cbv zeta.
  set (f := nth k (rfftp.fct_arr P) (rfftp.mk_fctdata 0 [] [])).
  assert (Hf : generic_ready_r f).
  { rewrite Forall_forall in Hready. apply Hready. apply nth_In. exact (proj2 Hk). }
  repeat match goal with
         | |- exists s', (if ?t then _ else _) = _ /\ _ => destruct t eqn:?
         end;
    try (eexists; split; [reflexivity|]; split; [reflexivity | exact I]).
  repeat match goal with H : (_ =? _) = false |- _ => apply Nat.eqb_neq in H end.
  destruct (generic_ready_r_big f Hf) as [Hprime Hlen]; try assumption.
  match goal with
  | |- exists s', bind (rfftp.radbg_with wrap_gt ?a ?b ?c ?d ?e ?g ?h) _ = _ /\ _ =>
      destruct (radbg_gt_ge a b c d e g h Hprime Hlen) as ([r1 r2] & Eg & Ege)
  end.
  unfold rfftp.radbg in Eg. unfold rfftp.radbg_ge in Ege.
  rewrite Eg, Ege. cbn [bind]. eexists. split; [reflexivity|]. split; [reflexivity | exact I].
Qed.

End real_plan_root_index.

Section transforms_return.
Context {T0 : Type} {ST : Scalar T0}.
Variable sincos_2pibyn : Z -> bool -> nat -> T0.

Lemma through_cast_ok (f : list (cmplx T0) -> result (list (cmplx T0))) (c : list T0) :
  (exists r, f (to_cmplx c) = Ok r) -> exists r, through_cast f c = Ok r.
Proof.
  intros [r Hr]. unfold through_cast. cbv zeta. rewrite Hr. cbn [bind]. eauto.
Qed.

Lemma fftblue_plan_constructed (N : Z) (P : fftblue.plan) :
  (1 <= N)%Z -> (44 * N < 2 ^ 64)%Z ->
  fftblue.fftblue sincos_2pibyn N = Ok P ->
  (1 <= fftblue.n2 P)%Z /\ cfftp.cfftp sincos_2pibyn (fftblue.n2 P) = Ok (fftblue.plan_ P).
Proof.
  intros HN Hr. unfold fftblue.fftblue. cbv zeta. intros H.
  apply bind_Ok in H. destruct H as (n2 & Hn2 & H).
  apply bind_Ok in H. destruct H as (pl & Hpl & H).
  apply bind_Ok in H. destruct H as (bkf & _ & [= <-]).
  cbn [fftblue.n2 fftblue.plan_]. split; [|exact Hpl].
  rewrite wrap_small in Hn2 by lia.
  destruct (good_size_bounds (N * 2 - 1) ltac:(lia) ltac:(lia)) as (M & EM & HM).
  rewrite EM in Hn2. injection Hn2 as <-. lia.
Qed.

Lemma fftblue_fft_ok (N : Z) (P : fftblue.plan) (bwd : bool) (c : list T0) (fct : T0) :
  (1 <= N)%Z -> (44 * N < 2 ^ 64)%Z ->
  fftblue.fftblue sincos_2pibyn N = Ok P ->
  exists r, fftblue.fft bwd P c fct = Ok r.
Proof.
  intros HN Hr HP.
  destruct (fftblue_plan_constructed N P HN Hr HP) as [Hn2 Hpl].
  unfold fftblue.fft. cbv zeta.
  match goal with
  | |- exists r, bind (through_cast ?f ?a) _ = _ =>
      destruct (through_cast_ok f a) as [akf1 ->]
  end.
  { match goal with
    | |- exists r, cfftp.forward _ ?z _ = _ =>
        destruct (pass_all_gt_ge sincos_2pibyn (fftblue.n2 P) _ false z (lit 1)
                    ltac:(lia) Hpl) as (r & Hr1 & _)
    end.
    exists r. exact Hr1. }
  cbn [bind].
  match goal with
  | |- exists r, bind (through_cast ?f ?a) _ = _ =>
      destruct (through_cast_ok f a) as [akf2 ->]
  end.
  { match goal with
    | |- exists r, cfftp.backward _ ?z _ = _ =>
        destruct (pass_all_gt_ge sincos_2pibyn (fftblue.n2 P) _ true z (lit 1) ltac:(lia) Hpl)
          as (r & Hr1 & _)
    end.
    exists r. exact Hr1. }
  cbn [bind]. eexists. reflexivity.
Qed.

Lemma pass_all_length wrapi (bwd : bool) (P : cfftp.plan) (c r : list (cmplx T0)) (fct : T0) :
  List.length c = Z.to_nat (cfftp.length P) ->
  cfftp.pass_all_with wrapi bwd P c fct = Ok r -> List.length r = List.length c.
Proof.
  intros Hlen. unfold cfftp.pass_all_with. cbv zeta.
  set (n := Z.to_nat (cfftp.length P)) in *.
  destruct (n =? 1).
  - intros [= <-]. apply upd_length.
  - intros H. apply bind_Ok in H. destruct H as ([[[l1 p1] p2] b] & Est & H).
    apply (pass_all_stages_length _ _ _ _ _ n) in Est; [|exact Hlen|apply repeat_length].
    destruct Est as [Hp1 Hp2]. rewrite Hlen.
    destruct b, (seqb fct (lit 1)); cbn [negb] in H; injection H as <-; keep_length n.
Qed.

Lemma through_cast_length (f : list (cmplx T0) -> result (list (cmplx T0)))
  (c r : list T0) (k : nat) :
  List.length c = 2 * k ->
  (forall z, f (to_cmplx c) = Ok z -> List.length z = k) ->
  through_cast f c = Ok r -> List.length r = List.length c.
Proof.
  intros Hc Hf. unfold through_cast. cbv zeta. intros H.
  apply bind_Ok in H. destruct H as (z & Hz & [= <-]).
  rewrite length_app, length_skipn.
  assert (Hof : forall l : list (cmplx T0), List.length (of_cmplx l) = 2 * List.length l).
  { induction l as [|a l IH]; [reflexivity|].
    unfold of_cmplx in *. cbn [flat_map app List.length]. rewrite IH. lia. }
  rewrite Hof, (Hf z Hz). rewrite (to_cmplx_length k c Hc). lia.
Qed.

Lemma rfftp_forward_length (P : rfftp.plan) (c r : list T0) (fct : T0) :
  List.length c = Z.to_nat (rfftp.length P) ->
  rfftp.forward P c fct = Ok r -> List.length r = List.length c.
Proof.
  intros Hlen. unfold rfftp.forward. cbv zeta.
  destruct (rfftp.length P =? 1)%Z.
  - intros [= <-]. apply upd_length.
  - intros H. apply bind_Ok in H. destruct H as ([[[l1 p1] p2] b] & Est & H).
    apply (forward_stages_length _ _ _ (Z.to_nat (rfftp.length P))) in Est;
      [|exact Hlen|apply repeat_length].
    destruct Est as [Hp1 Hp2]. rewrite Hlen. injection H as <-.
    unfold rfftp.copy_and_norm.
    destruct b, (seqb fct (lit 1)); cbn [negb]; keep_length (Z.to_nat (rfftp.length P)).
Qed.

Lemma rfftp_backward_length wrapi (P : rfftp.plan) (c r : list T0) (fct : T0) :
  List.length c = Z.to_nat (rfftp.length P) ->
  rfftp.backward_with wrapi P c fct = Ok r -> List.length r = List.length c.
Proof.
  intros Hlen. unfold rfftp.backward_with. cbv zeta.
  destruct (rfftp.length P =? 1)%Z.
  - intros [= <-]. apply upd_length.
  - intros H. apply bind_Ok in H. destruct H as ([[[l1 p1] p2] b] & Est & H).
    apply (backward_stages_length _ _ _ _ (Z.to_nat (rfftp.length P))) in Est;
      [|exact Hlen|apply repeat_length].
    destruct Est as [Hp1 Hp2]. rewrite Hlen. injection H as <-.
    unfold rfftp.copy_and_norm.
    destruct b, (seqb fct (lit 1)); cbn [negb]; keep_length (Z.to_nat (rfftp.length P)).
Qed.

Lemma forward_r_ok (N : Z) (P : fftblue.plan) (c : list T0) (fct : T0) :
  (1 <= N)%Z -> (44 * N < 2 ^ 64)%Z ->
  fftblue.fftblue sincos_2pibyn N = Ok P ->
  exists r, fftblue.forward_r P c fct = Ok r /\ List.length r = List.length c.
Proof.
  intros HN Hr HP. unfold fftblue.forward_r. cbv zeta.
  match goal with
  | |- exists r, bind (fftblue.fft false P ?t fct) _ = _ /\ _ =>
      destruct (fftblue_fft_ok N P false t fct HN Hr HP) as [r1 ->]
  end.
  cbn [bind]. eexists. split; [reflexivity|].
  remember (List.length c) as n eqn:En. symmetry in En. keep_length n.
Qed.

Lemma backward_r_ok (N : Z) (P : fftblue.plan) (c : list T0) (fct : T0) :
  (1 <= N)%Z -> (44 * N < 2 ^ 64)%Z ->
  fftblue.fftblue sincos_2pibyn N = Ok P ->
  exists r, fftblue.backward_r P c fct = Ok r /\ List.length r = List.length c.
Proof.
  intros HN Hr HP. unfold fftblue.backward_r. cbv zeta.
  match goal with
  | |- exists r, bind (fftblue.fft true P ?t fct) _ = _ /\ _ =>
      destruct (fftblue_fft_ok N P true t fct HN Hr HP) as [r1 ->]
  end.
  cbn [bind]. eexists. split; [reflexivity|].
  remember (List.length c) as n eqn:En. symmetry in En. keep_length n.
Qed.

(** X13 -- In the transforms of a constructed [cfftp] plan, on a buffer of
    [N] elements, the root index [iwal] of [passg] never takes the value
    [ip]: every read of the root table is inside it, every loop ends, the
    transform returns a buffer of [N] elements, and it is the one the pass
    with the test written [iwal>=ip] returns. *)
Theorem cfftp_root_index_safe (N : Z) (P : cfftp.plan) (c : list (cmplx T0)) (fct : T0) :
  (0 <= N)%Z -> cfftp.cfftp sincos_2pibyn N = Ok P ->
  List.length c = Z.to_nat N ->
  forall bwd : bool,
  exists r, (if bwd then cfftp.backward P c fct else cfftp.forward P c fct) = Ok r
    /\ cfftp.pass_all_with wrap_ge bwd P c fct = Ok r
    /\ List.length r = Z.to_nat N.
Proof.
  intros HN HP Hc bwd.
  destruct (pass_all_gt_ge sincos_2pibyn N P bwd c fct HN HP) as (r & Hr & Hge).
  exists r. split; [destruct bwd; exact Hr|]. split; [exact Hge|].
  rewrite <- Hc. apply (pass_all_length wrap_ge bwd P c r fct); [|exact Hge].
  rewrite Hc. f_equal. symmetry. apply (cfftp_ctor_length sincos_2pibyn). exact HP.
Qed.

(** X14 -- In the transforms of a constructed [rfftp] plan, on a buffer of
    [N] elements, every read of the root table by [radfg] and [radbg] is
    inside it and every loop ends: [forward] and [backward] return a buffer
    of [N] elements, and [backward] returns the one it returns with the test
    of [radbg] written [iang>=ip]. *)
Theorem rfftp_root_index_safe (N : Z) (P : rfftp.plan) (c : list T0) (fct : T0) :
  (0 <= N)%Z -> rfftp.rfftp sincos_2pibyn N = Ok P ->
  List.length c = Z.to_nat N ->
  (exists r, rfftp.forward P c fct = Ok r /\ List.length r = Z.to_nat N)
  /\ (exists r, rfftp.backward P c fct = Ok r
        /\ rfftp.backward_with wrap_ge P c fct = Ok r
        /\ List.length r = Z.to_nat N).
Proof.
  intros HN HP Hc.
  assert (HcP : List.length c = Z.to_nat (rfftp.length P)).
  { rewrite Hc. f_equal. symmetry. apply (rfftp_ctor_length sincos_2pibyn). exact HP. }
  split.
  - destruct (rfftp_forward_ok sincos_2pibyn N P c fct HN HP) as [r Hr].
    exists r. split; [exact Hr|]. rewrite <- Hc.
    apply (rfftp_forward_length P c r fct HcP Hr).
  - destruct (rfftp_backward_gt_ge sincos_2pibyn N P c fct HN HP) as (r & Hr & Hge).
    exists r. split; [exact Hr|]. split; [exact Hge|]. rewrite <- Hc.
    apply (rfftp_backward_length wrap_ge P c r fct HcP Hge).
Qed.

Lemma pocketfft_c_forward_ok (N : Z) (P : pocketfft_c.plan) (c : list T0) (fct : T0) :
  (1 <= N)%Z -> (44 * N < 2 ^ 64)%Z ->
  pocketfft_c.pocketfft_c sincos_2pibyn N = Ok P ->
  List.length c = 2 * Z.to_nat N ->
  exists r, pocketfft_c.forward P c fct = Ok r /\ List.length r = 2 * Z.to_nat N.
Proof.
  intros HN Hr HP Hc.
  destruct (pocketfft_c_ctor_cases sincos_2pibyn N P HP) as [(p & -> & Hp)|(p & -> & Hp)];
    cbn [pocketfft_c.forward].
  - pose proof (cfftp_ctor_length sincos_2pibyn N p Hp) as Hlen.
    assert (Hz : List.length (to_cmplx c) = Z.to_nat (cfftp.length p)).
    { rewrite Hlen. apply to_cmplx_length. exact Hc. }
    destruct (through_cast_ok (fun z => cfftp.forward p z fct) c) as [r Hr1].
    { destruct (pass_all_gt_ge sincos_2pibyn N p false (to_cmplx c) fct ltac:(lia) Hp)
        as (r & Hr1 & _). exists r. exact Hr1. }
    exists r. split; [exact Hr1|]. rewrite <- Hc.
    apply (through_cast_length (fun z => cfftp.forward p z fct) c r (Z.to_nat N) Hc);
      [|exact Hr1].
    intros z Hzz. apply pass_all_length in Hzz; [|exact Hz]. rewrite Hzz, Hz, Hlen.
    reflexivity.
  - destruct (fftblue_fft_ok N p false c fct HN Hr Hp) as [r Hr1].
    exists r. split; [exact Hr1|]. rewrite <- Hc. apply (fft_length false p c r fct Hr1).
Qed.

Lemma pocketfft_c_backward_ok (N : Z) (P : pocketfft_c.plan) (c : list T0) (fct : T0) :
  (1 <= N)%Z -> (44 * N < 2 ^ 64)%Z ->
  pocketfft_c.pocketfft_c sincos_2pibyn N = Ok P ->
  List.length c = 2 * Z.to_nat N ->
  exists r, pocketfft_c.backward P c fct = Ok r /\ List.length r = 2 * Z.to_nat N.
Proof.
  intros HN Hr HP Hc.
  destruct (pocketfft_c_ctor_cases sincos_2pibyn N P HP) as [(p & -> & Hp)|(p & -> & Hp)];
    cbn [pocketfft_c.backward].
  - pose proof (cfftp_ctor_length sincos_2pibyn N p Hp) as Hlen.
    assert (Hz : List.length (to_cmplx c) = Z.to_nat (cfftp.length p)).
    { rewrite Hlen. apply to_cmplx_length. exact Hc. }
    destruct (through_cast_ok (fun z => cfftp.backward p z fct) c) as [r Hr1].
    { destruct (pass_all_gt_ge sincos_2pibyn N p true (to_cmplx c) fct ltac:(lia) Hp)
        as (r & Hr1 & _). exists r. exact Hr1. }
    exists r. split; [exact Hr1|]. rewrite <- Hc.
    apply (through_cast_length (fun z => cfftp.backward p z fct) c r (Z.to_nat N) Hc);
      [|exact Hr1].
    intros z Hzz. apply pass_all_length in Hzz; [|exact Hz]. rewrite Hzz, Hz, Hlen.
    reflexivity.
  - destruct (fftblue_fft_ok N p true c fct HN Hr Hp) as [r Hr1].
    exists r. split; [exact Hr1|]. rewrite <- Hc. apply (fft_length true p c r fct Hr1).
Qed.

Lemma pocketfft_r_forward_ok (N : Z) (P : pocketfft_r.plan) (c : list T0) (fct : T0) :
  (1 <= N)%Z -> (44 * N < 2 ^ 64)%Z ->
  pocketfft_r.pocketfft_r sincos_2pibyn N = Ok P ->
  List.length c = Z.to_nat N ->
  exists r, pocketfft_r.forward P c fct = Ok r /\ List.length r = Z.to_nat N.
Proof.
  intros HN Hr HP Hc.
  destruct (pocketfft_r_ctor_cases sincos_2pibyn N P HP) as [(p & -> & Hp)|(p & -> & Hp)];
    cbn [pocketfft_r.forward].
  - assert (HcP : List.length c = Z.to_nat (rfftp.length p)).
    { rewrite Hc. f_equal. symmetry. apply (rfftp_ctor_length sincos_2pibyn). exact Hp. }
    destruct (rfftp_forward_ok sincos_2pibyn N p c fct ltac:(lia) Hp) as [r Hr1].
    exists r. split; [exact Hr1|]. rewrite <- Hc.
    apply (rfftp_forward_length p c r fct HcP Hr1).
  - destruct (forward_r_ok N p c fct HN Hr Hp) as (r & Hr1 & Hl).
    exists r. split; [exact Hr1 | congruence].
Qed.

Lemma pocketfft_r_backward_ok (N : Z) (P : pocketfft_r.plan) (c : list T0) (fct : T0) :
  (1 <= N)%Z -> (44 * N < 2 ^ 64)%Z ->
  pocketfft_r.pocketfft_r sincos_2pibyn N = Ok P ->
  List.length c = Z.to_nat N ->
  exists r, pocketfft_r.backward P c fct = Ok r /\ List.length r = Z.to_nat N.
Proof.
  intros HN Hr HP Hc.
  destruct (pocketfft_r_ctor_cases sincos_2pibyn N P HP) as [(p & -> & Hp)|(p & -> & Hp)];
    cbn [pocketfft_r.backward].
  - assert (HcP : List.length c = Z.to_nat (rfftp.length p)).
    { rewrite Hc. f_equal. symmetry. apply (rfftp_ctor_length sincos_2pibyn). exact Hp. }
    destruct (rfftp_backward_gt_ge sincos_2pibyn N p c fct ltac:(lia) Hp) as (r & Hr1 & _).
    exists r. split; [exact Hr1|]. rewrite <- Hc.
    apply (rfftp_backward_length wrap_gt p c r fct HcP Hr1).
  - destruct (backward_r_ok N p c fct HN Hr Hp) as (r & Hr1 & Hl).
    exists r. split; [exact Hr1 | congruence].
Qed.


(** X16 -- Through [pocketfft_r]: for a length [N >= 1] with [44*N < 2^64],
    the plan the constructor returns, and a buffer of [N] scalars, [forward]
    and [backward] return, with a buffer of [N] scalars. *)
Theorem pocketfft_r_transform_returns (N : Z) (P : pocketfft_r.plan) (c : list T0)
  (fct : T0) :
  (1 <= N)%Z -> (44 * N < 2 ^ 64)%Z ->
  pocketfft_r.pocketfft_r sincos_2pibyn N = Ok P ->
  List.length c = Z.to_nat N ->
  (exists r, pocketfft_r.forward P c fct = Ok r /\ List.length r = Z.to_nat N)
  /\ (exists r, pocketfft_r.backward P c fct = Ok r /\ List.length r = Z.to_nat N).
Proof.
  intros HN Hr HP Hc. split.
  - exact (pocketfft_r_forward_ok N P c fct HN Hr HP Hc).
  - exact (pocketfft_r_backward_ok N P c fct HN Hr HP Hc).
Qed.

End transforms_return.

Lemma cfftp_root_index_safe_witness :
  (0 <= 13)%Z
  /\ exists P : cfftp.plan (T0 := Z),
       cfftp.cfftp (fun _ _ _ => 0%Z) 13 = Ok P
       /\ List.length (repeat (mk_cmplx 1%Z 2%Z) 13) = Z.to_nat 13
       /\ forall bwd : bool,
          exists r,
            (if bwd then cfftp.backward P (repeat (mk_cmplx 1%Z 2%Z) 13) 3%Z
             else cfftp.forward P (repeat (mk_cmplx 1%Z 2%Z) 13) 3%Z) = Ok r
            /\ cfftp.pass_all_with wrap_ge bwd P (repeat (mk_cmplx 1%Z 2%Z) 13) 3%Z = Ok r
            /\ List.length r = Z.to_nat 13.
Proof.
  split; [lia|]. eexists. split; [reflexivity|]. split; [reflexivity|].
  apply (cfftp_root_index_safe (fun _ _ _ => 0%Z) 13 _ (repeat (mk_cmplx 1%Z 2%Z) 13) 3%Z);
    [lia | reflexivity | reflexivity].
Defined.

Lemma rfftp_root_index_safe_witness :
  (0 <= 13)%Z
  /\ exists P : rfftp.plan (T0 := Z),
       rfftp.rfftp (fun _ _ _ => 0%Z) 13 = Ok P
       /\ List.length (repeat 1%Z 13) = Z.to_nat 13
       /\ (exists r, rfftp.forward P (repeat 1%Z 13) 3%Z = Ok r
                     /\ List.length r = Z.to_nat 13)
       /\ (exists r, rfftp.backward P (repeat 1%Z 13) 3%Z = Ok r
             /\ rfftp.backward_with wrap_ge P (repeat 1%Z 13) 3%Z = Ok r
             /\ List.length r = Z.to_nat 13).
Proof.
  split; [lia|]. eexists. split; [reflexivity|]. split; [reflexivity|].
  apply (rfftp_root_index_safe (fun _ _ _ => 0%Z) 13 _ (repeat 1%Z 13) 3%Z);
    [lia | reflexivity | reflexivity].
Defined.


Lemma pocketfft_r_transform_returns_witness :
  (1 <= 13)%Z /\ (44 * 13 < 2 ^ 64)%Z
  /\ exists P : pocketfft_r.plan (T0 := Z),
       pocketfft_r.pocketfft_r (fun _ _ _ => 0%Z) 13 = Ok P
       /\ List.length (repeat 1%Z 13) = Z.to_nat 13
       /\ (exists r, pocketfft_r.forward P (repeat 1%Z 13) 3%Z = Ok r
                     /\ List.length r = Z.to_nat 13)
       /\ (exists r, pocketfft_r.backward P (repeat 1%Z 13) 3%Z = Ok r
                     /\ List.length r = Z.to_nat 13).
Proof.
  split; [lia|]. split; [lia|]. eexists. split; [reflexivity|]. split; [reflexivity|].
  apply (pocketfft_r_transform_returns (fun _ _ _ => 0%Z) 13 _ (repeat 1%Z 13) 3%Z);
    [lia | lia | reflexivity | reflexivity].
Defined.

(** ** The iterator over the lines of an array *)

Section multi_iter_facts.
Local Open Scope Z_scope.

Lemma wrap_wrap_add (a b : Z) : wrap (wrap a + b) = wrap (a + b).
Proof. unfold wrap. apply Z.add_mod_idemp_l. unfold size_t_bits. lia. Qed.

Lemma wrap_sub_wrap (a b : Z) : wrap (a - wrap b) = wrap (a - b).
Proof. unfold wrap. apply Zminus_mod_idemp_r. Qed.

Lemma wrap_wrap_sub (a b : Z) : wrap (wrap a - b) = wrap (a - b).
Proof. unfold wrap. apply Zminus_mod_idemp_l. Qed.

Lemma volume_cons (d : multi.diminfo) (dims : list multi.diminfo) :
  volume (d :: dims) = multi.n d * volume dims.
Proof. reflexivity. Qed.

Lemma in_shape_volume (dims : list multi.diminfo) (pos : list Z) :
  in_shape dims pos -> 1 <= volume dims.
Proof.
  induction 1 as [|d p dims pos Hp _ IH]; [unfold volume; cbn; lia|].
  rewrite volume_cons. nia.
Qed.

Lemma in_shape_rank (dims : list multi.diminfo) (pos : list Z) :
  in_shape dims pos -> 0 <= rank dims pos < volume dims.
Proof.
  induction 1 as [|d p dims pos Hp Hs IH]; [unfold volume; cbn; lia|].
  cbn [rank]. rewrite volume_cons. pose proof (in_shape_volume _ _ Hs). nia.
Qed.

Lemma rank_zeros (dims : list multi.diminfo) : rank dims (zeros dims) = 0.
Proof.
  unfold zeros. induction dims as [|d dims IH]; [reflexivity|].
  cbn [List.length repeat rank]. rewrite IH. lia.
Qed.

Lemma dot_zeros (dims : list multi.diminfo) : dot dims (zeros dims) = 0.
Proof.
  unfold zeros. induction dims as [|d dims IH]; [reflexivity|].
  cbn [List.length repeat dot]. rewrite IH. lia.
Qed.

Lemma in_shape_zeros (dims : list multi.diminfo) :
  Forall (fun d => 1 <= multi.n d) dims -> in_shape dims (zeros dims).
Proof.
  unfold zeros. induction 1 as [|d dims Hd _ IH]; [constructor|].
  cbn [List.length repeat]. constructor; [lia | exact IH].
Qed.

(** One step of the odometer: the position moves to the next rank, and the
    offset follows; at the last position everything is back at zero. *)
Lemma carry_spec (dims : list multi.diminfo) :
  Forall (fun d => multi.n d < 2 ^ 64) dims ->
  forall pos base ofs,
    in_shape dims pos -> ofs = wrap (base + dot dims pos) ->
    let '(pos', ofs', returned) := multi.carry dims pos ofs in
    if rank dims pos + 1 <? volume dims
    then returned = true /\ in_shape dims pos' /\ rank dims pos' = rank dims pos + 1
         /\ ofs' = wrap (base + dot dims pos')
    else returned = false /\ pos' = zeros dims /\ ofs' = wrap base.
Proof.
  induction 1 as [|d dims Hd Hdims IH]; intros pos base ofs Hpos Hofs.
  - inversion Hpos; subst. cbn. repeat split. f_equal. lia.
  - inversion Hpos as [|d' p dims' pos' Hp Hpos']; subst. cbn [multi.carry rank dot].
    specialize (IH pos' (base + p * multi.s d) _ Hpos' eq_refl).
    replace (base + p * multi.s d + dot dims pos')
      with (base + (p * multi.s d + dot dims pos')) in IH by lia.
    destruct (multi.carry dims pos' (wrap (base + (p * multi.s d + dot dims pos'))))
      as [[pos'' ofs''] returned].
    pose proof (in_shape_rank _ _ Hpos') as Hr.
    pose proof (in_shape_volume _ _ Hpos') as Hv.
    rewrite volume_cons.
    destruct (Z.ltb_spec (rank dims pos' + 1) (volume dims)) as [Hlt|Hge].
    + destruct IH as (-> & Hs'' & Hr'' & ->).
      destruct (Z.ltb_spec (p * volume dims + rank dims pos' + 1) (multi.n d * volume dims));
        [|nia].
      split; [reflexivity|]. split; [constructor; assumption|].
      cbn [rank dot]. split; [lia|]. f_equal. lia.
    + destruct IH as (-> & -> & ->).
      rewrite wrap_wrap_add. rewrite (wrap_small (p + 1)) by lia.
      destruct (Z.ltb_spec (p + 1) (multi.n d)) as [Hin|Hout].
      * destruct (Z.ltb_spec (p * volume dims + rank dims pos' + 1)
                    (multi.n d * volume dims)); [|nia].
        split; [reflexivity|]. split.
        { constructor; [lia|]. apply in_shape_zeros.
          clear -Hpos'. induction Hpos'; constructor; [lia | assumption]. }
        cbn [rank dot]. rewrite rank_zeros, dot_zeros. split; [nia|]. f_equal. lia.
      * destruct (Z.ltb_spec (p * volume dims + rank dims pos' + 1)
                    (multi.n d * volume dims)); [nia|].
        split; [reflexivity|]. split; [reflexivity|].
        rewrite wrap_sub_wrap, wrap_wrap_sub. f_equal.
        assert (p + 1 = multi.n d) by lia. nia.
Qed.

Lemma sint_small (x : Z) : 0 <= x < 2 ^ 63 -> multi.sint (wrap x) = x.
Proof.
  intros Hx. rewrite wrap_small by lia. unfold multi.sint.
  destruct (Z.ltb_spec x (2 ^ 63)); lia.
Qed.

Lemma advance_spec (dims : list multi.diminfo) (k : Z) (it : multi.multi_iter) :
  Forall (fun d => multi.n d < 2 ^ 64) dims -> volume dims < 2 ^ 63 ->
  at_rank dims k it ->
  if k + 1 <? volume dims then at_rank dims (k + 1) (multi.advance it)
  else multi.done_ (multi.advance it) = true /\ multi.rem (multi.advance it) = 0.
Proof.
  intros Hdims Hvol (Hd & Hs & Hr & Ho & Hrem & Hdone).
  pose proof (in_shape_rank _ _ Hs) as Hrk.
  unfold multi.advance. rewrite Hrem, sint_small by lia.
  destruct (Z.ltb_spec (k + 1) (volume dims)) as [Hlt|Hge].
  - destruct (Z.leb_spec (volume dims - k - 1) 0); [lia|].
    pose proof (carry_spec dims Hdims (multi.pos it) 0 (multi.ofs_ it) Hs Ho) as Hc.
    rewrite Hd. destruct (multi.carry dims (multi.pos it) (multi.ofs_ it))
      as [[pos' ofs'] returned].
    rewrite Hr in Hc. destruct (Z.ltb_spec (k + 1) (volume dims)); [|lia].
    destruct Hc as (-> & Hs' & Hr' & ->).
    unfold at_rank. cbn [multi.dim multi.pos multi.ofs_ multi.rem multi.done_].
    repeat split; try assumption; lia.
  - destruct (Z.leb_spec (volume dims - k - 1) 0); [|lia].
    cbn [multi.done_ multi.rem]. split; [reflexivity | lia].
Qed.

Lemma map_nth_range {A : Type} (d : A) (l : list A) (a k : nat) :
  (a + k <= List.length l)%nat ->
  map (fun i => nth i l d) (seq a k) = firstn k (skipn a l).
Proof.
  revert a l; induction k as [|k IH]; intros a l Hk; [reflexivity|].
  cbn [seq map]. rewrite IH by lia.
  destruct (skipn a l) as [|x r] eqn:E.
  - apply (f_equal (@List.length A)) in E. rewrite length_skipn in E.
    cbn [List.length] in E. lia.
  - cbn [firstn]. f_equal.
    + rewrite <- (firstn_skipn a l) at 1. rewrite E.
      rewrite app_nth2 by (rewrite length_firstn; lia).
      rewrite length_firstn. replace (a - Nat.min a (List.length l))%nat with 0%nat by lia.
      reflexivity.
    + f_equal. replace (Datatypes.S a) with (1 + a)%nat by lia.
      rewrite <- skipn_skipn, E. reflexivity.
Qed.

Lemma wrap_sint (x : Z) : wrap (multi.sint (wrap x)) = wrap x.
Proof.
  unfold multi.sint. destruct (wrap x <? 2 ^ 63).
  - unfold wrap. apply Z.mod_mod. unfold size_t_bits. lia.
  - unfold wrap, size_t_bits.
    replace (x mod 2 ^ 64 - 2 ^ 64) with (x mod 2 ^ 64 + (-1) * 2 ^ 64) by lia.
    rewrite Z.mod_add by lia. apply Z.mod_mod. lia.
Qed.

Lemma wrap_mul_sint (R n : Z) : wrap (multi.sint (wrap R) * n) = wrap (R * n).
Proof.
  transitivity (wrap (wrap (multi.sint (wrap R)) * n)).
  - unfold wrap. symmetry. apply Z.mul_mod_idemp_l. unfold size_t_bits. lia.
  - rewrite wrap_sint. unfold wrap. apply Z.mul_mod_idemp_l. unfold size_t_bits. lia.
Qed.

(* the loop of the constructor over a range of indices that leaves out idim *)
Lemma ctor_loop (arr : list multi.diminfo) (idim : nat) :
  forall k a dim (dn : bool) R,
    (a + k <= List.length arr)%nat -> (idim < a \/ a + k <= idim)%nat ->
    fold_left (fun acc i =>
        (fun i '(dim, done_, rem) =>
           if (i =? idim)%nat then (dim, done_, rem)
           else (dim ++ [multi.mk_diminfo (multi.size arr i) (multi.stride arr i)],
                 done_ || (multi.size arr i =? 0),
                 multi.sint (wrap (rem * multi.size arr i)))) i acc)
      (seq a k) (dim, dn, multi.sint (wrap R))
    = (dim ++ firstn k (skipn a arr),
       dn || existsb (fun d => multi.n d =? 0) (firstn k (skipn a arr)),
       multi.sint (wrap (R * volume (firstn k (skipn a arr))))).
Proof.
  induction k as [|k IH]; intros a dim dn R Hk Hi.
  - cbn [seq fold_left firstn existsb]. rewrite app_nil_r, orb_false_r.
    unfold volume, product. cbn [map fold_right]. rewrite Z.mul_1_r. reflexivity.
  - cbn [seq fold_left].
    destruct (Nat.eqb_spec a idim) as [E|E]; [lia|].
    assert (Hsk : skipn a arr = nth a arr (multi.mk_diminfo 0 0) :: skipn (Datatypes.S a) arr).
    { destruct (skipn a arr) as [|x r] eqn:Es.
      - apply (f_equal (@List.length _)) in Es. rewrite length_skipn in Es.
        cbn [List.length] in Es. lia.
      - f_equal.
        + rewrite <- (firstn_skipn a arr) at 1. rewrite Es.
          rewrite app_nth2 by (rewrite length_firstn; lia).
          rewrite length_firstn.
          replace (a - Nat.min a (List.length arr))%nat with 0%nat by lia. reflexivity.
        + replace (Datatypes.S a) with (1 + a)%nat by lia.
          rewrite <- skipn_skipn, Es. reflexivity. }
    replace (multi.sint (wrap (multi.sint (wrap R) * multi.size arr a)))
      with (multi.sint (wrap (R * multi.size arr a))).
    2:{ rewrite wrap_mul_sint. reflexivity. }
    rewrite IH by lia. rewrite Hsk. cbn [firstn existsb].
    unfold multi.size, multi.stride.
    destruct (nth a arr (multi.mk_diminfo 0 0)) as [n0 s0] eqn:En. cbn [multi.n multi.s].
    rewrite <- app_assoc. cbn [app]. rewrite volume_cons. cbn [multi.n].
    rewrite orb_assoc, Z.mul_assoc. reflexivity.
Qed.

Lemma volume_app (l1 l2 : list multi.diminfo) :
  volume (l1 ++ l2) = volume l1 * volume l2.
Proof. unfold volume. rewrite map_app. apply product_app. Qed.

Lemma multi_iter_new_spec (arr : list multi.diminfo) (idim : nat) :
  (idim < List.length arr)%nat ->
  multi.multi_iter_new arr idim
  = Ok (multi.mk_iter (others arr idim) (repeat 0 (List.length arr - 1)) 0
          (multi.size arr idim) (multi.stride arr idim)
          (multi.sint (wrap (volume (others arr idim))))
          (existsb (fun d => multi.n d =? 0) (others arr idim))).
Proof.
  intros Hi. unfold multi.multi_iter_new.
  destruct (Nat.eqb_spec (List.length arr) 0) as [E|E]; [lia|].
  destruct (Nat.leb_spec (List.length arr) idim) as [E'|E']; [lia|].
  unfold for_. rewrite Nat.sub_0_r.
  replace (List.length arr) with (idim + (1 + (List.length arr - Datatypes.S idim)))%nat
    at 1 by lia.
  rewrite !seq_app, !fold_left_app. cbn [Nat.add].
  change 1 with (multi.sint (wrap 1)) at 1.
  rewrite (ctor_loop arr idim idim 0%nat) by lia.
  cbn [seq fold_left]. rewrite Nat.eqb_refl.
  replace (idim + 1)%nat with (Datatypes.S idim) by lia.
  rewrite (ctor_loop arr idim (List.length arr - Datatypes.S idim) (Datatypes.S idim)) by lia.
  change (skipn 0 arr) with arr. cbn [orb app].
  rewrite (firstn_all2 (n := List.length arr - Datatypes.S idim))
    by (rewrite length_skipn; lia).
  unfold others. rewrite existsb_app, volume_app, Z.mul_1_l. reflexivity.
Qed.

Lemma existsb_zero_volume (dims : list multi.diminfo) :
  Forall (fun d => 0 <= multi.n d) dims ->
  existsb (fun d => multi.n d =? 0) dims = (volume dims =? 0).
Proof.
  induction 1 as [|d dims Hd _ IH]; [reflexivity|].
  cbn [existsb]. rewrite volume_cons, IH.
  destruct (Z.eqb_spec (multi.n d) 0), (Z.eqb_spec (volume dims) 0),
    (Z.eqb_spec (multi.n d * volume dims) 0); try reflexivity; nia.
Qed.

Lemma positive_sizes (dims : list multi.diminfo) :
  Forall (fun d => 0 <= multi.n d) dims -> 0 < volume dims ->
  Forall (fun d => 1 <= multi.n d) dims.
Proof.
  induction 1 as [|d dims Hd _ IH]; intros Hv; [constructor|].
  rewrite volume_cons in Hv.
  assert (Hn : 1 <= multi.n d).
  { destruct (Z.eq_dec (multi.n d) 0) as [E|E]; [rewrite E in Hv; lia | lia]. }
  constructor; [exact Hn|]. apply IH.
  destruct (Z_le_gt_dec (volume dims) 0) as [Hle|]; [|lia].
  pose proof (Z.mul_nonneg_nonpos (multi.n d) (volume dims) ltac:(lia) Hle). lia.
Qed.

Lemma length_others (arr : list multi.diminfo) (idim : nat) :
  (idim < List.length arr)%nat ->
  List.length (others arr idim) = (List.length arr - 1)%nat.
Proof.
  intros Hi. unfold others. rewrite length_app, length_firstn, length_skipn. lia.
Qed.

End multi_iter_facts.

(** X17 -- [multi_iter]: for an array whose sizes are [size_t] values and
    whose lines along the axis [idim] number fewer than 2^63, the iterator
    is constructed, and after [k] calls of [advance], for every [k] below
    the number of lines, it is not done, [remaining()] is positive (it is
    the number of lines left), the position is inside the shape and is the
    one of row-major rank [k], and [offset()] is the sum of position times
    stride, as a [size_t].  After as many calls as there are lines [done()]
    holds and [remaining()] is 0: the loops [while (it.remaining()>0)] and
    [while (!it.done())] visit every line once, in row-major order. *)
Theorem multi_iter_visits_in_order (arr : list multi.diminfo) (idim : nat) :
  (idim < List.length arr)%nat ->
  Forall (fun d => 0 <= multi.n d < 2 ^ 64)%Z arr ->
  (volume (others arr idim) < 2 ^ 63)%Z ->
  exists it0,
    multi.multi_iter_new arr idim = Ok it0
    /\ multi.length it0 = multi.size arr idim
    /\ (forall k : nat, (Z.of_nat k < volume (others arr idim))%Z ->
          let it := Nat.iter k multi.advance it0 in
          multi.done it = false
          /\ multi.remaining it = (volume (others arr idim) - Z.of_nat k)%Z
          /\ in_shape (others arr idim) (multi.pos it)
          /\ rank (others arr idim) (multi.pos it) = Z.of_nat k
          /\ multi.offset it = wrap (dot (others arr idim) (multi.pos it)))
    /\ (let it := Nat.iter (Z.to_nat (volume (others arr idim))) multi.advance it0 in
        multi.done it = true /\ multi.remaining it = 0%Z).
Proof.
  intros Hi Harr Hvol. rewrite (multi_iter_new_spec arr idim Hi).
  eexists. split; [reflexivity|]. split; [reflexivity|].
  set (dims := others arr idim) in *.
  assert (Hdims : Forall (fun d => 0 <= multi.n d < 2 ^ 64)%Z dims).
  { subst dims. unfold others. apply Forall_app. split.
    - pose proof Harr as H1. rewrite <- (firstn_skipn idim arr) in H1.
      apply Forall_app in H1. exact (proj1 H1).
    - pose proof Harr as H1. rewrite <- (firstn_skipn (Datatypes.S idim) arr) in H1.
      apply Forall_app in H1. exact (proj2 H1). }
  assert (Hnn : Forall (fun d => 0 <= multi.n d)%Z dims).
  { refine (Forall_impl _ _ Hdims). cbv beta. intros d Hd. lia. }
  assert (Hlt : Forall (fun d => multi.n d < 2 ^ 64)%Z dims).
  { refine (Forall_impl _ _ Hdims). cbv beta. intros d Hd. lia. }
  assert (Hvol0 : (0 <= volume dims)%Z).
  { clear -Hnn. induction Hnn as [|d l Hd _ IH]; [unfold volume; cbn; lia|].
    rewrite volume_cons. nia. }
  rewrite (existsb_zero_volume dims Hnn), sint_small by lia.
  set (it0 := multi.mk_iter dims _ _ _ _ _ _).
  assert (Hstart : (0 < volume dims)%Z -> at_rank dims 0 it0).
  { intros Hpos. unfold at_rank. subst it0.
    cbn [multi.dim multi.pos multi.ofs_ multi.rem multi.done_].
    rewrite <- (length_others arr idim Hi). fold dims. fold (zeros dims).
    rewrite rank_zeros, dot_zeros.
    split; [reflexivity|]. split; [apply in_shape_zeros, positive_sizes; assumption|].
    split; [reflexivity|]. split; [reflexivity|]. split; [lia|].
    destruct (Z.eqb_spec (volume dims) 0); [lia | reflexivity]. }
  assert (Hstep : forall k : nat, (Z.of_nat k < volume dims)%Z ->
            at_rank dims (Z.of_nat k) (Nat.iter k multi.advance it0)).
  { induction k as [|k IH]; intros Hk.
    - apply Hstart. lia.
    - cbn [Nat.iter].
      pose proof (advance_spec dims (Z.of_nat k) _ Hlt Hvol (IH ltac:(lia))) as Ha.
      destruct (Z.ltb_spec (Z.of_nat k + 1) (volume dims)); [|lia].
      replace (Z.of_nat (Datatypes.S k)) with (Z.of_nat k + 1)%Z by lia. exact Ha. }
  split.
  - intros k Hk. destruct (Hstep k Hk) as (_ & Hs & Hr & Ho & Hrem & Hdone).
    cbv zeta. unfold multi.done, multi.remaining, multi.offset. auto.
  - cbv zeta. unfold multi.done, multi.remaining.
    destruct (Z.eq_dec (volume dims) 0) as [E0|E0].
    + rewrite E0. cbn [Z.to_nat Nat.iter]. subst it0. cbn [multi.done_ multi.rem].
      rewrite E0. split; reflexivity.
    + replace (Z.to_nat (volume dims)) with (Datatypes.S (Z.to_nat (volume dims - 1)))
        by lia.
      cbn [Nat.iter].
      pose proof (advance_spec dims (Z.of_nat (Z.to_nat (volume dims - 1))) _ Hlt Hvol
                    (Hstep (Z.to_nat (volume dims - 1)) ltac:(lia))) as Ha.
      destruct (Z.ltb_spec (Z.of_nat (Z.to_nat (volume dims - 1)) + 1) (volume dims));
        [lia | exact Ha].
Qed.

(** ** The chirp of the Bluestein plan *)

Section chirp_table.
Context {T0 : Type} {ST : Scalar T0}.
Variable sincos_2pibyn : Z -> bool -> nat -> T0.

(* the running index of the loop: squares modulo 2n, without a multiplication *)
Lemma chirp_step (n m : nat) :
  0 < m < n ->
  (let coeff := ((m - 1) * (m - 1)) mod (2 * n) + (2 * m - 1) in
   if 2 * n <=? coeff then coeff - 2 * n else coeff) = (m * m) mod (2 * n).
Proof.
  intros Hm. cbv zeta.
  assert (Hsq : m * m = (m - 1) * (m - 1) + (2 * m - 1)) by nia.
  rewrite Hsq. set (a := (m - 1) * (m - 1)).
  assert (Hw : a mod (2 * n) < 2 * n) by (apply Nat.mod_upper_bound; lia).
  rewrite <- (Nat.Div0.add_mod_idemp_l a). set (w := a mod (2 * n)) in *.
  destruct (Nat.leb_spec (2 * n) (w + (2 * m - 1))) as [Hge|Hlt].
  - apply (Nat.mod_unique _ _ 1); lia.
  - symmetry. apply Nat.mod_small. exact Hlt.
Qed.

Lemma init_bk_loop (tmp : nat -> T0) (n : nat) :
  forall k (bk0 : list T0),
    k < n -> List.length bk0 = 2 * n ->
    let r := fold_left (fun acc m =>
               (fun m '(coeff, bk) =>
                  let coeff := coeff + (2 * m - 1) in
                  let coeff := if 2 * n <=? coeff then coeff - 2 * n else coeff in
                  let bk := upd bk (2 * m) (tmp (2 * coeff)) in
                  let bk := upd bk (2 * m + 1) (tmp (2 * coeff + 1)) in
                  (coeff, bk)) m acc) (seq 1 k) (0, bk0) in
    fst r = (k * k) mod (2 * n)
    /\ List.length (snd r) = 2 * n
    /\ (forall m, 0 < m <= k ->
          nth (2 * m) (snd r) (lit 0) = tmp (2 * ((m * m) mod (2 * n)))
          /\ nth (2 * m + 1) (snd r) (lit 0) = tmp (2 * ((m * m) mod (2 * n)) + 1))
    /\ (forall i, i < 2 \/ 2 * k + 2 <= i -> nth i (snd r) (lit 0) = nth i bk0 (lit 0)).
Proof.
  induction k as [|k IH]; intros bk0 Hk Hlen; cbv zeta.
  - cbn [seq fold_left fst snd]. rewrite Nat.Div0.mod_0_l.
    split; [reflexivity|]. split; [exact Hlen|]. split; [intros m Hm; lia | reflexivity].
  - rewrite seq_S, fold_left_app. cbn [fold_left Nat.add].
    specialize (IH bk0 ltac:(lia) Hlen). cbv zeta in IH.
    destruct (fold_left _ (seq 1 k) (0, bk0)) as [coeff bk] eqn:E.
    cbn [fst snd] in IH. destruct IH as (Hc & Hl & Hset & Hrest). cbn [fst snd].
    pose proof (chirp_step n (Datatypes.S k) ltac:(lia)) as Hstep. cbv zeta in Hstep.
    replace (Datatypes.S k - 1) with k in Hstep by lia.
    rewrite Hc, Hstep.
    split; [reflexivity|]. split; [rewrite !upd_length; exact Hl|]. split.
    + intros m Hm. destruct (Nat.eq_dec m (Datatypes.S k)) as [->|Hne].
      * split.
        -- rewrite nth_upd_other by lia. apply nth_upd_same. lia.
        -- apply nth_upd_same. rewrite upd_length. lia.
      * rewrite !nth_upd_other by lia. apply Hset. lia.
    + intros i Hi. rewrite !nth_upd_other by lia. apply Hrest. lia.
Qed.

(** X18 -- The chirp table [bk] of the Bluestein plan for a length [n >= 1]
    with [4*n < 2^64] (no [size_t] of the loop wraps) has [2*n] entries;
    entry pair 0 is (1, 0), and entry pair [m], for [0 < m < n], is the root
    of index [m*m mod 2n] of the table of [2n]-th roots: the running sum
    [coeff += 2*m-1] with one conditional subtraction of [2n] is the square
    modulo [2n]. *)
Theorem init_bk_chirp (n : Z) :
  (1 <= n)%Z -> (4 * n < 2 ^ 64)%Z ->
  List.length (fftblue.init_bk sincos_2pibyn n) = 2 * Z.to_nat n
  /\ nth 0 (fftblue.init_bk sincos_2pibyn n) (lit 0) = lit 1
  /\ nth 1 (fftblue.init_bk sincos_2pibyn n) (lit 0) = lit 0
  /\ forall m, 0 < m < Z.to_nat n ->
       nth (2 * m) (fftblue.init_bk sincos_2pibyn n) (lit 0)
       = sincos_2pibyn (wrap (2 * n)) false (2 * ((m * m) mod (2 * Z.to_nat n)))
       /\ nth (2 * m + 1) (fftblue.init_bk sincos_2pibyn n) (lit 0)
          = sincos_2pibyn (wrap (2 * n)) false (2 * ((m * m) mod (2 * Z.to_nat n)) + 1).
Proof.
  intros Hn _. unfold fftblue.init_bk, for_. cbv zeta.
  set (N := Z.to_nat n). assert (HN : 1 <= N) by lia.
  set (bk0 := upd (upd (repeat (lit 0) (2 * N)) 0 (lit 1)) 1 (lit 0)).
  assert (Hlen0 : List.length bk0 = 2 * N).
  { subst bk0. rewrite !upd_length. apply repeat_length. }
  pose proof (init_bk_loop (sincos_2pibyn (wrap (2 * n)) false) N (N - 1) bk0
                ltac:(lia) Hlen0) as H.
  cbv zeta in H. destruct H as (_ & Hl & Hset & Hrest).
  split; [exact Hl|]. split; [|split].
  - rewrite Hrest by lia. subst bk0. rewrite nth_upd_other by lia.
    apply nth_upd_same. rewrite repeat_length. lia.
  - rewrite Hrest by lia. subst bk0. apply nth_upd_same.
    rewrite upd_length, repeat_length. lia.
  - intros m Hm. apply Hset. lia.
Qed.

End chirp_table.

(** ** The loop over the lines *)

Section line_loops.
Local Open Scope Z_scope.

Lemma advance_len (it : multi.multi_iter) : multi.len (multi.advance it) = multi.len it.
Proof.
  unfold multi.advance. destruct (_ <=? 0); [reflexivity|].
  destruct (multi.carry _ _ _) as [[? ?] ?]. reflexivity.
Qed.

Lemma advance_str (it : multi.multi_iter) : multi.str (multi.advance it) = multi.str it.
Proof.
  unfold multi.advance. destruct (_ <=? 0); [reflexivity|].
  destruct (multi.carry _ _ _) as [[? ?] ?]. reflexivity.
Qed.

Lemma others_Forall (P : multi.diminfo -> Prop) (arr : list multi.diminfo) (idim : nat) :
  Forall P arr -> Forall P (others arr idim).
Proof.
  intros Harr. unfold others. apply Forall_app. split.
  - pose proof Harr as H1. rewrite <- (firstn_skipn idim arr) in H1.
    apply Forall_app in H1. exact (proj1 H1).
  - pose proof Harr as H1. rewrite <- (firstn_skipn (Datatypes.S idim) arr) in H1.
    apply Forall_app in H1. exact (proj2 H1).
Qed.

Lemma volume_nonneg (dims : list multi.diminfo) :
  Forall (fun d => 0 <= multi.n d) dims -> 0 <= volume dims.
Proof.
  induction 1 as [|d l Hd _ IH]; [unfold volume; cbn; lia|].
  rewrite volume_cons. nia.
Qed.

(** The iterator the constructor returns. *)
Lemma multi_iter_new_start (arr : list multi.diminfo) (idim : nat) :
  (idim < List.length arr)%nat ->
  Forall (fun d => 0 <= multi.n d < 2 ^ 64) arr ->
  volume (others arr idim) < 2 ^ 63 ->
  exists it0,
    multi.multi_iter_new arr idim = Ok it0
    /\ multi.len it0 = multi.size arr idim
    /\ multi.str it0 = multi.stride arr idim
    /\ multi.rem it0 = volume (others arr idim)
    /\ (0 < volume (others arr idim) -> at_rank (others arr idim) 0 it0)
    /\ (volume (others arr idim) = 0 -> multi.done_ it0 = true).
Proof.
  intros Hi Harr Hvol. rewrite (multi_iter_new_spec arr idim Hi).
  eexists. split; [reflexivity|].
  set (dims := others arr idim) in *.
  assert (Hdims : Forall (fun d => 0 <= multi.n d < 2 ^ 64) dims)
    by (apply others_Forall; exact Harr).
  assert (Hnn : Forall (fun d => 0 <= multi.n d) dims).
  { refine (Forall_impl _ _ Hdims). cbv beta. intros d Hd. lia. }
  pose proof (volume_nonneg dims Hnn) as Hvol0.
  rewrite (existsb_zero_volume dims Hnn), sint_small by lia.
  cbn [multi.len multi.str multi.rem multi.done_].
  split; [reflexivity|]. split; [reflexivity|]. split; [reflexivity|]. split.
  - intros Hpos. unfold at_rank.
    cbn [multi.dim multi.pos multi.ofs_ multi.rem multi.done_].
    rewrite <- (length_others arr idim Hi). fold dims. fold (zeros dims).
    rewrite rank_zeros, dot_zeros.
    split; [reflexivity|]. split; [apply in_shape_zeros, positive_sizes; assumption|].
    split; [reflexivity|]. split; [reflexivity|]. split; [lia|].
    destruct (Z.eqb_spec (volume dims) 0); [lia | reflexivity].
  - intros E. rewrite E. reflexivity.
Qed.

(** The loop over the lines: an invariant of the lines done goes through,
    and the loop ends after the last line. *)
Lemma each_line_inv {S : Type} (Inv : Z -> S -> Prop)
  (cond : multi.multi_iter -> bool)
  (body : multi.multi_iter -> multi.multi_iter -> S -> result S)
  (dims_in dims_out : list multi.diminfo) (it_in it_out : multi.multi_iter) (s : S) :
  Forall (fun d => multi.n d < 2 ^ 64) dims_in ->
  Forall (fun d => multi.n d < 2 ^ 64) dims_out ->
  volume dims_out = volume dims_in ->
  volume dims_in < 2 ^ 63 ->
  (forall it k, at_rank dims_in k it -> cond it = true) ->
  (forall it, multi.done_ it = true -> multi.rem it = 0 -> cond it = false) ->
  at_rank dims_in 0 it_in -> at_rank dims_out 0 it_out ->
  Inv 0 s ->
  (forall k it_i it_o s,
      at_rank dims_in k it_i -> at_rank dims_out k it_o ->
      multi.len it_i = multi.len it_in -> multi.str it_i = multi.str it_in ->
      multi.len it_o = multi.len it_out -> multi.str it_o = multi.str it_out ->
      Inv k s -> exists s', body it_i it_o s = Ok s' /\ Inv (k + 1) s') ->
  exists s', general.each_line cond body it_in it_out s = Ok s' /\ Inv (volume dims_in) s'.
Proof.
  intros Hin Hout HV Hvol Hcond Hend Hi0 Ho0 Hinv0 Hbody.
  set (V := volume dims_in) in *.
  assert (Hloop : forall (j : nat) k it_i it_o s fuel,
            k = V - Z.of_nat j -> 0 <= k -> (j <= fuel)%nat ->
            (if k <? V then at_rank dims_in k it_i /\ at_rank dims_out k it_o
             else multi.done_ it_i = true /\ multi.rem it_i = 0) ->
            multi.len it_i = multi.len it_in -> multi.str it_i = multi.str it_in ->
            multi.len it_o = multi.len it_out -> multi.str it_o = multi.str it_out ->
            Inv k s ->
            exists fin s',
              while_ fuel (fun st => cond (fst (fst st)))
                (fun '(it_in, it_out, s) =>
                   s <- body it_in it_out s ;;
                   Ok (multi.advance it_in, multi.advance it_out, s))
                (it_i, it_o, s) = Ok (fin, s') /\ Inv V s').
  { induction j as [|j IH]; intros k it_i it_o s1 fuel Hk Hk0 Hfuel Hst Hl1 Hs1 Hl2 Hs2 HI.
    - assert (Ek : k = V) by lia.
      destruct (Z.ltb_spec k V) as [|_]; [lia|]. destruct Hst as [Hd Hr].
      exists (it_i, it_o), s1. rewrite <- Ek. split; [|exact HI].
      destruct fuel; cbn [while_ fst]; rewrite (Hend it_i Hd Hr); reflexivity.
    - destruct (Z.ltb_spec k V) as [Hlt|]; [|lia]. destruct Hst as [Hai Hao].
      destruct fuel as [|fuel]; [lia|]. cbn [while_ fst].
      rewrite (Hcond it_i k Hai).
      destruct (Hbody k it_i it_o s1 Hai Hao Hl1 Hs1 Hl2 Hs2 HI) as (s2 & Hb & HI2).
      rewrite Hb. cbn [bind].
      apply (IH (k + 1)); try lia.
      + pose proof (advance_spec dims_in k it_i Hin Hvol Hai) as Hn1.
        assert (Hvol' : volume dims_out < 2 ^ 63) by lia.
        pose proof (advance_spec dims_out k it_o Hout Hvol' Hao) as Hn2.
        rewrite HV in Hn2. fold V in Hn1, Hn2.
        destruct (Z.ltb_spec (k + 1) V); [split; assumption | exact Hn1].
      + rewrite advance_len. exact Hl1.
      + rewrite advance_str. exact Hs1.
      + rewrite advance_len. exact Hl2.
      + rewrite advance_str. exact Hs2.
      + exact HI2. }
  pose proof Hi0 as (_ & Hs0 & _ & _ & Hrem & _).
  pose proof (in_shape_volume _ _ Hs0) as HV1. fold V in HV1.
  destruct (Hloop (Z.to_nat V) 0 it_in it_out s (Z.to_nat (Z.max 1 (multi.remaining it_in))))
    as (fin & s' & Hw & HI); try lia; try reflexivity.
  - unfold multi.remaining. rewrite Hrem. fold V. lia.
  - destruct (Z.ltb_spec 0 V); [split; assumption | lia].
  - exact Hinv0.
  - exists s'. split; [|exact HI]. unfold general.each_line, rmap. rewrite Hw. reflexivity.
Qed.

(** An array with no line: the loop ends at once. *)
Lemma each_line_none {S : Type} (cond : multi.multi_iter -> bool)
  (body : multi.multi_iter -> multi.multi_iter -> S -> result S)
  (it_in it_out : multi.multi_iter) (s : S) :
  cond it_in = false -> general.each_line cond body it_in it_out s = Ok s.
Proof.
  intros Hc. unfold general.each_line, rmap.
  destruct (Z.to_nat _); cbn [while_ fst]; rewrite Hc; reflexivity.
Qed.

End line_loops.

Section memory.
Local Open Scope Z_scope.

Lemma store_same {X : Type} (d : general.mem X) (k : Z) (v : X) :
  general.store d k v k = v.
Proof. unfold general.store. rewrite Z.eqb_refl. reflexivity. Qed.

Lemma store_other {X : Type} (d : general.mem X) (k j : Z) (v : X) :
  j <> k -> general.store d k v j = d j.
Proof.
  intros H. unfold general.store. destruct (Z.eqb_spec j k); [contradiction | reflexivity].
Qed.

(** A loop of stores at distinct cells. *)
Lemma for_store_spec {X : Type} (idx : nat -> Z) (val : nat -> X) (n : nat)
  (d : general.mem X) :
  (forall i j, (i < n)%nat -> (j < n)%nat -> idx i = idx j -> i = j) ->
  (forall i, (i < n)%nat ->
     for_ 0 n (fun i d => general.store d (idx i) (val i)) d (idx i) = val i)
  /\ (forall c, (forall i, (i < n)%nat -> c <> idx i) ->
        for_ 0 n (fun i d => general.store d (idx i) (val i)) d c = d c).
Proof.
  unfold for_. rewrite Nat.sub_0_r. induction n as [|n IH]; intros Hinj.
  - split; [intros i Hi; lia | reflexivity].
  - rewrite seq_S, fold_left_app. cbn [Nat.add fold_left].
    destruct IH as [IH1 IH2]; [intros i j Hi Hj; apply Hinj; lia|].
    split.
    + intros i Hi. destruct (Nat.eq_dec i n) as [->|Hne].
      * apply store_same.
      * rewrite store_other; [apply IH1; lia|].
        intros E. apply Hinj in E; lia.
    + intros c Hc. rewrite store_other; [|apply Hc; lia].
      apply IH2. intros i Hi. apply Hc. lia.
Qed.

End memory.

Section shapes.
Local Open Scope Z_scope.

Lemma multiarr_sizes (shape strides : list Z) :
  (List.length shape <= List.length strides)%nat ->
  map multi.n (multi.multiarr shape strides) = shape.
Proof.
  unfold multi.multiarr. revert strides.
  induction shape as [|a shape IH]; intros [|b strides] H; cbn in *; try reflexivity; try lia.
  f_equal. apply IH. lia.
Qed.

Lemma multiarr_length (shape strides : list Z) :
  (List.length shape <= List.length strides)%nat ->
  List.length (multi.multiarr shape strides) = List.length shape.
Proof.
  intros H. rewrite <- (multiarr_sizes shape strides H) at 2. rewrite length_map. reflexivity.
Qed.

Lemma others_sizes (arr : list multi.diminfo) (idim : nat) :
  map multi.n (others arr idim)
  = firstn idim (map multi.n arr) ++ skipn (Datatypes.S idim) (map multi.n arr).
Proof. unfold others. rewrite map_app, firstn_map, skipn_map. reflexivity. Qed.

Lemma size_nth (arr : list multi.diminfo) (idim : nat) :
  multi.size arr idim = nth idim (map multi.n arr) 0.
Proof.
  unfold multi.size. change 0 with (multi.n (multi.mk_diminfo 0 0)). symmetry. apply map_nth.
Qed.

Lemma in_shape_sizes (dims1 dims2 : list multi.diminfo) (pos : list Z) :
  map multi.n dims1 = map multi.n dims2 -> in_shape dims1 pos -> in_shape dims2 pos.
Proof.
  intros E H. revert dims2 E. induction H as [|d p dims pos Hp _ IH]; intros [|d2 dims2] E;
    cbn in E; try discriminate; [constructor|].
  injection E as E1 E2. constructor; [rewrite <- E1; exact Hp | apply IH; exact E2].
Qed.

Lemma volume_sizes (dims1 dims2 : list multi.diminfo) :
  map multi.n dims1 = map multi.n dims2 -> volume dims1 = volume dims2.
Proof. unfold volume. intros ->. reflexivity. Qed.

Lemma rank_sizes (dims1 dims2 : list multi.diminfo) (pos : list Z) :
  map multi.n dims1 = map multi.n dims2 -> rank dims1 pos = rank dims2 pos.
Proof.
  revert dims2 pos. induction dims1 as [|d dims1 IH]; intros [|d2 dims2] pos E;
    cbn in E; try discriminate; [reflexivity|].
  injection E as E1 E2. destruct pos as [|p pos]; [reflexivity|]. cbn [rank].
  rewrite (IH dims2 pos E2), (volume_sizes dims1 dims2 E2). reflexivity.
Qed.

(** Positions inside the shape are told apart by their rank. *)
Lemma rank_inj (dims : list multi.diminfo) (p q : list Z) :
  in_shape dims p -> in_shape dims q -> rank dims p = rank dims q -> p = q.
Proof.
  intros Hp. revert q. induction Hp as [|d a dims p Ha Hp IH]; intros q Hq E.
  - inversion Hq. reflexivity.
  - inversion Hq as [|d' b dims' q' Hb Hq' E1 E2]. subst. cbn [rank] in E.
    pose proof (in_shape_rank _ _ Hp) as R1. pose proof (in_shape_rank _ _ Hq') as R2.
    assert (a = b) by nia. subst b. f_equal. apply IH; [exact Hq' | lia].
Qed.

End shapes.

(** ** [pocketfft_general_c] *)

Section general_c_lines.
Context {T0 : Type} {ST : Scalar T0}.
Variable sincos_2pibyn : Z -> bool -> nat -> T0.
Local Open Scope Z_scope.

Lemma of_cmplx_length (l : list (cmplx T0)) :
  List.length (of_cmplx l) = (2 * List.length l)%nat.
Proof.
  unfold of_cmplx. rewrite (flat_map_constant_length (c := 2%nat)); [lia|].
  intros z _. reflexivity.
Qed.

Lemma transform_c_ok (forward : bool) (N : Z) (P : pocketfft_c.plan) (fct : T0)
  (l : list (cmplx T0)) :
  1 <= N -> 44 * N < 2 ^ 64 ->
  pocketfft_c.pocketfft_c sincos_2pibyn N = Ok P ->
  List.length l = Z.to_nat N ->
  exists t, transform_c forward P fct l = Ok t /\ List.length t = Z.to_nat N.
Proof.
  intros HN H44 HP Hl.
  assert (Hc : List.length (of_cmplx l) = (2 * Z.to_nat N)%nat)
    by (rewrite of_cmplx_length, Hl; reflexivity).
  pose proof (pocketfft_c_forward_ok sincos_2pibyn N P (of_cmplx l) fct HN H44 HP Hc) as Hf.
  pose proof (pocketfft_c_backward_ok sincos_2pibyn N P (of_cmplx l) fct HN H44 HP Hc) as Hb.
  unfold transform_c, rmap.
  destruct forward; [destruct Hf as (r & -> & Hr) | destruct Hb as (r & -> & Hr)];
    cbn [bind]; eexists; (split; [reflexivity|]); apply to_cmplx_length; exact Hr.
Qed.

Lemma line_c_transform (forward : bool) (P : pocketfft_c.plan) (fct : T0)
  (data_in : option (general.mem (cmplx T0))) (it_in it_out : multi.multi_iter)
  (d : general.mem (cmplx T0)) :
  general.line_c forward P fct data_in it_in it_out d
  = rmap (general.store_line d it_out)
      (transform_c forward P fct (general.load_line (general.source data_in d) it_in)).
Proof.
  unfold general.line_c, transform_c, rmap. cbv zeta.
  destruct forward;
    match goal with |- bind ?m _ = _ => destruct m; reflexivity end.
Qed.


Lemma to_int_small (x : Z) : 0 <= x < 2 ^ 31 -> wrap (general.to_int x) = x.
Proof.
  intros H. unfold general.to_int. cbv zeta. rewrite (Z.mod_small x) by lia.
  destruct (Z.ltb_spec x (2 ^ 31)); [|lia]. apply wrap_small. lia.
Qed.

Lemma sizes_Forall (Q : Z -> Prop) (a b : list multi.diminfo) :
  map multi.n a = map multi.n b ->
  Forall (fun d => Q (multi.n d)) b -> Forall (fun d => Q (multi.n d)) a.
Proof.
  intros E H. apply Forall_map. rewrite E. apply Forall_map. exact H.
Qed.

Lemma others_sizes_eq (a b : list multi.diminfo) (idim : nat) :
  map multi.n a = map multi.n b ->
  map multi.n (others a idim) = map multi.n (others b idim).
Proof. intros E. rewrite !others_sizes, E. reflexivity. Qed.

Lemma axis_c_lines (a_in a_out : list multi.diminfo) (axis : Z) (forward : bool)
  (P : pocketfft_c.plan) (fct : T0) (plan0 : option pocketfft_c.plan)
  (data_in : option (general.mem (cmplx T0))) (data_out : general.mem (cmplx T0)) :
  map multi.n a_in = map multi.n a_out ->
  0 <= axis < 2 ^ 31 ->
  (Z.to_nat axis < List.length a_out)%nat ->
  Forall (fun d => 0 <= multi.n d < 2 ^ 64) a_out ->
  volume (others a_out (Z.to_nat axis)) < 2 ^ 63 ->
  1 <= multi.size a_out (Z.to_nat axis) ->
  44 * multi.size a_out (Z.to_nat axis) < 2 ^ 64 ->
  pocketfft_c.pocketfft_c sincos_2pibyn (multi.size a_out (Z.to_nat axis)) = Ok P ->
  general.get_plan (pocketfft_c.pocketfft_c sincos_2pibyn) pocketfft_c.length plan0
    (multi.size a_out (Z.to_nat axis)) = Ok P ->
  (forall pos i pos' i',
     in_shape (others a_out (Z.to_nat axis)) pos ->
     in_shape (others a_out (Z.to_nat axis)) pos' ->
     0 <= i < multi.size a_out (Z.to_nat axis) ->
     0 <= i' < multi.size a_out (Z.to_nat axis) ->
     cell a_out (Z.to_nat axis) pos i = cell a_out (Z.to_nat axis) pos' i' ->
     pos = pos' /\ i = i') ->
  (data_in = None ->
   forall pos i pos' i',
     in_shape (others a_out (Z.to_nat axis)) pos ->
     in_shape (others a_out (Z.to_nat axis)) pos' ->
     0 <= i < multi.size a_out (Z.to_nat axis) ->
     0 <= i' < multi.size a_out (Z.to_nat axis) ->
     pos <> pos' ->
     cell a_in (Z.to_nat axis) pos i <> cell a_out (Z.to_nat axis) pos' i') ->
  exists d,
    general.axis_c sincos_2pibyn forward a_out axis
      (general.mk_axes_state a_in data_in plan0 fct data_out)
    = Ok (general.mk_axes_state a_out None (Some P) (lit 1) d)
    /\ lines_done forward P fct (general.source data_in data_out) a_in a_out
         (Z.to_nat axis) data_out (volume (others a_out (Z.to_nat axis))) d.
Proof.
  intros Hsz Hax Hidim Hrange Hvol Hlen H44 HP Hget Hinj Halias.
  set (idim := Z.to_nat axis) in *.
  set (len := multi.size a_out idim) in *.
  assert (Hlen_in : List.length a_in = List.length a_out).
  { rewrite <- (length_map multi.n a_in), Hsz. apply length_map. }
  assert (Hrange_in : Forall (fun d => 0 <= multi.n d < 2 ^ 64) a_in).
  { exact (sizes_Forall (fun x => 0 <= x < 2 ^ 64) a_in a_out Hsz Hrange). }
  pose proof (others_sizes_eq a_in a_out idim Hsz) as Hosz.
  pose proof (volume_sizes _ _ Hosz) as HV.
  assert (Hsize_in : multi.size a_in idim = len).
  { subst len. rewrite !size_nth, Hsz. reflexivity. }
  destruct (multi_iter_new_start a_in idim ltac:(lia) Hrange_in ltac:(lia))
    as (it_i & Ei & Hli & Hsi & Hri & Hai & Hdi).
  destruct (multi_iter_new_start a_out idim Hidim Hrange Hvol)
    as (it_o & Eo & Hlo & Hso & Hro & Hao & Hdo).
  unfold general.axis_c. cbv zeta. rewrite (to_int_small axis Hax). fold idim.
  cbn [general.a_in general.plan general.fct general.data_in general.data_out].
  rewrite Ei, Eo. cbn [bind]. unfold multi.length. rewrite Hli, Hsize_in, Hget. cbn [bind].
  assert (Hnn : Forall (fun d => 0 <= multi.n d) (others a_out idim)).
  { apply others_Forall. refine (Forall_impl _ _ Hrange). cbv beta. intros d Hd. lia. }
  pose proof (volume_nonneg _ Hnn) as HV0.
  destruct (Z.eq_dec (volume (others a_out idim)) 0) as [E0|E0].
  - (* no line *)
    rewrite each_line_none
      by (unfold multi.remaining; rewrite Hri, HV, E0; reflexivity).
    cbn [bind]. exists data_out. split; [reflexivity|]. rewrite E0. split.
    + intros pos Hpos Hr. pose proof (in_shape_rank _ _ Hpos). lia.
    + intros c _. reflexivity.
  - destruct (each_line_inv
                (lines_done forward P fct (general.source data_in data_out) a_in a_out
                   idim data_out)
                (fun it => 0 <? multi.remaining it)
                (general.line_c forward P fct data_in)
                (others a_in idim) (others a_out idim) it_i it_o data_out)
      as (d & Hd & HI).
    + refine (Forall_impl _ _ (others_Forall _ _ idim Hrange_in)). cbv beta. intros; lia.
    + refine (Forall_impl _ _ (others_Forall _ _ idim Hrange)). cbv beta. intros; lia.
    + symmetry. exact HV.
    + lia.
    + intros it k (_ & Hs & Hr & _ & Hrem & _). unfold multi.remaining. rewrite Hrem.
      pose proof (in_shape_rank _ _ Hs). destruct (Z.ltb_spec 0 (volume (others a_in idim) - k));
        [reflexivity | lia].
    + intros it _ Hr. unfold multi.remaining. rewrite Hr. reflexivity.
    + apply Hai. lia.
    + apply Hao. lia.
    + split.
      * intros pos Hpos Hr. pose proof (in_shape_rank _ _ Hpos). lia.
      * intros c _. reflexivity.
    + (* one line *)
      intros k it1 it2 d (Hd1 & Hs1 & Hr1 & Ho1 & Hrem1 & _) (Hd2 & Hs2 & Hr2 & Ho2 & _ & _)
        Hl1 Hst1 Hl2 Hst2 [Hdone Hrest].
      assert (Hp : multi.pos it1 = multi.pos it2).
      { apply (rank_inj (others a_out idim)); [|exact Hs2|].
        - exact (in_shape_sizes _ _ _ Hosz Hs1).
        - rewrite <- (rank_sizes _ _ _ Hosz), Hr1, Hr2. reflexivity. }
      set (p := multi.pos it2) in *.
      assert (Hload : general.load_line (general.source data_in d) it1
                      = line_of (general.source data_in data_out) a_in idim p len).
      { unfold general.load_line, line_of, cell, multi.offset, multi.length.
        rewrite Hl1, Hst1, Hli, Hsi, Hsize_in, Ho1, Hp.
        apply map_ext_in. intros i Hi. apply in_seq in Hi.
        destruct data_in as [din|]; [reflexivity|]. cbn [general.source].
        apply Hrest. intros pos j Hpos Hrk Hj.
        apply (Halias eq_refl); try assumption; [lia|].
        intros ->. lia. }
      rewrite line_c_transform, Hload.
      destruct (transform_c_ok forward len P fct
                  (line_of (general.source data_in data_out) a_in idim p len) Hlen H44 HP)
        as (t & Ht & Htl).
      { unfold line_of. rewrite length_map, length_seq. reflexivity. }
      rewrite Ht. cbn [rmap bind]. eexists. split; [reflexivity|].
      unfold general.store_line, multi.offset, multi.length.
      rewrite Hl2, Hst2, Hlo, Hso, Ho2. fold len. fold p.
      change (fun (i : nat) (d0 : general.mem (cmplx T0)) =>
                general.store d0 (wrap (wrap (dot (others a_out idim) p)
                                        + Z.of_nat i * multi.stride a_out idim)) (rdc t i))
        with (fun (i : nat) (d0 : general.mem (cmplx T0)) =>
                general.store d0 ((fun i => cell a_out idim p (Z.of_nat i)) i)
                  ((fun i => rdc t i) i)).
      destruct (for_store_spec (fun i => cell a_out idim p (Z.of_nat i)) (fun i => rdc t i)
                  (Z.to_nat len) d) as [Hnew Hold].
      { intros i j Hi Hj E. apply Hinj in E; try assumption; lia. }
      split.
      * intros pos Hpos Hrk.
        destruct (Z.eq_dec (rank (others a_out idim) pos) k) as [Ek|Ek].
        -- assert (pos = p) by (apply (rank_inj (others a_out idim)); congruence).
           subst pos. exists t. split; [exact Ht|]. intros i Hi. apply Hnew. exact Hi.
        -- destruct (Hdone pos Hpos ltac:(lia)) as (t' & Ht' & Hv).
           exists t'. split; [exact Ht'|]. intros i Hi. rewrite Hold; [apply Hv; exact Hi|].
           intros j Hj E. apply Hinj in E; try assumption; try lia.
           destruct E as [-> _]. congruence.
      * intros c Hc. rewrite Hold.
        -- apply Hrest. intros pos i Hpos Hrk Hi. apply Hc; try assumption. lia.
        -- intros i Hi. apply Hc; try assumption; lia.
    + rewrite Hd. cbn [bind]. exists d. split; [reflexivity|]. rewrite <- HV. exact HI.
Qed.

End general_c_lines.

Section general_c_axes.
Context {T0 : Type} {ST : Scalar T0}.
Variable sincos_2pibyn : Z -> bool -> nat -> T0.
Local Open Scope Z_scope.

Lemma pocketfft_c_ctor_length (N : Z) (P : pocketfft_c.plan) :
  pocketfft_c.pocketfft_c sincos_2pibyn N = Ok P -> pocketfft_c.length P = N /\ N <> 0.
Proof.
  intros H. split.
  - destruct (pocketfft_c_ctor_cases sincos_2pibyn N P H) as [(p & -> & _)|(p & -> & _)];
      reflexivity.
  - unfold pocketfft_c.pocketfft_c in H. destruct (Z.eqb_spec N 0); [discriminate | assumption].
Qed.

Lemma alloc_tmp_ok (shape axes : list Z) :
  Forall (fun a => (Z.to_nat a < List.length shape)%nat) axes ->
  exists tmpsize, general.alloc_tmp shape axes = Ok tmpsize.
Proof.
  unfold general.alloc_tmp. generalize 0 as t0. intros t0 H. revert t0.
  induction H as [|a axes Ha _ IH]; intros t0; cbn [fold_left].
  - eexists. reflexivity.
  - cbn [bind]. destruct (nth_error shape (Z.to_nat a)) as [n|] eqn:E.
    + apply IH.
    + apply nth_error_None in E. lia.
Qed.

Lemma get_plan_kept (plan : option pocketfft_c.plan) (len : Z) :
  kept_plan sincos_2pibyn plan ->
  general.get_plan (pocketfft_c.pocketfft_c sincos_2pibyn) pocketfft_c.length plan len
  = pocketfft_c.pocketfft_c sincos_2pibyn len.
Proof.
  destruct plan as [p|]; [|reflexivity]. cbn [kept_plan general.get_plan]. intros Hp.
  destruct (Z.eqb_spec len (pocketfft_c.length p)) as [->|]; cbn [negb]; [|reflexivity].
  symmetry. exact Hp.
Qed.

Lemma axis_c_kept (forward : bool) (a_out : list multi.diminfo) (axis : Z)
  (a_in : list multi.diminfo) (data_in : option (general.mem (cmplx T0)))
  (plan : option pocketfft_c.plan) (fct : T0) (data_out : general.mem (cmplx T0)) :
  kept_plan sincos_2pibyn plan ->
  general.axis_c sincos_2pibyn forward a_out axis
    (general.mk_axes_state a_in data_in plan fct data_out)
  = general.axis_c sincos_2pibyn forward a_out axis
      (general.mk_axes_state a_in data_in None fct data_out).
Proof.
  intros Hp. unfold general.axis_c. cbv zeta.
  cbn [general.a_in general.plan general.fct general.data_in general.data_out].
  destruct (multi.multi_iter_new a_in _) as [it_i| |]; [|reflexivity|reflexivity].
  cbn [bind]. destruct (multi.multi_iter_new a_out _) as [it_o| |]; [|reflexivity|reflexivity].
  cbn [bind]. rewrite (get_plan_kept plan _ Hp). reflexivity.
Qed.

Lemma axis_c_state (forward : bool) (a_out : list multi.diminfo) (axis : Z)
  (st st' : general.axes_state pocketfft_c.plan (cmplx T0)) :
  general.axis_c sincos_2pibyn forward a_out axis st = Ok st' ->
  exists P d,
    st' = general.mk_axes_state a_out None (Some P) (lit 1) d
    /\ general.get_plan (pocketfft_c.pocketfft_c sincos_2pibyn) pocketfft_c.length
         (general.plan st)
         (multi.size (general.a_in st) (Z.to_nat (wrap (general.to_int axis)))) = Ok P.
Proof.
  unfold general.axis_c. cbv zeta. intros H.
  apply bind_Ok in H. destruct H as (it_i & Hi & H).
  apply bind_Ok in H. destruct H as (it_o & Ho & H).
  apply bind_Ok in H. destruct H as (P & HP & H).
  apply bind_Ok in H. destruct H as (d & Hd & [= <-]).
  exists P, d. split; [reflexivity|].
  rewrite <- HP. f_equal. unfold multi.multi_iter_new in Hi.
  destruct (_ =? 0)%nat; [discriminate|]. destruct (_ <=? _)%nat; [discriminate|].
  destruct (for_ _ _ _ _) as [[? ?] ?]. injection Hi as <-. reflexivity.
Qed.


Lemma axes_loop_kept (forward : bool) (a_out : list multi.diminfo) (rest : list Z)
  (a_in : list multi.diminfo) (data_in : option (general.mem (cmplx T0)))
  (plan : option pocketfft_c.plan) (fct : T0) (data_out : general.mem (cmplx T0)) :
  kept_plan sincos_2pibyn plan ->
  general.axes_loop (general.axis_c sincos_2pibyn forward a_out) rest
    (general.mk_axes_state a_in data_in plan fct data_out)
  = general.axes_loop (general.axis_c sincos_2pibyn forward a_out) rest
      (general.mk_axes_state a_in data_in None fct data_out).
Proof.
  intros Hp. destruct rest as [|a rest]; [reflexivity|]. cbn [general.axes_loop].
  rewrite (axis_c_kept forward a_out a a_in data_in plan fct data_out Hp). reflexivity.
Qed.

End general_c_axes.

Section empty_arrays.
Context {T0 : Type} {ST : Scalar T0}.
Variable sincos_2pibyn : Z -> bool -> nat -> T0.
Local Open Scope Z_scope.

Lemma product_In_zero (l : list Z) : In 0 l -> product l = 0.
Proof.
  induction l as [|x l IH]; intros H; [destruct H|]. unfold product in *. cbn [fold_right].
  destruct H as [->|H]; [reflexivity|]. rewrite (IH H). lia.
Qed.

Lemma In_zero_others (l : list Z) :
  forall idim, In 0 l -> nth idim l 0 <> 0 ->
    In 0 (firstn idim l ++ skipn (Datatypes.S idim) l).
Proof.
  induction l as [|x l IH]; intros idim H Hn; [destruct H|].
  destruct idim as [|i].
  - cbn in *. destruct H as [->|H]; [contradiction | exact H].
  - cbn [firstn skipn app nth] in *. destruct H as [->|H]; [left; reflexivity|].
    right. apply IH; assumption.
Qed.

Lemma volume_others_zero (arr : list multi.diminfo) (idim : nat) :
  In 0 (map multi.n arr) -> nth idim (map multi.n arr) 0 <> 0 ->
  volume (others arr idim) = 0.
Proof.
  intros H Hn. unfold volume. rewrite others_sizes. apply product_In_zero.
  apply In_zero_others; assumption.
Qed.

Lemma axes_loop_empty (forward : bool) (shape : list Z) (a_out : list multi.diminfo)
  (data_out : general.mem (cmplx T0)) (axes : list Z) :
  map multi.n a_out = shape ->
  (Z.of_nat (List.length shape) < 2 ^ 31) ->
  In 0 shape ->
  Forall (fun a => 0 <= a /\ (Z.to_nat a < List.length shape)%nat) axes ->
  (forall a, In a axes -> nth (Z.to_nat a) shape 0 <> 0 ->
     exists P, pocketfft_c.pocketfft_c sincos_2pibyn (nth (Z.to_nat a) shape 0) = Ok P) ->
  forall a_in data_in plan fct,
    map multi.n a_in = shape -> kept_plan sincos_2pibyn plan ->
    general.axes_loop (general.axis_c sincos_2pibyn forward a_out) axes
      (general.mk_axes_state a_in data_in plan fct data_out)
    = (data_out,
       if existsb (fun a => nth (Z.to_nat a) shape 0 =? 0) axes
       then Throw "zero-length FFT requested"%string else Ok tt).
Proof.
  intros Hout Hnd H0 Hax. induction Hax as [|a axes [Ha0 Ha] _ IH]; intros Hctor;
    intros a_in data_in plan fct Hin Hkept; [reflexivity|].
  cbn [general.axes_loop existsb].
  rewrite (axis_c_kept sincos_2pibyn forward a_out a a_in data_in plan fct data_out Hkept).
  unfold general.axis_c. cbv zeta. rewrite to_int_small by lia.
  cbn [general.a_in general.plan general.fct general.data_in general.data_out].
  assert (Hl_in : List.length a_in = List.length shape)
    by (rewrite <- Hin; symmetry; apply length_map).
  assert (Hl_out : List.length a_out = List.length shape)
    by (rewrite <- Hout; symmetry; apply length_map).
  rewrite (multi_iter_new_spec a_in (Z.to_nat a)) by lia.
  rewrite (multi_iter_new_spec a_out (Z.to_nat a)) by lia.
  cbn [bind general.get_plan]. unfold multi.length. cbn [multi.len].
  rewrite size_nth, Hin.
  destruct (Z.eqb_spec (nth (Z.to_nat a) shape 0) 0) as [E|E]; cbn [orb].
  - rewrite E. reflexivity.
  - destruct (Hctor a (or_introl eq_refl) E) as [P HP]. rewrite HP. cbn [bind].
    rewrite each_line_none.
    + cbn [bind]. apply IH; [intros b Hb; apply Hctor; right; exact Hb | exact Hout |].
      cbn [kept_plan]. destruct (pocketfft_c_ctor_length _ _ _ HP) as [-> _]. exact HP.
    + unfold multi.remaining. cbn [multi.rem].
      rewrite volume_others_zero by (rewrite Hin; assumption). reflexivity.
Qed.

End empty_arrays.

(** ** Lines of half-complex data *)

Section store_lists.
Local Open Scope Z_scope.
Context {X : Type}.






End store_lists.

Section half_complex.
Context {T0 : Type} {ST : Scalar T0}.
Local Open Scope Z_scope.

Lemma wrap_0 : wrap 0 = 0.
Proof. reflexivity. Qed.







End half_complex.

Section hartley_order.
Context {T0 : Type} {ST : Scalar T0}.
Local Open Scope Z_scope.

Lemma hartley_store_entries (d : general.mem T0) (it : multi.multi_iter) (tdata : list T0) :
  1 <= multi.length it < 2 ^ 64 ->
  0 <= multi.offset it < 2 ^ 64 ->
  (forall i j : nat,
     Z.of_nat i < multi.length it -> Z.of_nat j < multi.length it ->
     wrap (multi.offset it + Z.of_nat i * multi.str it)
     = wrap (multi.offset it + Z.of_nat j * multi.str it) -> i = j) ->
  (forall k : nat, Z.of_nat k < multi.length it ->
     general.hartley_store d it tdata (wrap (multi.offset it + Z.of_nat k * multi.str it))
     = hartley_entry tdata (Z.to_nat (multi.length it)) k)
  /\ (forall c,
        (forall k : nat, Z.of_nat k < multi.length it ->
           c <> wrap (multi.offset it + Z.of_nat k * multi.str it)) ->
        general.hartley_store d it tdata c = d c).
Proof.
  intros Hlen Hofs Hinj. unfold general.hartley_store. cbv zeta.
  set (len := multi.length it) in *. set (off := multi.offset it) in *.
  set (str := multi.str it) in *.
  set (cellh := fun k : nat => wrap (off + Z.of_nat k * str)).
  set (L := Z.to_nat len). assert (HL : len = Z.of_nat L) by lia.
  rewrite (wrap_small (len - 1)) by lia.
  replace (Z.to_nat (len - 1)) with (L - 1)%nat by lia.
  unfold for2_.
  set (K := ((L - 1 - 1 + 1) / 2)%nat).
  assert (HK : (2 * K + 1 = L \/ 2 * K + 2 = L)%nat).
  { subst K. destruct (Nat.eq_dec L 1) as [->|]; [left; reflexivity|].
    replace (L - 1 - 1 + 1)%nat with (L - 1)%nat by lia.
    pose proof (Nat.div_mod_eq (L - 1) 2) as E.
    pose proof (Nat.mod_upper_bound (L - 1) 2 ltac:(lia)). lia. }
  set (body := fun (acc : nat * Z * Z * general.mem T0) (i : nat) => _).
  set (d1 := general.store d off (rd (lit 0) tdata 0)).
  assert (Hoff : off = cellh 0%nat).
  { subst cellh. cbv beta. rewrite Z.mul_0_l, Z.add_0_r, wrap_small by lia. reflexivity. }
  assert (Hloop : forall t, (t <= K)%nat ->
            exists m,
              fold_left body (map (fun t => (1 + 2 * t)%nat) (seq 0 t)) (1%nat, 1, len - 1, d1)
              = ((1 + 2 * t)%nat, Z.of_nat (1 + t), len - 1 - Z.of_nat t, m)
              /\ (forall k : nat, (k <= t \/ L - t <= k)%nat -> (k < L)%nat ->
                    m (cellh k) = hartley_entry tdata L k)
              /\ (forall c, (forall k : nat, (k <= t \/ L - t <= k)%nat -> (k < L)%nat ->
                               c <> cellh k) -> m c = d c)).
  { induction t as [|t IH]; intros Ht.
    - exists d1. cbn [seq map fold_left]. split; [f_equal; f_equal; lia|]. split.
      + intros k Hk HkL. assert (k = 0)%nat by lia. subst k. rewrite <- Hoff.
        subst d1. rewrite store_same. reflexivity.
      + intros c Hc. subst d1. apply store_other. rewrite Hoff. apply Hc; lia.
    - destruct (IH ltac:(lia)) as (m & Hm & Hin & Hout).
      rewrite seq_S, map_app, fold_left_app, Hm. cbn [map fold_left].
      change (0 + t)%nat with t. subst body. cbv beta iota.
      rewrite (wrap_small (Z.of_nat (1 + t) + 1)), (wrap_small (len - 1 - Z.of_nat t - 1))
        by lia.
      match goal with |- exists m0, (_, _, _, ?M) = _ /\ _ => exists M end.
      split; [repeat (f_equal; try lia)|].
      replace (len - 1 - Z.of_nat t) with (Z.of_nat (L - 1 - t)) by lia.
      fold (cellh (1 + t)%nat). fold (cellh (L - 1 - t)%nat).
      assert (Hne : cellh (L - 1 - t)%nat <> cellh (1 + t)%nat).
      { intros E. apply Hinj in E; lia. }
      split.
      + intros k Hk HkL.
        destruct (Nat.eq_dec k (L - 1 - t)) as [->|N1].
        { rewrite store_same. unfold hartley_entry.
          replace (L - 1 - t =? 0)%nat with false by (symmetry; apply Nat.eqb_neq; lia).
          replace (2 * (L - 1 - t) <? L)%nat with false by (symmetry; apply Nat.ltb_ge; lia).
          replace (2 * (L - 1 - t) =? L)%nat with false by (symmetry; apply Nat.eqb_neq; lia).
          f_equal; f_equal; lia. }
        rewrite store_other by (intros E; apply Hinj in E; lia).
        destruct (Nat.eq_dec k (1 + t)) as [->|N2].
        { rewrite store_same. unfold hartley_entry.
          replace (1 + t =? 0)%nat with false by (symmetry; apply Nat.eqb_neq; lia).
          replace (2 * (1 + t) <? L)%nat with true by (symmetry; apply Nat.ltb_lt; lia).
          f_equal; f_equal; lia. }
        rewrite store_other by (intros E; apply Hinj in E; lia).
        apply Hin; lia.
      + intros c Hc.
        rewrite !store_other by (apply Hc; lia).
        apply Hout. intros k Hk HkL. apply Hc; lia. }
  destruct (Hloop K (Nat.le_refl K)) as (m & Hm & Hin & Hout).
  rewrite Hm.
  destruct HK as [HK|HK].
  - destruct (Z.ltb_spec (Z.of_nat (1 + 2 * K)) len); [lia|]. split.
    + intros k Hk. apply Hin; lia.
    + intros c Hc. apply Hout. intros k _ HkL. apply Hc. lia.
  - destruct (Z.ltb_spec (Z.of_nat (1 + 2 * K)) len); [|lia].
    fold (cellh (1 + K)%nat). split.
    + intros k Hk. fold (cellh k).
      destruct (Nat.eq_dec k (1 + K)) as [->|N1].
      * rewrite store_same. unfold hartley_entry.
        replace (1 + K =? 0)%nat with false by (symmetry; apply Nat.eqb_neq; lia).
        replace (2 * (1 + K) <? L)%nat with false by (symmetry; apply Nat.ltb_ge; lia).
        replace (2 * (1 + K) =? L)%nat with true by (symmetry; apply Nat.eqb_eq; lia).
        f_equal. lia.
      * rewrite store_other by (intros E; apply Hinj in E; lia).
        apply Hin; lia.
    + intros c Hc. rewrite store_other by (apply Hc; lia).
      apply Hout. intros k _ HkL. apply Hc. lia.
Qed.

End hartley_order.

Section separate_arrays.
Local Open Scope Z_scope.
Context {Y : Type}.

(** The loop over the lines when no line reads what another has written. *)
Lemma each_line_separate (R : Z -> (nat -> Y) -> Prop) (key : Z -> nat -> Z) (m : nat)
  (cond : multi.multi_iter -> bool)
  (body : multi.multi_iter -> multi.multi_iter -> general.mem Y -> result (general.mem Y))
  (dims_in dims_out : list multi.diminfo) (it_in it_out : multi.multi_iter)
  (d0 : general.mem Y) :
  map multi.n dims_in = map multi.n dims_out ->
  Forall (fun d => multi.n d < 2 ^ 64) dims_out ->
  volume dims_out < 2 ^ 63 ->
  (forall it k, at_rank dims_in k it -> cond it = true) ->
  (forall it, multi.done_ it = true -> multi.rem it = 0 -> cond it = false) ->
  at_rank dims_in 0 it_in -> at_rank dims_out 0 it_out ->
  (forall k it_i it_o d,
     at_rank dims_in k it_i -> at_rank dims_out k it_o ->
     multi.len it_i = multi.len it_in -> multi.str it_i = multi.str it_in ->
     multi.len it_o = multi.len it_out -> multi.str it_o = multi.str it_out ->
     exists v d',
       R (multi.ofs_ it_i) v /\ body it_i it_o d = Ok d'
       /\ (forall j, (j < m)%nat -> d' (key (multi.ofs_ it_o) j) = v j)
       /\ (forall c, (forall j, (j < m)%nat -> c <> key (multi.ofs_ it_o) j) -> d' c = d c)) ->
  (forall pos j pos' j',
     in_shape dims_out pos -> in_shape dims_out pos' -> (j < m)%nat -> (j' < m)%nat ->
     key (wrap (dot dims_out pos)) j = key (wrap (dot dims_out pos')) j' ->
     pos = pos' /\ j = j') ->
  exists d,
    general.each_line cond body it_in it_out d0 = Ok d
    /\ lines_written R key m dims_in dims_out d0 (volume dims_out) d.
Proof.
  intros Hsz Hrange Hvol Hcond Hend Hai Hao Hbody Hinj.
  pose proof (volume_sizes _ _ Hsz) as HV.
  assert (Hrange_in : Forall (fun d => multi.n d < 2 ^ 64) dims_in)
    by exact (sizes_Forall (fun x => x < 2 ^ 64) dims_in dims_out Hsz Hrange).
  destruct (each_line_inv (lines_written R key m dims_in dims_out d0) cond body
              dims_in dims_out it_in it_out d0 Hrange_in Hrange (eq_sym HV) ltac:(lia)
              Hcond Hend Hai Hao) as (d & Hd & HI).
  - split.
    + intros pos Hpos Hr. pose proof (in_shape_rank _ _ Hpos). lia.
    + intros c _. reflexivity.
  - intros k it1 it2 d Hat1 Hat2 Hl1 Hst1 Hl2 Hst2 [Hdone Hrest].
    pose proof Hat1 as (Hd1 & Hs1 & Hr1 & Ho1 & _ & _).
    pose proof Hat2 as (Hd2 & Hs2 & Hr2 & Ho2 & _ & _).
    assert (Hp : multi.pos it1 = multi.pos it2).
    { apply (rank_inj dims_out); [|exact Hs2|].
      - exact (in_shape_sizes _ _ _ Hsz Hs1).
      - rewrite <- (rank_sizes _ _ _ Hsz), Hr1, Hr2. reflexivity. }
    destruct (Hbody k it1 it2 d Hat1 Hat2 Hl1 Hst1 Hl2 Hst2)
      as (v & d' & HR & Hb & Hnew & Hold).
    exists d'. split; [exact Hb|]. rewrite Ho1, Hp in HR. rewrite Ho2 in Hnew, Hold.
    set (p := multi.pos it2) in *. split.
    + intros pos Hpos Hrk.
      destruct (Z.eq_dec (rank dims_out pos) k) as [Ek|Ek].
      * assert (pos = p) by (apply (rank_inj dims_out); congruence).
        subst pos. exists v. split; [exact HR | exact Hnew].
      * destruct (Hdone pos Hpos ltac:(lia)) as (v' & HR' & Hv).
        exists v'. split; [exact HR'|]. intros j Hj. rewrite Hold; [apply Hv; exact Hj|].
        intros j' Hj' E. apply Hinj in E; try assumption.
        destruct E as [-> _]. congruence.
    + intros c Hc. rewrite Hold.
      * apply Hrest. intros pos j Hpos Hrk Hj. apply Hc; try assumption. lia.
      * intros j Hj. apply Hc; try assumption. lia.
  - exists d. split; [exact Hd|]. rewrite <- HV. exact HI.
Qed.


End separate_arrays.

Section r2c_lines.
Context {T0 : Type} {ST : Scalar T0}.
Variable sincos_2pibyn : Z -> bool -> nat -> T0.
Local Open Scope Z_scope.




End r2c_lines.

Section c2r_lines.
Context {T0 : Type} {ST : Scalar T0}.
Variable sincos_2pibyn : Z -> bool -> nat -> T0.
Local Open Scope Z_scope.


End c2r_lines.

Section hartley_lines.
Context {T0 : Type} {ST : Scalar T0}.
Variable sincos_2pibyn : Z -> bool -> nat -> T0.
Local Open Scope Z_scope.

Lemma wrap_range (x : Z) : 0 <= wrap x < 2 ^ 64.
Proof. unfold wrap, size_t_bits. apply Z.mod_pos_bound. lia. Qed.

Lemma hartley_lines (shape stride_in stride_out : list Z) (idim : nat)
  (P : pocketfft_r.plan) (fct : T0) (data_in data_out : general.mem T0) :
  (List.length shape <= List.length stride_in)%nat ->
  (List.length shape <= List.length stride_out)%nat ->
  (idim < List.length shape)%nat -> Z.of_nat idim < 2 ^ 31 ->
  Forall (fun n => 0 <= n < 2 ^ 64) shape ->
  volume (others (multi.multiarr shape stride_out) idim) < 2 ^ 63 ->
  1 <= nth idim shape 0 -> 44 * nth idim shape 0 < 2 ^ 64 ->
  pocketfft_r.pocketfft_r sincos_2pibyn (nth idim shape 0) = Ok P ->
  (forall pos j pos' j',
     in_shape (others (multi.multiarr shape stride_out) idim) pos ->
     in_shape (others (multi.multiarr shape stride_out) idim) pos' ->
     Z.of_nat j < nth idim shape 0 -> Z.of_nat j' < nth idim shape 0 ->
     wrap (wrap (dot (others (multi.multiarr shape stride_out) idim) pos)
           + Z.of_nat j * multi.stride (multi.multiarr shape stride_out) idim)
     = wrap (wrap (dot (others (multi.multiarr shape stride_out) idim) pos')
             + Z.of_nat j' * multi.stride (multi.multiarr shape stride_out) idim) ->
     pos = pos' /\ j = j') ->
  exists d,
    general.pocketfft_general_hartley sincos_2pibyn shape stride_in stride_out
      [Z.of_nat idim] (Some data_in) data_out fct = (d, Ok tt)
    /\ lines_written
         (fun ofs v =>
            exists t,
              pocketfft_r.forward P
                (map (fun i => data_in
                        (wrap (ofs + Z.of_nat i
                                     * multi.stride (multi.multiarr shape stride_in) idim)))
                     (seq 0 (Z.to_nat (nth idim shape 0)))) fct = Ok t
              /\ v = hartley_entry t (Z.to_nat (nth idim shape 0)))
         (fun ofs k =>
            wrap (ofs + Z.of_nat k * multi.stride (multi.multiarr shape stride_out) idim))
         (Z.to_nat (nth idim shape 0))
         (others (multi.multiarr shape stride_in) idim)
         (others (multi.multiarr shape stride_out) idim)
         data_out
         (volume (others (multi.multiarr shape stride_out) idim)) d.
Proof.
  intros Hsi Hso Hidim H31 Hshape Hvol Hlen H44 HP Hinj.
  set (a_in := multi.multiarr shape stride_in) in *.
  set (a_out := multi.multiarr shape stride_out) in *.
  set (len := nth idim shape 0) in *.
  assert (Hn_in : map multi.n a_in = shape) by (apply multiarr_sizes; exact Hsi).
  assert (Hn_out : map multi.n a_out = shape) by (apply multiarr_sizes; exact Hso).
  assert (Hsz : map multi.n a_in = map multi.n a_out) by congruence.
  assert (Hl_in : (idim < List.length a_in)%nat).
  { pose proof (f_equal (@List.length Z) Hn_in) as Hq. rewrite length_map in Hq. lia. }
  assert (Hl_out : (idim < List.length a_out)%nat).
  { pose proof (f_equal (@List.length Z) Hn_out) as Hq. rewrite length_map in Hq. lia. }
  assert (Hr_out : Forall (fun d => 0 <= multi.n d < 2 ^ 64) a_out).
  { apply (proj1 (Forall_map multi.n (fun x => 0 <= x < 2 ^ 64) a_out)).
    rewrite Hn_out. exact Hshape. }
  assert (Hr_in : Forall (fun d => 0 <= multi.n d < 2 ^ 64) a_in).
  { exact (sizes_Forall (fun x => 0 <= x < 2 ^ 64) a_in a_out Hsz Hr_out). }
  pose proof (others_sizes_eq a_in a_out idim Hsz) as Hosz.
  pose proof (volume_sizes _ _ Hosz) as HV.
  assert (Hsize_in : multi.size a_in idim = len)
    by (rewrite size_nth, Hn_in; reflexivity).
  assert (Hsize_out : multi.size a_out idim = len)
    by (rewrite size_nth, Hn_out; reflexivity).
  destruct (multi_iter_new_start a_in idim Hl_in Hr_in ltac:(lia))
    as (it_i & Ei & Hli & Hsi' & Hri & Hai & Hdi).
  destruct (multi_iter_new_start a_out idim Hl_out Hr_out Hvol)
    as (it_o & Eo & Hlo & Hso' & Hro & Hao & Hdo).
  unfold general.pocketfft_general_hartley.
  destruct (alloc_tmp_ok shape [Z.of_nat idim]) as [tmp ->].
  { constructor; [rewrite Nat2Z.id; exact Hidim | constructor]. }
  cbv zeta. fold a_in a_out. cbn [general.axes_loop].
  unfold general.axis_hartley. cbv zeta. rewrite to_int_small by lia.
  cbn [general.a_in general.plan general.fct general.data_in general.data_out].
  rewrite Nat2Z.id, Ei, Eo. cbn [bind general.get_plan].
  unfold multi.length at 1. rewrite Hli, Hsize_in, HP. cbn [bind].
  assert (Hnn : Forall (fun d => 0 <= multi.n d) (others a_out idim)).
  { apply others_Forall. refine (Forall_impl _ _ Hr_out). cbv beta. intros d Hd. lia. }
  pose proof (volume_nonneg _ Hnn) as HV0.
  destruct (Z.eq_dec (volume (others a_out idim)) 0) as [E0|E0].
  - rewrite each_line_none
      by (unfold multi.remaining; rewrite Hri, HV, E0; reflexivity).
    cbn [bind general.data_out]. exists data_out. split; [reflexivity|]. rewrite E0. split.
    + intros pos Hpos Hr. pose proof (in_shape_rank _ _ Hpos). lia.
    + intros c _. reflexivity.
  - match goal with
    | |- exists d, match bind ?e _ with _ => _ end = _ /\ ?G d =>
        assert (Hrun : exists d, e = Ok d /\ G d)
    end.
    { apply each_line_separate; try assumption.
      + refine (Forall_impl _ _ (others_Forall _ _ idim Hr_out)). cbv beta. intros; lia.
      + intros it k (_ & Hs & Hr & _ & Hrem & _). unfold multi.remaining. rewrite Hrem.
        pose proof (in_shape_rank _ _ Hs).
        destruct (Z.ltb_spec 0 (volume (others a_in idim) - k)); [reflexivity | lia].
      + intros it _ Hr. unfold multi.remaining. rewrite Hr. reflexivity.
      + apply Hai. lia.
      + apply Hao. lia.
      + intros k it1 it2 d _ (_ & Hs2 & _ & Ho2 & _ & _) Hl1 Hst1 Hl2 Hst2.
        unfold general.line_hartley, general.load_line. cbv zeta. cbn [general.source].
        unfold multi.offset, multi.length at 1. rewrite Hl1, Hst1, Hli, Hsi', Hsize_in.
        destruct (pocketfft_r_forward_ok sincos_2pibyn len P
                    (map (fun i => data_in (wrap (multi.ofs_ it1
                                                  + Z.of_nat i * multi.stride a_in idim)))
                         (seq 0 (Z.to_nat len))) fct Hlen H44 HP) as (t & Ht & Htl).
        { rewrite length_map, length_seq. reflexivity. }
        rewrite Ht. cbn [bind]. eexists. eexists. split; [exists t; split; reflexivity|].
        split; [reflexivity|].
        assert (Hlen2 : multi.length it2 = len)
          by (unfold multi.length; rewrite Hl2, Hlo; exact Hsize_out).
        assert (Hstr2 : multi.str it2 = multi.stride a_out idim) by congruence.
        destruct (hartley_store_entries d it2 t) as [Hnew Hold].
        * rewrite Hlen2. lia.
        * unfold multi.offset. rewrite Ho2. apply wrap_range.
        * rewrite Hlen2, Hstr2. unfold multi.offset. rewrite Ho2.
          intros i j Hi Hj E.
          apply Hinj in E; [exact (proj2 E) | assumption | assumption | lia | lia].
        * rewrite Hlen2, Hstr2 in Hnew, Hold. unfold multi.offset in Hnew, Hold.
          split.
          -- intros j Hj. apply Hnew. lia.
          -- intros c Hc. apply Hold. intros j Hj. apply Hc. lia.
      + intros pos j pos' j' Hp Hq Hj Hj' E.
        apply Hinj in E; try assumption; lia. }
    destruct Hrun as (d & Hd & HI). rewrite Hd. cbn [bind general.data_out].
    exists d. split; [reflexivity | exact HI].
Qed.

End hartley_lines.

(** ** The transforms along an axis *)

Section general_c_theorems.
Context {T0 : Type} {ST : Scalar T0}.
Variable sincos_2pibyn : Z -> bool -> nat -> T0.
Local Open Scope Z_scope.

(** X19 -- [pocketfft_general_c] along one axis [idim] of an array whose
    sizes are [size_t] values, with fewer than 2^63 lines, a line length
    [len >= 1] with [44*len < 2^64] for which the constructor returns the
    plan [P], output cells that are pairwise distinct, and, when input and
    output are the same array, no line reading a cell that another line
    writes.  The call returns.  For every position [pos] of a line, the
    output cells of that line hold the transform by [P], with the factor
    [fct], of the line the input held at [pos] before the call: every line
    is transformed once, from data no other line has touched.  Every other
    cell of the output is as it was. *)
Theorem general_c_transforms_lines (shape stride_in stride_out : list Z) (idim : nat)
  (forward : bool) (P : pocketfft_c.plan) (fct : T0)
  (data_in : option (general.mem (cmplx T0))) (data_out : general.mem (cmplx T0)) :
  (List.length shape <= List.length stride_in)%nat ->
  (List.length shape <= List.length stride_out)%nat ->
  (idim < List.length shape)%nat -> Z.of_nat idim < 2 ^ 31 ->
  Forall (fun n => 0 <= n < 2 ^ 64) shape ->
  volume (others (multi.multiarr shape stride_out) idim) < 2 ^ 63 ->
  1 <= nth idim shape 0 -> 44 * nth idim shape 0 < 2 ^ 64 ->
  pocketfft_c.pocketfft_c sincos_2pibyn (nth idim shape 0) = Ok P ->
  (forall pos i pos' i',
     in_shape (others (multi.multiarr shape stride_out) idim) pos ->
     in_shape (others (multi.multiarr shape stride_out) idim) pos' ->
     0 <= i < nth idim shape 0 -> 0 <= i' < nth idim shape 0 ->
     cell (multi.multiarr shape stride_out) idim pos i
     = cell (multi.multiarr shape stride_out) idim pos' i' ->
     pos = pos' /\ i = i') ->
  (data_in = None ->
   forall pos i pos' i',
     in_shape (others (multi.multiarr shape stride_out) idim) pos ->
     in_shape (others (multi.multiarr shape stride_out) idim) pos' ->
     0 <= i < nth idim shape 0 -> 0 <= i' < nth idim shape 0 ->
     pos <> pos' ->
     cell (multi.multiarr shape stride_in) idim pos i
     <> cell (multi.multiarr shape stride_out) idim pos' i') ->
  exists d,
    general.pocketfft_general_c sincos_2pibyn shape stride_in stride_out [Z.of_nat idim]
      forward data_in data_out fct = (d, Ok tt)
    /\ (forall pos,
          in_shape (others (multi.multiarr shape stride_out) idim) pos ->
          exists t,
            transform_c forward P fct
              (line_of (general.source data_in data_out) (multi.multiarr shape stride_in)
                 idim pos (nth idim shape 0)) = Ok t
            /\ forall i, (i < Z.to_nat (nth idim shape 0%Z))%nat ->
                 d (cell (multi.multiarr shape stride_out) idim pos (Z.of_nat i)) = rdc t i)
    /\ (forall c,
          (forall pos i,
             in_shape (others (multi.multiarr shape stride_out) idim) pos ->
             0 <= i < nth idim shape 0 ->
             c <> cell (multi.multiarr shape stride_out) idim pos i) ->
          d c = data_out c).
Proof.
  intros Hsi Hso Hidim H31 Hshape Hvol Hlen H44 HP Hinj Halias.
  set (a_in := multi.multiarr shape stride_in) in *.
  set (a_out := multi.multiarr shape stride_out) in *.
  assert (Hn_in : map multi.n a_in = shape) by (apply multiarr_sizes; exact Hsi).
  assert (Hn_out : map multi.n a_out = shape) by (apply multiarr_sizes; exact Hso).
  assert (Hsize : multi.size a_out idim = nth idim shape 0)
    by (rewrite size_nth, Hn_out; reflexivity).
  unfold general.pocketfft_general_c.
  destruct (alloc_tmp_ok shape [Z.of_nat idim]) as [t ->].
  { constructor; [rewrite Nat2Z.id; exact Hidim | constructor]. }
  cbv zeta. fold a_in a_out. cbn [general.axes_loop].
  assert (Hl_out : (Z.to_nat (Z.of_nat idim) < List.length a_out)%nat).
  { pose proof (f_equal (@List.length Z) Hn_out) as Hq. rewrite length_map in Hq. lia. }
  assert (Hr_out : Forall (fun d => 0 <= multi.n d < 2 ^ 64) a_out).
  { apply (proj1 (Forall_map multi.n (fun x => 0 <= x < 2 ^ 64) a_out)).
    rewrite Hn_out. exact Hshape. }
  destruct (axis_c_lines sincos_2pibyn a_in a_out (Z.of_nat idim) forward P fct None
              data_in data_out ltac:(congruence) ltac:(lia) Hl_out Hr_out)
    as (d & Hd & Hdone & Hrest);
    rewrite ?Nat2Z.id, ?Hsize; try assumption.
  rewrite Hd. exists d. split; [reflexivity|].
  rewrite Nat2Z.id in Hdone, Hrest. rewrite Hsize in Hdone, Hrest. split.
  - intros pos Hpos. apply Hdone; [exact Hpos|]. apply in_shape_rank. exact Hpos.
  - intros c Hc. apply Hrest. intros pos i Hpos _ Hi. apply Hc; assumption.
Qed.

End general_c_theorems.


Section driver_theorems.
Context {T0 : Type} {ST : Scalar T0}.
Variable sincos_2pibyn : Z -> bool -> nat -> T0.
Local Open Scope Z_scope.

(** X20 -- [pocketfft_general_c] along the axes [axis :: rest], all of them
    inside the shape, is the transform along [axis] followed, when that
    returns, by the transform along [rest] run in place on the output, with
    the output strides and the factor 1.  The plan kept from one axis to the
    next never stands in for a plan of another length, and the factor is
    applied on the first axis only. *)
Theorem general_c_axes_compose (shape stride_in stride_out : list Z) (axis : Z)
  (rest : list Z) (forward : bool) (data_in : option (general.mem (cmplx T0)))
  (data_out : general.mem (cmplx T0)) (fct : T0) :
  Forall (fun a => (Z.to_nat a < List.length shape)%nat) (axis :: rest) ->
  general.pocketfft_general_c sincos_2pibyn shape stride_in stride_out (axis :: rest)
    forward data_in data_out fct
  = match general.pocketfft_general_c sincos_2pibyn shape stride_in stride_out [axis]
            forward data_in data_out fct with
    | (d, Ok _) =>
        general.pocketfft_general_c sincos_2pibyn shape stride_out stride_out rest
          forward None d (lit 1)
    | failed => failed
    end.
Proof.
  intros Hax. unfold general.pocketfft_general_c.
  destruct (alloc_tmp_ok shape (axis :: rest) Hax) as [t1 ->].
  inversion Hax as [|a l Ha Hrest]. subst.
  destruct (alloc_tmp_ok shape [axis]) as [t2 ->]; [constructor; [exact Ha | constructor]|].
  destruct (alloc_tmp_ok shape rest Hrest) as [t3 E3].
  cbv zeta. cbn [general.axes_loop].
  destruct (general.axis_c sincos_2pibyn forward (multi.multiarr shape stride_out) axis _)
    as [st'| |] eqn:E; [|reflexivity|reflexivity].
  rewrite E3.
  destruct (axis_c_state sincos_2pibyn forward _ axis _ st' E) as (P & d & -> & HP).
  cbn [general.plan general.get_plan general.data_out] in *.
  apply axes_loop_kept. cbn [kept_plan].
  destruct (pocketfft_c_ctor_length sincos_2pibyn _ _ HP) as [-> _]. exact HP.
Qed.

(** X21 -- [pocketfft_complex] on an array with a dimension of size 0, for
    at most [ndim] axes inside the shape and lengths whose plans can be
    constructed: the output array is left as it was, and the return code is
    1 exactly when one of the axes to transform has length 0 (the plan
    constructor throws for it), and 0 otherwise. *)
Theorem pocketfft_complex_empty_array (shape stride_in stride_out axes : list Z)
  (forward : Z) (data_in : option (general.mem (cmplx T0)))
  (data_out : general.mem (cmplx T0)) (fct : T0) :
  (List.length shape <= List.length stride_in)%nat ->
  (List.length shape <= List.length stride_out)%nat ->
  (List.length axes <= List.length shape)%nat ->
  Z.of_nat (List.length shape) < 2 ^ 31 ->
  Forall (fun a => 0 <= a /\ (Z.to_nat a < List.length shape)%nat) axes ->
  In 0 shape ->
  (forall a, In a axes -> nth (Z.to_nat a) shape 0 <> 0 ->
     exists P, pocketfft_c.pocketfft_c sincos_2pibyn (nth (Z.to_nat a) shape 0) = Ok P) ->
  general.pocketfft_complex sincos_2pibyn shape stride_in stride_out axes forward
    data_in data_out fct
  = Ok (if existsb (fun a => nth (Z.to_nat a) shape 0 =? 0) axes then 1 else 0, data_out).
Proof.
  intros Hsi Hso Hnax Hnd Hax H0 Hctor. unfold general.pocketfft_complex. cbv zeta.
  destruct (Nat.ltb_spec (List.length shape) (List.length axes)); [lia|].
  destruct (Nat.leb_spec (List.length shape) (List.length stride_in)); [|lia].
  destruct (Nat.leb_spec (List.length shape) (List.length stride_out)); [|lia].
  cbn [andb negb]. unfold general.pocketfft_general_c.
  destruct (alloc_tmp_ok shape axes) as [t ->].
  { refine (Forall_impl _ _ Hax). cbv beta. intros a [_ Ha]. exact Ha. }
  cbv zeta.
  rewrite (axes_loop_empty sincos_2pibyn (negb (forward =? 0)) shape (multi.multiarr shape stride_out)
             data_out axes (multiarr_sizes _ _ Hso) Hnd H0 Hax Hctor
             (multi.multiarr shape stride_in) data_in None fct (multiarr_sizes _ _ Hsi) I).
  destruct (existsb _ axes); reflexivity.
Qed.




(** X25 -- [pocketfft_general_hartley] along one axis [idim], from an input
    array that is not the output, under the conditions of X19.  The call
    returns.  For every position [pos] of a line, with [t] the forward real
    transform of the input line, the output line holds at entry 0 [t[0]], at
    the entries [k] with [0 < 2k < len] the sums [t[2k-1] + t[2k]], at the
    entries [len-k] the differences [t[2k-1] - t[2k]], and for an even [len]
    at entry [len/2] [t[len-1]]: every entry of the line is written once.
    Every other cell of the output is as it was. *)
Theorem hartley_transforms_lines (shape stride_in stride_out : list Z) (idim : nat)
  (P : pocketfft_r.plan) (fct : T0) (data_in data_out : general.mem T0) :
  (List.length shape <= List.length stride_in)%nat ->
  (List.length shape <= List.length stride_out)%nat ->
  (idim < List.length shape)%nat -> Z.of_nat idim < 2 ^ 31 ->
  Forall (fun n => 0 <= n < 2 ^ 64) shape ->
  volume (others (multi.multiarr shape stride_out) idim) < 2 ^ 63 ->
  1 <= nth idim shape 0 -> 44 * nth idim shape 0 < 2 ^ 64 ->
  pocketfft_r.pocketfft_r sincos_2pibyn (nth idim shape 0) = Ok P ->
  (forall pos i pos' i',
     in_shape (others (multi.multiarr shape stride_out) idim) pos ->
     in_shape (others (multi.multiarr shape stride_out) idim) pos' ->
     0 <= i < nth idim shape 0 -> 0 <= i' < nth idim shape 0 ->
     cell (multi.multiarr shape stride_out) idim pos i
     = cell (multi.multiarr shape stride_out) idim pos' i' ->
     pos = pos' /\ i = i') ->
  exists d,
    general.pocketfft_general_hartley sincos_2pibyn shape stride_in stride_out
      [Z.of_nat idim] (Some data_in) data_out fct = (d, Ok tt)
    /\ (forall pos,
          in_shape (others (multi.multiarr shape stride_out) idim) pos ->
          exists t,
            pocketfft_r.forward P
              (line_of data_in (multi.multiarr shape stride_in) idim pos (nth idim shape 0))
              fct = Ok t
            /\ forall k : nat, Z.of_nat k < nth idim shape 0 ->
                 d (cell (multi.multiarr shape stride_out) idim pos (Z.of_nat k))
                 = hartley_entry t (Z.to_nat (nth idim shape 0)) k)
    /\ (forall c,
          (forall pos i,
             in_shape (others (multi.multiarr shape stride_out) idim) pos ->
             0 <= i < nth idim shape 0 ->
             c <> cell (multi.multiarr shape stride_out) idim pos i) ->
          d c = data_out c).
Proof.
  intros Hsi Hso Hidim H31 Hshape Hvol Hlen H44 HP Hinj.
  destruct (hartley_lines sincos_2pibyn shape stride_in stride_out idim P fct data_in
              data_out Hsi Hso Hidim H31 Hshape Hvol Hlen H44 HP)
    as (d & Hd & Hdone & Hrest).
  { intros pos j pos' j' Hp Hq Hj Hj' E.
    destruct (Hinj pos (Z.of_nat j) pos' (Z.of_nat j') Hp Hq ltac:(lia) ltac:(lia) E)
      as [E1 E2]. split; [exact E1 | lia]. }
  exists d. split; [exact Hd|]. split.
  - intros pos Hpos.
    destruct (Hdone pos Hpos (proj2 (in_shape_rank _ _ Hpos))) as (v & (t & Ht & ->) & Hv).
    exists t. split; [exact Ht|]. intros k Hk. apply Hv. lia.
  - intros c Hc. apply Hrest. intros pos j Hpos _ Hj. apply Hc; [exact Hpos | lia].
Qed.

End driver_theorems.

(** ** The table of roots of unity *)

Section table_cells.
Local Open Scope Z_scope.

Lemma grown_refl (res : twiddle.cells) : grown res res.
Proof. split; [reflexivity | auto]. Qed.

Lemma grown_trans (a b c : twiddle.cells) : grown a b -> grown b c -> grown a c.
Proof. intros [L1 H1] [L2 H2]. split; [congruence | auto]. Qed.

Lemma grown_all_written (res res' : twiddle.cells) (a b : Z) :
  grown res res' -> all_written res a b -> all_written res' a b.
Proof. intros [_ H] F i Hi. apply H, F, Hi. Qed.

Lemma get_bind {B : Type} (res : twiddle.cells) (i : Z) (k : float -> result B)
  (Q : B -> Prop) :
  written res i ->
  (forall v, exists b, k v = Ok b /\ Q b) ->
  exists b, bind (twiddle.get res i) k = Ok b /\ Q b.
Proof.
  intros [Hi Hv] Hk. unfold twiddle.get.
  destruct (Z.ltb_spec i 0); [lia|]. destruct (Z.leb_spec (Z.of_nat (List.length res)) i); [lia|].
  cbn [orb]. destruct (nth (Z.to_nat i) res None) as [v|]; [|congruence].
  cbn [bind]. apply Hk.
Qed.

Lemma put_bind {B : Type} (res : twiddle.cells) (i : Z) (v : float)
  (k : twiddle.cells -> result B) (Q : B -> Prop) :
  0 <= i < Z.of_nat (List.length res) ->
  (forall res', grown res res' -> written res' i -> exists b, k res' = Ok b /\ Q b) ->
  exists b, bind (twiddle.put res i v) k = Ok b /\ Q b.
Proof.
  intros Hi Hk. unfold twiddle.put.
  destruct (Z.ltb_spec i 0); [lia|]. destruct (Z.leb_spec (Z.of_nat (List.length res)) i); [lia|].
  cbn [orb bind]. apply Hk.
  - split; [apply upd_length|]. intros j [Hj Hv]. split; [rewrite upd_length; exact Hj|].
    destruct (Z.eq_dec j i) as [->|Hne].
    + rewrite nth_upd_same by lia. discriminate.
    + rewrite nth_upd_other by lia. exact Hv.
  - split; [rewrite upd_length; exact Hi|]. rewrite nth_upd_same by lia. discriminate.
Qed.

Lemma put_last (res : twiddle.cells) (i : Z) (v : float) (Q : twiddle.cells -> Prop) :
  0 <= i < Z.of_nat (List.length res) ->
  (forall res', grown res res' -> written res' i -> Q res') ->
  exists b, twiddle.put res i v = Ok b /\ Q b.
Proof.
  intros Hi Hk.
  destruct (put_bind res i v (fun r => Ok r) Q Hi) as (b & Hb & HQ).
  - intros res' E I. exists res'. split; [reflexivity | apply Hk; assumption].
  - exists b. split; [|exact HQ]. destruct (twiddle.put res i v); cbn [bind] in Hb;
      [exact Hb | discriminate | discriminate].
Qed.

(** A loop that ends: an invariant and a measure. *)
Lemma while_total {S : Type} (I : S -> Prop) (m : S -> nat) (cond : S -> bool)
  (body : S -> result S) :
  (forall s, I s -> cond s = true -> exists s', body s = Ok s' /\ (I s' /\ (m s' < m s)%nat)) ->
  forall fuel s, I s -> (m s <= fuel)%nat ->
    exists s', while_ fuel cond body s = Ok s' /\ I s' /\ cond s' = false.
Proof.
  intros Hb fuel s Hs Hm.
  destruct (while_ok2 I m cond body body) with (fuel := fuel) (s := s)
    as (s' & H1 & _ & H2 & H3); try assumption.
  - intros s0 H0 Hc. destruct (Hb s0 H0 Hc) as (s1 & E & HI & Hlt). exists s1. auto.
  - exists s'. auto.
Qed.

End table_cells.

Ltac zlia := first [lia | Z.div_mod_to_equations; lia].

Ltac written_tac :=
  first
    [ assumption
    | match goal with
      | F : all_written ?r _ _ |- written ?r _ => apply F; zlia
      | H : written ?r ?i |- written ?r ?j => replace j with i by zlia; exact H
      | E : grown _ ?r |- written ?r _ => apply (proj2 E); written_tac
      end ].

Ltac len_tac :=
  repeat match goal with
         | E : grown _ ?r |- context [List.length ?r] => rewrite (proj1 E)
         end;
  zlia.

Ltac grown_tac :=
  first
    [ assumption
    | apply grown_refl
    | match goal with
      | E : grown ?a ?r |- grown _ ?r => apply (grown_trans _ a _); [grown_tac | exact E]
      end ].

Ltac table_step :=
  lazymatch goal with
  | |- exists b, bind (twiddle.get _ _) _ = Ok b /\ _ =>
      apply get_bind; [written_tac | intros ?]
  | |- exists b, bind (twiddle.put _ _ _) _ = Ok b /\ _ =>
      let r := fresh "res" in let E := fresh "E" in let I := fresh "I" in
      (apply put_bind; [len_tac | intros r E I])
  | |- exists b, twiddle.put _ _ _ = Ok b /\ _ =>
      let r := fresh "res" in let E := fresh "E" in let I := fresh "I" in
      (apply put_last; [len_tac | intros r E I])
  end.

Section octant.
Variable my : float -> float * float.
Local Open Scope Z_scope.

Lemma shiftr3 (x : Z) : Z.shiftr x 3 = x / 8.
Proof. rewrite Z.shiftr_div_pow2 by lia. reflexivity. Qed.

Lemma calc_first_octant_ok (den : Z) (res : twiddle.cells) (p : Z) :
  0 <= den -> den + 4 < 2 ^ 64 -> 0 <= p ->
  p + 2 * ((den + 4) / 8) <= Z.of_nat (List.length res) ->
  exists res',
    twiddle.calc_first_octant my den res p = Ok res'
    /\ grown res res' /\ all_written res' p (p + 2 * ((den + 4) / 8)).
Proof.
  intros Hden Hden4 Hp Hlen. unfold twiddle.calc_first_octant. cbv zeta.
  rewrite wrap_small by lia. rewrite shiftr3.
  set (n := (den + 4) / 8) in *.
  assert (Hn0 : 0 <= n) by (apply Z.div_pos; lia).
  destruct (Z.eqb_spec n 0) as [En|En].
  { exists res. split; [reflexivity|]. split; [apply grown_refl|]. intros i Hi. lia. }
  table_step. table_step.
  destruct (Z.eqb_spec n 1) as [En1|En1].
  { eexists. split; [reflexivity|]. split; [grown_tac|]. intros i Hi.
    assert (i = p + 0 \/ i = p + 1) as [->| ->] by lia; written_tac. }
  unfold helpers.isqrt. set (l1 := Z.sqrt n).
  assert (Hl1 : 1 <= l1 /\ l1 * l1 <= n).
  { split.
    - change 1 with (Z.sqrt 1). apply Z.sqrt_le_mono. lia.
    - pose proof (Z.sqrt_spec n Hn0) as Hs. cbv zeta in Hs. subst l1. exact (proj1 Hs). }
  assert (Hl1n : l1 <= n) by nia.
  (* the first roots *)
  match goal with
  | |- exists b, bind (while_ ?f ?c ?bd ?s0) _ = _ /\ _ =>
      destruct (while_total
                  (fun st : Z * twiddle.cells =>
                     1 <= fst st <= l1 /\ grown res (snd st)
                     /\ all_written (snd st) p (p + 2 * fst st))
                  (fun st => Z.to_nat (l1 - fst st)) c bd) with (fuel := f) (s := s0)
        as ([iA resA] & -> & (HiA & EA & FA) & HcA)
  end.
  { intros [i r] (Hi & HE & HF) Hc. cbn [fst snd] in *.
    destruct (Z.ltb_spec i l1); [|discriminate].
    table_step. table_step. eexists. split; [reflexivity|]. cbn [fst snd].
    split; [|lia]. split; [lia|]. split; [grown_tac|].
    intros k Hk. destruct (Z_lt_dec k (p + 2 * i)); [written_tac|].
    assert (k = p + 2 * i \/ k = p + 2 * i + 1) as [->| ->] by lia; written_tac. }
  { cbn [fst snd]. split; [lia|]. split; [grown_tac|].
    intros k Hk. assert (k = p + 0 \/ k = p + 1) as [->| ->] by lia; written_tac. }
  { cbn [fst]. lia. }
  cbn [fst snd] in *. destruct (Z.ltb_spec iA l1); [discriminate|].
  assert (iA = l1) by lia. subst iA. clear HcA.
  cbn [bind].
  (* the blocks *)
  match goal with
  | |- exists b, bind (while_ ?f ?c ?bd ?s0) _ = _ /\ _ =>
      destruct (while_total
                  (fun st : Z * twiddle.cells =>
                     l1 <= fst st /\ grown res (snd st)
                     /\ all_written (snd st) p (p + 2 * Z.min (fst st) n))
                  (fun st => Z.to_nat (n + l1 - fst st)) c bd) with (fuel := f) (s := s0)
        as ([sB resB] & -> & (HsB & EB & FB) & HcB)
  end.
  { intros [start r] (Hs & HE & HF) Hc. cbn [fst snd] in *.
    destruct (Z.ltb_spec start n); [|discriminate].
    rewrite Z.min_l in HF by lia.
    table_step. table_step.
    set (end_ := if n <? start + l1 then n - start else l1).
    assert (Hend : 1 <= end_ <= l1 /\ start + end_ = Z.min (start + l1) n).
    { subst end_. destruct (Z.ltb_spec n (start + l1)); lia. }
    match goal with
    | |- exists b, bind (while_ ?f ?c ?bd ?s0) _ = _ /\ _ =>
        destruct (while_total
                    (fun st : Z * twiddle.cells =>
                       1 <= fst st <= end_ /\ grown r (snd st)
                       /\ all_written (snd st) p (p + 2 * (start + fst st)))
                    (fun st => Z.to_nat (end_ - fst st)) c bd) with (fuel := f) (s := s0)
          as ([iC resC] & -> & (HiC & EC & FC) & HcC)
    end.
    { intros [i r2] (Hi & HE2 & HF2) Hc2. cbn [fst snd] in *.
      destruct (Z.ltb_spec i end_); [|discriminate].
      table_step. table_step. table_step. table_step. eexists. split; [reflexivity|]. cbn [fst snd].
      split; [|lia]. split; [lia|]. split; [grown_tac|].
      intros k Hk. destruct (Z_lt_dec k (p + 2 * (start + i))); [written_tac|].
      assert (k = p + 2 * (start + i) \/ k = p + (2 * (start + i) + 1)) as [->| ->] by lia;
        written_tac. }
    { cbn [fst snd]. split; [lia|]. split; [grown_tac|].
      intros k Hk. destruct (Z_lt_dec k (p + 2 * start)); [written_tac|].
      assert (k = p + 2 * start \/ k = p + (2 * start + 1)) as [->| ->] by lia; written_tac. }
    { cbn [fst]. lia. }
    cbn [fst snd] in *. destruct (Z.ltb_spec iC end_); [discriminate|].
    assert (iC = end_) by lia. subst iC.
    cbn [bind]. eexists. split; [reflexivity|]. cbn [fst snd].
    split; [|lia]. split; [lia|]. split; [grown_tac|].
    intros k Hk. apply FC. lia. }
  { cbn [fst snd]. split; [lia|]. split; [grown_tac|]. rewrite Z.min_l by lia. exact FA. }
  { cbn [fst]. lia. }
  cbn [fst snd] in *. destruct (Z.ltb_spec sB n); [discriminate|].
  rewrite Z.min_r in FB by lia. cbn [bind].
  (* the cosines *)
  match goal with
  | |- exists b, bind (while_ ?f ?c ?bd ?s0) _ = _ /\ _ =>
      destruct (while_total
                  (fun st : Z * twiddle.cells =>
                     1 <= fst st <= l1 /\ grown res (snd st)
                     /\ all_written (snd st) p (p + 2 * n))
                  (fun st => Z.to_nat (l1 - fst st)) c bd) with (fuel := f) (s := s0)
        as ([iD resD] & -> & (HiD & ED & FD) & HcD)
  end.
  { intros [i r] (Hi & HE & HF) Hc. cbn [fst snd] in *.
    destruct (Z.ltb_spec i l1); [|discriminate].
    table_step. table_step. eexists. split; [reflexivity|]. cbn [fst snd].
    split; [|lia]. split; [lia|]. split; [grown_tac|].
    intros k Hk. written_tac. }
  { cbn [fst snd]. split; [lia|]. split; [exact EB | exact FB]. }
  { cbn [fst]. lia. }
  cbn [bind fst snd] in *. eexists. split; [reflexivity|]. split; assumption.
Qed.

End octant.

Section fills.
Local Open Scope Z_scope.

Lemma land7_mod8 (n : Z) : Z.land n 7 = n mod 8.
Proof. exact (Z.land_ones n 3 ltac:(lia)). Qed.

Lemma shiftl1 (n : Z) : Z.shiftl n 1 = 2 * n.
Proof. rewrite Z.shiftl_mul_pow2 by lia. lia. Qed.

Lemma shiftl2 (n : Z) : Z.shiftl n 2 = 4 * n.
Proof. rewrite Z.shiftl_mul_pow2 by lia. lia. Qed.

Lemma fill_first_quadrant_ok (n : Z) (res : twiddle.cells) :
  n mod 4 = 0 -> 4 <= n < 2 ^ 62 -> 2 * n <= Z.of_nat (List.length res) ->
  all_written res 0 (2 * ((n + 4) / 8)) ->
  exists res',
    twiddle.fill_first_quadrant n res = Ok res' /\ grown res res' /\ all_written res' 0 (n / 2).
Proof.
  intros Hmod Hn Hlen F. unfold twiddle.fill_first_quadrant. cbv zeta.
  rewrite shiftr2_div4, land7_mod8.
  set (q := n / 4). assert (Hq : n = 4 * q) by (subst q; zlia).
  assert (Hq1 : 1 <= q) by lia.
  replace (n / 2) with (2 * q) by zlia.
  set (base := if n mod 8 =? 0 then q + 2 else q + 1).
  assert (Hbase : (n mod 8 = 0 /\ q mod 2 = 0 /\ base = q + 2)
                   \/ (n mod 8 <> 0 /\ q mod 2 = 1 /\ base = q + 1)).
  { subst base. destruct (Z.eqb_spec (n mod 8) 0); [left | right]; zlia. }
  assert (Hstart : exists res1,
             (if n mod 8 =? 0
              then res0 <- twiddle.put res (q + 1) twiddle.hsqt2 ;;
                   twiddle.put res0 q twiddle.hsqt2
              else Ok res) = Ok res1
             /\ grown res res1 /\ all_written res1 0 base).
  { destruct Hbase as [(E8 & Hpar & ->)|(E8 & Hpar & ->)].
    - rewrite E8. cbn [Z.eqb]. table_step. table_step. split; [grown_tac|].
      intros k Hk. destruct (Z_lt_dec k q).
      + assert (written res k) by (apply F; zlia). written_tac.
      + assert (k = q \/ k = q + 1) as [->| ->] by lia; written_tac.
    - destruct (Z.eqb_spec (n mod 8) 0); [contradiction|].
      exists res. split; [reflexivity|]. split; [apply grown_refl|].
      intros k Hk. apply F. zlia. }
  destruct Hstart as (res1 & -> & E1 & F1). cbn [bind].
  rewrite wrap_small by lia.
  match goal with
  | |- exists b, bind (while_ ?f ?c ?bd ?s0) _ = _ /\ _ =>
      destruct (while_total
                  (fun st : Z * Z * twiddle.cells =>
                     let '(i, j, r) := st in
                     2 <= i <= q + 1 /\ i mod 2 = 0 /\ j = 2 * q - i /\ grown res r
                     /\ all_written r 0 base /\ all_written r (j + 2) (2 * q))
                  (fun st => Z.to_nat (q + 2 - fst (fst st))) c bd) with (fuel := f) (s := s0)
        as ([[i j] r] & -> & (Hi & Hpar & Hj & E & FB & FJ) & Hc)
  end.
  { intros [[i j] r] (Hi & Hpar & Hj & HE & FB & FJ) Hc. cbn [fst snd] in *.
    destruct (Z.ltb_spec i q); [|discriminate]. subst j.
    assert (Hb : q + 1 <= base) by (destruct Hbase as [(_ & _ & ->)|(_ & _ & ->)]; lia).
    table_step. table_step. table_step. table_step. eexists. split; [reflexivity|]. cbn [fst snd].
    rewrite wrap_small by lia.
    split; [|lia]. split; [zlia|]. split; [zlia|]. split; [lia|]. split; [grown_tac|].
    split.
    - intros k Hk. assert (written r k) by (apply FB; lia). written_tac.
    - intros k Hk. destruct (Z_lt_dec k (2 * q - i + 2)).
      + assert (k = 2 * q - i \/ k = 2 * q - i + 1) as [->| ->] by lia; written_tac.
      + assert (written r k) by (apply FJ; lia). written_tac. }
  { cbn [fst snd]. split; [lia|]. split; [reflexivity|]. split; [lia|]. split; [exact E1|].
    split; [exact F1|]. intros k Hk. lia. }
  { cbn [fst]. lia. }
  cbn [fst snd bind] in *. destruct (Z.ltb_spec i q); [discriminate|].
  eexists. split; [reflexivity|]. split; [exact E|].
  intros k Hk. subst j.
  destruct Hbase as [(_ & Hq2 & Eb)|(_ & Hq2 & Eb)]; rewrite Eb in FB.
  - assert (i = q) by zlia. subst i.
    destruct (Z_lt_dec k (q + 2)); [apply FB; lia | apply FJ; lia].
  - assert (i = q + 1) by zlia. subst i.
    destruct (Z_lt_dec k (q + 1)); [apply FB; lia | apply FJ; lia].
Qed.

Lemma fill_first_half_ok (n : Z) (res : twiddle.cells) :
  n mod 2 = 0 -> 2 <= n < 2 ^ 62 -> 2 * n <= Z.of_nat (List.length res) ->
  all_written res 0 (n / 2 + n mod 4 / 2) ->
  exists res',
    twiddle.fill_first_half n res = Ok res' /\ grown res res' /\ all_written res' 0 n.
Proof.
  intros Hmod Hn Hlen F. unfold twiddle.fill_first_half. cbv zeta.
  rewrite shiftr1_div2, land3_mod4.
  set (half := n / 2). assert (Hh : n = 2 * half) by (subst half; zlia).
  destruct (Z.eqb_spec (n mod 4) 0) as [E4|E4].
  - assert (Hh2 : half mod 2 = 0) by zlia.
    assert (F0 : all_written res 0 half).
    { intros k Hk. apply F. fold half. zlia. }
    match goal with
    | |- exists b, bind (while_ ?f ?c ?bd ?s0) _ = _ /\ _ =>
        destruct (while_total
                    (fun st : Z * twiddle.cells =>
                       0 <= fst st <= half /\ fst st mod 2 = 0 /\ grown res (snd st)
                       /\ all_written (snd st) 0 (half + fst st))
                    (fun st => Z.to_nat (half - fst st)) c bd) with (fuel := f) (s := s0)
          as ([i r] & -> & (Hi & Hpar & E & FF) & Hc)
    end.
    { intros [i r] (Hi & Hpar & HE & HF) Hc. cbn [fst snd] in *.
      destruct (Z.ltb_spec i half); [|discriminate].
      table_step. table_step. table_step. table_step. eexists. split; [reflexivity|]. cbn [fst snd].
      split; [|lia]. split; [zlia|]. split; [zlia|]. split; [grown_tac|].
      intros k Hk. destruct (Z_lt_dec k (half + i)).
      - assert (written r k) by (apply HF; lia). written_tac.
      - assert (k = i + half \/ k = i + half + 1) as [->| ->] by lia; written_tac. }
    { cbn [fst snd]. split; [lia|]. split; [reflexivity|]. split; [apply grown_refl|].
      intros k Hk. apply F0. lia. }
    { cbn [fst]. lia. }
    cbn [fst snd bind] in *. destruct (Z.ltb_spec i half); [discriminate|].
    eexists. split; [reflexivity|]. split; [exact E|].
    intros k Hk. apply FF. lia.
  - assert (Hh2 : half mod 2 = 1) by zlia.
    assert (F0 : all_written res 0 (half + 1)).
    { intros k Hk. apply F. fold half. zlia. }
    rewrite wrap_small by lia.
    match goal with
    | |- exists b, bind (while_ ?f ?c ?bd ?s0) _ = _ /\ _ =>
        destruct (while_total
                    (fun st : Z * Z * twiddle.cells =>
                       let '(i, j, r) := st in
                       2 <= i <= half + 1 /\ i mod 2 = 0 /\ j = 2 * half - i /\ grown res r
                       /\ all_written r 0 (half + 1) /\ all_written r (j + 2) (2 * half))
                    (fun st => Z.to_nat (half + 2 - fst (fst st))) c bd)
          with (fuel := f) (s := s0)
          as ([[i j] r] & -> & (Hi & Hpar & Hj & E & FB & FJ) & Hc)
    end.
    { intros [[i j] r] (Hi & Hpar & Hj & HE & FB & FJ) Hc. cbn [fst snd] in *.
      destruct (Z.ltb_spec i half); [|discriminate]. subst j.
      table_step. table_step. table_step. table_step. eexists. split; [reflexivity|]. cbn [fst snd].
      rewrite wrap_small by lia.
      split; [|lia]. split; [zlia|]. split; [zlia|]. split; [lia|]. split; [grown_tac|].
      split.
      - intros k Hk. assert (written r k) by (apply FB; lia). written_tac.
      - intros k Hk. destruct (Z_lt_dec k (2 * half - i + 2)).
        + assert (k = 2 * half - i \/ k = 2 * half - i + 1) as [->| ->] by lia; written_tac.
        + assert (written r k) by (apply FJ; lia). written_tac. }
    { cbn [fst snd]. split; [zlia|]. split; [reflexivity|]. split; [lia|].
      split; [apply grown_refl|]. split; [exact F0|]. intros k Hk. lia. }
    { cbn [fst]. lia. }
    cbn [fst snd bind] in *. destruct (Z.ltb_spec i half); [discriminate|].
    eexists. split; [reflexivity|]. split; [exact E|].
    intros k Hk. subst j. assert (i = half + 1) by zlia. subst i.
    destruct (Z_lt_dec k (half + 1)); [apply FB; lia | apply FJ; lia].
Qed.

Lemma fill_second_half_ok (n : Z) (res : twiddle.cells) :
  1 <= n < 2 ^ 62 -> 2 * n <= Z.of_nat (List.length res) ->
  all_written res 0 (n + n mod 2) ->
  exists res',
    twiddle.fill_second_half n res = Ok res' /\ grown res res' /\ all_written res' 0 (2 * n).
Proof.
  intros Hn Hlen F. unfold twiddle.fill_second_half. rewrite land1_mod2.
  destruct (Z.eqb_spec (n mod 2) 0) as [E2|E2].
  - match goal with
    | |- exists b, bind (while_ ?f ?c ?bd ?s0) _ = _ /\ _ =>
        destruct (while_total
                    (fun st : Z * twiddle.cells =>
                       0 <= fst st <= n /\ grown res (snd st) /\ all_written (snd st) 0 (n + fst st))
                    (fun st => Z.to_nat (n - fst st)) c bd) with (fuel := f) (s := s0)
          as ([i r] & -> & (Hi & E & FF) & Hc)
    end.
    { intros [i r] (Hi & HE & HF) Hc. cbn [fst snd] in *.
      destruct (Z.ltb_spec i n); [|discriminate].
      table_step. table_step. eexists. split; [reflexivity|]. cbn [fst snd].
      split; [|lia]. split; [lia|]. split; [grown_tac|].
      intros k Hk. destruct (Z_lt_dec k (n + i)).
      - assert (written r k) by (apply HF; lia). written_tac.
      - assert (k = i + n) as -> by lia. written_tac. }
    { cbn [fst snd]. split; [lia|]. split; [apply grown_refl|].
      intros k Hk. apply F. lia. }
    { cbn [fst]. lia. }
    cbn [fst snd bind] in *. destruct (Z.ltb_spec i n); [discriminate|].
    eexists. split; [reflexivity|]. split; [exact E|].
    intros k Hk. apply FF. lia.
  - assert (Hodd : n mod 2 = 1) by zlia.
    assert (F0 : all_written res 0 (n + 1)).
    { intros k Hk. apply F. lia. }
    rewrite wrap_small by lia.
    match goal with
    | |- exists b, bind (while_ ?f ?c ?bd ?s0) _ = _ /\ _ =>
        destruct (while_total
                    (fun st : Z * Z * twiddle.cells =>
                       let '(i, j, r) := st in
                       2 <= i <= n + 1 /\ i mod 2 = 0 /\ j = 2 * n - i /\ grown res r
                       /\ all_written r 0 (n + 1) /\ all_written r (j + 2) (2 * n))
                    (fun st => Z.to_nat (n + 2 - fst (fst st))) c bd)
          with (fuel := f) (s := s0)
          as ([[i j] r] & -> & (Hi & Hpar & Hj & E & FB & FJ) & Hc)
    end.
    { intros [[i j] r] (Hi & Hpar & Hj & HE & FB & FJ) Hc. cbn [fst snd] in *.
      destruct (Z.ltb_spec i n); [|discriminate]. subst j.
      table_step. table_step. table_step. table_step. eexists. split; [reflexivity|]. cbn [fst snd].
      rewrite wrap_small by lia.
      split; [|lia]. split; [zlia|]. split; [zlia|]. split; [lia|]. split; [grown_tac|].
      split.
      - intros k Hk. assert (written r k) by (apply FB; lia). written_tac.
      - intros k Hk. destruct (Z_lt_dec k (2 * n - i + 2)).
        + assert (k = 2 * n - i \/ k = 2 * n - i + 1) as [->| ->] by lia; written_tac.
        + assert (written r k) by (apply FJ; lia). written_tac. }
    { cbn [fst snd]. split; [zlia|]. split; [reflexivity|]. split; [lia|].
      split; [apply grown_refl|]. split; [exact F0|]. intros k Hk. lia. }
    { cbn [fst]. lia. }
    cbn [fst snd bind] in *. destruct (Z.ltb_spec i n); [discriminate|].
    eexists. split; [reflexivity|]. split; [exact E|].
    intros k Hk. subst j. assert (i = n + 1) by zlia. subst i.
    destruct (Z_lt_dec k (n + 1)); [apply FB; lia | apply FJ; lia].
Qed.

End fills.

Section quadrant_and_half.
Variable my : float -> float * float.
Local Open Scope Z_scope.

Lemma to_int_id (x : Z) : 0 <= x < 2 ^ 31 -> general.to_int x = x.
Proof.
  intros H. unfold general.to_int. cbv zeta. rewrite (Z.mod_small x) by lia.
  destruct (Z.ltb_spec x (2 ^ 31)); [reflexivity | lia].
Qed.

Lemma calc_first_quadrant_ok (n : Z) (res : twiddle.cells) :
  n mod 4 = 2 -> 2 <= n < 2 ^ 61 -> 2 * n <= Z.of_nat (List.length res) ->
  exists res',
    twiddle.calc_first_quadrant my n res = Ok res'
    /\ grown res res' /\ all_written res' 0 (n / 2 + 1).
Proof.
  intros Hmod Hn Hlen. unfold twiddle.calc_first_quadrant. cbv zeta.
  rewrite shiftl1, (wrap_small (2 * n)), (wrap_small (n + 2)), shiftr2_div4 by lia.
  set (ndone := (n + 2) / 4).
  assert (Hnd : n = 4 * ndone - 2) by (subst ndone; zlia).
  assert (Hnd1 : 1 <= ndone) by lia.
  replace (n / 2 + 1) with (2 * ndone) by zlia.
  destruct (calc_first_octant_ok my (2 * n) res n) as (res1 & -> & E1 & F1); try lia.
  { zlia. }
  replace ((2 * n + 4) / 8) with ndone in F1 by zlia.
  cbn [bind]. rewrite (wrap_small (2 * ndone - 2)) by lia.
  match goal with
  | |- exists b, bind (while_ ?f ?c ?bd ?s0) _ = _ /\ _ =>
      destruct (while_total
                  (fun st : Z * Z * Z * twiddle.cells =>
                     let '(i, idx1, idx2, r) := st in
                     0 <= i <= ndone /\ i mod 2 = 0 /\ idx1 = i /\ idx2 = 2 * ndone - 2 - i
                     /\ grown res r /\ all_written r n (n + 2 * ndone)
                     /\ all_written r 0 i /\ all_written r (2 * ndone - i) (2 * ndone))
                  (fun st => Z.to_nat (ndone - fst (fst (fst st)))) c bd)
        with (fuel := f) (s := s0)
        as ([[[i idx1] idx2] r] & -> & (Hi & Hpar & H1 & H2 & E & FP & FL & FH) & Hc)
  end.
  { intros [[[i idx1] idx2] r] (Hi & Hpar & H1 & H2 & HE & FP & FL & FH) Hc.
    cbn [fst snd] in *. rewrite wrap_small in Hc by lia.
    destruct (Z.ltb_spec (i + 1) ndone); [|discriminate]. subst idx1 idx2.
    table_step. table_step. table_step. table_step. table_step. table_step. table_step. table_step.
    eexists. split; [reflexivity|]. cbn [fst snd].
    rewrite wrap_small by lia.
    split; [|zlia]. split; [zlia|]. split; [zlia|]. split; [lia|]. split; [lia|].
    split; [grown_tac|]. split; [|split].
    - intros k Hk. assert (written r k) by (apply FP; lia). written_tac.
    - intros k Hk. destruct (Z_lt_dec k i).
      + assert (written r k) by (apply FL; lia). written_tac.
      + assert (k = i \/ k = i + 1) as [->| ->] by lia; written_tac.
    - intros k Hk. destruct (Z_lt_dec k (2 * ndone - i)).
      + assert (k = 2 * ndone - 2 - i \/ k = 2 * ndone - 2 - i + 1) as [->| ->] by lia;
          written_tac.
      + assert (written r k) by (apply FH; lia). written_tac. }
  { cbn [fst snd]. split; [lia|]. split; [reflexivity|]. split; [reflexivity|].
    split; [lia|]. split; [exact E1|]. split; [exact F1|].
    split; intros k Hk; lia. }
  { cbn [fst]. zlia. }
  cbn [fst snd bind] in *. rewrite wrap_small in Hc by lia.
  destruct (Z.ltb_spec (i + 1) ndone); [discriminate|]. subst idx1 idx2.
  destruct (Z.eqb_spec i ndone) as [Ei|Ei]; cbn [negb].
  - subst i. exists r. split; [reflexivity|]. split; [exact E|].
    intros k Hk. destruct (Z_lt_dec k ndone); [apply FL; lia | apply FH; lia].
  - assert (Hi1 : i = ndone - 1) by lia.
    table_step. table_step. table_step. table_step. split; [grown_tac|].
    intros k Hk. destruct (Z_lt_dec k i).
    + assert (written r k) by (apply FL; lia). written_tac.
    + destruct (Z_lt_dec k (i + 2)).
      * assert (k = i \/ k = i + 1) as [->| ->] by lia; written_tac.
      * assert (written r k) by (apply FH; lia). written_tac.
Qed.

Lemma calc_first_half_ok (n : Z) (res : twiddle.cells) :
  n mod 2 = 1 -> 1 <= n < 2 ^ 28 -> 2 * n <= Z.of_nat (List.length res) ->
  exists res',
    twiddle.calc_first_half my n res = Ok res'
    /\ grown res res' /\ all_written res' 0 (n + 1).
Proof.
  intros Hmod Hn Hlen. unfold twiddle.calc_first_half. cbv zeta.
  rewrite shiftl2, (wrap_small (4 * n)), (wrap_small (n + 1)), shiftr1_div2 by lia.
  rewrite (to_int_id n), (to_int_id ((n + 1) / 2)) by zlia.
  set (ndone := (n + 1) / 2).
  assert (Hnd : n = 2 * ndone - 1) by (subst ndone; zlia).
  destruct (calc_first_octant_ok my (4 * n) res (n - 1)) as (res1 & -> & E1 & F1); try lia.
  { zlia. }
  replace (n - 1 + 2 * ((4 * n + 4) / 8)) with (2 * n) in F1 by zlia.
  cbn [bind].
  (* octant 0 *)
  match goal with
  | |- exists b, bind (while_ ?f ?c ?bd ?s0) _ = _ /\ _ =>
      destruct (while_total
                  (fun st : Z * Z * twiddle.cells =>
                     let '(i4, i, r) := st in
                     0 <= i /\ i4 = 4 * i /\ 2 * i4 <= n + 8 /\ grown res r
                     /\ all_written r (n - 1) (2 * n) /\ all_written r 0 (2 * i))
                  (fun st => Z.to_nat ((n + 8 - 2 * fst (fst st)) / 8)) c bd)
        with (fuel := f) (s := s0)
        as ([[i4 i] r] & -> & (Hi & H4 & Hb & E & FP & FL) & Hc)
  end.
  { intros [[i4 i] r] (Hi & H4 & Hb & HE & FP & FL) Hc. cbn [fst snd] in *.
    destruct (Z.leb_spec i4 (n - i4)); [|discriminate]. subst i4.
    table_step. table_step. table_step. table_step. eexists. split; [reflexivity|]. cbn [fst snd].
    split; [|zlia]. split; [lia|]. split; [lia|]. split; [lia|]. split; [grown_tac|]. split.
    - intros k Hk. assert (written r k) by (apply FP; lia). written_tac.
    - intros k Hk. destruct (Z_lt_dec k (2 * i)).
      + assert (written r k) by (apply FL; lia). written_tac.
      + assert (k = 2 * i \/ k = 2 * i + 1) as [->| ->] by lia; written_tac. }
  { cbn [fst snd]. split; [lia|]. split; [lia|]. split; [lia|]. split; [exact E1|].
    split; [exact F1|]. intros k Hk. lia. }
  { cbn [fst]. zlia. }
  cbn [fst snd bind] in *. destruct (Z.leb_spec i4 (n - i4)); [discriminate|]. clear Hc.
  (* octant 1 *)
  match goal with
  | |- exists b, bind (while_ ?f ?c ?bd ?s0) _ = _ /\ _ =>
      destruct (while_total
                  (fun st : Z * Z * twiddle.cells =>
                     let '(i4, i, r) := st in
                     0 <= i /\ i4 = 4 * i /\ n < 2 * i4 /\ i4 <= n + 4 /\ grown res r
                     /\ all_written r (n - 1) (2 * n) /\ all_written r 0 (2 * i))
                  (fun st => Z.to_nat ((n + 4 - fst (fst st)) / 4)) c bd)
        with (fuel := f) (s := s0)
        as ([[i4' i'] r'] & -> & (Hi' & H4' & Hlo' & Hb' & E' & FP' & FL') & Hc')
  end.
  { intros [[j4 j] r0] (Hj & Hj4 & Hlo & Hhi & HE & HFP & HFL) Hc. cbn [fst snd] in *.
    destruct (Z.leb_spec (j4 - n) 0); [|discriminate]. subst j4.
    table_step. table_step. table_step. table_step. eexists. split; [reflexivity|]. cbn [fst snd].
    split; [|zlia]. split; [lia|]. split; [lia|]. split; [lia|]. split; [lia|].
    split; [grown_tac|]. split.
    - intros k Hk. assert (written r0 k) by (apply HFP; lia). written_tac.
    - intros k Hk. destruct (Z_lt_dec k (2 * j)).
      + assert (written r0 k) by (apply HFL; lia). written_tac.
      + assert (k = 2 * j \/ k = 2 * j + 1) as [->| ->] by lia; written_tac. }
  { cbn [fst snd]. split; [lia|]. split; [lia|]. split; [lia|]. split; [lia|].
    split; [exact E|]. split; [exact FP | exact FL]. }
  { cbn [fst]. zlia. }
  cbn [fst snd bind] in *. destruct (Z.leb_spec (i4' - n) 0); [discriminate|]. clear Hc'.
  (* octant 2 *)
  match goal with
  | |- exists b, bind (while_ ?f ?c ?bd ?s0) _ = _ /\ _ =>
      destruct (while_total
                  (fun st : Z * Z * twiddle.cells =>
                     let '(i4, i, r) := st in
                     0 <= i /\ i4 = 4 * i /\ n < i4 /\ 2 * i4 <= 3 * n + 8 /\ grown res r
                     /\ all_written r (n - 1) (2 * n) /\ all_written r 0 (2 * i))
                  (fun st => Z.to_nat ((3 * n + 8 - 2 * fst (fst st)) / 8)) c bd)
        with (fuel := f) (s := s0)
        as ([[i4'' i''] r''] & -> & (Hi'' & H4'' & Hlo'' & Hb'' & E'' & FP'' & FL'') & Hc'')
  end.
  { intros [[j4 j] r0] (Hj & Hj4 & Hlo & Hhi & HE & HFP & HFL) Hc. cbn [fst snd] in *.
    destruct (Z.leb_spec j4 (3 * n - j4)); [|discriminate]. subst j4.
    table_step. table_step. table_step. table_step. eexists. split; [reflexivity|]. cbn [fst snd].
    split; [|zlia]. split; [lia|]. split; [lia|]. split; [lia|]. split; [lia|].
    split; [grown_tac|]. split.
    - intros k Hk. assert (written r0 k) by (apply HFP; lia). written_tac.
    - intros k Hk. destruct (Z_lt_dec k (2 * j)).
      + assert (written r0 k) by (apply HFL; lia). written_tac.
      + assert (k = 2 * j \/ k = 2 * j + 1) as [->| ->] by lia; written_tac. }
  { cbn [fst snd]. split; [lia|]. split; [lia|]. split; [lia|]. split; [lia|].
    split; [exact E'|]. split; [exact FP' | exact FL']. }
  { cbn [fst]. zlia. }
  cbn [fst snd bind] in *. destruct (Z.leb_spec i4'' (3 * n - i4'')); [discriminate|].
  clear Hc''.
  (* octant 3 *)
  match goal with
  | |- exists b, bind (while_ ?f ?c ?bd ?s0) _ = _ /\ _ =>
      destruct (while_total
                  (fun st : Z * Z * twiddle.cells =>
                     let '(i4, i, r) := st in
                     0 <= i /\ i4 = 4 * i /\ 3 * n < 2 * i4 /\ grown res r
                     /\ all_written r (n - 1) (2 * n) /\ all_written r 0 (2 * i))
                  (fun st => Z.to_nat (ndone - snd (fst st))) c bd)
        with (fuel := f) (s := s0)
        as ([[i4f i_f] rf] & -> & (Hif & H4f & Hlof & Ef & FPf & FLf) & Hcf)
  end.
  { intros [[j4 j] r0] (Hj & Hj4 & Hlo & HE & HFP & HFL) Hc. cbn [fst snd] in *.
    destruct (Z.ltb_spec j ndone); [|discriminate]. subst j4.
    table_step. table_step. table_step. table_step. eexists. split; [reflexivity|]. cbn [fst snd].
    split; [|zlia]. split; [lia|]. split; [lia|]. split; [lia|].
    split; [grown_tac|]. split.
    - intros k Hk. assert (written r0 k) by (apply HFP; lia). written_tac.
    - intros k Hk. destruct (Z_lt_dec k (2 * j)).
      + assert (written r0 k) by (apply HFL; lia). written_tac.
      + assert (k = 2 * j \/ k = 2 * j + 1) as [->| ->] by lia; written_tac. }
  { cbn [fst snd]. split; [lia|]. split; [lia|]. split; [lia|].
    split; [exact E''|]. split; [exact FP'' | exact FL'']. }
  { cbn [fst snd]. zlia. }
  cbn [fst snd bind] in *. destruct (Z.ltb_spec i_f ndone); [discriminate|].
  eexists. split; [reflexivity|]. split; [exact Ef|].
  intros k Hk. apply FLf. lia.
Qed.

End quadrant_and_half.

Section table.
Variable my : float -> float * float.
Local Open Scope Z_scope.

Lemma sincos_2pibyn_half_ok (n : Z) (res : twiddle.cells) :
  1 <= n < 2 ^ 28 -> 2 * n <= Z.of_nat (List.length res) ->
  exists res',
    twiddle.sincos_2pibyn_half my n res = Ok res'
    /\ grown res res' /\ all_written res' 0 (n + n mod 2).
Proof.
  intros Hn Hlen. unfold twiddle.sincos_2pibyn_half. rewrite land3_mod4, land1_mod2.
  destruct (Z.eqb_spec (n mod 4) 0) as [E4|E4].
  - destruct (calc_first_octant_ok my n res 0) as (r1 & -> & E1 & F1); try lia; [zlia|].
    cbn [bind]. rewrite Z.add_0_l in F1.
    destruct (fill_first_quadrant_ok n r1 E4) as (r2 & -> & E2 & F2);
      [zlia | len_tac | exact F1 |].
    cbn [bind].
    destruct (fill_first_half_ok n r2) as (r3 & -> & E3 & F3); [zlia | zlia | len_tac | |].
    { intros k Hk. apply F2. zlia. }
    exists r3. split; [reflexivity|]. split; [grown_tac|].
    intros k Hk. apply F3. zlia.
  - destruct (Z.eqb_spec (n mod 2) 0) as [E2|E2].
    + destruct (calc_first_quadrant_ok my n res) as (r1 & -> & E1 & F1); [zlia | zlia | lia |].
      cbn [bind].
      destruct (fill_first_half_ok n r1) as (r2 & -> & E3 & F3); [zlia | zlia | len_tac | |].
      { intros k Hk. apply F1. zlia. }
      exists r2. split; [reflexivity|]. split; [grown_tac|].
      intros k Hk. apply F3. zlia.
    + destruct (calc_first_half_ok my n res) as (r1 & Hr1 & E1 & F1); [zlia | lia | lia |].
      exists r1. split; [exact Hr1|]. split; [exact E1|].
      intros k Hk. apply F1. zlia.
Qed.

(** X26 -- The constructor [sincos_2pibyn(n, half)] for [1 <= n < 2^28],
    whatever [my_sincosm1pi] computes: it returns; no read or write falls
    outside the [2*n] doubles of [data], in none of the three ways the table
    is built (from an octant at the start, or from an octant computed at
    [res+n] or [res+n-1] and moved down in place); no cell is read before
    it has been written; and at the end every cell of [data] has been
    written, the first [n] of them when only the half table was asked
    for. *)
Theorem sincos_2pibyn_table_filled (n : Z) (half : bool) :
  1 <= n < 2 ^ 28 ->
  exists data,
    twiddle.sincos_2pibyn my n half = Ok data
    /\ List.length data = Z.to_nat (2 * n)
    /\ forall i, 0 <= i < (if half then n else 2 * n) ->
         exists v, nth (Z.to_nat i) data None = Some v.
Proof.
  intros Hn. unfold twiddle.sincos_2pibyn. cbv zeta. rewrite wrap_small by lia.
  set (data0 := repeat None (Z.to_nat (2 * n))).
  assert (Hlen0 : List.length data0 = Z.to_nat (2 * n)) by apply repeat_length.
  destruct (sincos_2pibyn_half_ok n data0 Hn) as (d1 & -> & E1 & F1); [lia|].
  cbn [bind].
  assert (Hval : forall d i, written d i -> exists v, nth (Z.to_nat i) d None = Some v).
  { intros d i [_ Hv]. destruct (nth (Z.to_nat i) d None) as [v|]; [eauto | congruence]. }
  destruct half; cbn [negb].
  - exists d1. split; [reflexivity|]. split; [rewrite (proj1 E1); exact Hlen0|].
    intros i Hi. apply Hval, F1. zlia.
  - destruct (fill_second_half_ok n d1) as (d2 & -> & E2 & F2); [lia | len_tac | exact F1 |].
    exists d2. split; [reflexivity|].
    split; [rewrite (proj1 E2), (proj1 E1); exact Hlen0|].
    intros i Hi. apply Hval, F2. lia.
Qed.

End table.

(** ** The theorems at concrete arrays *)

Lemma in_shape_one (d : multi.diminfo) (pos : list Z) :
  in_shape [d] pos -> exists p, pos = [p] /\ (0 <= p < multi.n d)%Z.
Proof.
  intros H. inversion H as [|d0 p l0 l1 Hp Hrest]; subst. inversion Hrest; subst.
  exists p. split; [reflexivity | exact Hp].
Qed.

(* two rows of two cells, row after row: the cells [2*p + j] are distinct *)
Lemma two_rows_apart (p q j j' : Z) :
  (0 <= p < 2)%Z -> (0 <= q < 2)%Z -> (0 <= j < 2)%Z -> (0 <= j' < 2)%Z ->
  (2 * p + j = 2 * q + j')%Z -> [p] = [q] /\ j = j'.
Proof. intros Hp Hq Hj Hj' E. split; [f_equal; lia | lia]. Qed.

Lemma multi_iter_visits_in_order_witness :
  (1 < List.length (multi.multiarr [2; 3; 4]%Z [12; 4; 1]%Z))%nat
  /\ (volume (others (multi.multiarr [2; 3; 4]%Z [12; 4; 1]%Z) 1) < 2 ^ 63)%Z
  /\ exists it0,
       multi.multi_iter_new (multi.multiarr [2; 3; 4]%Z [12; 4; 1]%Z) 1 = Ok it0
       /\ multi.length it0 = 3%Z
       /\ multi.done (Nat.iter 8 multi.advance it0) = true.
Proof.
  split; [cbn; lia|]. split; [vm_compute; reflexivity|].
  destruct (multi_iter_visits_in_order (multi.multiarr [2; 3; 4]%Z [12; 4; 1]%Z) 1)
    as (it0 & H0 & Hl & _ & Hend).
  - cbn; lia.
  - repeat constructor; cbn; lia.
  - vm_compute; reflexivity.
  - exists it0. split; [exact H0|]. split; [exact Hl|]. exact (proj1 Hend).
Defined.

Lemma init_bk_chirp_witness :
  (1 <= 3)%Z /\ (4 * 3 < 2 ^ 64)%Z
  /\ List.length (fftblue.init_bk (T0 := Z) (fun _ _ k => Z.of_nat k) 3) = 6
  /\ nth 4 (fftblue.init_bk (T0 := Z) (fun _ _ k => Z.of_nat k) 3) (lit 0) = 8%Z.
Proof.
  split; [lia|]. split; [lia|].
  destruct (init_bk_chirp (T0 := Z) (fun _ _ k => Z.of_nat k) 3 ltac:(lia) ltac:(lia))
    as (Hl & _ & _ & Hm).
  split; [exact Hl|]. exact (proj1 (Hm 2 ltac:(cbn; lia))).
Defined.

Lemma general_c_transforms_lines_witness :
  exists P : pocketfft_c.plan (T0 := Z),
    pocketfft_c.pocketfft_c (fun _ _ _ => 0%Z) 2 = Ok P
    /\ exists d,
         general.pocketfft_general_c (fun _ _ _ => 0%Z) [2; 2]%Z [2; 1]%Z [2; 1]%Z [1%Z]
           true (Some (fun _ => mk_cmplx 1%Z 0%Z)) (fun _ => mk_cmplx 0%Z 0%Z) 1%Z
         = (d, Ok tt)
         /\ (forall pos,
               in_shape (others (multi.multiarr [2; 2]%Z [2; 1]%Z) 1) pos ->
               exists t,
                 transform_c true P 1%Z
                   (line_of (general.source (Some (fun _ => mk_cmplx 1%Z 0%Z))
                               (fun _ => mk_cmplx 0%Z 0%Z))
                      (multi.multiarr [2; 2]%Z [2; 1]%Z) 1 pos 2) = Ok t
                 /\ forall i, (i < 2)%nat ->
                      d (cell (multi.multiarr [2; 2]%Z [2; 1]%Z) 1 pos (Z.of_nat i))
                      = rdc t i)
         /\ (forall c,
               (forall pos i,
                  in_shape (others (multi.multiarr [2; 2]%Z [2; 1]%Z) 1) pos ->
                  (0 <= i < 2)%Z ->
                  c <> cell (multi.multiarr [2; 2]%Z [2; 1]%Z) 1 pos i) ->
               d c = mk_cmplx 0%Z 0%Z).
Proof.
  eexists. split; [reflexivity|].
  apply (general_c_transforms_lines (fun _ _ _ => 0%Z) [2; 2]%Z [2; 1]%Z [2; 1]%Z 1%nat
           true _ 1%Z (Some (fun _ => mk_cmplx 1%Z 0%Z)) (fun _ => mk_cmplx 0%Z 0%Z)).
  - cbn; lia.
  - cbn; lia.
  - cbn; lia.
  - lia.
  - repeat constructor; lia.
  - vm_compute. reflexivity.
  - cbn; lia.
  - cbn; lia.
  - reflexivity.
  - intros pos i pos' i' Hp Hq Hi Hi' E. cbn in Hi, Hi'.
    inversion Hp as [|d0 p l0 l1 Hp0 Hp1]; subst. inversion Hp1; subst.
    inversion Hq as [|d0' q l0' l1' Hq0 Hq1]; subst. inversion Hq1; subst.
    cbn in Hp0, Hq0. unfold cell in E. cbn in E.
    unfold wrap, size_t_bits in E.
    rewrite !(Z.mod_small (_ * 2 + 0)) in E by lia.
    rewrite !Z.mod_small in E by lia.
    split; [f_equal; lia | lia].
  - discriminate.
Defined.

Lemma general_c_axes_compose_witness :
  Forall (fun a => (Z.to_nat a < List.length [2; 2]%Z)%nat) [0; 1]%Z
  /\ general.pocketfft_general_c (T0 := Z) (fun _ _ _ => 0%Z) [2; 2]%Z [2; 1]%Z [2; 1]%Z
       [0; 1]%Z true (Some (fun _ => mk_cmplx 1%Z 0%Z)) (fun _ => mk_cmplx 0%Z 0%Z) 1%Z
     = match general.pocketfft_general_c (T0 := Z) (fun _ _ _ => 0%Z) [2; 2]%Z [2; 1]%Z
               [2; 1]%Z [0%Z] true (Some (fun _ => mk_cmplx 1%Z 0%Z))
               (fun _ => mk_cmplx 0%Z 0%Z) 1%Z with
       | (d, Ok _) =>
           general.pocketfft_general_c (fun _ _ _ => 0%Z) [2; 2]%Z [2; 1]%Z [2; 1]%Z
             [1%Z] true None d (lit 1)
       | failed => failed
       end.
Proof.
  split; [repeat constructor; cbn; lia|].
  apply (general_c_axes_compose (T0 := Z)). repeat constructor; cbn; lia.
Defined.

Lemma pocketfft_complex_empty_array_witness :
  In 0%Z [0; 3]%Z
  /\ general.pocketfft_complex (T0 := Z) (fun _ _ _ => 0%Z) [0; 3]%Z [3; 1]%Z [3; 1]%Z
       [1; 0]%Z 1 None (fun _ => mk_cmplx 0%Z 0%Z) 1%Z
     = Ok (1%Z, fun _ => mk_cmplx 0%Z 0%Z).
Proof.
  split; [left; reflexivity|].
  apply (pocketfft_complex_empty_array (T0 := Z) (fun _ _ _ => 0%Z) [0; 3]%Z [3; 1]%Z
           [3; 1]%Z [1; 0]%Z 1 None (fun _ => mk_cmplx 0%Z 0%Z) 1%Z).
  - cbn; lia.
  - cbn; lia.
  - cbn; lia.
  - cbn; lia.
  - repeat constructor; cbn; lia.
  - left; reflexivity.
  - intros a [<-|[<-|[]]] Hn.
    + eexists. reflexivity.
    + exfalso. apply Hn. reflexivity.
Defined.




Lemma hartley_transforms_lines_witness :
  exists (P : pocketfft_r.plan (T0 := Z)) d,
    pocketfft_r.pocketfft_r (fun _ _ _ => 0%Z) 2 = Ok P
    /\ general.pocketfft_general_hartley (fun _ _ _ => 0%Z) [2; 2]%Z [2; 1]%Z [2; 1]%Z
         [1%Z] (Some (fun _ => 1%Z)) (fun _ => 0%Z) 1%Z = (d, Ok tt).
Proof.
  assert (HP : exists P : pocketfft_r.plan (T0 := Z),
             pocketfft_r.pocketfft_r (fun _ _ _ => 0%Z) 2 = Ok P)
    by (eexists; reflexivity).
  destruct HP as [P HP]. exists P.
  destruct (hartley_transforms_lines (fun _ _ _ => 0%Z) [2; 2]%Z [2; 1]%Z [2; 1]%Z 1%nat P
              1%Z (fun _ => 1%Z) (fun _ => 0%Z)) as (d & Hd & _).
  - cbn; lia.
  - cbn; lia.
  - cbn; lia.
  - lia.
  - repeat constructor; lia.
  - vm_compute. reflexivity.
  - cbn; lia.
  - cbn; lia.
  - exact HP.
  - intros pos i pos' i' Hp Hq Hi Hi' E.
    destruct (in_shape_one _ _ Hp) as (p & -> & Hp0).
    destruct (in_shape_one _ _ Hq) as (q & -> & Hq0).
    cbn in Hp0, Hq0, Hi, Hi'. unfold cell in E. cbn in E.
    unfold wrap, size_t_bits in E.
    rewrite !(Z.mod_small (_ * 2 + 0)) in E by lia.
    rewrite !Z.mod_small in E by lia.
    apply two_rows_apart; lia.
  - exists d. split; [exact HP | exact Hd].
Defined.

Lemma sincos_2pibyn_table_filled_witness :
  (1 <= 5 < 2 ^ 28)%Z
  /\ exists data,
       twiddle.sincos_2pibyn (fun a => (a, a)) 5 false = Ok data
       /\ List.length data = 10
       /\ forall i, (0 <= i < 10)%Z -> exists v, nth (Z.to_nat i) data None = Some v.
Proof.
  split; [lia|].
  apply (sincos_2pibyn_table_filled (fun a => (a, a)) 5 false). lia.
Defined.
